(** * A shallow embedding of the dynamic AABB tree broad-phase

    Source: [src/collision/b2_dynamic_tree.hpp] and
    [src/collision/b2_dynamic_tree.cpp].

    The node pool is an array of node records addressed by [int] indices,
    [b2_nullNode = -1] being the sentinel.  The pool is a [list]; a read or a
    write outside of it, and a failing [b2Assert], end the computation
    ([None]).  Loops run on fuel taken from the pool size; a loop that runs
    out of fuel yields [None] as well, and the theorems below show that this
    does not happen on the states the public operations produce.

    C++ [int] values are integers of [Z]: node indices, heights and the node
    count stay far below [2^31] for every pool that fits in memory.

    The rectangle type [Rectf], the vector type and the [float] arithmetic
    come from headers that are not part of the sources at hand; they are the
    parameters [FloatOps] and [RectOps] of the development.  Two
    implementations are given at the end: exact rectangles on the integer
    grid, and IEEE binary32 rectangles. *)

From Stdlib Require Import ZArith List Bool Lia Floats.SpecFloat.
From stdpp Require Import gmultiset sets base tactics option list list_numbers.

Set Warnings "-clear-no-such-hyp".

Local Open Scope Z_scope.

(** ** The primitive layer *)

Record Vector (float : Type) : Type := mkVector { vx : float; vy : float }.
Arguments mkVector {float} _ _.
Arguments vx {float} _.
Arguments vy {float} _.

(** The [float] operations the tree uses. *)
Class FloatOps (float : Type) : Type := {
  f_zero : float;                        (* 0.0f *)
  f_one : float;                         (* 1.0f *)
  f_two : float;                         (* 2.0f *)
  f_four : float;                        (* 4.0f *)
  fadd : float → float → float;
  fsub : float → float → float;
  fmul : float → float → float;
  fneg : float → float;
  fabs : float → float;                  (* b2Abs on float *)
  flt : float → float → bool;            (* operator< *)
  feq : float → float → bool;            (* operator== *)
  b2_aabbExtension : float;
  b2_aabbMultiplier : float;
  b2_maxFloat : float
}.

(** The [Rectf] operations the tree uses. *)
Class RectOps (float Rectf : Type) : Type := {
  Rectf_zero : Rectf;                    (* the all-zero bytes of memset *)
  Rectf_point : Vector float → Rectf;    (* Rectf(p, Sizef(0,0)) *)
  grown : Rectf → float → Rectf;
  contains : Rectf → Rectf → bool;
  overlaps : Rectf → Rectf → bool;
  combine : Rectf → Rectf → Rectf;       (* x.combine(a,b): x becomes the union *)
  get_perimeter : Rectf → float;
  get_left : Rectf → float;
  get_right : Rectf → float;
  get_top : Rectf → float;
  get_bottom : Rectf → float;
  set_left : Rectf → float → Rectf;
  set_right : Rectf → float → Rectf;
  set_top : Rectf → float → Rectf;
  set_bottom : Rectf → float → Rectf;
  move : Rectf → Vector float → Rectf
}.

(** What the ray cast uses on top of that. *)
Class RayOps (float Rectf : Type) : Type := {
  Normalize : Vector float → Vector float;   (* r.Normalize() *)
  get_middle : Rectf → Vector float;
  get_extents : Rectf → Vector float
}.

Section Vectors.
  Context {float : Type} {FO : FloatOps float}.

Definition vadd (a b : Vector float) : Vector float :=
    mkVector (fadd (vx a) (vx b)) (fadd (vy a) (vy b)).
Definition vsub (a b : Vector float) : Vector float :=
    mkVector (fsub (vx a) (vx b)) (fsub (vy a) (vy b)).
Definition vscale (s : float) (a : Vector float) : Vector float :=
    mkVector (fmul s (vx a)) (fmul s (vy a)).
Definition vneg (a : Vector float) : Vector float :=
    mkVector (fneg (vx a)) (fneg (vy a)).
Definition LengthSquared (a : Vector float) : float :=
    fadd (fmul (vx a) (vx a)) (fmul (vy a) (vy a)).

  (** Modelled from the spec: [b2Cross(s, a)] of the absent [b2_math.h],
      the spec's [perp]: [(−s·a.y, s·a.x)]. *)
Definition b2Cross (s : float) (a : Vector float) : Vector float :=
    mkVector (fmul (fneg s) (vy a)) (fmul s (vx a)).
  (** Modelled from the spec: [b2Dot] of the absent [b2_math.h]. *)
Definition b2Dot (a b : Vector float) : float :=
    fadd (fmul (vx a) (vx b)) (fmul (vy a) (vy b)).
  (** Modelled from the spec: [b2Abs] on vectors, [(|v.x|, |v.y|)]. *)
Definition b2Abs (a : Vector float) : Vector float :=
    mkVector (fabs (vx a)) (fabs (vy a)).
End Vectors.

(** ** Nodes and the tree object *)

Definition b2_nullNode : Z := -1.

Section Tree.
  Context {float Rectf : Type} {FO : FloatOps float} {RO : RectOps float Rectf}.

  (** [struct b2TreeNode].  [parent] and [next] share their storage; a
      [void*] is an address, [nullptr] being 0. *)
Record b2TreeNode : Type := mkNode {
    aabb : Rectf;
    userData : Z;
    parent : Z;
    child1 : Z;
    child2 : Z;
    height : Z;
    moved : bool
  }.

Definition next (n : b2TreeNode) : Z := parent n.
Definition IsLeaf (n : b2TreeNode) : bool := bool_decide (child1 n = b2_nullNode).

Definition set_aabb (v : Rectf) (n : b2TreeNode) : b2TreeNode :=
    mkNode v (userData n) (parent n) (child1 n) (child2 n) (height n) (moved n).
Definition set_userData (v : Z) (n : b2TreeNode) : b2TreeNode :=
    mkNode (aabb n) v (parent n) (child1 n) (child2 n) (height n) (moved n).
Definition set_parent (v : Z) (n : b2TreeNode) : b2TreeNode :=
    mkNode (aabb n) (userData n) v (child1 n) (child2 n) (height n) (moved n).
Definition set_next : Z → b2TreeNode → b2TreeNode := set_parent.
Definition set_child1 (v : Z) (n : b2TreeNode) : b2TreeNode :=
    mkNode (aabb n) (userData n) (parent n) v (child2 n) (height n) (moved n).
Definition set_child2 (v : Z) (n : b2TreeNode) : b2TreeNode :=
    mkNode (aabb n) (userData n) (parent n) (child1 n) v (height n) (moved n).
Definition set_height (v : Z) (n : b2TreeNode) : b2TreeNode :=
    mkNode (aabb n) (userData n) (parent n) (child1 n) (child2 n) v (moved n).
Definition set_moved (v : bool) (n : b2TreeNode) : b2TreeNode :=
    mkNode (aabb n) (userData n) (parent n) (child1 n) (child2 n) (height n) v.

  (** [class b2DynamicTree]; [m_path] is the counter the constructor
      resets and nothing else touches. *)
Record b2DynamicTree : Type := mkTree {
    m_root : Z;
    m_nodes : list b2TreeNode;
    m_nodeCount : Z;
    m_nodeCapacity : Z;
    m_freeList : Z;
    m_path : Z;
    m_insertionCount : Z
  }.

Definition set_root (v : Z) (t : b2DynamicTree) : b2DynamicTree :=
    mkTree v (m_nodes t) (m_nodeCount t) (m_nodeCapacity t) (m_freeList t) (m_path t) (m_insertionCount t).
Definition set_nodes (v : list b2TreeNode) (t : b2DynamicTree) : b2DynamicTree :=
    mkTree (m_root t) v (m_nodeCount t) (m_nodeCapacity t) (m_freeList t) (m_path t) (m_insertionCount t).
Definition set_nodeCount (v : Z) (t : b2DynamicTree) : b2DynamicTree :=
    mkTree (m_root t) (m_nodes t) v (m_nodeCapacity t) (m_freeList t) (m_path t) (m_insertionCount t).
Definition set_nodeCapacity (v : Z) (t : b2DynamicTree) : b2DynamicTree :=
    mkTree (m_root t) (m_nodes t) (m_nodeCount t) v (m_freeList t) (m_path t) (m_insertionCount t).
Definition set_freeList (v : Z) (t : b2DynamicTree) : b2DynamicTree :=
    mkTree (m_root t) (m_nodes t) (m_nodeCount t) (m_nodeCapacity t) v (m_path t) (m_insertionCount t).
Definition set_path (v : Z) (t : b2DynamicTree) : b2DynamicTree :=
    mkTree (m_root t) (m_nodes t) (m_nodeCount t) (m_nodeCapacity t) (m_freeList t) v (m_insertionCount t).
Definition set_insertionCount (v : Z) (t : b2DynamicTree) : b2DynamicTree :=
    mkTree (m_root t) (m_nodes t) (m_nodeCount t) (m_nodeCapacity t) (m_freeList t) (m_path t) v.

  (** *** The pool as memory *)

  (** [m_nodes[i]] as a read; there is no node at a negative index or
      beyond the array. *)
Definition rd (ns : list b2TreeNode) (i : Z) : option b2TreeNode :=
    if decide (0 ≤ i) then ns !! Z.to_nat i else None.

  (** [m_nodes[i] = n]. *)
Definition wr (ns : list b2TreeNode) (i : Z) (n : b2TreeNode) : list b2TreeNode :=
    if decide (0 ≤ i) then <[Z.to_nat i := n]> ns else ns.

  (** *** Computations on the tree object: state and failure *)

Definition M (A : Type) : Type := b2DynamicTree → option (A * b2DynamicTree).

Definition ret {A} (a : A) : M A := λ t, Some (a, t).
Definition bind {A B} (m : M A) (k : A → M B) : M B :=
    λ t, match m t with Some (a, t') => k a t' | None => None end.
Definition fail {A} : M A := λ _, None.

Definition get {A} (f : b2DynamicTree → A) : M A := λ t, Some (f t, t).
Definition put (f : b2DynamicTree → b2DynamicTree) : M unit := λ t, Some (tt, f t).
Definition b2Assert (b : bool) : M unit := λ t, if b then Some (tt, t) else None.

  (** [m_nodes[i]], read as a whole. *)
Definition node (i : Z) : M b2TreeNode :=
    λ t, match rd (m_nodes t) i with Some n => Some (n, t) | None => None end.
  (** [m_nodes[i].field = v], [f] being the setter of the field. *)
Definition modify (i : Z) (f : b2TreeNode → b2TreeNode) : M unit :=
    λ t, match rd (m_nodes t) i with
         | Some n => Some (tt, set_nodes (wr (m_nodes t) i (f n)) t)
         | None => None
         end.

  (** [for (i = lo; i < hi; ++i) body(i)], the body leaving [i] alone. *)
Fixpoint for_loop (n : nat) (i : Z) (body : Z → M unit) : M unit :=
    match n with
    | O => ret tt
    | S n' => bind (body i) (λ _, for_loop n' (i + 1) body)
    end.
Definition for_range (lo hi : Z) (body : Z → M unit) : M unit :=
    for_loop (Z.to_nat (hi - lo)) lo body.

  (** The same with a local variable [a] that the body updates. *)
Fixpoint for_acc {A} (n : nat) (i : Z) (body : Z → A → M A) (a : A) : M A :=
    match n with
    | O => ret a
    | S n' => bind (body i a) (for_acc n' (i + 1) body)
    end.

  (** A read that may be out of bounds. *)
Definition lift {A} (o : option A) : M A :=
    λ t, match o with Some a => Some (a, t) | None => None end.

  (** An [int] array, read and written at an [int] index. *)
Definition ix (l : list Z) (i : Z) : option Z :=
    if decide (0 ≤ i) then l !! Z.to_nat i else None.
Definition set_ix (l : list Z) (i : Z) (v : Z) : list Z :=
    if decide (0 ≤ i) then <[Z.to_nat i := v]> l else l.

End Tree.

Arguments b2TreeNode : clear implicits.
Arguments b2DynamicTree : clear implicits.
Arguments M : clear implicits.

Declare Scope tree_scope.
Delimit Scope tree_scope with tree.
Notation "x <- m ;; k" := (bind m (λ x, k))
  (at level 100, m at next level, k at level 200, right associativity) : tree_scope.
Notation "m ;;; k" := (bind m (λ _, k))
  (at level 100, k at level 200, right associativity) : tree_scope.

Local Open Scope tree_scope.

(** ** The operations of [b2_dynamic_tree.cpp] *)

Section Operations.
  Context {float Rectf : Type} {FO : FloatOps float} {RO : RectOps float Rectf}.

  Local Abbreviation b2TreeNode := (b2TreeNode Rectf).
  Local Abbreviation b2DynamicTree := (b2DynamicTree Rectf).
  Local Abbreviation M := (M Rectf).

  (** What [b2Alloc] hands out is not initialised: [uninit i] is what slot
      [i] of a fresh array holds. *)
  Variable uninit : Z → b2TreeNode.

  (** [m_nodes[i].field], [f] being the field. *)
Definition fld {A} (i : Z) (f : b2TreeNode → A) : M A :=
    n <- node i;; ret (f n).

Definition zero_node : b2TreeNode := mkNode Rectf_zero 0 0 0 0 0 false.

  (** The free-list loop of the constructor and of [AllocateNode]. *)
Definition link_free_slots (lo : Z) : M unit :=
    cap <- get m_nodeCapacity;;
    for_range lo (cap - 1) (λ i,
      modify i (set_next (i + 1));;;
      modify i (set_height (-1)));;;
    cap <- get m_nodeCapacity;;
    modify (cap - 1) (set_next b2_nullNode);;;
    modify (cap - 1) (set_height (-1)).

Definition b2DynamicTree_ctor : M unit :=
    put (set_root b2_nullNode);;;
    put (set_nodeCapacity 16);;;
    put (set_nodeCount 0);;;
    cap <- get m_nodeCapacity;;
    put (set_nodes (replicate (Z.to_nat cap) zero_node));;;
    link_free_slots 0;;;
    put (set_freeList 0);;;
    put (set_path 0);;;
    put (set_insertionCount 0).

  (** The tree a constructor call yields, whatever the object held. *)
Definition b2DynamicTree_new : option b2DynamicTree :=
    snd <$> b2DynamicTree_ctor (mkTree 0 [] 0 0 0 0 0).

  (** [AllocateNode]: the pool is doubled when the free list is empty. *)
Definition AllocateNode : M Z :=
    freeList <- get m_freeList;;
    (if bool_decide (freeList = b2_nullNode) then
       count <- get m_nodeCount;;
       cap <- get m_nodeCapacity;;
       b2Assert (bool_decide (count = cap));;;
       put (set_nodeCapacity (cap * 2));;;
       cap' <- get m_nodeCapacity;;
       put (λ t, set_nodes (take (Z.to_nat count) (m_nodes t)
                            ++ (uninit <$> seqZ count (cap' - count))) t);;;
       link_free_slots count;;;
       put (set_freeList count)
     else ret tt);;;
    nodeId <- get m_freeList;;
    nxt <- fld nodeId next;;
    put (set_freeList nxt);;;
    modify nodeId (set_parent b2_nullNode);;;
    modify nodeId (set_child1 b2_nullNode);;;
    modify nodeId (set_child2 b2_nullNode);;;
    modify nodeId (set_height 0);;;
    modify nodeId (set_userData 0);;;
    modify nodeId (set_moved false);;;
    count <- get m_nodeCount;;
    put (set_nodeCount (count + 1));;;
    ret nodeId.

Definition FreeNode (nodeId : Z) : M unit :=
    cap <- get m_nodeCapacity;;
    b2Assert (bool_decide (0 ≤ nodeId < cap));;;
    count <- get m_nodeCount;;
    b2Assert (bool_decide (0 < count));;;
    freeList <- get m_freeList;;
    modify nodeId (set_next freeList);;;
    modify nodeId (set_height (-1));;;
    put (set_freeList nodeId);;;
    count <- get m_nodeCount;;
    put (set_nodeCount (count - 1)).

  (** *** [Balance] *)

  (** [A's old parent should point to X], [X] being the node rotated up
      and [X->parent] already A's old parent. *)
Definition Balance_relink (iA iX : Z) : M unit :=
    pX <- fld iX parent;;
    if bool_decide (pX ≠ b2_nullNode) then
      c1 <- fld pX child1;;
      if bool_decide (c1 = iA) then modify pX (set_child1 iX)
      else
        c2 <- fld pX child2;;
        b2Assert (bool_decide (c2 = iA));;;
        modify pX (set_child2 iX)
    else put (set_root iX).

  (** [if (balance > 1)]: rotate C up. *)
Definition Balance_rotate_C (iA iB iC : Z) : M Z :=
    iF <- fld iC child1;;
    iG <- fld iC child2;;
    cap <- get m_nodeCapacity;;
    b2Assert (bool_decide (0 ≤ iF < cap));;;
    b2Assert (bool_decide (0 ≤ iG < cap));;;
    modify iC (set_child1 iA);;;
    pA <- fld iA parent;;
    modify iC (set_parent pA);;;
    modify iA (set_parent iC);;;
    Balance_relink iA iC;;;
    hF <- fld iF height;;
    hG <- fld iG height;;
    if bool_decide (hF > hG) then
      modify iC (set_child2 iF);;;
      modify iA (set_child2 iG);;;
      modify iG (set_parent iA);;;
      bB <- fld iB aabb;; bG <- fld iG aabb;;
      modify iA (set_aabb (combine bB bG));;;
      bA <- fld iA aabb;; bF <- fld iF aabb;;
      modify iC (set_aabb (combine bA bF));;;
      hB <- fld iB height;; hG <- fld iG height;;
      modify iA (set_height (1 + Z.max hB hG));;;
      hA <- fld iA height;; hF <- fld iF height;;
      modify iC (set_height (1 + Z.max hA hF));;;
      ret iC
    else
      modify iC (set_child2 iG);;;
      modify iA (set_child2 iF);;;
      modify iF (set_parent iA);;;
      bB <- fld iB aabb;; bF <- fld iF aabb;;
      modify iA (set_aabb (combine bB bF));;;
      bA <- fld iA aabb;; bG <- fld iG aabb;;
      modify iC (set_aabb (combine bA bG));;;
      hB <- fld iB height;; hF <- fld iF height;;
      modify iA (set_height (1 + Z.max hB hF));;;
      hA <- fld iA height;; hG <- fld iG height;;
      modify iC (set_height (1 + Z.max hA hG));;;
      ret iC.

  (** [if (balance < -1)]: rotate B up. *)
Definition Balance_rotate_B (iA iB iC : Z) : M Z :=
    iD <- fld iB child1;;
    iE <- fld iB child2;;
    cap <- get m_nodeCapacity;;
    b2Assert (bool_decide (0 ≤ iD < cap));;;
    b2Assert (bool_decide (0 ≤ iE < cap));;;
    modify iB (set_child1 iA);;;
    pA <- fld iA parent;;
    modify iB (set_parent pA);;;
    modify iA (set_parent iB);;;
    Balance_relink iA iB;;;
    hD <- fld iD height;;
    hE <- fld iE height;;
    if bool_decide (hD > hE) then
      modify iB (set_child2 iD);;;
      modify iA (set_child1 iE);;;
      modify iE (set_parent iA);;;
      bC <- fld iC aabb;; bE <- fld iE aabb;;
      modify iA (set_aabb (combine bC bE));;;
      bA <- fld iA aabb;; bD <- fld iD aabb;;
      modify iB (set_aabb (combine bA bD));;;
      hC <- fld iC height;; hE <- fld iE height;;
      modify iA (set_height (1 + Z.max hC hE));;;
      hA <- fld iA height;; hD <- fld iD height;;
      modify iB (set_height (1 + Z.max hA hD));;;
      ret iB
    else
      modify iB (set_child2 iE);;;
      modify iA (set_child1 iD);;;
      modify iD (set_parent iA);;;
      bC <- fld iC aabb;; bD <- fld iD aabb;;
      modify iA (set_aabb (combine bC bD));;;
      bA <- fld iA aabb;; bE <- fld iE aabb;;
      modify iB (set_aabb (combine bA bE));;;
      hC <- fld iC height;; hD <- fld iD height;;
      modify iA (set_height (1 + Z.max hC hD));;;
      hA <- fld iA height;; hE <- fld iE height;;
      modify iB (set_height (1 + Z.max hA hE));;;
      ret iB.

Definition Balance (iA : Z) : M Z :=
    b2Assert (bool_decide (iA ≠ b2_nullNode));;;
    A <- node iA;;
    if IsLeaf A || bool_decide (height A < 2) then ret iA
    else
      iB <- fld iA child1;;
      iC <- fld iA child2;;
      cap <- get m_nodeCapacity;;
      b2Assert (bool_decide (0 ≤ iB < cap));;;
      b2Assert (bool_decide (0 ≤ iC < cap));;;
      hC <- fld iC height;;
      hB <- fld iB height;;
      let balance := hC - hB in
      if bool_decide (balance > 1) then Balance_rotate_C iA iB iC
      else if bool_decide (balance < -1) then Balance_rotate_B iA iB iC
      else ret iA.

  (** *** [InsertLeaf] *)

  (** The outcome of one round of the sibling search. *)
Inductive descent : Type := Stop | Descend (child : Z).

  (** [cost]: a new parent for this node and the new leaf. *)
Definition InsertLeaf_cost (leafAABB : Rectf) (N : b2TreeNode) : float :=
    fmul f_two (get_perimeter (combine (aabb N) leafAABB)).

Definition InsertLeaf_inheritanceCost (leafAABB : Rectf) (N : b2TreeNode) : float :=
    let area := get_perimeter (aabb N) in
    let combinedArea := get_perimeter (combine (aabb N) leafAABB) in
    fmul f_two (fsub combinedArea area).

  (** [cost1], [cost2]: descending into the child [C]. *)
Definition InsertLeaf_childCost (leafAABB : Rectf) (inheritanceCost : float)
      (C : b2TreeNode) : float :=
    if IsLeaf C then
      fadd (get_perimeter (combine leafAABB (aabb C))) inheritanceCost
    else
      let oldArea := get_perimeter (aabb C) in
      let newArea := get_perimeter (combine leafAABB (aabb C)) in
      fadd (fsub newArea oldArea) inheritanceCost.

  (** The body of the search loop at an internal node [index]. *)
Definition InsertLeaf_choose (leafAABB : Rectf) (index : Z) : M descent :=
    child1 <- fld index child1;;
    child2 <- fld index child2;;
    N <- node index;;
    let cost := InsertLeaf_cost leafAABB N in
    let inheritanceCost := InsertLeaf_inheritanceCost leafAABB N in
    C1 <- node child1;;
    let cost1 := InsertLeaf_childCost leafAABB inheritanceCost C1 in
    C2 <- node child2;;
    let cost2 := InsertLeaf_childCost leafAABB inheritanceCost C2 in
    if flt cost cost1 && flt cost cost2 then ret Stop
    else if flt cost1 cost2 then ret (Descend child1)
    else ret (Descend child2).

  (** [while (m_nodes[index].IsLeaf() == false) ...] *)
Fixpoint InsertLeaf_descend (fuel : nat) (leafAABB : Rectf) (index : Z) : M Z :=
    match fuel with
    | O => fail
    | S fuel' =>
        N <- node index;;
        if IsLeaf N then ret index
        else
          d <- InsertLeaf_choose leafAABB index;;
          match d with
          | Stop => ret index
          | Descend c => InsertLeaf_descend fuel' leafAABB c
          end
    end.

  (** [Walk back up the tree fixing heights and AABBs]. *)
Fixpoint InsertLeaf_refit (fuel : nat) (index : Z) : M unit :=
    if bool_decide (index ≠ b2_nullNode) then
      match fuel with
      | O => fail
      | S fuel' =>
          index <- Balance index;;
          child1 <- fld index child1;;
          child2 <- fld index child2;;
          b2Assert (bool_decide (child1 ≠ b2_nullNode));;;
          b2Assert (bool_decide (child2 ≠ b2_nullNode));;;
          h1 <- fld child1 height;; h2 <- fld child2 height;;
          modify index (set_height (1 + Z.max h1 h2));;;
          b1 <- fld child1 aabb;; b2 <- fld child2 aabb;;
          modify index (set_aabb (combine b1 b2));;;
          p <- fld index parent;;
          InsertLeaf_refit fuel' p
      end
    else ret tt.

  (** Fuel for a loop along one branch of the tree: more than the pool
      has nodes. *)
Definition pool_fuel (t : b2DynamicTree) : nat := S (length (m_nodes t)).

Definition InsertLeaf (leaf : Z) : M unit :=
    ic <- get m_insertionCount;;
    put (set_insertionCount (ic + 1));;;
    root <- get m_root;;
    if bool_decide (root = b2_nullNode) then
      put (set_root leaf);;;
      root <- get m_root;;
      modify root (set_parent b2_nullNode)
    else
      leafAABB <- fld leaf aabb;;
      index <- get m_root;;
      fuel <- get pool_fuel;;
      sibling <- InsertLeaf_descend fuel leafAABB index;;
      oldParent <- fld sibling parent;;
      newParent <- AllocateNode;;
      modify newParent (set_parent oldParent);;;
      modify newParent (set_userData 0);;;
      bS <- fld sibling aabb;;
      modify newParent (set_aabb (combine leafAABB bS));;;
      hS <- fld sibling height;;
      modify newParent (set_height (hS + 1));;;
      (if bool_decide (oldParent ≠ b2_nullNode) then
         c1 <- fld oldParent child1;;
         (if bool_decide (c1 = sibling) then modify oldParent (set_child1 newParent)
          else modify oldParent (set_child2 newParent));;;
         modify newParent (set_child1 sibling);;;
         modify newParent (set_child2 leaf);;;
         modify sibling (set_parent newParent);;;
         modify leaf (set_parent newParent)
       else
         modify newParent (set_child1 sibling);;;
         modify newParent (set_child2 leaf);;;
         modify sibling (set_parent newParent);;;
         modify leaf (set_parent newParent);;;
         put (set_root newParent));;;
      index <- fld leaf parent;;
      fuel <- get pool_fuel;;
      InsertLeaf_refit fuel index.

  (** *** [RemoveLeaf] *)

  (** [Adjust ancestor bounds]. *)
Fixpoint RemoveLeaf_refit (fuel : nat) (index : Z) : M unit :=
    if bool_decide (index ≠ b2_nullNode) then
      match fuel with
      | O => fail
      | S fuel' =>
          index <- Balance index;;
          child1 <- fld index child1;;
          child2 <- fld index child2;;
          b1 <- fld child1 aabb;; b2 <- fld child2 aabb;;
          modify index (set_aabb (combine b1 b2));;;
          h1 <- fld child1 height;; h2 <- fld child2 height;;
          modify index (set_height (1 + Z.max h1 h2));;;
          p <- fld index parent;;
          RemoveLeaf_refit fuel' p
      end
    else ret tt.

Definition RemoveLeaf (leaf : Z) : M unit :=
    root <- get m_root;;
    if bool_decide (leaf = root) then put (set_root b2_nullNode)
    else
      parent_ <- fld leaf parent;;
      grandParent <- fld parent_ parent;;
      c1 <- fld parent_ child1;;
      sibling <- (if bool_decide (c1 = leaf) then fld parent_ child2 else fld parent_ child1);;
      if bool_decide (grandParent ≠ b2_nullNode) then
        g1 <- fld grandParent child1;;
        (if bool_decide (g1 = parent_) then modify grandParent (set_child1 sibling)
         else modify grandParent (set_child2 sibling));;;
        modify sibling (set_parent grandParent);;;
        FreeNode parent_;;;
        fuel <- get pool_fuel;;
        RemoveLeaf_refit fuel grandParent
      else
        put (set_root sibling);;;
        modify sibling (set_parent b2_nullNode);;;
        FreeNode parent_.

  (** *** Proxies *)

Definition CreateProxy (aabb_ : Rectf) (userData_ : Z) : M Z :=
    proxyId <- AllocateNode;;
    modify proxyId (set_aabb (grown aabb_ b2_aabbExtension));;;
    modify proxyId (set_userData userData_);;;
    modify proxyId (set_height 0);;;
    modify proxyId (set_moved true);;;
    InsertLeaf proxyId;;;
    ret proxyId.

Definition DestroyProxy (proxyId : Z) : M unit :=
    cap <- get m_nodeCapacity;;
    b2Assert (bool_decide (0 ≤ proxyId < cap));;;
    N <- node proxyId;;
    b2Assert (IsLeaf N);;;
    RemoveLeaf proxyId;;;
    FreeNode proxyId.

  (** The fattened box of [MoveProxy], stretched along the predicted
      displacement. *)
Definition MoveProxy_fatAABB (aabb_ : Rectf) (displacement : Vector float) : Rectf :=
    let fatAABB := grown aabb_ b2_aabbExtension in
    let d := vscale b2_aabbMultiplier displacement in
    let fatAABB :=
      if flt (vx d) f_zero then set_left fatAABB (fadd (get_left fatAABB) (vx d))
      else set_right fatAABB (fadd (get_right fatAABB) (vx d)) in
    if flt (vy d) f_zero then set_top fatAABB (fadd (get_top fatAABB) (vy d))
    else set_bottom fatAABB (fadd (get_bottom fatAABB) (vy d)).

Definition MoveProxy (proxyId : Z) (aabb_ : Rectf) (displacement : Vector float) : M bool :=
    cap <- get m_nodeCapacity;;
    b2Assert (bool_decide (0 ≤ proxyId < cap));;;
    N <- node proxyId;;
    b2Assert (IsLeaf N);;;
    let fatAABB := MoveProxy_fatAABB aabb_ displacement in
    treeAABB <- fld proxyId aabb;;
    if contains treeAABB aabb_
       && contains (grown fatAABB (fmul f_four b2_aabbExtension)) treeAABB
    then ret false
    else
      RemoveLeaf proxyId;;;
      modify proxyId (set_aabb fatAABB);;;
      InsertLeaf proxyId;;;
      modify proxyId (set_moved true);;;
      ret true.

  (** *** Accessors of [b2_dynamic_tree.hpp] *)

Definition GetUserData (proxyId : Z) : M Z :=
    cap <- get m_nodeCapacity;;
    b2Assert (bool_decide (0 ≤ proxyId < cap));;;
    fld proxyId userData.

Definition WasMoved (proxyId : Z) : M bool :=
    cap <- get m_nodeCapacity;;
    b2Assert (bool_decide (0 ≤ proxyId < cap));;;
    fld proxyId moved.

Definition ClearMoved (proxyId : Z) : M unit :=
    cap <- get m_nodeCapacity;;
    b2Assert (bool_decide (0 ≤ proxyId < cap));;;
    modify proxyId (set_moved false).

Definition GetFatAABB (proxyId : Z) : M Rectf :=
    cap <- get m_nodeCapacity;;
    b2Assert (bool_decide (0 ≤ proxyId < cap));;;
    fld proxyId aabb.

  (** *** Measurements and maintenance *)

Definition GetHeight : M Z :=
    root <- get m_root;;
    if bool_decide (root = b2_nullNode) then ret 0
    else fld root height.

  (** One round of the loop of [GetMaxBalance]. *)
Definition GetMaxBalance_round (maxBalance : Z) (i : Z) : M Z :=
    N <- node i;;
    if bool_decide (height N ≤ 1) then ret maxBalance
    else
      b2Assert (negb (IsLeaf N));;;
      h2 <- fld (child2 N) height;;
      h1 <- fld (child1 N) height;;
      ret (Z.max maxBalance (Z.abs (h2 - h1))).

Fixpoint GetMaxBalance_loop (n : nat) (i : Z) (maxBalance : Z) : M Z :=
    match n with
    | O => ret maxBalance
    | S n' =>
        m <- GetMaxBalance_round maxBalance i;;
        GetMaxBalance_loop n' (i + 1) m
    end.

Definition GetMaxBalance : M Z :=
    cap <- get m_nodeCapacity;;
    GetMaxBalance_loop (Z.to_nat cap) 0 0.

Definition ShiftOrigin (newOrigin : Vector float) : M unit :=
    cap <- get m_nodeCapacity;;
    for_range 0 cap (λ i,
      b <- fld i aabb;;
      modify i (set_aabb (move b (vneg newOrigin)))).

  (** *** [RebuildBottomUp]

      The local array [nodes] is the list [work] of its first [count]
      entries, the only ones read. *)

  (** [Build array of leaves. Free the rest.]  [size] is the length
      [nodes] was allocated with. *)
Definition Rebuild_collect_round (size : Z) (i : Z) (work : list Z) : M (list Z) :=
    N <- node i;;
    if bool_decide (height N < 0) then ret work
    else if IsLeaf N then
      modify i (set_parent b2_nullNode);;;
      b2Assert (bool_decide (Z.of_nat (length work) < size));;;
      ret (work ++ [i])
    else
      FreeNode i;;;
      ret work.

  (** [minCost], [iMin], [jMin]. *)
Definition Rebuild_best : Type := float * Z * Z.

Definition Rebuild_inner_round (work : list Z) (aabbi : Rectf) (i : Z)
      (j : Z) (best : Rebuild_best) : M Rebuild_best :=
    nj <- lift (ix work j);;
    aabbj <- fld nj aabb;;
    let cost := get_perimeter (combine aabbi aabbj) in
    if flt cost (fst (fst best)) then ret (cost, i, j) else ret best.

Definition Rebuild_outer_round (work : list Z) (count : Z)
      (i : Z) (best : Rebuild_best) : M Rebuild_best :=
    ni <- lift (ix work i);;
    aabbi <- fld ni aabb;;
    for_acc (Z.to_nat (count - (i + 1))) (i + 1) (Rebuild_inner_round work aabbi i) best.

  (** One round of [while (count > 1)].  [child1] and [child2] point
      into the pool as it is before [AllocateNode]: they dangle when the
      pool is reallocated. *)
Definition Rebuild_merge_round (work : list Z) : M (list Z) :=
    let count := Z.of_nat (length work) in
    best <- for_acc (Z.to_nat count) 0 (Rebuild_outer_round work count)
              (b2_maxFloat, -1, -1);;
    let iMin := snd (fst best) in
    let jMin := snd best in
    index1 <- lift (ix work iMin);;
    index2 <- lift (ix work jMin);;
    cap <- get m_nodeCapacity;;
    parentIndex <- AllocateNode;;
    cap' <- get m_nodeCapacity;;
    b2Assert (bool_decide (cap' = cap));;;
    modify parentIndex (set_child1 index1);;;
    modify parentIndex (set_child2 index2);;;
    h1 <- fld index1 height;; h2 <- fld index2 height;;
    modify parentIndex (set_height (1 + Z.max h1 h2));;;
    b1 <- fld index1 aabb;; b2 <- fld index2 aabb;;
    modify parentIndex (set_aabb (combine b1 b2));;;
    modify parentIndex (set_parent b2_nullNode);;;
    modify index1 (set_parent parentIndex);;;
    modify index2 (set_parent parentIndex);;;
    last <- lift (ix work (count - 1));;
    let work := set_ix work jMin last in
    let work := set_ix work iMin parentIndex in
    ret (take (Z.to_nat (count - 1)) work).

  (** [while (count > 1)]: each round takes one entry off [nodes]. *)
Fixpoint Rebuild_merge (fuel : nat) (work : list Z) : M (list Z) :=
    if bool_decide (Z.of_nat (length work) > 1) then
      match fuel with
      | O => fail
      | S fuel' =>
          work' <- Rebuild_merge_round work;;
          Rebuild_merge fuel' work'
      end
    else ret work.

  (** [Validate()], at the end, is empty unless [b2DEBUG] is defined. *)
Definition RebuildBottomUp : M unit :=
    size <- get m_nodeCount;;
    cap <- get m_nodeCapacity;;
    work <- for_acc (Z.to_nat cap) 0 (Rebuild_collect_round size) [];;
    work <- Rebuild_merge (length work) work;;
    root <- lift (ix work 0);;
    put (set_root root).

End Operations.

(** ** The walks of [b2_dynamic_tree.hpp] *)

(** What one round of a walk does: go on with a new loop state, or return
    from the function. *)
Inductive round (L R : Type) : Type :=
  | Continue (next_state : L)
  | Return (result : R).
Arguments Continue {L R} _.
Arguments Return {L R} _.

Section Walks.
  Context {float Rectf : Type} {FO : FloatOps float} {RO : RectOps float Rectf}
    {YO : RayOps float Rectf}.
  (** The callback object: its state, changed by each invocation. *)
  Context {CB : Type}.

  Local Abbreviation b2TreeNode := (b2TreeNode Rectf).
  Local Abbreviation b2DynamicTree := (b2DynamicTree Rectf).

  (** *** [Query] *)

  Variable QueryCallback : CB → Z → bool * CB.

  (** The locals of [Query]: the stack, its back first, and the callback. *)
Definition query_state : Type := list Z * CB.

  (** The body of the loop, for the node popped off the stack.  The
      second component lists the invocation made, if any: the proxy and
      what the callback answered. *)
Definition Query_round (t : b2DynamicTree) (aabb_ : Rectf)
      (nodeId : Z) (stack : list Z) (cb : CB)
      : option (round query_state CB * list (Z * bool)) :=
    if bool_decide (nodeId = b2_nullNode) then Some (Continue (stack, cb), [])
    else
      match rd (m_nodes t) nodeId with
      | None => None
      | Some N =>
          if overlaps (aabb N) aabb_ then
            if IsLeaf N then
              let '(proceed, cb') := QueryCallback cb nodeId in
              if proceed then Some (Continue (stack, cb'), [(nodeId, true)])
              else Some (Return cb', [(nodeId, false)])
            else Some (Continue (child2 N :: child1 N :: stack, cb), [])
          else Some (Continue (stack, cb), [])
      end.

  (** [while (!stack.empty())] *)
Fixpoint Query_loop (fuel : nat) (t : b2DynamicTree) (aabb_ : Rectf)
      (stack : list Z) (cb : CB) : option (CB * list (Z * bool)) :=
    match stack with
    | [] => Some (cb, [])
    | nodeId :: stack' =>
        match fuel with
        | O => None
        | S fuel' =>
            match Query_round t aabb_ nodeId stack' cb with
            | None => None
            | Some (Return cb', calls) => Some (cb', calls)
            | Some (Continue (stack'', cb'), calls) =>
                match Query_loop fuel' t aabb_ stack'' cb' with
                | None => None
                | Some (cb'', calls') => Some (cb'', calls ++ calls')
                end
            end
        end
    end.

  (** [Query]: the callback as the call leaves it, and the invocations
      made, in order. *)
Definition Query (t : b2DynamicTree) (cb : CB) (aabb_ : Rectf)
      : option (CB * list (Z * bool)) :=
    Query_loop (pool_fuel t) t aabb_ [m_root t] cb.

  (** *** [RayCast] *)

Record b2RayCastInput : Type := mkRayCastInput {
    p1 : Vector float;
    p2 : Vector float;
    maxFraction : float
  }.

  Variable RayCastCallback : CB → b2RayCastInput → Z → float * CB.

  (** [Build a bounding box for the segment]. *)
Definition RayCast_segmentAABB (p1_ p2_ : Vector float) (maxFraction_ : float) : Rectf :=
    let t := vadd p1_ (vscale maxFraction_ (vsub p2_ p1_)) in
    combine (Rectf_point p1_) (Rectf_point t).

  (** The locals of [RayCast] that the loop changes. *)
Record ray_state : Type := mkRayState {
    rs_stack : list Z;
    rs_maxFraction : float;
    rs_segmentAABB : Rectf;
    rs_callback : CB
  }.

  (** An invocation: the [subInput] and the proxy passed, the value
      returned. *)
Definition ray_call : Type := b2RayCastInput * Z * float.

  (** The body of the loop, for the node popped off the stack. *)
Definition RayCast_round (t : b2DynamicTree) (input : b2RayCastInput)
      (v abs_v : Vector float) (nodeId : Z) (st : ray_state)
      : option (round ray_state CB * list ray_call) :=
    if bool_decide (nodeId = b2_nullNode) then Some (Continue st, [])
    else
      match rd (m_nodes t) nodeId with
      | None => None
      | Some N =>
          if negb (overlaps (aabb N) (rs_segmentAABB st)) then Some (Continue st, [])
          else
            let c := get_middle (aabb N) in
            let h := get_extents (aabb N) in
            let separation :=
              fsub (fabs (b2Dot v (vsub (p1 input) c))) (b2Dot abs_v h) in
            if flt f_zero separation then Some (Continue st, [])
            else if IsLeaf N then
              let subInput := mkRayCastInput (p1 input) (p2 input) (rs_maxFraction st) in
              let '(value, cb') := RayCastCallback (rs_callback st) subInput nodeId in
              if feq value f_zero then Some (Return cb', [(subInput, nodeId, value)])
              else if flt f_zero value then
                Some (Continue (mkRayState (rs_stack st) value
                                  (RayCast_segmentAABB (p1 input) (p2 input) value) cb'),
                      [(subInput, nodeId, value)])
              else
                Some (Continue (mkRayState (rs_stack st) (rs_maxFraction st)
                                  (rs_segmentAABB st) cb'),
                      [(subInput, nodeId, value)])
            else
              Some (Continue (mkRayState (child2 N :: child1 N :: rs_stack st)
                                (rs_maxFraction st) (rs_segmentAABB st) (rs_callback st)),
                    [])
      end.

Fixpoint RayCast_loop (fuel : nat) (t : b2DynamicTree) (input : b2RayCastInput)
      (v abs_v : Vector float) (st : ray_state) : option (CB * list ray_call) :=
    match rs_stack st with
    | [] => Some (rs_callback st, [])
    | nodeId :: stack' =>
        match fuel with
        | O => None
        | S fuel' =>
            let popped := mkRayState stack' (rs_maxFraction st) (rs_segmentAABB st)
                            (rs_callback st) in
            match RayCast_round t input v abs_v nodeId popped with
            | None => None
            | Some (Return cb', calls) => Some (cb', calls)
            | Some (Continue st', calls) =>
                match RayCast_loop fuel' t input v abs_v st' with
                | None => None
                | Some (cb'', calls') => Some (cb'', calls ++ calls')
                end
            end
        end
    end.

Definition RayCast (t : b2DynamicTree) (cb : CB) (input : b2RayCastInput)
      : option (CB * list ray_call) :=
    let r := vsub (p2 input) (p1 input) in
    if flt f_zero (LengthSquared r) then
      let r := Normalize r in
      let v := b2Cross f_one r in
      let abs_v := b2Abs v in
      let maxFraction_ := maxFraction input in
      let segmentAABB := RayCast_segmentAABB (p1 input) (p2 input) maxFraction_ in
      RayCast_loop (pool_fuel t) t input v abs_v
        (mkRayState [m_root t] maxFraction_ segmentAABB cb)
    else None.

End Walks.

Arguments b2RayCastInput : clear implicits.
Arguments ray_state : clear implicits.
Arguments ray_call : clear implicits.

(** ** Two rectangle libraries *)

(** *** Exact rectangles on the integer grid

    Modelled from the spec: the rectangle primitives ("perimeter,
    containment, overlap, union, translation, and grow-by-margin"), absent
    from the sources, on integer coordinates, where no operation rounds.
    The fattening margin is one grid unit, the motion multiplier 2. *)
Module Grid.

Record Rect : Type := mkRect { left : Z; top : Z; right : Z; bottom : Z }.

#[global] Instance Rect_eq_dec : EqDecision Rect.
  Proof. solve_decision. Defined.

#[global] Instance float_ops : FloatOps Z := {|
    f_zero := 0; f_one := 1; f_two := 2; f_four := 4;
    fadd := Z.add; fsub := Z.sub; fmul := Z.mul; fneg := Z.opp; fabs := Z.abs;
    flt := Z.ltb; feq := Z.eqb;
    b2_aabbExtension := 1; b2_aabbMultiplier := 2;
    b2_maxFloat := 2 ^ 128
  |}.

#[global] Instance rect_ops : RectOps Z Rect := {|
    Rectf_zero := mkRect 0 0 0 0;
    Rectf_point p := mkRect (vx p) (vy p) (vx p) (vy p);
    grown r d := mkRect (left r - d) (top r - d) (right r + d) (bottom r + d);
    contains a b :=
      (left a <=? left b) && (top a <=? top b)
      && (right b <=? right a) && (bottom b <=? bottom a);
    overlaps a b :=
      negb ((right a <? left b) || (right b <? left a)
            || (bottom a <? top b) || (bottom b <? top a));
    combine a b :=
      mkRect (Z.min (left a) (left b)) (Z.min (top a) (top b))
             (Z.max (right a) (right b)) (Z.max (bottom a) (bottom b));
    get_perimeter r := 2 * ((right r - left r) + (bottom r - top r));
    get_left := left; get_right := right; get_top := top; get_bottom := bottom;
    set_left r v := mkRect v (top r) (right r) (bottom r);
    set_right r v := mkRect (left r) (top r) v (bottom r);
    set_top r v := mkRect (left r) v (right r) (bottom r);
    set_bottom r v := mkRect (left r) (top r) (right r) v;
    move r v := mkRect (left r + vx v) (top r + vy v) (right r + vx v) (bottom r + vy v)
  |}.

  (** Fresh memory of the examples: zero bytes. *)
Definition blank : Z → b2TreeNode Rect := λ _, zero_node.

End Grid.

(** *** IEEE binary32 rectangles

    Modelled from the spec: the same primitives on [float], a rectangle
    storing its four edges, with the constants the spec calls typical:
    a margin of 0.1 and a multiplier of 2.  The arithmetic is the binary32
    arithmetic of [SpecFloat], rounding to nearest even. *)
Module Binary32.

Definition prec : Z := 24.
Definition emax : Z := 128.
Definition float : Type := spec_float.

  (** The float nearest to the integer [z]. *)
Definition of_Z (z : Z) : float := binary_normalize prec emax z 0 false.
Definition add : float → float → float := SFadd prec emax.
Definition sub : float → float → float := SFsub prec emax.
Definition mul : float → float → float := SFmul prec emax.
Definition div : float → float → float := SFdiv prec emax.
Definition sqrt : float → float := SFsqrt prec emax.
  (** [n / 10] as a float: [tenths 1] is [0.1f]. *)
Definition tenths (n : Z) : float := div (of_Z n) (of_Z 10).
Definition fmin (a b : float) : float := if SFltb a b then a else b.
Definition fmax (a b : float) : float := if SFltb a b then b else a.

Record Rect : Type := mkRect { left : float; top : float; right : float; bottom : float }.

#[global] Instance float_ops : FloatOps float := {|
    f_zero := S754_zero false; f_one := of_Z 1; f_two := of_Z 2; f_four := of_Z 4;
    fadd := add; fsub := sub; fmul := mul; fneg := SFopp; fabs := SFabs;
    flt := SFltb; feq := SFeqb;
    b2_aabbExtension := tenths 1; b2_aabbMultiplier := of_Z 2;
    b2_maxFloat := S754_finite false 16777215 104
  |}.

#[global] Instance rect_ops : RectOps float Rect := {|
    Rectf_zero := mkRect (S754_zero false) (S754_zero false) (S754_zero false) (S754_zero false);
    Rectf_point p := mkRect (vx p) (vy p) (vx p) (vy p);
    grown r d := mkRect (sub (left r) d) (sub (top r) d) (add (right r) d) (add (bottom r) d);
    contains a b :=
      SFleb (left a) (left b) && SFleb (top a) (top b)
      && SFleb (right b) (right a) && SFleb (bottom b) (bottom a);
    overlaps a b :=
      negb (SFltb (right a) (left b) || SFltb (right b) (left a)
            || SFltb (bottom a) (top b) || SFltb (bottom b) (top a));
    combine a b :=
      mkRect (fmin (left a) (left b)) (fmin (top a) (top b))
             (fmax (right a) (right b)) (fmax (bottom a) (bottom b));
    get_perimeter r :=
      mul (of_Z 2) (add (sub (right r) (left r)) (sub (bottom r) (top r)));
    get_left := left; get_right := right; get_top := top; get_bottom := bottom;
    set_left r v := mkRect v (top r) (right r) (bottom r);
    set_right r v := mkRect (left r) (top r) v (bottom r);
    set_top r v := mkRect (left r) v (right r) (bottom r);
    set_bottom r v := mkRect (left r) (top r) (right r) v;
    move r v :=
      mkRect (add (left r) (vx v)) (add (top r) (vy v))
             (add (right r) (vx v)) (add (bottom r) (vy v))
  |}.

#[global] Instance ray_ops : RayOps float Rect := {|
    Normalize v :=
      let len := sqrt (LengthSquared v) in
      mkVector (div (vx v) len) (div (vy v) len);
    get_middle r :=
      mkVector (mul (tenths 5) (add (left r) (right r)))
               (mul (tenths 5) (add (top r) (bottom r)));
    get_extents r :=
      mkVector (mul (tenths 5) (sub (right r) (left r)))
               (mul (tenths 5) (sub (bottom r) (top r)))
  |}.

  (** The rectangle with corners [(x1/10, y1/10)] and [(x2/10, y2/10)]. *)
Definition rect10 (x1 y1 x2 y2 : Z) : Rect :=
    mkRect (tenths x1) (tenths y1) (tenths x2) (tenths y2).

  (** Fresh memory of the examples: zero bytes. *)
Definition blank : Z → b2TreeNode Rect := λ _, zero_node.

End Binary32.

(** ** The tree behind the pool

    The invariants of the pool are stated through the binary tree that the
    child links draw: a [shape] names the node at each position. *)

Inductive shape : Type :=
  | Lf (i : Z)
  | Nd (i : Z) (l r : shape).

Definition idx (s : shape) : Z :=
  match s with Lf i => i | Nd i _ _ => i end.

Fixpoint nodes (s : shape) : list Z :=
  match s with
  | Lf i => [i]
  | Nd i l r => i :: nodes l ++ nodes r
  end.

Fixpoint leaves (s : shape) : list Z :=
  match s with
  | Lf i => [i]
  | Nd _ l r => leaves l ++ leaves r
  end.

Definition is_Nd (s : shape) : Prop :=
  match s with Lf _ => False | Nd _ _ _ => True end.

(** The height the nodes of a tree store when they are up to date. *)
Fixpoint sheight (s : shape) : Z :=
  match s with
  | Lf _ => 0
  | Nd _ l r => 1 + Z.max (sheight l) (sheight r)
  end.

(** What [Balance] makes of the tree below a node A that stores the height
    [hA] (out of date in the walks of [InsertLeaf] and [RemoveLeaf]): with
    B and C the children of A, nothing when [hA < 2] or the heights of B
    and C differ by 1 at most; else the higher child goes up, keeps the
    higher of its own children and hands the other one to A. *)
Inductive rotation (hA : Z) : shape → shape → Prop :=
  | rot_keep a B C :
      hA < 2 ∨ -1 ≤ sheight C - sheight B ≤ 1 →
      rotation hA (Nd a B C) (Nd a B C)
  | rot_C_F a B c F G :
      2 ≤ hA → sheight (Nd c F G) - sheight B > 1 → sheight F > sheight G →
      rotation hA (Nd a B (Nd c F G)) (Nd c (Nd a B G) F)
  | rot_C_G a B c F G :
      2 ≤ hA → sheight (Nd c F G) - sheight B > 1 → sheight F ≤ sheight G →
      rotation hA (Nd a B (Nd c F G)) (Nd c (Nd a B F) G)
  | rot_B_D a b D E C :
      2 ≤ hA → sheight C - sheight (Nd b D E) < -1 → sheight D > sheight E →
      rotation hA (Nd a (Nd b D E) C) (Nd b (Nd a E C) D)
  | rot_B_E a b D E C :
      2 ≤ hA → sheight C - sheight (Nd b D E) < -1 → sheight D ≤ sheight E →
      rotation hA (Nd a (Nd b D E) C) (Nd b (Nd a D C) E).

(** One step of a path from a node up to the root: the node passed, the
    side the path comes from ([true]: from [child1]) and the subtree on the
    other side. *)
Record frame : Type := mkFrame { f_idx : Z; f_side : bool; f_sib : shape }.

Definition fill (f : frame) (s : shape) : shape :=
  if f_side f then Nd (f_idx f) s (f_sib f) else Nd (f_idx f) (f_sib f) s.

(** The tree around a subtree [s]: the frames from [s] up to the root. *)
Fixpoint plug (s : shape) (c : list frame) : shape :=
  match c with
  | [] => s
  | f :: c' => plug (fill f s) c'
  end.

Definition ctx_parent (c : list frame) : Z :=
  match c with [] => b2_nullNode | f :: _ => f_idx f end.

Fixpoint ctx_top (hole : Z) (c : list frame) : Z :=
  match c with [] => hole | f :: c' => ctx_top (f_idx f) c' end.

Fixpoint ctx_nodes (c : list frame) : list Z :=
  match c with
  | [] => []
  | f :: c' => f_idx f :: nodes (f_sib f) ++ ctx_nodes c'
  end.

Fixpoint ctx_leaves (c : list frame) : list Z :=
  match c with
  | [] => []
  | f :: c' => leaves (f_sib f) ++ ctx_leaves c'
  end.

Section Invariants.
  Context {float Rectf : Type} {FO : FloatOps float} {RO : RectOps float Rectf}.

  Local Abbreviation b2TreeNode := (b2TreeNode Rectf).
  Local Abbreviation b2DynamicTree := (b2DynamicTree Rectf).
  Local Abbreviation M := (M Rectf).

  Implicit Types (ns : list b2TreeNode) (t : b2DynamicTree) (s : shape)
    (c : list frame) (i p : Z).

  (** A proxy node: no children, height 0. *)
Definition leaf_at ns p i : Prop :=
    ∃ n, rd ns i = Some n ∧ parent n = p
         ∧ child1 n = b2_nullNode ∧ child2 n = b2_nullNode ∧ height n = 0.

  (** The links of an internal node. *)
Definition linked ns p i (c1 c2 : Z) : Prop :=
    ∃ n, rd ns i = Some n ∧ parent n = p ∧ child1 n = c1 ∧ child2 n = c2
         ∧ 0 ≤ height n ∧ c1 ≠ b2_nullNode.

  (** The height and the box of an internal node fit its children; the box
      is the union of the boxes of the children, in one order or the other
      ([Balance] writes [combine(C, E)] for a node with children E and C). *)
Definition fitted ns i : Prop :=
    ∃ n n1 n2, rd ns i = Some n
      ∧ rd ns (child1 n) = Some n1 ∧ rd ns (child2 n) = Some n2
      ∧ height n = 1 + Z.max (height n1) (height n2)
      ∧ (aabb n = combine (aabb n1) (aabb n2) ∨ aabb n = combine (aabb n2) (aabb n1)).

  (** The pool holds the tree [s] below the node [p]. *)
Fixpoint rep ns p s : Prop :=
    match s with
    | Lf i => leaf_at ns p i
    | Nd i l r => linked ns p i (idx l) (idx r) ∧ fitted ns i ∧ rep ns i l ∧ rep ns i r
    end.

  (** The same, the height and the box of the root of [s] being out of
      date. *)
Definition rep_stale ns p s : Prop :=
    match s with
    | Lf i => leaf_at ns p i
    | Nd i l r => linked ns p i (idx l) (idx r) ∧ rep ns i l ∧ rep ns i r
    end.

  (** The pool holds the path [c] above the node [hole], heights and boxes
      along the path being out of date. *)
Fixpoint ctx_rep ns (hole : Z) c : Prop :=
    match c with
    | [] => True
    | f :: c' =>
        linked ns (ctx_parent c') (f_idx f)
          (if f_side f then hole else idx (f_sib f))
          (if f_side f then idx (f_sib f) else hole)
        ∧ rep ns (f_idx f) (f_sib f)
        ∧ ctx_rep ns (f_idx f) c'
    end.

  (** The free list: the chain of [next] links from [head] runs through
      the slots [fl], all of height -1. *)
Fixpoint free_chain ns (head : Z) (fl : list Z) : Prop :=
    match fl with
    | [] => head = b2_nullNode
    | i :: fl' => head = i ∧ ∃ n, rd ns i = Some n ∧ height n = -1 ∧ free_chain ns (next n) fl'
    end.

Definition tree_nodes (T : option shape) : list Z :=
    match T with None => [] | Some s => nodes s end.
Definition tree_leaves (T : option shape) : list Z :=
    match T with None => [] | Some s => leaves s end.

  (** The tree [T] hangs from the node [root]: no tree, no root. *)
Definition tree_rep ns (root : Z) (T : option shape) : Prop :=
    match T with
    | None => root = b2_nullNode
    | Some s => root = idx s ∧ rep ns b2_nullNode s
    end.

  (** An allocated node outside of the tree: the proxy that [CreateProxy]
      is about to insert, or that [RemoveLeaf] has taken out. *)
Definition detached ns i : Prop :=
    ∃ n, rd ns i = Some n ∧ 0 ≤ height n.

  (** The invariant of the pool alone: the slots [alloc] are allocated,
      the others are the free list [fl]. *)
Record Pool t (alloc fl : list Z) : Prop := mkPool {
    pool_length : Z.of_nat (length (m_nodes t)) = m_nodeCapacity t;
    pool_capacity : 0 < m_nodeCapacity t;
    pool_free : free_chain (m_nodes t) (m_freeList t) fl;
    pool_alloc : ∀ i, i ∈ alloc → detached (m_nodes t) i;
    pool_cover : fl ++ alloc ≡ₚ seqZ 0 (m_nodeCapacity t);
    pool_count : m_nodeCount t = Z.of_nat (length alloc)
  }.

  (** The invariant of the tree object: the tree [T] hangs from [m_root],
      [fl] is the free list, [det] the allocated nodes outside of the tree,
      and every slot of the pool is in exactly one of them. *)
Record Inv t (T : option shape) (det fl : list Z) : Prop := mkInv {
    inv_length : Z.of_nat (length (m_nodes t)) = m_nodeCapacity t;
    inv_capacity : 0 < m_nodeCapacity t;
    inv_root : tree_rep (m_nodes t) (m_root t) T;
    inv_free : free_chain (m_nodes t) (m_freeList t) fl;
    inv_det : ∀ i, i ∈ det → detached (m_nodes t) i;
    inv_cover : fl ++ tree_nodes T ++ det ≡ₚ seqZ 0 (m_nodeCapacity t);
    inv_count : m_nodeCount t = Z.of_nat (length (tree_nodes T ++ det))
  }.

  (** The invariant between two public calls. *)
Definition tree_inv t : Prop := ∃ T fl, Inv t T [] fl.

  (** The handles of the proxies: the allocated leaf nodes. *)
Definition is_proxy t (h : Z) : Prop :=
    ∃ n, rd (m_nodes t) h = Some n ∧ height n ≠ -1 ∧ IsLeaf n = true.

Definition is_proxyb (ns : list b2TreeNode) (h : Z) : bool :=
    match rd ns h with
    | Some n => negb (bool_decide (height n = -1)) && IsLeaf n
    | None => false
    end.

  (** All the proxies of the tree, by index. *)
Definition proxies t : list Z :=
    filter (λ h, is_proxyb (m_nodes t) h = true) (seqZ 0 (Z.of_nat (length (m_nodes t)))).

  (** The states of a tree object in the hands of a client: the
      constructor, then the public operations, a proxy handle being passed
      where one is asked for, each call with whatever [b2Alloc] returns. *)
Inductive reachable : b2DynamicTree → Prop :=
    | reach_new t :
        b2DynamicTree_new = Some t → reachable t
    | reach_CreateProxy uninit aabb_ userData_ t h t' :
        reachable t → CreateProxy uninit aabb_ userData_ t = Some (h, t') → reachable t'
    | reach_DestroyProxy h t t' :
        reachable t → is_proxy t h → DestroyProxy h t = Some (tt, t') → reachable t'
    | reach_MoveProxy uninit h aabb_ d t b t' :
        reachable t → is_proxy t h → MoveProxy uninit h aabb_ d t = Some (b, t') →
        reachable t'
    | reach_ClearMoved h t t' :
        reachable t → ClearMoved h t = Some (tt, t') → reachable t'
    | reach_ShiftOrigin v t t' :
        reachable t → ShiftOrigin v t = Some (tt, t') → reachable t'
    | reach_RebuildBottomUp uninit t t' :
        reachable t → RebuildBottomUp uninit t = Some (tt, t') → reachable t'.

  (** *** Running a computation *)

  (** [m] runs to the end from [t], and [Q] holds of what it yields. *)
Definition wp {A} (m : M A) (Q : A → b2DynamicTree → Prop) t : Prop :=
    ∃ a t', m t = Some (a, t') ∧ Q a t'.

  (** Two states that differ in the pool contents and the root only. *)
Definition same_frame t t' : Prop :=
    length (m_nodes t') = length (m_nodes t)
    ∧ m_nodeCount t' = m_nodeCount t
    ∧ m_nodeCapacity t' = m_nodeCapacity t
    ∧ m_freeList t' = m_freeList t
    ∧ m_path t' = m_path t
    ∧ m_insertionCount t' = m_insertionCount t.

End Invariants.
(** ** The measurements and the checks of [b2_dynamic_tree.cpp]

    [GetAreaRatio], [ComputeHeight] and [Validate] with its two helpers.
    [Validate] is the body that a build with [b2DEBUG] has; the
    assertions are those of such a build, as everywhere here. *)

Section Checks.
  Context {float Rectf : Type} {FO : FloatOps float} {RO : RectOps float Rectf}.

  Local Abbreviation b2TreeNode := (b2TreeNode Rectf).
  Local Abbreviation b2DynamicTree := (b2DynamicTree Rectf).
  Local Abbreviation M := (M Rectf).

  (** [operator==] of [Rectf] and [operator/] of [float], which the tree
      uses in these functions only. *)
  Variable Rectf_eq : Rectf → Rectf → bool.
  Variable fdiv : float → float → float.

  (** One round of the loop of [GetAreaRatio]. *)
Definition GetAreaRatio_round (i : Z) (totalArea : float) : M float :=
    N <- node i;;
    if bool_decide (height N < 0) then ret totalArea
    else ret (fadd totalArea (get_perimeter (aabb N))).

Definition GetAreaRatio : M float :=
    root <- get m_root;;
    if bool_decide (root = b2_nullNode) then ret f_zero
    else
      rootBox <- fld root aabb;;
      let rootArea := get_perimeter rootBox in
      cap <- get m_nodeCapacity;;
      totalArea <- for_acc (Z.to_nat cap) 0 GetAreaRatio_round f_zero;;
      ret (fdiv totalArea rootArea).

  (** [ComputeHeight(nodeId)]; the fuel bounds the depth of the
      recursion. *)
Fixpoint ComputeHeight_at (fuel : nat) (nodeId : Z) : M Z :=
    match fuel with
    | O => fail
    | S fuel' =>
        cap <- get m_nodeCapacity;;
        b2Assert (bool_decide (0 ≤ nodeId < cap));;;
        N <- node nodeId;;
        if IsLeaf N then ret 0
        else
          height1 <- ComputeHeight_at fuel' (child1 N);;
          height2 <- ComputeHeight_at fuel' (child2 N);;
          ret (1 + Z.max height1 height2)
    end.

  (** [ComputeHeight()] *)
Definition ComputeHeight : M Z :=
    root <- get m_root;;
    fuel <- get pool_fuel;;
    ComputeHeight_at fuel root.

Fixpoint ValidateStructure (fuel : nat) (index : Z) : M unit :=
    match fuel with
    | O => fail
    | S fuel' =>
        if bool_decide (index = b2_nullNode) then ret tt
        else
          root <- get m_root;;
          (if bool_decide (index = root)
           then p <- fld index parent;; b2Assert (bool_decide (p = b2_nullNode))
           else ret tt);;;
          N <- node index;;
          let c1 := child1 N in
          let c2 := child2 N in
          if IsLeaf N then
            b2Assert (bool_decide (c1 = b2_nullNode));;;
            b2Assert (bool_decide (c2 = b2_nullNode));;;
            b2Assert (bool_decide (height N = 0))
          else
            cap <- get m_nodeCapacity;;
            b2Assert (bool_decide (0 ≤ c1 < cap));;;
            b2Assert (bool_decide (0 ≤ c2 < cap));;;
            p1 <- fld c1 parent;;
            b2Assert (bool_decide (p1 = index));;;
            p2 <- fld c2 parent;;
            b2Assert (bool_decide (p2 = index));;;
            ValidateStructure fuel' c1;;;
            ValidateStructure fuel' c2
    end.

Fixpoint ValidateMetrics (fuel : nat) (index : Z) : M unit :=
    match fuel with
    | O => fail
    | S fuel' =>
        if bool_decide (index = b2_nullNode) then ret tt
        else
          N <- node index;;
          let c1 := child1 N in
          let c2 := child2 N in
          if IsLeaf N then
            b2Assert (bool_decide (c1 = b2_nullNode));;;
            b2Assert (bool_decide (c2 = b2_nullNode));;;
            b2Assert (bool_decide (height N = 0))
          else
            cap <- get m_nodeCapacity;;
            b2Assert (bool_decide (0 ≤ c1 < cap));;;
            b2Assert (bool_decide (0 ≤ c2 < cap));;;
            height1 <- fld c1 height;;
            height2 <- fld c2 height;;
            let h := 1 + Z.max height1 height2 in
            b2Assert (bool_decide (height N = h));;;
            b1 <- fld c1 aabb;;
            b2 <- fld c2 aabb;;
            b2Assert (Rectf_eq (combine b1 b2) (aabb N));;;
            ValidateMetrics fuel' c1;;;
            ValidateMetrics fuel' c2
    end.

  (** The loop of [Validate] along the free list; it returns
      [freeCount]. *)
Fixpoint Validate_free (fuel : nat) (freeIndex freeCount : Z) : M Z :=
    if bool_decide (freeIndex = b2_nullNode) then ret freeCount
    else
      match fuel with
      | O => fail
      | S fuel' =>
          cap <- get m_nodeCapacity;;
          b2Assert (bool_decide (0 ≤ freeIndex < cap));;;
          nxt <- fld freeIndex next;;
          Validate_free fuel' nxt (freeCount + 1)
      end.

Definition Validate : M unit :=
    root <- get m_root;;
    fuel <- get pool_fuel;;
    ValidateStructure fuel root;;;
    ValidateMetrics fuel root;;;
    freeList <- get m_freeList;;
    freeCount <- Validate_free fuel freeList 0;;
    h <- GetHeight;;
    computed <- ComputeHeight;;
    b2Assert (bool_decide (h = computed));;;
    count <- get m_nodeCount;;
    cap <- get m_nodeCapacity;;
    b2Assert (bool_decide (count + freeCount = cap)).

End Checks.

(** ** Notions of the proofs

    What the lemmas below speak about, beside the invariants: links
    between a subtree and its parent, the states of the walks up the tree,
    slots of the free list, pools that differ in their boxes only, the
    loops of [RebuildBottomUp], the proxies that [Query] reports, and
    clients that call the tree. *)

(** Two indices known to differ. *)
(** Two nodes are not the same node.  The fact is kept folded, for [lia]
    splits on every disequality in sight. *)
Definition apart (i j : Z) : Prop := i ≠ j.

Definition inner_balanced (s : shape) : Prop :=
  match s with Lf _ => True | Nd _ l r => -1 ≤ sheight r - sheight l ≤ 1 end.

(** The child of the root that [Balance] would move up has children of
    heights that differ by 1 at most. *)
Definition promoted_balanced (s : shape) : Prop :=
  match s with
  | Lf _ => True
  | Nd _ B C =>
      (sheight C - sheight B > 1 → inner_balanced C)
      ∧ (sheight C - sheight B < -1 → inner_balanced B)
  end.

(** A call that [P] holds of is the last one of [calls]. *)
Definition ends_at {A} (P : A → Prop) (calls : list A) : Prop :=
  ∀ pre c post, calls = pre ++ c :: post → P c → post = [].

(** The values [l] start at [m] and none is less than the next. *)
Fixpoint chain {float} {FO : FloatOps float} (m : float) (l : list float) : Prop :=
  match l with
  | [] => True
  | a :: l' => a = m ∧ ∃ m', flt m m' = false ∧ chain m' l'
  end.

(** The proxies of a tree in the order in which [Query] and [RayCast]
    come to them: the second child is popped first. *)
Fixpoint visit (s : shape) : list Z :=
  match s with
  | Lf i => [i]
  | Nd _ l r => visit r ++ visit l
  end.

Section Notions.
Context {float Rectf : Type} {FO : FloatOps float} {RO : RectOps float Rectf}.

Local Abbreviation b2TreeNode := (b2TreeNode Rectf).
Local Abbreviation b2DynamicTree := (b2DynamicTree Rectf).
Local Abbreviation M := (M Rectf).

Implicit Types (ns : list b2TreeNode) (t : b2DynamicTree) (s : shape)
  (c : list frame) (i p : Z) (T : option shape) (F : list shape).

(** What [Balance] leaves of the link from the parent [p] of the
    subtree: the root when there is no parent, else the child link of
    [p] that led to [a], now leading to [r]. *)
Definition relinked t t' p (a r : Z) : Prop :=
  if bool_decide (p = b2_nullNode) then m_root t' = r
  else m_root t' = m_root t ∧
       ∃ np, rd (m_nodes t) p = Some np ∧
             rd (m_nodes t') p =
               Some (if bool_decide (child1 np = a) then set_child1 r np
                     else set_child2 r np).

Definition hangs_from t p (a : Z) : Prop :=
  if bool_decide (p = b2_nullNode) then m_root t = a
  else ∃ np, rd (m_nodes t) p = Some np ∧ (child1 np = a ∨ child2 np = a).

(** The state of the walk up the tree: the subtree [s] just left, with
    its root out of date, and the path [c] above it. *)
Definition walk_state t s c : Prop :=
  is_Nd s
  ∧ rep_stale (m_nodes t) (ctx_parent c) s
  ∧ ctx_rep (m_nodes t) (idx s) c
  ∧ NoDup (nodes s ++ ctx_nodes c)
  ∧ Z.of_nat (length (m_nodes t)) = m_nodeCapacity t
  ∧ m_root t = ctx_top (idx s) c.

(** What the walk leaves: one tree with the same nodes, nothing else
    touched. *)
Definition walk_done t s c t' : Prop :=
  ∃ T' : shape, rep (m_nodes t') b2_nullNode T' ∧ m_root t' = idx T'
        ∧ nodes T' ≡ₚ nodes s ++ ctx_nodes c
        ∧ leaves T' ≡ₚ leaves s ++ ctx_leaves c
        ∧ same_frame t t'
        ∧ (∀ i, i ∉ nodes s ++ ctx_nodes c → rd (m_nodes t') i = rd (m_nodes t) i).

(** A slot of the free list. *)
Definition free_slot ns (k nxt : Z) : Prop :=
  ∃ n, rd ns k = Some n ∧ height n = -1 ∧ next n = nxt.

(** A node that [AllocateNode] has just handed out. *)
Definition fresh_node ns i : Prop :=
  ∃ n, rd ns i = Some n ∧ parent n = b2_nullNode ∧ child1 n = b2_nullNode
       ∧ child2 n = b2_nullNode ∧ height n = 0 ∧ userData n = 0 ∧ moved n = false.

(** The choice of [InsertLeaf_choose], from the three nodes it reads. *)
Definition choice (leafAABB : Rectf) (N C1 C2 : b2TreeNode) : descent :=
  let cost := InsertLeaf_cost leafAABB N in
  let inheritanceCost := InsertLeaf_inheritanceCost leafAABB N in
  let cost1 := InsertLeaf_childCost leafAABB inheritanceCost C1 in
  let cost2 := InsertLeaf_childCost leafAABB inheritanceCost C2 in
  if flt cost cost1 && flt cost cost2 then Stop
  else if flt cost1 cost2 then Descend (child1 N)
  else Descend (child2 N).

(** A node without children, of height 0: a proxy outside of the tree. *)
Definition leaf_like ns i : Prop :=
  ∃ n, rd ns i = Some n ∧ child1 n = b2_nullNode ∧ child2 n = b2_nullNode ∧ height n = 0.

(** Two pools with the same links and heights, the boxes of the second
    being the images under [g] of the boxes of the first. *)
Definition remapped (g : Rectf → Rectf) ns ns' : Prop :=
  length ns' = length ns ∧
  ∀ i n, rd ns i = Some n →
    ∃ n', rd ns' i = Some n' ∧ aabb n' = g (aabb n) ∧ parent n' = parent n
          ∧ child1 n' = child1 n ∧ child2 n' = child2 n ∧ height n' = height n.

(** [ShiftOrigin] moves every box of the pool, free slots included. *)
Definition shifted (v : Vector float) (n : b2TreeNode) : b2TreeNode :=
  set_aabb (move (aabb n) (vneg v)) n.

(** [Q] holds of what [m] yields from [t], when it runs to the end. *)
Definition wlp {A} (m : M A) (Q : A → b2DynamicTree → Prop) t : Prop :=
  ∀ a t', m t = Some (a, t') → Q a t'.

(** The first loop of [RebuildBottomUp] at index [j]: the leaves below
    [j] are in [work], cut off from their parents; the internal nodes
    below [j] are free; the rest of the pool is as it was. *)
Definition collected t (N L : list Z) (j : Z) (work : list Z) t' : Prop :=
  ∃ rest fl',
    Pool t' (work ++ rest) fl'
    ∧ (∀ i, i ∈ rest ↔ i ∈ N ∧ j ≤ i)
    ∧ (∀ i, i ∈ work ↔ i ∈ L ∧ i < j)
    ∧ (∀ i, i ∈ work → leaf_at (m_nodes t') b2_nullNode i)
    ∧ (∀ i, j ≤ i → rd (m_nodes t') i = rd (m_nodes t) i).

(** The second loop of [RebuildBottomUp] works on a forest: the trees
    [F], whose roots are the entries of the array [nodes]. *)
Definition forest t F (fl : list Z) : Prop :=
  Pool t (F ≫= nodes) fl ∧ Forall (rep (m_nodes t) b2_nullNode) F.

(** [iMin] and [jMin] are both -1, or two slots of the array in order. *)
Definition best_ok (count : Z) (best : float * Z * Z) : Prop :=
  (snd (fst best) = -1 ∧ snd best = -1)
  ∨ (0 ≤ snd (fst best) ∧ snd (fst best) < snd best ∧ snd best < count).

(** The box stored for the node [h], as [GetFatAABB] returns it,
    overlaps [q]. *)
Definition fat_overlaps t (q : Rectf) (h : Z) : bool :=
  match GetFatAABB h t with
  | Some (b, _) => overlaps b q
  | None => false
  end.

(** The proxies of the tree [s] that [Query] reports, in order. *)
Fixpoint hits t (q : Rectf) s : list Z :=
  match s with
  | Lf i => if fat_overlaps t q i then [i] else []
  | Nd i l r => if fat_overlaps t q i then hits t q r ++ hits t q l else []
  end.

End Notions.

Section Clients.
Context {float Rectf : Type} {FO : FloatOps float} {RO : RectOps float Rectf}.

(** A client that builds a tree and creates a proxy for each box of
    [l], in order, with the user data 7. *)
Definition creates (uninit : Z → b2TreeNode Rectf) (l : list Rectf)
    : option (b2DynamicTree Rectf) :=
  foldl (λ ot r, t ← ot; snd <$> CreateProxy uninit r 7 t) b2DynamicTree_new l.

(** What the accessors return for the handle [h]: the fat box, the user
    data and the moved flag, the tree being left as it is. *)
Definition proxy_holds (t : b2DynamicTree Rectf) (h : Z)
    (box : Rectf) (data : Z) (flag : bool) : Prop :=
  GetFatAABB h t = Some (box, t) ∧ GetUserData h t = Some (data, t)
  ∧ WasMoved h t = Some (flag, t).

(** What a round of [GetMaxBalance] compares [maxBalance] with, at the
    slot [i]. *)
Definition balance_at (ns : list (b2TreeNode Rectf)) (i : Z) : Z :=
  match rd ns i with
  | Some N =>
      if bool_decide (height N ≤ 1) then 0
      else match rd ns (child2 N), rd ns (child1 N) with
           | Some n2, Some n1 => Z.abs (height n2 - height n1)
           | _, _ => 0
           end
  | None => 0
  end.

(** What a round of [GetAreaRatio] makes of [totalArea], at the node
    [n]. *)
Definition area_step (totalArea : float) (n : b2TreeNode Rectf) : float :=
  if bool_decide (height n < 0) then totalArea
  else fadd totalArea (get_perimeter (aabb n)).

End Clients.

(** ** Trees of the examples *)

Definition grid_boxes : list Grid.Rect :=
  [Grid.mkRect 0 0 10 10; Grid.mkRect 50 0 60 10; Grid.mkRect 100 0 110 10].

(** The tree of three proxies on the grid, as [creates] leaves it. *)
Definition grid_three : b2DynamicTree Grid.Rect :=
  Eval vm_compute in
    default (mkTree 0 [] 0 0 0 0 0)
      (creates Grid.blank grid_boxes).

(** The root of [grid_three]. *)
Definition grid_three_root : b2TreeNode Grid.Rect :=
  Eval vm_compute in default zero_node (rd (m_nodes grid_three) (m_root grid_three)).

Definition grid_one : b2DynamicTree Grid.Rect :=
  Eval vm_compute in
    default (mkTree 0 [] 0 0 0 0 0)
      (creates Grid.blank
         [Grid.mkRect 0 0 10 10]).

(** The tree on the grid as the constructor leaves it. *)
Definition grid_none : b2DynamicTree Grid.Rect :=
  Eval vm_compute in
    default (mkTree 0 [] 0 0 0 0 0) (creates Grid.blank []).

(** [grid_three] after [RebuildBottomUp]. *)
Definition grid_three_rebuilt : b2DynamicTree Grid.Rect :=
  Eval vm_compute in
    default grid_three (snd <$> RebuildBottomUp Grid.blank grid_three).

(** Equality of rectangles on the grid. *)
Definition grid_eq (a b : Grid.Rect) : bool := bool_decide (a = b).

(** A query callback that goes on and keeps the handles it is passed. *)
Definition keep_all : list Z → Z → bool * list Z := λ cb h, (true, h :: cb).

(** Eight squares stacked in a column, on the grid: fifteen nodes in a
    pool of sixteen. *)
Definition grid_column : list Grid.Rect :=
  (λ i, Grid.mkRect 0 (10 * i) 10 (10 * i + 10)) <$> seqZ 0 8.

Definition grid_eight : b2DynamicTree Grid.Rect :=
  Eval vm_compute in
    default (mkTree 0 [] 0 0 0 0 0) (creates Grid.blank grid_column).

Module Scenes.
Import Binary32.

Definition empty_tree : b2DynamicTree Rect := mkTree 0 [] 0 0 0 0 0.

(** [n] unit squares stacked in a column. *)
Definition column (n : nat) : list Rect :=
  (λ i, rect10 0 (10 * i) 10 (10 * i + 10)) <$> seqZ 0 (Z.of_nat n).

(** Eight squares in a column and one far away. *)
Definition nine_boxes : list Rect := column 8 ++ [rect10 100000 100000 100010 100010].

Definition nine : b2DynamicTree Rect :=
  Eval vm_compute in default empty_tree (creates blank nine_boxes).

(** Two proxies with the same box. *)
Definition twin_boxes : list Rect := [rect10 0 0 10 10; rect10 0 0 10 10].

Definition twins : b2DynamicTree Rect :=
  Eval vm_compute in default empty_tree (creates blank twin_boxes).

(** Three squares in a row, and a ray through them. *)
Definition row_boxes : list Rect :=
  [rect10 0 0 10 10; rect10 50 0 60 10; rect10 100 0 110 10].

Definition row : b2DynamicTree Rect :=
  Eval vm_compute in default empty_tree (creates blank row_boxes).

Definition ray : b2RayCastInput float :=
  mkRayCastInput (mkVector (tenths (-10)) (tenths 5)) (mkVector (tenths 200) (tenths 5))
    (of_Z 1).

Definition one : b2DynamicTree Rect :=
  Eval vm_compute in default empty_tree (creates blank [rect10 0 0 10 10]).

(** The subtree of [nine] below the node 16. *)
Definition nine_16 : shape :=
  Nd 16 (Nd 4 (Nd 2 (Lf 0) (Lf 1)) (Nd 6 (Lf 3) (Lf 5))) (Lf 15).





Definition one_node : b2TreeNode Rect :=
  Eval vm_compute in default zero_node (rd (m_nodes one) 0).

(** A ray callback that answers 5 whatever it is asked. *)
Definition answer_five : unit → b2RayCastInput float → Z → float * unit :=
  λ cb _ _, (of_Z 5, cb).

(** A ray callback that clips the ray at one half. *)
Definition clip_half : unit → b2RayCastInput float → Z → float * unit :=
  λ cb sub _, (fmin (maxFraction sub) (tenths 5), cb).

Definition clip_calls : list (ray_call float) :=
  Eval vm_compute in default [] (snd <$> RayCast clip_half row tt ray).

Definition collect : list Z → Z → bool * list Z := λ cb h, (true, h :: cb).

(** A query callback that stops at the first proxy. *)
Definition stop_at_once : unit → Z → bool * unit := λ cb _, (false, cb).

End Scenes.

(** * Proofs *)

(** ** Permutations of node lists, as equations between multisets *)

Lemma elements_list_to_set_disj (l : list Z) :
  elements (list_to_set_disj l : gmultiset Z) ≡ₚ l.
Proof.
  induction l as [|x l IH]; simpl.
  - by rewrite gmultiset_elements_empty.
  - rewrite gmultiset_elements_disj_union, gmultiset_elements_singleton, IH. done.
Qed.

Lemma perm_multiset (l1 l2 : list Z) :
  list_to_set_disj l1 =@{gmultiset Z} list_to_set_disj l2 → l1 ≡ₚ l2.
Proof.
  intros E. rewrite <-(elements_list_to_set_disj l1), E.
  apply elements_list_to_set_disj.
Qed.

Lemma multiset_perm (l1 l2 : list Z) :
  l1 ≡ₚ l2 → list_to_set_disj l1 =@{gmultiset Z} list_to_set_disj l2.
Proof. by intros ->. Qed.

Ltac perm_solve :=
  repeat match goal with
         | H : _ ≡ₚ _ |- _ => apply multiset_perm in H
         end;
  apply perm_multiset;
  repeat first
    [ rewrite list_to_set_disj_app in *
    | rewrite list_to_set_disj_cons in *
    | rewrite list_to_set_disj_nil in * ];
  multiset_solver.

(** ** Reading and writing the pool *)

Section Pool.
  Context {Rectf : Type}.
  Implicit Types (ns : list (b2TreeNode Rectf)) (n : b2TreeNode Rectf) (i j : Z).

Lemma rd_Some_range ns i n : rd ns i = Some n → 0 ≤ i < Z.of_nat (length ns).
  Proof.
    unfold rd. case_decide; [|done]. intros Hl%lookup_lt_Some. lia.
  Qed.

Lemma rd_in_range ns i : 0 ≤ i < Z.of_nat (length ns) → is_Some (rd ns i).
  Proof.
    intros [? ?]. unfold rd. rewrite decide_True by done.
    apply lookup_lt_is_Some. lia.
  Qed.

Lemma rd_out_of_range ns i : ¬ (0 ≤ i < Z.of_nat (length ns)) → rd ns i = None.
  Proof.
    intros Hr. destruct (rd ns i) eqn:E; [|done].
    apply rd_Some_range in E. lia.
  Qed.

Lemma length_wr ns i n : length (wr ns i n) = length ns.
  Proof. unfold wr. case_decide; [apply length_insert | done]. Qed.

Lemma rd_wr_eq ns i n : 0 ≤ i < Z.of_nat (length ns) → rd (wr ns i n) i = Some n.
  Proof.
    intros [? ?]. unfold rd, wr. rewrite !decide_True by done.
    apply list_lookup_insert_eq. lia.
  Qed.

Lemma rd_wr_ne ns i j n : i ≠ j → rd (wr ns i n) j = rd ns j.
  Proof.
    intros Hne. unfold rd, wr. destruct (decide (0 ≤ j)); [|done].
    destruct (decide (0 ≤ i)); [|done].
    apply list_lookup_insert_ne. lia.
  Qed.

Lemma rd_wr_same ns i n : rd ns i = Some n → wr ns i n = ns.
  Proof.
    unfold rd, wr. case_decide; [|done]. apply list_insert_id.
  Qed.

Lemma wr_wr ns i n n' : wr (wr ns i n) i n' = wr ns i n'.
  Proof. unfold wr. case_decide; [apply list_insert_insert_eq | done]. Qed.

Lemma set_nodes_set_nodes ns ns' (t : b2DynamicTree Rectf) :
    set_nodes ns (set_nodes ns' t) = set_nodes ns t.
  Proof. done. Qed.

Lemma rd_app_l ns ns' i : i < Z.of_nat (length ns) → rd (ns ++ ns') i = rd ns i.
  Proof.
    intros. unfold rd. case_decide; [|done]. apply lookup_app_l. lia.
  Qed.

Lemma rd_ext ns ns' :
    length ns = length ns' → (∀ i, rd ns i = rd ns' i) → ns = ns'.
  Proof.
    intros Hl Hrd. apply list_eq. intros k.
    specialize (Hrd (Z.of_nat k)). unfold rd in Hrd.
    rewrite !decide_True, Nat2Z.id in Hrd by lia. done.
  Qed.
End Pool.

(** ** Rules for running a computation *)

Section Rules.
  Context {Rectf : Type}.
  Local Abbreviation b2TreeNode := (b2TreeNode Rectf).
  Local Abbreviation b2DynamicTree := (b2DynamicTree Rectf).
  Local Abbreviation M := (M Rectf).
  Implicit Types (t : b2DynamicTree).

Lemma wp_ret {A} (a : A) (Q : A → b2DynamicTree → Prop) t : Q a t → wp (ret a) Q t.
  Proof. intros. by exists a, t. Qed.

Lemma wp_bind {A B} (m : M A) (k : A → M B) (Q : B → b2DynamicTree → Prop) t :
    wp m (λ a t', wp (k a) Q t') t → wp (bind m k) Q t.
  Proof.
    intros (a & t' & Hm & b & t'' & Hk & HQ). exists b, t''.
    unfold bind. by rewrite Hm.
  Qed.

Lemma wp_mono {A} (m : M A) (Q Q' : A → b2DynamicTree → Prop) t :
    wp m Q t → (∀ a t', Q a t' → Q' a t') → wp m Q' t.
  Proof. intros (a & t' & Hm & HQ) HQQ. exists a, t'. eauto. Qed.

Lemma wp_run {A} (m : M A) (Q : A → b2DynamicTree → Prop) t a t' :
    wp m Q t → m t = Some (a, t') → Q a t'.
  Proof. intros (a0 & t0 & Hm & HQ) E. congruence. Qed.

Lemma wp_get {A} (f : b2DynamicTree → A) (Q : A → b2DynamicTree → Prop) t :
    Q (f t) t → wp (get f) Q t.
  Proof. intros. by exists (f t), t. Qed.

Lemma wp_put (f : b2DynamicTree → b2DynamicTree) (Q : unit → b2DynamicTree → Prop) t :
    Q tt (f t) → wp (put f) Q t.
  Proof. intros. by exists tt, (f t). Qed.

Lemma wp_assert (b : bool) (Q : unit → b2DynamicTree → Prop) t :
    b = true → Q tt t → wp (b2Assert b) Q t.
  Proof. intros -> ?. by exists tt, t. Qed.

Lemma wp_lift {A} (o : option A) (a : A) (Q : A → b2DynamicTree → Prop) t :
    o = Some a → Q a t → wp (lift o) Q t.
  Proof. intros -> ?. by exists a, t. Qed.

Lemma wp_node i n (Q : b2TreeNode → b2DynamicTree → Prop) t :
    rd (m_nodes t) i = Some n → Q n t → wp (node i) Q t.
  Proof. intros E ?. exists n, t. unfold node. by rewrite E. Qed.

Lemma wp_fld {A} i (f : b2TreeNode → A) n (Q : A → b2DynamicTree → Prop) t :
    rd (m_nodes t) i = Some n → Q (f n) t → wp (fld i f) Q t.
  Proof.
    intros E ?. exists (f n), t. unfold fld, bind, node, ret. by rewrite E.
  Qed.

Lemma wp_modify i (f : b2TreeNode → b2TreeNode) n (Q : unit → b2DynamicTree → Prop) t :
    rd (m_nodes t) i = Some n →
    Q tt (set_nodes (wr (m_nodes t) i (f n)) t) →
    wp (modify i f) Q t.
  Proof. intros E ?. eexists tt, _. unfold modify. by rewrite E. Qed.

Lemma wp_if {A} (b : bool) (m1 m2 : M A) (Q : A → b2DynamicTree → Prop) t :
    (b = true → wp m1 Q t) → (b = false → wp m2 Q t) → wp (if b then m1 else m2) Q t.
  Proof. destruct b; auto. Qed.
End Rules.

Ltac tsimpl :=
  unfold IsLeaf in *;
  cbn [m_root m_nodes m_nodeCount m_nodeCapacity m_freeList m_path m_insertionCount
       set_root set_nodes set_nodeCount set_nodeCapacity set_freeList set_path
       set_insertionCount
       aabb userData parent child1 child2 height moved next
       set_aabb set_userData set_parent set_next set_child1 set_child2 set_height
       set_moved] in *.

Lemma disjoint_cons_l (y : Z) (l k : list Z) :
  (∀ x, x ∈ (y :: l) → x ∉ k) → (y ∉ k) ∧ (∀ x, x ∈ l → x ∉ k).
Proof.
  intros Hd. split.
  - apply Hd. by left.
  - intros x Hx. apply Hd. by right.
Qed.

Lemma disjoint_app_l (l1 l2 k : list Z) :
  (∀ x, x ∈ l1 ++ l2 → x ∉ k) → (∀ x, x ∈ l1 → x ∉ k) ∧ (∀ x, x ∈ l2 → x ∉ k).
Proof.
  intros Hd. split; intros x Hx; apply Hd, elem_of_app.
  - by left.
  - by right.
Qed.

Ltac nodup_split :=
  repeat match goal with
         | H : NoDup (_ :: _) |- _ => apply NoDup_cons in H as [? ?]
         | H : NoDup (_ ++ _) |- _ => apply NoDup_app in H as (? & ? & ?)
         | H : ∀ x, x ∈ _ :: _ → x ∉ _ |- _ => apply disjoint_cons_l in H as [? ?]
         | H : ∀ x, x ∈ _ ++ _ → x ∉ _ |- _ => apply disjoint_app_l in H as [? ?]
         end.
Ltac notin_split :=
  repeat match goal with
         | H : _ ∉ _ ++ _ |- _ => apply not_elem_of_app in H as [? ?]
         | H : ?x ∉ ?y :: _ |- _ =>
             apply not_elem_of_cons in H as [H ?]; fold (apart x y) in H
         | H : _ ∉ [] |- _ => clear H
         end.
(* every known member of the left list of a disjointness fact is put
   outside of the right list *)
Ltac disj_inst :=
  repeat match goal with
         | Hd : ∀ x, x ∈ ?l → x ∉ ?k, Hi : ?i ∈ ?l |- _ =>
             lazymatch goal with
             | _ : i ∉ k |- _ => fail
             | _ => pose proof (Hd i Hi)
             end
         end.
Ltac distinct := nodup_split; disj_inst; notin_split.

Ltac range_solve := rewrite ?length_wr; lia.
Ltac neq_solve :=
  solve [ match goal with
          | H : apart ?i ?j |- ?i ≠ ?j => exact H
          | H : apart ?j ?i |- ?i ≠ ?j => exact (not_eq_sym H)
          end
        | let E := fresh in
          intros E;
          first [ by simplify_eq | by rewrite E in * | by rewrite <-E in * ]
        | unfold b2_nullNode in *; lia ].
Ltac rd_norm :=
  repeat first [ rewrite rd_wr_eq by range_solve | rewrite rd_wr_ne by neq_solve ].
Ltac rd_solve := tsimpl; rd_norm; first [ eassumption | reflexivity ].

Ltac wp_step :=
  lazymatch goal with
  | |- wp (bind _ _) _ _ => apply wp_bind
  | |- wp (ret _) _ _ => apply wp_ret
  | |- wp (get _) _ _ => apply wp_get
  | |- wp (put _) _ _ => apply wp_put
  | |- wp (fld _ _) _ _ => eapply wp_fld; [ rd_solve | ]
  | |- wp (node _) _ _ => eapply wp_node; [ rd_solve | ]
  | |- wp (modify _ _) _ _ => eapply wp_modify; [ rd_solve | ]
  | |- wp (b2Assert _) _ _ =>
      apply wp_assert;
      [ solve [ reflexivity
              | apply bool_decide_eq_true_2; tsimpl; unfold b2_nullNode in *;
                first [ lia | congruence | done ] ] | ]
  end; tsimpl; rewrite ?set_nodes_set_nodes, ?wr_wr.
Ltac wp_steps := repeat wp_step.

Section Shapes.
  Context {float Rectf : Type} {FO : FloatOps float} {RO : RectOps float Rectf}.
  Local Abbreviation b2TreeNode := (b2TreeNode Rectf).
  Local Abbreviation b2DynamicTree := (b2DynamicTree Rectf).
  Implicit Types (ns : list b2TreeNode) (t : b2DynamicTree) (s : shape)
    (c : list frame) (i p : Z).

Lemma idx_in_nodes s : idx s ∈ nodes s.
  Proof. destruct s; simpl; set_solver. Qed.

Lemma leaves_in_nodes s i : i ∈ leaves s → i ∈ nodes s.
  Proof. induction s; simpl; set_solver. Qed.

Lemma rep_root ns p s :
    rep ns p s →
    ∃ n, rd ns (idx s) = Some n ∧ parent n = p ∧
         match s with
         | Lf _ => child1 n = b2_nullNode ∧ child2 n = b2_nullNode ∧ height n = 0
         | Nd _ l r => child1 n = idx l ∧ child2 n = idx r ∧ 1 ≤ height n
                       ∧ child1 n ≠ b2_nullNode
         end.
  Proof.
    revert p. induction s as [i|i l IHl r IHr]; intros p; simpl.
    - intros (n & ? & ? & ? & ? & ?). eauto 10.
    - intros ((n & Hn & ? & H1 & H2 & ? & ?) & (n' & n1 & n2 & Hn' & Hn1 & Hn2 & Hh & _) & Hl & Hr).
      assert (n' = n) as -> by congruence.
      destruct (IHl _ Hl) as (m1 & Hm1 & _ & Hk1).
      destruct (IHr _ Hr) as (m2 & Hm2 & _ & Hk2).
      rewrite H1 in Hn1. rewrite H2 in Hn2.
      assert (0 ≤ height m1) by (destruct l; lia).
      assert (0 ≤ height m2) by (destruct r; lia).
      simplify_eq. exists n. split_and!; try done; try lia; congruence.
  Qed.

Lemma rep_root_height ns p s n :
    rep ns p s → rd ns (idx s) = Some n → 0 ≤ height n.
  Proof.
    intros Hr Hn. destruct (rep_root _ _ _ Hr) as (n' & Hn' & _ & Hk).
    simplify_eq. destruct s; lia.
  Qed.

Lemma rep_stale_of_rep ns p s : rep ns p s → rep_stale ns p s.
  Proof. destruct s; simpl; tauto. Qed.

  (** Writes outside of a tree leave it as it is. *)
Lemma rep_frame ns ns' p s :
    rep ns p s → (∀ i, i ∈ nodes s → rd ns' i = rd ns i) → rep ns' p s.
  Proof.
    revert p. induction s as [i|i l IHl r IHr]; intros p; simpl.
    - intros (n & ? & ?) Hf. exists n. rewrite Hf by set_solver. done.
    - intros ((n & Hn & Hl1) & (n' & n1 & n2 & Hn' & Hn1 & Hn2 & Hfit) & Hl & Hr) Hf.
      assert (n' = n) as -> by congruence.
      destruct Hl1 as (? & H1 & H2 & ?).
      split_and!.
      + exists n. rewrite Hf by set_solver. done.
      + exists n, n1, n2. rewrite !Hf; [done|..].
        * rewrite H2. pose proof (idx_in_nodes r). set_solver.
        * rewrite H1. pose proof (idx_in_nodes l). set_solver.
        * set_solver.
      + apply IHl; [done|]. intros. apply Hf. set_solver.
      + apply IHr; [done|]. intros. apply Hf. set_solver.
  Qed.

  (** Hanging a tree below another parent is a write to its root. *)
Lemma rep_reparent ns ns' p p' s n :
    rep ns p s → NoDup (nodes s) →
    rd ns (idx s) = Some n → rd ns' (idx s) = Some (set_parent p' n) →
    (∀ i, i ∈ nodes s → i ≠ idx s → rd ns' i = rd ns i) →
    rep ns' p' s.
  Proof.
    destruct s as [i|i l r]; simpl.
    - intros (n0 & ? & ? & ? & ? & ?) _ Hn Hn' _. simplify_eq.
      exists (set_parent p' n0). done.
    - intros ((n0 & Hn0 & ? & H1 & H2 & ? & ?) & (n' & n1 & n2 & Hn' & Hn1 & Hn2 & Hfit) & Hl & Hr)
        Hnd Hn Hns' Hf.
      simplify_eq. apply NoDup_cons in Hnd as [Hi Hnd].
      apply NoDup_app in Hnd as (Hndl & Hlr & Hndr).
      pose proof (idx_in_nodes l). pose proof (idx_in_nodes r).
      split_and!.
      + eexists. split; [done|]. done.
      + exists (set_parent p' n0), n1, n2. split; [done|]. tsimpl.
        rewrite H1, H2 in *.
        rewrite !Hf; [done| | | |]; set_solver.
      + eapply rep_frame; [done|]. intros. apply Hf; set_solver.
      + eapply rep_frame; [done|]. intros. apply Hf; set_solver.
  Qed.

Lemma ctx_rep_frame ns ns' hole c :
    ctx_rep ns hole c → (∀ i, i ∈ ctx_nodes c → rd ns' i = rd ns i) → ctx_rep ns' hole c.
  Proof.
    revert hole. induction c as [|f c IH]; intros hole; simpl; [done|].
    intros ((n & Hn & ?) & Hs & Hc) Hf. split_and!.
    - exists n. rewrite Hf by set_solver. done.
    - eapply rep_frame; [done|]. intros. apply Hf. set_solver.
    - apply IH; [done|]. intros. apply Hf. set_solver.
  Qed.

  (** Every node of a tree is the root of a subtree, with a path above. *)
Lemma nodes_plug s c : nodes (plug s c) ≡ₚ nodes s ++ ctx_nodes c.
  Proof.
    revert s. induction c as [|f c IH]; intros s; simpl.
    - by rewrite app_nil_r.
    - rewrite IH. unfold fill. destruct (f_side f); simpl; perm_solve.
  Qed.

Lemma leaves_plug s c : leaves (plug s c) ≡ₚ leaves s ++ ctx_leaves c.
  Proof.
    revert s. induction c as [|f c IH]; intros s; simpl.
    - by rewrite app_nil_r.
    - rewrite IH. unfold fill. destruct (f_side f); simpl; perm_solve.
  Qed.

Lemma idx_plug s c : idx (plug s c) = ctx_top (idx s) c.
  Proof.
    revert s. induction c as [|f c IH]; intros s; simpl; [done|].
    rewrite IH. unfold fill. by destruct (f_side f).
  Qed.

Lemma plug_app s c1 c2 : plug s (c1 ++ c2) = plug (plug s c1) c2.
  Proof. revert s. induction c1; intros; simpl; auto. Qed.

Lemma ctx_parent_app_top c f : ctx_parent (c ++ [f]) = match c with [] => f_idx f | g :: _ => f_idx g end.
  Proof. by destruct c. Qed.

Lemma find_node s i :
    i ∈ nodes s → ∃ s' c, s = plug s' c ∧ idx s' = i.
  Proof.
    induction s as [j|j l IHl r IHr]; simpl.
    - intros ->%list_elem_of_singleton. by exists (Lf j), [].
    - intros [->|[Hi|Hi]%elem_of_app]%elem_of_cons.
      + by exists (Nd j l r), [].
      + destruct (IHl Hi) as (s' & c & -> & <-).
        exists s', (c ++ [mkFrame j true r]). by rewrite plug_app.
      + destruct (IHr Hi) as (s' & c & -> & <-).
        exists s', (c ++ [mkFrame j false l]). by rewrite plug_app.
  Qed.

Lemma find_leaf s i :
    i ∈ leaves s → ∃ c, s = plug (Lf i) c.
  Proof.
    induction s as [j|j l IHl r IHr]; simpl.
    - intros ->%list_elem_of_singleton. by exists [].
    - intros [Hi|Hi]%elem_of_app.
      + destruct (IHl Hi) as (c & ->).
        exists (c ++ [mkFrame j true r]). by rewrite plug_app.
      + destruct (IHr Hi) as (c & ->).
        exists (c ++ [mkFrame j false l]). by rewrite plug_app.
  Qed.

  (** A tree in the pool, cut at a subtree. *)
Lemma rep_plug ns s c :
    rep ns b2_nullNode (plug s c) →
    rep ns (ctx_parent c) s ∧ ctx_rep ns (idx s) c.
  Proof.
    revert s. induction c as [|f c IH]; intros s; simpl; [done|].
    intros Hr. destruct (IH _ Hr) as [Hfill Hctx].
    unfold fill in *. destruct (f_side f); simpl in *.
    - destruct Hfill as (Hl & _ & Hs & Hsib). done.
    - destruct Hfill as (Hl & _ & Hsib & Hs). done.
  Qed.

End Shapes.

(** The pieces of the invariant after a run of writes. *)
Ltac linked_solve :=
  eexists; split; [ rd_solve | ]; tsimpl; split_and!;
  first [ done | unfold b2_nullNode in *; lia | congruence ].
Ltac fitted_solve :=
  eexists _, _, _; split; [ rd_solve | ]; tsimpl;
  split; [ rd_solve | ]; split; [ rd_solve | ]; tsimpl;
  split; [ first [ done | lia ] | first [ by left | by right ] ].
Ltac frame_solve :=
  let i := fresh "i" in
  let Hi := fresh "Hi" in
  intros i Hi; tsimpl; simpl in Hi; disj_inst; notin_split; rd_norm;
  first [ done | reflexivity ].
Ltac rep_solve :=
  first
    [ eapply rep_frame; [ eassumption | frame_solve ]
    | eapply rep_reparent;
      [ eassumption | done | eassumption | rd_solve
      | let i := fresh "i" in
        let Hi := fresh "Hi" in
        let Hne := fresh "Hne" in
        intros i Hi Hne; tsimpl; disj_inst; notin_split; rd_norm; done ] ].
Ltac outer_frame_solve :=
  let i := fresh "i" in
  let Hi := fresh "Hi" in
  let Hip := fresh "Hip" in
  intros i Hi Hip; simpl in Hi; notin_split; tsimpl; rd_norm; done.
Ltac same_frame_solve :=
  unfold same_frame; tsimpl; rewrite ?length_wr; done.

(** The case of [rotation] a branch of [Balance] is in. *)
Ltac rot_solve :=
  lazymatch goal with
  | Hrot : ∀ s', rotation _ _ s' → _ |- _ =>
      apply Hrot; tsimpl;
      repeat match goal with H : _ = sheight _ |- _ => revert H end;
      repeat match goal with H : context [(_ > _)%Z] |- _ => revert H end;
      repeat match goal with H : context [(_ < _)%Z] |- _ => revert H end;
      clear; intros; constructor; lia
  end.

(** A write at the node [i] itself: a node with children is no proxy, and
    a proxy gets a new parent at most. *)
Ltac kept_here Hx Hi Hc :=
  rewrite Hx in Hi; injection Hi as <-; tsimpl;
  first [ solve [ exfalso; first [ congruence | unfold b2_nullNode in *; lia ] ]
        | rd_norm; eexists; reflexivity ].
(** What the writes of a run leave of a proxy node [i]. *)
Ltac kept_cases i Hi Hc :=
  repeat match goal with
         | Hx : rd ?ns ?x = Some _, Hi' : rd ?ns i = Some _ |- context [wr _ ?x _] =>
             lazymatch goal with
             | _ : apart i x |- _ => fail
             | _ => idtac
             end;
             let Hne := fresh "Hne" in
             destruct (decide (i = x)) as [->|Hne];
             [ kept_here Hx Hi Hc | fold (apart i x) in Hne ]
         end.
Ltac kept_solve :=
  let i := fresh "i" in
  let n := fresh "n" in
  let Hip := fresh "Hip" in
  let Hi := fresh "Hi" in
  let Hc := fresh "Hc" in
  intros i n Hip Hi Hc; tsimpl;
  lazymatch type of Hip with
  | ?a ≠ ?b => fold (apart a b) in Hip
  | _ => idtac
  end;
  kept_cases i Hi Hc;
  rd_norm; rewrite Hi; destruct n; eexists; reflexivity.

Section Balance.
  Context {float Rectf : Type} {FO : FloatOps float} {RO : RectOps float Rectf}.
  Local Abbreviation b2TreeNode := (b2TreeNode Rectf).
  Local Abbreviation b2DynamicTree := (b2DynamicTree Rectf).
  Implicit Types (ns : list b2TreeNode) (t : b2DynamicTree) (s : shape)
    (c : list frame) (i p : Z).

Lemma relinked_root t t' a r : m_root t' = r → relinked t t' b2_nullNode a r.
  Proof. done. Qed.

Lemma relinked_parent t t' p a r np :
    p ≠ b2_nullNode → m_root t' = m_root t →
    rd (m_nodes t) p = Some np →
    rd (m_nodes t') p =
      Some (if bool_decide (child1 np = a) then set_child1 r np else set_child2 r np) →
    relinked t t' p a r.
  Proof.
    intros. unfold relinked. rewrite bool_decide_eq_false_2 by done. eauto.
  Qed.

Lemma relinked_id t p a :
    hangs_from t p a → relinked t t p a a.
  Proof.
    unfold relinked, hangs_from. case_bool_decide; [done|].
    intros (np & Hnp & Hor). split; [done|]. exists np. split; [done|].
    rewrite Hnp. f_equal. destruct np; simpl in *.
    case_bool_decide; simplify_eq; [done|]. destruct Hor; by simplify_eq.
  Qed.

Lemma same_frame_refl t : same_frame t t.
  Proof. by repeat split. Qed.

Lemma rep_height ns p s n :
    rep ns p s → rd ns (idx s) = Some n → height n = sheight s.
  Proof.
    revert p n. induction s as [i|i l IHl r IHr]; intros p n; simpl.
    - intros (n' & Hn' & _ & _ & _ & Hh) Hn. by simplify_eq.
    - intros ((n' & Hn' & _ & H1 & H2 & _) & (n0 & n1 & n2 & Hn0 & Hn1 & Hn2 & Hh & _) & Hl & Hr) Hn.
      simplify_eq. rewrite H1 in Hn1. rewrite H2 in Hn2.
      rewrite Hh, (IHl _ _ Hl Hn1), (IHr _ _ Hr Hn2). done.
  Qed.

Lemma kept_refl ns i n : rd ns i = Some n → ∃ q, rd ns i = Some (set_parent q n).
  Proof. intros ->. exists (parent n). by destruct n. Qed.

  (** [Balance], with what it leaves of the nodes without children: the
      same node, up to its parent. *)
Lemma Balance_full t s p :
    is_Nd s →
    rep_stale (m_nodes t) p s →
    NoDup (nodes s) → p ∉ nodes s →
    Z.of_nat (length (m_nodes t)) = m_nodeCapacity t →
    hangs_from t p (idx s) →
    wp (Balance (idx s)) (λ r t',
      ∃ s', idx s' = r ∧ is_Nd s' ∧ rep_stale (m_nodes t') p s'
            ∧ nodes s' ≡ₚ nodes s ∧ leaves s' ≡ₚ leaves s
            ∧ same_frame t t'
            ∧ (∀ i, i ∉ nodes s → i ≠ p → rd (m_nodes t') i = rd (m_nodes t) i)
            ∧ relinked t t' p (idx s) r
            ∧ (∀ na, rd (m_nodes t) (idx s) = Some na → rotation (height na) s s')
            ∧ (∀ i n, i ≠ p → rd (m_nodes t) i = Some n → child1 n = b2_nullNode →
                      ∃ q, rd (m_nodes t') i = Some (set_parent q n))) t.
  Proof.
    destruct s as [|a B C]; [done|]. intros _ (Hla & HB & HC) Hnd Hp Hlen Hhang.
    destruct Hla as (na & Hna & Hpa & Hc1 & Hc2 & Hha & Hc1n).
    assert (∀ s', rotation (height na) (Nd a B C) s' →
            ∀ na', rd (m_nodes t) (idx (Nd a B C)) = Some na' →
                   rotation (height na') (Nd a B C) s') as Hrot.
    { intros s' Hr na' Hna'. simpl in Hna'. by simplify_eq. }
    assert (height na < 2 ∨ -1 ≤ sheight C - sheight B ≤ 1 →
            ∃ s', idx s' = a ∧ is_Nd s' ∧ rep_stale (m_nodes t) p s'
            ∧ nodes s' ≡ₚ nodes (Nd a B C) ∧ leaves s' ≡ₚ leaves (Nd a B C)
            ∧ same_frame t t
            ∧ (∀ i, i ∉ nodes (Nd a B C) → i ≠ p → rd (m_nodes t) i = rd (m_nodes t) i)
            ∧ relinked t t p a a
            ∧ (∀ na', rd (m_nodes t) (idx (Nd a B C)) = Some na' →
                      rotation (height na') (Nd a B C) s')
            ∧ (∀ i n, i ≠ p → rd (m_nodes t) i = Some n → child1 n = b2_nullNode →
                      ∃ q, rd (m_nodes t) i = Some (set_parent q n))) as Hid.
    { intros Hk. exists (Nd a B C).
      split_and!; auto using same_frame_refl, relinked_id; try (by simpl).
      - simpl. split; [|done]. exists na. done.
      - apply Hrot. by constructor.
      - intros i n _ Hi _. by apply kept_refl. }
    destruct (rep_root _ _ _ HB) as (nb & Hnb & Hpb & HkB).
    destruct (rep_root _ _ _ HC) as (nc & Hnc & Hpc & HkC).
    pose proof (rep_height _ _ _ _ HB Hnb) as HsB.
    pose proof (rep_height _ _ _ _ HC Hnc) as HsC.
    pose proof (rep_root_height _ _ _ _ HB Hnb) as HhB.
    pose proof (rep_root_height _ _ _ _ HC Hnc) as HhC.
    pose proof (rd_Some_range _ _ _ Hna) as Hra.
    pose proof (rd_Some_range _ _ _ Hnb) as Hrb.
    pose proof (rd_Some_range _ _ _ Hnc) as Hrc.
    simpl idx.
    destruct na as [ba ua pa c1a c2a ha ma]. tsimpl. subst pa c1a c2a.
    destruct nb as [bb ub pb c1b c2b hb mb]. tsimpl. subst pb.
    destruct nc as [bc uc pc c1c c2c hc mc]. tsimpl. subst pc.
    unfold Balance. wp_steps.
    rewrite (bool_decide_eq_false_2 _ Hc1n). simpl orb.
    case_bool_decide as Hh2; [wp_step; apply Hid; by left|].
    wp_steps.
    case_bool_decide as Hbal1.
    { (* rotate C up *)
      destruct C as [|c F G]; [lia|]. simpl in HC.
      destruct HC as (_ & Hfc & HF & HG). simpl idx in *.
      destruct HkC as (Hcc1 & Hcc2 & _ & _). subst c1c c2c.
      clear Hid.
      destruct (rep_root _ _ _ HF) as (nf & Hnf & Hpf & HkF).
      destruct (rep_root _ _ _ HG) as (ng & Hng & Hpg & HkG).
      pose proof (rep_height _ _ _ _ HF Hnf) as HsF.
      pose proof (rep_height _ _ _ _ HG Hng) as HsG.
      destruct nf as [bf uf pf c1f c2f hf mf]. tsimpl. subst pf.
      destruct ng as [bg ug pg c1g c2g hg mg]. tsimpl. subst pg.
      pose proof (rd_Some_range _ _ _ Hnf) as Hrf.
      pose proof (rd_Some_range _ _ _ Hng) as Hrg.
      pose proof (idx_in_nodes B). pose proof (idx_in_nodes F). pose proof (idx_in_nodes G).
      simpl in Hnd, Hp. distinct.
      assert (apart a (idx B) ∧ apart a (idx F) ∧ apart a (idx G)
              ∧ apart c (idx F) ∧ apart c (idx G)
              ∧ apart (idx B) (idx F) ∧ apart (idx B) (idx G) ∧ apart (idx F) (idx G)
              ∧ apart p (idx B) ∧ apart p (idx F) ∧ apart p (idx G))
        as (?&?&?&?&?&?&?&?&?&?&?) by (unfold apart; split_and!; neq_solve).
      unfold Balance_rotate_C. wp_steps.
      unfold hangs_from in Hhang. unfold Balance_relink.
      case_bool_decide as Hpn.
      { (* A was the root *)
        subst p.
        wp_steps. rewrite bool_decide_eq_false_2 by (by intros []).
        wp_steps. case_bool_decide as Hfg; wp_steps;
        [ exists (Nd c (Nd a B G) F) | exists (Nd c (Nd a B F) G) ];
        (split_and!;
         [done|done| |simpl; perm_solve..|same_frame_solve|outer_frame_solve
         |by apply relinked_root|rot_solve|kept_solve];
         simpl; split_and!; first [linked_solve | fitted_solve | rep_solve]). }
      destruct Hhang as (np & Hnp & Hor).
      pose proof (rd_Some_range _ _ _ Hnp) as Hrp.
      destruct np as [bp up pp c1p c2p hp mp]. tsimpl.
      wp_steps. rewrite bool_decide_eq_true_2 by done. wp_steps.
      assert (c2p = a ∨ c1p = a) as Hor' by tauto.
      case_bool_decide as Hcp; wp_steps; (case_bool_decide as Hfg; wp_steps;
        [ exists (Nd c (Nd a B G) F) | exists (Nd c (Nd a B F) G) ];
        (split_and!;
         [done|done| |simpl; perm_solve..|same_frame_solve|outer_frame_solve
         |eapply relinked_parent; [done|done|exact Hnp|];
          tsimpl; rd_norm; case_bool_decide; first [done | congruence]
         |rot_solve|kept_solve];
         simpl; split_and!; first [linked_solve | fitted_solve | rep_solve])). }
    case_bool_decide as Hbal2; [|wp_step; apply Hid; right; clear -Hbal1 Hbal2 HsB HsC; lia].
    clear Hid.
    (* rotate B up *)
    destruct B as [|b D E]; [lia|]. simpl in HB.
    destruct HB as (_ & Hfb & HD & HE). simpl idx in *.
    destruct HkB as (Hbc1 & Hbc2 & _ & _). subst c1b c2b.
    destruct (rep_root _ _ _ HD) as (nd & Hnd' & Hpd & HkD).
    destruct (rep_root _ _ _ HE) as (ne & Hne & Hpe & HkE).
    pose proof (rep_height _ _ _ _ HD Hnd') as HsD.
    pose proof (rep_height _ _ _ _ HE Hne) as HsE.
    destruct nd as [bd ud pd c1d c2d hd md]. tsimpl. subst pd.
    destruct ne as [be ue pe c1e c2e he me]. tsimpl. subst pe.
    pose proof (rd_Some_range _ _ _ Hnd') as Hrd.
    pose proof (rd_Some_range _ _ _ Hne) as Hre.
    pose proof (idx_in_nodes C). pose proof (idx_in_nodes D). pose proof (idx_in_nodes E).
    simpl in Hnd, Hp. distinct.
    assert (apart a (idx C) ∧ apart a (idx D) ∧ apart a (idx E)
            ∧ apart b (idx D) ∧ apart b (idx E) ∧ apart b (idx C)
            ∧ apart (idx C) (idx D) ∧ apart (idx C) (idx E) ∧ apart (idx D) (idx E)
            ∧ apart p (idx C) ∧ apart p (idx D) ∧ apart p (idx E))
      as (?&?&?&?&?&?&?&?&?&?&?&?) by (unfold apart; split_and!; neq_solve).
    unfold Balance_rotate_B. wp_steps.
    unfold hangs_from in Hhang. unfold Balance_relink.
    case_bool_decide as Hpn.
    { (* A was the root *)
      subst p.
      wp_steps. rewrite bool_decide_eq_false_2 by (by intros []).
      wp_steps. case_bool_decide as Hde; wp_steps;
      [ exists (Nd b (Nd a E C) D) | exists (Nd b (Nd a D C) E) ];
      (split_and!;
       [done|done| |simpl; perm_solve..|same_frame_solve|outer_frame_solve
       |by apply relinked_root|rot_solve|kept_solve];
       simpl; split_and!; first [linked_solve | fitted_solve | rep_solve]). }
    destruct Hhang as (np & Hnp & Hor).
    pose proof (rd_Some_range _ _ _ Hnp) as Hrp.
    destruct np as [bp up pp c1p c2p hp mp]. tsimpl.
    wp_steps. rewrite bool_decide_eq_true_2 by done. wp_steps.
    assert (c2p = a ∨ c1p = a) as Hor' by tauto.
    case_bool_decide as Hcp; wp_steps; (case_bool_decide as Hde; wp_steps;
      [ exists (Nd b (Nd a E C) D) | exists (Nd b (Nd a D C) E) ];
      (split_and!;
       [done|done| |simpl; perm_solve..|same_frame_solve|outer_frame_solve
       |eapply relinked_parent; [done|done|exact Hnp|];
        tsimpl; rd_norm; case_bool_decide; first [done | congruence]
       |rot_solve|kept_solve];
       simpl; split_and!; first [linked_solve | fitted_solve | rep_solve])).
  Qed.

Lemma Balance_spec t s p :
    is_Nd s →
    rep_stale (m_nodes t) p s →
    NoDup (nodes s) → p ∉ nodes s →
    Z.of_nat (length (m_nodes t)) = m_nodeCapacity t →
    hangs_from t p (idx s) →
    wp (Balance (idx s)) (λ r t',
      ∃ s', idx s' = r ∧ is_Nd s' ∧ rep_stale (m_nodes t') p s'
            ∧ nodes s' ≡ₚ nodes s ∧ leaves s' ≡ₚ leaves s
            ∧ same_frame t t'
            ∧ (∀ i, i ∉ nodes s → i ≠ p → rd (m_nodes t') i = rd (m_nodes t) i)
            ∧ relinked t t' p (idx s) r
            ∧ (∀ na, rd (m_nodes t) (idx s) = Some na → rotation (height na) s s')) t.
  Proof.
    intros HNd Hs Hnd Hp Hlen Hhang.
    eapply wp_mono; [by apply (Balance_full t s p)|].
    intros r t' (s' & ? & ? & ? & ? & ? & ? & ? & ? & ? & _). exists s'. done.
  Qed.
End Balance.

Section Refit.
  Context {float Rectf : Type} {FO : FloatOps float} {RO : RectOps float Rectf}.
  Local Abbreviation b2TreeNode := (b2TreeNode Rectf).
  Local Abbreviation b2DynamicTree := (b2DynamicTree Rectf).
  Implicit Types (ns : list b2TreeNode) (t : b2DynamicTree) (s : shape)
    (c : list frame) (i p : Z).

Lemma same_frame_trans t1 t2 t3 : same_frame t1 t2 → same_frame t2 t3 → same_frame t1 t3.
  Proof. unfold same_frame. intros (?&?&?&?&?&?) (?&?&?&?&?&?). split_and!; congruence. Qed.

Lemma rep_nodes_rd ns p s i : rep ns p s → i ∈ nodes s → is_Some (rd ns i).
  Proof.
    revert p. induction s as [j|j l IHl r IHr]; intros p; simpl.
    - intros (n & Hn & _) ->%list_elem_of_singleton. eauto.
    - intros ((n & Hn & _) & _ & Hl & Hr) [->|[Hi|Hi]%elem_of_app]%elem_of_cons; eauto.
  Qed.

Lemma rep_stale_nodes_rd ns p s i : rep_stale ns p s → i ∈ nodes s → is_Some (rd ns i).
  Proof.
    destruct s as [j|j l r]; simpl.
    - intros (n & Hn & _) ->%list_elem_of_singleton. eauto.
    - intros ((n & Hn & _) & Hl & Hr) [->|[Hi|Hi]%elem_of_app]%elem_of_cons;
        eauto using rep_nodes_rd.
  Qed.

Lemma null_not_in_nodes ns p s : rep_stale ns p s → b2_nullNode ∉ nodes s.
  Proof.
    intros Hs Hin. destruct (rep_stale_nodes_rd _ _ _ _ Hs Hin) as [n Hn].
    apply rd_Some_range in Hn. unfold b2_nullNode in Hn. lia.
  Qed.

Lemma idx_fill f s : idx (fill f s) = f_idx f.
  Proof. unfold fill. by destruct (f_side f). Qed.

Lemma rd_null ns : rd ns b2_nullNode = None.
  Proof. done. Qed.

Lemma walk_hangs t s c : walk_state t s c → hangs_from t (ctx_parent c) (idx s).
  Proof.
    intros (_ & Hs & Hc & _ & _ & Hroot). unfold hangs_from.
    destruct c as [|f c]; simpl in *; [done|].
    destruct Hc as ((n & Hn & _ & H1 & H2 & _) & _).
    pose proof (rd_Some_range _ _ _ Hn).
    rewrite bool_decide_eq_false_2 by (unfold b2_nullNode; lia).
    exists n. split; [done|]. destruct (f_side f); auto.
  Qed.

  (** One round of the walk: [Balance], then the height and the box of
      the node that [Balance] returns. *)
Lemma InsertLeaf_refit_round t s c (k : Z → M Rectf unit) (Q : unit → b2DynamicTree → Prop) :
    walk_state t s c →
    (∀ t' s', is_Nd s' → rep (m_nodes t') (ctx_parent c) s'
       → nodes s' ≡ₚ nodes s → leaves s' ≡ₚ leaves s
       → same_frame t t'
       → (∀ i, i ∉ nodes s → i ≠ ctx_parent c → rd (m_nodes t') i = rd (m_nodes t) i)
       → relinked t t' (ctx_parent c) (idx s) (idx s')
       → (∀ i n, i ≠ ctx_parent c → rd (m_nodes t) i = Some n → child1 n = b2_nullNode →
                 ∃ q, rd (m_nodes t') i = Some (set_parent q n))
       → wp (k (ctx_parent c)) Q t') →
    wp (index <- Balance (idx s);;
        child1 <- fld index child1;;
        child2 <- fld index child2;;
        b2Assert (bool_decide (child1 ≠ b2_nullNode));;;
        b2Assert (bool_decide (child2 ≠ b2_nullNode));;;
        h1 <- fld child1 height;; h2 <- fld child2 height;;
        modify index (set_height (1 + Z.max h1 h2));;;
        b1 <- fld child1 aabb;; b2 <- fld child2 aabb;;
        modify index (set_aabb (combine b1 b2));;;
        p <- fld index parent;;
        k p) Q t.
  Proof.
    intros Hw Hk. pose proof (walk_hangs _ _ _ Hw) as Hhang.
    destruct Hw as (HNd & Hs & Hc & Hnd & Hlen & Hroot).
    assert (ctx_parent c ∉ nodes s) as Hpn.
    { destruct c as [|f c]; simpl in *.
      - by eapply null_not_in_nodes.
      - apply NoDup_app in Hnd as (_ & Hd & _). intros Hin. apply (Hd _ Hin). by left. }
    apply wp_bind. eapply wp_mono.
    { apply (Balance_full t s (ctx_parent c)); try done. by apply NoDup_app in Hnd as (? & _). }
    intros r t1 (s' & Hr & HNd' & Hs' & Hns & Hls & Hsf & Hfr & Hrel & _ & Hkept). subst r.
    destruct s' as [|a l r]; [done|]. destruct Hs' as (Hla & Hl & Hr). simpl idx.
    destruct Hla as (na & Hna & Hpa & Hc1 & Hc2 & Hha & Hc1n).
    destruct (rep_root _ _ _ Hl) as (nl & Hnl & Hpl & HkL).
    destruct (rep_root _ _ _ Hr) as (nr & Hnr & Hpr & HkR).
    pose proof (rep_root_height _ _ _ _ Hl Hnl) as HhL.
    pose proof (rep_root_height _ _ _ _ Hr Hnr) as HhR.
    pose proof (rd_Some_range _ _ _ Hna). pose proof (rd_Some_range _ _ _ Hnl).
    pose proof (rd_Some_range _ _ _ Hnr).
    destruct na as [ba ua pa c1a c2a ha ma]. tsimpl. subst pa c1a c2a.
    assert (NoDup (nodes (Nd a l r))) as Hnd'.
    { rewrite Hns. by apply NoDup_app in Hnd as (? & _). }
    simpl in Hnd'. pose proof (idx_in_nodes l). pose proof (idx_in_nodes r).
    distinct.
    assert (apart a (idx l) ∧ apart a (idx r)) as [? ?] by (unfold apart; split; neq_solve).
    assert (a ∈ nodes s) as Has by (rewrite <-Hns; by left).
    wp_steps. apply (Hk _ (Nd a l r)); try done.
    - simpl. split_and!; first [linked_solve | fitted_solve | rep_solve].
    - eapply same_frame_trans; [exact Hsf|]. same_frame_solve.
    - intros i Hi Hip. tsimpl. rd_norm. by apply Hfr.
    - unfold relinked in *. case_bool_decide; [done|].
      destruct Hrel as (Hroot' & np & Hnp & Hnp'). split; [done|].
      exists np. split; [done|]. tsimpl. rd_norm. done.
    - intros i n Hip Hi Hc0. destruct (Hkept i n Hip Hi Hc0) as [q Hq]. tsimpl.
      assert (i ≠ a) as Hia.
      { intros ->. rewrite Hna in Hq. destruct n. injection Hq as ?. tsimpl. congruence. }
      rd_norm. eauto.
  Qed.

Lemma RemoveLeaf_refit_round t s c (k : Z → M Rectf unit) (Q : unit → b2DynamicTree → Prop) :
    walk_state t s c →
    (∀ t' s', is_Nd s' → rep (m_nodes t') (ctx_parent c) s'
       → nodes s' ≡ₚ nodes s → leaves s' ≡ₚ leaves s
       → same_frame t t'
       → (∀ i, i ∉ nodes s → i ≠ ctx_parent c → rd (m_nodes t') i = rd (m_nodes t) i)
       → relinked t t' (ctx_parent c) (idx s) (idx s')
       → (∀ i n, i ≠ ctx_parent c → rd (m_nodes t) i = Some n → child1 n = b2_nullNode →
                 ∃ q, rd (m_nodes t') i = Some (set_parent q n))
       → wp (k (ctx_parent c)) Q t') →
    wp (index <- Balance (idx s);;
        child1 <- fld index child1;;
        child2 <- fld index child2;;
        b1 <- fld child1 aabb;; b2 <- fld child2 aabb;;
        modify index (set_aabb (combine b1 b2));;;
        h1 <- fld child1 height;; h2 <- fld child2 height;;
        modify index (set_height (1 + Z.max h1 h2));;;
        p <- fld index parent;;
        k p) Q t.
  Proof.
    intros Hw Hk. pose proof (walk_hangs _ _ _ Hw) as Hhang.
    destruct Hw as (HNd & Hs & Hc & Hnd & Hlen & Hroot).
    assert (ctx_parent c ∉ nodes s) as Hpn.
    { destruct c as [|f c]; simpl in *.
      - by eapply null_not_in_nodes.
      - apply NoDup_app in Hnd as (_ & Hd & _). intros Hin. apply (Hd _ Hin). by left. }
    apply wp_bind. eapply wp_mono.
    { apply (Balance_full t s (ctx_parent c)); try done. by apply NoDup_app in Hnd as (? & _). }
    intros r t1 (s' & Hr & HNd' & Hs' & Hns & Hls & Hsf & Hfr & Hrel & _ & Hkept). subst r.
    destruct s' as [|a l r]; [done|]. destruct Hs' as (Hla & Hl & Hr). simpl idx.
    destruct Hla as (na & Hna & Hpa & Hc1 & Hc2 & Hha & Hc1n).
    destruct (rep_root _ _ _ Hl) as (nl & Hnl & Hpl & HkL).
    destruct (rep_root _ _ _ Hr) as (nr & Hnr & Hpr & HkR).
    pose proof (rep_root_height _ _ _ _ Hl Hnl) as HhL.
    pose proof (rep_root_height _ _ _ _ Hr Hnr) as HhR.
    pose proof (rd_Some_range _ _ _ Hna). pose proof (rd_Some_range _ _ _ Hnl).
    pose proof (rd_Some_range _ _ _ Hnr).
    destruct na as [ba ua pa c1a c2a ha ma]. tsimpl. subst pa c1a c2a.
    assert (NoDup (nodes (Nd a l r))) as Hnd'.
    { rewrite Hns. by apply NoDup_app in Hnd as (? & _). }
    simpl in Hnd'. pose proof (idx_in_nodes l). pose proof (idx_in_nodes r).
    distinct.
    assert (apart a (idx l) ∧ apart a (idx r)) as [? ?] by (unfold apart; split; neq_solve).
    assert (a ∈ nodes s) as Has by (rewrite <-Hns; by left).
    wp_steps. apply (Hk _ (Nd a l r)); try done.
    - simpl. split_and!; first [linked_solve | fitted_solve | rep_solve].
    - eapply same_frame_trans; [exact Hsf|]. same_frame_solve.
    - intros i Hi Hip. tsimpl. rd_norm. by apply Hfr.
    - unfold relinked in *. case_bool_decide; [done|].
      destruct Hrel as (Hroot' & np & Hnp & Hnp'). split; [done|].
      exists np. split; [done|]. tsimpl. rd_norm. done.
    - intros i n Hip Hi Hc0. destruct (Hkept i n Hip Hi Hc0) as [q Hq]. tsimpl.
      assert (i ≠ a) as Hia.
      { intros ->. rewrite Hna in Hq. destruct n. injection Hq as ?. tsimpl. congruence. }
      rd_norm. eauto.
  Qed.

Lemma InsertLeaf_refit_spec fuel t s c :
    walk_state t s c → (length c < fuel)%nat →
    wp (InsertLeaf_refit fuel (idx s)) (λ _ t',
      walk_done t s c t'
      ∧ (∀ i n, rd (m_nodes t) i = Some n → child1 n = b2_nullNode →
                ∃ q, rd (m_nodes t') i = Some (set_parent q n))) t.
  Proof.
    revert fuel t s. induction c as [|f c IH]; intros fuel t s Hw Hfuel.
    - destruct fuel as [|fuel]; [simpl in Hfuel; lia|].
      assert (idx s ≠ b2_nullNode) as Hnn.
      { destruct Hw as (_ & Hs & _). intros E. eapply null_not_in_nodes; [done|].
        rewrite <-E. apply idx_in_nodes. }
      simpl InsertLeaf_refit. rewrite bool_decide_eq_true_2 by done.
      apply InsertLeaf_refit_round with (c := []); [done|].
      intros t' s' HNd' Hs' Hns Hls Hsf Hfr Hrel Hkept. simpl ctx_parent.
      assert (walk_done t s [] t'
              ∧ (∀ i n, rd (m_nodes t) i = Some n → child1 n = b2_nullNode →
                        ∃ q, rd (m_nodes t') i = Some (set_parent q n))) as Hdone;
        [|by destruct fuel; simpl; apply wp_ret].
      split.
      + exists s'. simpl in *. rewrite !app_nil_r. split_and!; try done.
        intros i Hi. destruct (decide (i = b2_nullNode)) as [->|]; [by rewrite !rd_null|].
        by apply Hfr.
      + intros i n Hi Hc0. apply Hkept; [|done..]. simpl. intros ->.
        by rewrite rd_null in Hi.
    - destruct fuel as [|fuel]; [simpl in Hfuel; lia|].
      assert (idx s ≠ b2_nullNode) as Hnn.
      { destruct Hw as (_ & Hs & _). intros E. eapply null_not_in_nodes; [done|].
        rewrite <-E. apply idx_in_nodes. }
      simpl InsertLeaf_refit. rewrite bool_decide_eq_true_2 by done.
      apply InsertLeaf_refit_round with (c := f :: c); [done|].
      intros t' s' HNd' Hs' Hns Hls Hsf Hfr Hrel Hkept. simpl ctx_parent in *.
      destruct Hw as (HNd & Hs & Hc & Hnd & Hlen & Hroot).
      simpl in Hc. destruct Hc as (Hlf & Hsib & Hc).
      destruct Hlf as (nf & Hnf & Hpf & Hf1 & Hf2 & Hhf & Hf1n).
      assert (∀ i n, rd (m_nodes t) i = Some n → child1 n = b2_nullNode → i ≠ f_idx f)
        as Hleaf.
      { intros i n Hi Hc1 ->. rewrite Hnf in Hi. injection Hi as <-. congruence. }
      pose proof (rd_Some_range _ _ _ Hnf) as Hrf.
      assert (f_idx f ≠ b2_nullNode) as Hfn by (unfold b2_nullNode; lia).
      unfold relinked in Hrel. rewrite bool_decide_eq_false_2 in Hrel by done.
      destruct Hrel as (Hroot' & np & Hnp & Hnp'). simplify_eq.
      simpl in Hnd.
      assert (idx s ∈ nodes s) as His by apply idx_in_nodes.
      assert (idx (f_sib f) ∈ nodes (f_sib f)) as Hisib by apply idx_in_nodes.
      assert (idx s' ∈ nodes s) as His' by (rewrite <-Hns; apply idx_in_nodes).
      assert (nodes (fill f s') ++ ctx_nodes c ≡ₚ nodes s ++ ctx_nodes (f :: c)) as HP.
      { unfold fill. destruct (f_side f); simpl; perm_solve. }
      assert (leaves (fill f s') ++ ctx_leaves c ≡ₚ leaves s ++ ctx_leaves (f :: c)) as HPl.
      { unfold fill. destruct (f_side f); simpl; perm_solve. }
      assert (id (NoDup (nodes (fill f s') ++ ctx_nodes c))) as Hnd0.
      { unfold id. by rewrite HP. }
      distinct.
      assert (idx (f_sib f) ≠ idx s) as Hss by neq_solve.
      assert (∀ i, i ∈ nodes (f_sib f) ++ ctx_nodes c → rd (m_nodes t') i = rd (m_nodes t) i)
        as Hfr'.
      { intros i [Hi|Hi]%elem_of_app; apply Hfr;
          first [ by intros -> | intros Hin; disj_inst; notin_split; done ]. }
      eapply wp_mono.
      { rewrite <-(idx_fill f s').
        apply (IH fuel t' (fill f s')); [|simpl in Hfuel; lia].
        split_and!.
        - unfold fill. by destruct (f_side f).
        - unfold fill. destruct (f_side f); simpl; split_and!; try done.
          + eexists. split; [exact Hnp'|]. rewrite bool_decide_eq_true_2 by done.
            tsimpl. split_and!; try done. intros E.
            eapply (null_not_in_nodes _ _ s'); [by apply rep_stale_of_rep|].
            rewrite <-E. apply idx_in_nodes.
          + eapply rep_frame; [done|]. intros. apply Hfr'. set_solver.
          + eexists. split; [exact Hnp'|]. rewrite bool_decide_eq_false_2 by congruence.
            tsimpl. split_and!; try done.
          + eapply rep_frame; [done|]. intros. apply Hfr'. set_solver.
        - rewrite idx_fill.
          eapply ctx_rep_frame; [done|]. intros. apply Hfr'. set_solver.
        - exact Hnd0.
        - destruct Hsf as (? & ? & ? & _). congruence.
        - rewrite idx_fill. simpl in Hroot. congruence. }
      intros _ t2 ((T' & HT & Hr & Hn & Hl & Hsf2 & Hfr2) & Hkept2). split.
      { exists T'. split_and!; try done.
        + by rewrite Hn.
        + by rewrite Hl.
        + by eapply same_frame_trans.
        + intros i Hi. rewrite Hfr2 by (by rewrite HP).
          simpl in Hi. notin_split. apply Hfr; [done|]. neq_solve. }
      intros i n Hi Hc1.
      destruct (Hkept i n (Hleaf i n Hi Hc1) Hi Hc1) as [q Hq].
      destruct (Hkept2 i _ Hq) as [q' Hq']; [by destruct n|].
      exists q'. rewrite Hq'. by destruct n.
  Qed.

Lemma RemoveLeaf_refit_spec fuel t s c :
    walk_state t s c → (length c < fuel)%nat →
    wp (RemoveLeaf_refit fuel (idx s)) (λ _ t',
      walk_done t s c t'
      ∧ (∀ i n, rd (m_nodes t) i = Some n → child1 n = b2_nullNode →
                ∃ q, rd (m_nodes t') i = Some (set_parent q n))) t.
  Proof.
    revert fuel t s. induction c as [|f c IH]; intros fuel t s Hw Hfuel.
    - destruct fuel as [|fuel]; [simpl in Hfuel; lia|].
      assert (idx s ≠ b2_nullNode) as Hnn.
      { destruct Hw as (_ & Hs & _). intros E. eapply null_not_in_nodes; [done|].
        rewrite <-E. apply idx_in_nodes. }
      simpl RemoveLeaf_refit. rewrite bool_decide_eq_true_2 by done.
      apply RemoveLeaf_refit_round with (c := []); [done|].
      intros t' s' HNd' Hs' Hns Hls Hsf Hfr Hrel Hkept. simpl ctx_parent.
      assert (walk_done t s [] t'
              ∧ (∀ i n, rd (m_nodes t) i = Some n → child1 n = b2_nullNode →
                        ∃ q, rd (m_nodes t') i = Some (set_parent q n))) as Hdone;
        [|by destruct fuel; simpl; apply wp_ret].
      split.
      + exists s'. simpl in *. rewrite !app_nil_r. split_and!; try done.
        intros i Hi. destruct (decide (i = b2_nullNode)) as [->|]; [by rewrite !rd_null|].
        by apply Hfr.
      + intros i n Hi Hc0. apply Hkept; [|done..]. simpl. intros ->.
        by rewrite rd_null in Hi.
    - destruct fuel as [|fuel]; [simpl in Hfuel; lia|].
      assert (idx s ≠ b2_nullNode) as Hnn.
      { destruct Hw as (_ & Hs & _). intros E. eapply null_not_in_nodes; [done|].
        rewrite <-E. apply idx_in_nodes. }
      simpl RemoveLeaf_refit. rewrite bool_decide_eq_true_2 by done.
      apply RemoveLeaf_refit_round with (c := f :: c); [done|].
      intros t' s' HNd' Hs' Hns Hls Hsf Hfr Hrel Hkept. simpl ctx_parent in *.
      destruct Hw as (HNd & Hs & Hc & Hnd & Hlen & Hroot).
      simpl in Hc. destruct Hc as (Hlf & Hsib & Hc).
      destruct Hlf as (nf & Hnf & Hpf & Hf1 & Hf2 & Hhf & Hf1n).
      assert (∀ i n, rd (m_nodes t) i = Some n → child1 n = b2_nullNode → i ≠ f_idx f)
        as Hleaf.
      { intros i n Hi Hc1 ->. rewrite Hnf in Hi. injection Hi as <-. congruence. }
      pose proof (rd_Some_range _ _ _ Hnf) as Hrf.
      assert (f_idx f ≠ b2_nullNode) as Hfn by (unfold b2_nullNode; lia).
      unfold relinked in Hrel. rewrite bool_decide_eq_false_2 in Hrel by done.
      destruct Hrel as (Hroot' & np & Hnp & Hnp'). simplify_eq.
      simpl in Hnd.
      assert (idx s ∈ nodes s) as His by apply idx_in_nodes.
      assert (idx (f_sib f) ∈ nodes (f_sib f)) as Hisib by apply idx_in_nodes.
      assert (idx s' ∈ nodes s) as His' by (rewrite <-Hns; apply idx_in_nodes).
      assert (nodes (fill f s') ++ ctx_nodes c ≡ₚ nodes s ++ ctx_nodes (f :: c)) as HP.
      { unfold fill. destruct (f_side f); simpl; perm_solve. }
      assert (leaves (fill f s') ++ ctx_leaves c ≡ₚ leaves s ++ ctx_leaves (f :: c)) as HPl.
      { unfold fill. destruct (f_side f); simpl; perm_solve. }
      assert (id (NoDup (nodes (fill f s') ++ ctx_nodes c))) as Hnd0.
      { unfold id. by rewrite HP. }
      distinct.
      assert (idx (f_sib f) ≠ idx s) as Hss by neq_solve.
      assert (∀ i, i ∈ nodes (f_sib f) ++ ctx_nodes c → rd (m_nodes t') i = rd (m_nodes t) i)
        as Hfr'.
      { intros i [Hi|Hi]%elem_of_app; apply Hfr;
          first [ by intros -> | intros Hin; disj_inst; notin_split; done ]. }
      eapply wp_mono.
      { rewrite <-(idx_fill f s').
        apply (IH fuel t' (fill f s')); [|simpl in Hfuel; lia].
        split_and!.
        - unfold fill. by destruct (f_side f).
        - unfold fill. destruct (f_side f); simpl; split_and!; try done.
          + eexists. split; [exact Hnp'|]. rewrite bool_decide_eq_true_2 by done.
            tsimpl. split_and!; try done. intros E.
            eapply (null_not_in_nodes _ _ s'); [by apply rep_stale_of_rep|].
            rewrite <-E. apply idx_in_nodes.
          + eapply rep_frame; [done|]. intros. apply Hfr'. set_solver.
          + eexists. split; [exact Hnp'|]. rewrite bool_decide_eq_false_2 by congruence.
            tsimpl. split_and!; try done.
          + eapply rep_frame; [done|]. intros. apply Hfr'. set_solver.
        - rewrite idx_fill.
          eapply ctx_rep_frame; [done|]. intros. apply Hfr'. set_solver.
        - exact Hnd0.
        - destruct Hsf as (? & ? & ? & _). congruence.
        - rewrite idx_fill. simpl in Hroot. congruence. }
      intros _ t2 ((T' & HT & Hr & Hn & Hl & Hsf2 & Hfr2) & Hkept2). split.
      { exists T'. split_and!; try done.
        + by rewrite Hn.
        + by rewrite Hl.
        + by eapply same_frame_trans.
        + intros i Hi. rewrite Hfr2 by (by rewrite HP).
          simpl in Hi. notin_split. apply Hfr; [done|]. neq_solve. }
      intros i n Hi Hc1.
      destruct (Hkept i n (Hleaf i n Hi Hc1) Hi Hc1) as [q Hq].
      destruct (Hkept2 i _ Hq) as [q' Hq']; [by destruct n|].
      exists q'. rewrite Hq'. by destruct n.
  Qed.
End Refit.

Section PoolInv.
  Context {float Rectf : Type} {FO : FloatOps float} {RO : RectOps float Rectf}.
  Local Abbreviation b2TreeNode := (b2TreeNode Rectf).
  Local Abbreviation b2DynamicTree := (b2DynamicTree Rectf).
  Local Abbreviation M := (M Rectf).
  Implicit Types (ns : list b2TreeNode) (t : b2DynamicTree) (s : shape)
    (c : list frame) (i p : Z).

  (** A loop with an invariant. *)
Lemma wp_for_loop (n : nat) i (body : Z → M unit) (I : Z → b2DynamicTree → Prop)
      (Q : unit → b2DynamicTree → Prop) t :
    I i t →
    (∀ j t', i ≤ j < i + Z.of_nat n → I j t' → wp (body j) (λ _ t'', I (j + 1) t'') t') →
    (∀ t', I (i + Z.of_nat n) t' → Q tt t') →
    wp (for_loop n i body) Q t.
  Proof.
    revert i t. induction n as [|n IH]; intros i t HI Hbody HQ; simpl.
    - apply wp_ret. apply HQ. by rewrite Z.add_0_r.
    - apply wp_bind. eapply wp_mono; [apply Hbody; [lia|done]|].
      intros [] t' HI'. apply IH; [done| |].
      + intros j t'' Hj. apply Hbody. lia.
      + intros t''. replace (i + 1 + Z.of_nat n) with (i + Z.of_nat (S n)) by lia. apply HQ.
  Qed.

Lemma wp_for_acc {A} (n : nat) i (body : Z → A → M A) (I : Z → A → b2DynamicTree → Prop)
      (Q : A → b2DynamicTree → Prop) (a : A) t :
    I i a t →
    (∀ j a' t', i ≤ j < i + Z.of_nat n → I j a' t' →
       wp (body j a') (λ a'' t'', I (j + 1) a'' t'') t') →
    (∀ a' t', I (i + Z.of_nat n) a' t' → Q a' t') →
    wp (for_acc n i body a) Q t.
  Proof.
    revert i a t. induction n as [|n IH]; intros i a t HI Hbody HQ; simpl.
    - apply wp_ret. apply HQ. by rewrite Z.add_0_r.
    - apply wp_bind. eapply wp_mono; [apply Hbody; [lia|done]|].
      intros a' t' HI'. apply IH; [done| |].
      + intros j a'' t'' Hj. apply Hbody. lia.
      + intros a'' t''. replace (i + 1 + Z.of_nat n) with (i + Z.of_nat (S n)) by lia.
        apply HQ.
  Qed.

Lemma link_free_slots_spec t lo :
    0 ≤ lo < m_nodeCapacity t →
    Z.of_nat (length (m_nodes t)) = m_nodeCapacity t →
    wp (link_free_slots lo) (λ _ t',
      same_frame t t' ∧ m_root t' = m_root t
      ∧ (∀ k, k < lo → rd (m_nodes t') k = rd (m_nodes t) k)
      ∧ (∀ k, lo ≤ k < m_nodeCapacity t - 1 → free_slot (m_nodes t') k (k + 1))
      ∧ free_slot (m_nodes t') (m_nodeCapacity t - 1) b2_nullNode) t.
  Proof.
    intros Hlo Hlen. unfold link_free_slots. wp_steps. unfold for_range.
    set (cap := m_nodeCapacity t) in *.
    apply wp_for_loop with (I := λ j t',
      same_frame t t' ∧ m_root t' = m_root t
      ∧ (∀ k, k < lo ∨ j ≤ k → rd (m_nodes t') k = rd (m_nodes t) k)
      ∧ (∀ k, lo ≤ k < j → free_slot (m_nodes t') k (k + 1))).
    - split_and!; [apply same_frame_refl|done|done|intros; lia].
    - intros j t' Hj (Hsf & Hroot & Hout & Hin).
      destruct (rd_in_range (m_nodes t) j) as [n Hn]; [lia|].
      assert (rd (m_nodes t') j = Some n) as Hn' by (rewrite Hout; [done|lia]).
      pose proof (rd_Some_range _ _ _ Hn'). wp_steps.
      split_and!.
      + eapply same_frame_trans; [exact Hsf|]. same_frame_solve.
      + done.
      + intros k Hk. rd_norm. apply Hout. lia.
      + intros k Hk. destruct (decide (k = j)) as [->|].
        * eexists. rd_norm. done.
        * destruct (Hin k) as (m & Hm & ?); [lia|]. exists m. rd_norm. done.
    - intros t' (Hsf & Hroot & Hout & Hin).
      replace (lo + Z.of_nat (Z.to_nat (cap - 1 - lo))) with (cap - 1) in * by lia.
      destruct (rd_in_range (m_nodes t) (cap - 1)) as [n Hn]; [lia|].
      assert (rd (m_nodes t') (cap - 1) = Some n) as Hn' by (rewrite Hout; [done|lia]).
      pose proof (rd_Some_range _ _ _ Hn').
      assert (m_nodeCapacity t' = cap) as Hcap by (by destruct Hsf as (?&?&?&?)).
      wp_steps. rewrite ?Hcap. wp_steps. rewrite ?Hcap. wp_steps.
      split_and!.
      + eapply same_frame_trans; [exact Hsf|]. same_frame_solve.
      + done.
      + intros k Hk. rd_norm. apply Hout. lia.
      + intros k Hk. destruct (Hin k) as (m & Hm & ?); [lia|]. exists m. rd_norm. done.
      + eexists. rd_norm. done.
  Qed.

Lemma free_chain_seq ns lo (n : nat) :
    (∀ k, lo ≤ k < lo + Z.of_nat n → free_slot ns k (k + 1)) →
    free_slot ns (lo + Z.of_nat n) b2_nullNode →
    free_chain ns lo (seqZ lo (Z.of_nat (S n))).
  Proof.
    revert lo. induction n as [|n IH]; intros lo Hin Hlast.
    - simpl. rewrite Z.add_0_r in Hlast. destruct Hlast as (m & Hm & Hh & Hnx).
      split; [done|]. exists m. split_and!; try done.
    - rewrite seqZ_cons by lia. simpl. split; [done|].
      destruct (Hin lo) as (m & Hm & Hh & Hnx); [lia|].
      exists m. split_and!; try done. rewrite Hnx.
      replace (Z.pred (Z.of_nat (S (S n)))) with (Z.of_nat (S n)) by lia.
      replace (Z.succ lo) with (lo + 1) by lia.
      apply IH.
      + intros k Hk. apply Hin. lia.
      + replace (lo + 1 + Z.of_nat n) with (lo + Z.of_nat (S n)) by lia. done.
  Qed.

Lemma free_chain_frame ns ns' head fl :
    free_chain ns head fl → (∀ i, i ∈ fl → rd ns' i = rd ns i) → free_chain ns' head fl.
  Proof.
    revert head. induction fl as [|i fl IH]; intros head; simpl; [done|].
    intros (-> & n & Hn & Hh & Hc) Hf. split; [done|]. exists n.
    rewrite Hf by (by left). split_and!; try done. apply IH; [done|].
    intros. apply Hf. by right.
  Qed.

Lemma free_chain_height ns head fl i :
    free_chain ns head fl → i ∈ fl → ∃ n, rd ns i = Some n ∧ height n = -1.
  Proof.
    revert head. induction fl as [|j fl IH]; intros head; simpl; [by intros _ ?%elem_of_nil|].
    intros (-> & n & Hn & Hh & Hc) [->|Hi]%elem_of_cons; eauto.
  Qed.

Lemma free_chain_head ns head fl :
    free_chain ns head fl → head = b2_nullNode ↔ fl = [].
  Proof.
    destruct fl as [|i fl]; simpl; [done|].
    intros (-> & n & Hn%rd_Some_range & _). split; [|done].
    unfold b2_nullNode. lia.
  Qed.

End PoolInv.

Section Alloc.
  Context {float Rectf : Type} {FO : FloatOps float} {RO : RectOps float Rectf}.
  Local Abbreviation b2TreeNode := (b2TreeNode Rectf).
  Local Abbreviation b2DynamicTree := (b2DynamicTree Rectf).
  Local Abbreviation M := (M Rectf).
  Implicit Types (ns : list b2TreeNode) (t : b2DynamicTree) (s : shape)
    (c : list frame) (i p : Z) (T : option shape).

Lemma tree_rep_frame ns ns' root T :
    tree_rep ns root T →
    (∀ i, i ∈ tree_nodes T → rd ns' i = rd ns i) →
    tree_rep ns' root T.
  Proof.
    destruct T as [s|]; simpl; [|done].
    intros [? ?] ?. split; [done|]. by eapply rep_frame.
  Qed.

Lemma detached_frame ns ns' (det : list Z) :
    (∀ i, i ∈ det → detached ns i) →
    (∀ i, i ∈ det → rd ns' i = rd ns i) →
    ∀ i, i ∈ det → detached ns' i.
  Proof. intros Hd Hf i Hi. unfold detached. rewrite Hf by done. by apply Hd. Qed.

Lemma detached_of_rep ns p s i : rep ns p s → i ∈ nodes s → detached ns i.
  Proof.
    revert p. induction s as [j|j l IHl r IHr]; intros p; simpl.
    - intros (n & Hn & _ & _ & _ & Hh) ->%list_elem_of_singleton. exists n. split; [done|lia].
    - intros ((n & Hn & _ & _ & _ & Hh & _) & _ & Hl & Hr)
        [->|[Hi|Hi]%elem_of_app]%elem_of_cons; eauto.
      by exists n.
  Qed.

Lemma detached_of_rep_stale ns p s i : rep_stale ns p s → i ∈ nodes s → detached ns i.
  Proof.
    destruct s as [j|j l r]; simpl.
    - intros (n & Hn & _ & _ & _ & Hh) ->%list_elem_of_singleton. exists n. split; [done|lia].
    - intros ((n & Hn & _ & _ & _ & Hh & _) & Hl & Hr)
        [->|[Hi|Hi]%elem_of_app]%elem_of_cons; eauto using detached_of_rep.
      by exists n.
  Qed.

Lemma detached_of_ctx_rep ns hole c i : ctx_rep ns hole c → i ∈ ctx_nodes c → detached ns i.
  Proof.
    revert hole. induction c as [|f c IH]; intros hole; simpl; [by intros _ ?%elem_of_nil|].
    intros ((n & Hn & _ & _ & _ & Hh & _) & Hs & Hc)
      [->|[Hi|Hi]%elem_of_app]%elem_of_cons; eauto using detached_of_rep.
    by exists n.
  Qed.

Lemma Pool_of_Inv t T det fl : Inv t T det fl → Pool t (tree_nodes T ++ det) fl.
  Proof.
    intros [Hlen Hcap Hroot Hfree Hdet Hcover Hcnt]. split; try done.
    intros i [Hi|Hi]%elem_of_app; [|by apply Hdet].
    destruct T as [s|]; simpl in *; [|by apply elem_of_nil in Hi].
    destruct Hroot as [_ Hr]. by eapply detached_of_rep.
  Qed.

Lemma Inv_of_Pool t T det fl :
    Pool t (tree_nodes T ++ det) fl → tree_rep (m_nodes t) (m_root t) T → Inv t T det fl.
  Proof.
    intros [Hlen Hcap Hfree Hdet Hcover Hcnt] Hroot. split; try done.
    intros i Hi. apply Hdet, elem_of_app. by right.
  Qed.

Lemma Pool_perm t alloc alloc' fl : Pool t alloc fl → alloc ≡ₚ alloc' → Pool t alloc' fl.
  Proof.
    intros [Hlen Hcap Hfree Hdet Hcover Hcnt] Hp. split; try done.
    - intros i Hi. apply Hdet. by rewrite Hp.
    - by rewrite <-Hp.
    - by rewrite <-Hp.
  Qed.

Lemma Pool_NoDup t alloc fl : Pool t alloc fl → NoDup (fl ++ alloc).
  Proof. intros HI. rewrite (pool_cover _ _ _ HI). apply NoDup_seqZ. Qed.

Lemma Pool_range t alloc fl i :
    Pool t alloc fl → i ∈ fl ++ alloc ↔ 0 ≤ i < m_nodeCapacity t.
  Proof.
    intros HI. rewrite (pool_cover _ _ _ HI), elem_of_seqZ. lia.
  Qed.

Lemma Pool_free_count t alloc fl :
    Pool t alloc fl → Z.of_nat (length fl) + m_nodeCount t = m_nodeCapacity t.
  Proof.
    intros HI. pose proof (pool_cover _ _ _ HI) as Hc%Permutation_length.
    rewrite length_seqZ, length_app in Hc. rewrite (pool_count _ _ _ HI).
    pose proof (pool_capacity _ _ _ HI). lia.
  Qed.

  (** The pool changes on its allocated slots only. *)
Lemma Pool_frame t t' alloc fl :
    Pool t alloc fl → same_frame t t' →
    (∀ i, i ∈ fl → rd (m_nodes t') i = rd (m_nodes t) i) →
    (∀ i, i ∈ alloc → detached (m_nodes t') i) →
    Pool t' alloc fl.
  Proof.
    intros [Hlen Hcap Hfree Hdet Hcover Hcnt] (Hl & Hc & Hca & Hf & _) Hfr Hdet'.
    split; try done; try congruence.
    all: first [ rewrite Hf; by eapply free_chain_frame | by rewrite Hca ].
  Qed.

  (** [Expand the node pool]: the block of [AllocateNode] run on an empty
      free list. *)
Lemma grow_spec uninit t alloc :
    Pool t alloc [] →
    wp (count <- get m_nodeCount;;
        cap <- get m_nodeCapacity;;
        b2Assert (bool_decide (count = cap));;;
        put (set_nodeCapacity (cap * 2));;;
        cap' <- get m_nodeCapacity;;
        put (λ t, set_nodes (take (Z.to_nat count) (m_nodes t)
                             ++ (uninit <$> seqZ count (cap' - count))) t);;;
        link_free_slots count;;;
        put (set_freeList count))
       (λ _ t', Pool t' alloc (seqZ (m_nodeCapacity t) (m_nodeCapacity t))
                ∧ m_root t' = m_root t ∧ m_insertionCount t' = m_insertionCount t
                ∧ m_freeList t' = m_nodeCapacity t
                ∧ (∀ j, j < m_nodeCapacity t → rd (m_nodes t') j = rd (m_nodes t) j)) t.
  Proof.
    intros HI. pose proof (Pool_free_count _ _ _ HI) as Hcount. simpl in Hcount.
    destruct HI as [Hlen Hcap Hfree Hdet Hcover Hcnt]. simpl in Hcover.
    set (cap := m_nodeCapacity t) in *.
    wp_steps. fold cap.
    replace (m_nodeCount t) with cap by lia.
    rewrite take_ge by lia.
    eapply wp_mono.
    { apply link_free_slots_spec; tsimpl.
      - lia.
      - rewrite length_app, length_fmap, length_seqZ. lia. }
    intros [] t1 (Hsf & Hroot1 & Hlow & Hmid & Hlast). tsimpl.
    destruct Hsf as (Hl1 & Hc1 & Hcap1 & Hfl1 & Hp1 & Hic1). tsimpl.
    wp_steps.
    assert (∀ j, j < cap → rd (m_nodes t1) j = rd (m_nodes t) j) as Hold.
    { intros j Hj. rewrite Hlow by done. apply rd_app_l. lia. }
    split_and!; try done.
    split; tsimpl.
    - rewrite Hl1, length_app, length_fmap, length_seqZ. lia.
    - lia.
    - replace cap with (Z.of_nat (S (Z.to_nat (cap - 1)))) at 3 by lia.
      apply free_chain_seq.
      + intros k Hk. apply Hmid. lia.
      + replace (cap + Z.of_nat (Z.to_nat (cap - 1))) with (cap * 2 - 1) by lia. done.
    - eapply detached_frame; [exact Hdet|]. intros i Hi. apply Hold.
      assert (i ∈ seqZ 0 cap) as Hr%elem_of_seqZ by (by rewrite <-Hcover).
      lia.
    - rewrite Hcap1. replace (cap * 2) with (cap + cap) by lia.
      rewrite (seqZ_app 0) by lia. rewrite Z.add_0_l, <-Hcover. perm_solve.
    - congruence.
  Qed.

  (** [Peel a node off the free list]. *)
Lemma pop_spec t alloc fl :
    Pool t alloc fl → fl ≠ [] →
    wp (nodeId <- get m_freeList;;
        nxt <- fld nodeId next;;
        put (set_freeList nxt);;;
        modify nodeId (set_parent b2_nullNode);;;
        modify nodeId (set_child1 b2_nullNode);;;
        modify nodeId (set_child2 b2_nullNode);;;
        modify nodeId (set_height 0);;;
        modify nodeId (set_userData 0);;;
        modify nodeId (set_moved false);;;
        count <- get m_nodeCount;;
        put (set_nodeCount (count + 1));;;
        ret nodeId)
       (λ i t', ∃ fl', fl = i :: fl' ∧ Pool t' (i :: alloc) fl' ∧ fresh_node (m_nodes t') i
                ∧ i = m_freeList t
                ∧ m_root t' = m_root t ∧ m_insertionCount t' = m_insertionCount t
                ∧ m_nodeCapacity t' = m_nodeCapacity t
                ∧ (∀ j, j ≠ i → rd (m_nodes t') j = rd (m_nodes t) j)) t.
  Proof.
    intros HI Hne. pose proof (Pool_NoDup _ _ _ HI) as Hnd.
    destruct HI as [Hlen Hcap Hfree Hdet Hcover Hcnt].
    destruct fl as [|i fl]; [done|]. simpl in Hfree.
    destruct Hfree as (Hhead & n & Hn & Hh & Hchain).
    pose proof (rd_Some_range _ _ _ Hn).
    simpl in Hnd. apply NoDup_cons in Hnd as [Hi Hnd].
    apply not_elem_of_app in Hi as [Hifl Hidet].
    wp_steps. rewrite Hhead. wp_steps.
    assert (∀ j, j ≠ i → rd (wr (m_nodes t) i
       (set_moved false (set_userData 0 (set_height 0 (set_child2 b2_nullNode
          (set_child1 b2_nullNode (set_parent b2_nullNode n))))))) j = rd (m_nodes t) j) as Hfr.
    { intros j Hj. by rd_norm. }
    exists fl. split_and!; try done.
    - split; tsimpl.
      + by rewrite length_wr.
      + done.
      + eapply free_chain_frame; [exact Hchain|]. intros j Hj. apply Hfr. by intros ->.
      + intros j [->|Hj]%elem_of_cons.
        * eexists. rd_norm. done.
        * unfold detached. rewrite Hfr by (by intros ->). by apply Hdet.
      + rewrite <-Hcover. perm_solve.
      + rewrite Hcnt. simpl. lia.
    - eexists. rd_norm. done.
  Qed.

Lemma AllocateNode_spec uninit t alloc fl :
    Pool t alloc fl →
    wp (AllocateNode uninit)
       (λ i t', ∃ fl', Pool t' (i :: alloc) fl' ∧ fresh_node (m_nodes t') i
                ∧ (i ∉ alloc)
                ∧ (m_freeList t ≠ b2_nullNode → i = m_freeList t)
                ∧ m_root t' = m_root t ∧ m_insertionCount t' = m_insertionCount t
                ∧ m_nodeCapacity t ≤ m_nodeCapacity t'
                ∧ (m_freeList t ≠ b2_nullNode → m_nodeCapacity t' = m_nodeCapacity t)
                ∧ (∀ j, j ≠ i → 0 ≤ j < m_nodeCapacity t →
                        rd (m_nodes t') j = rd (m_nodes t) j)
                ∧ (m_freeList t = b2_nullNode →
                   i = m_nodeCapacity t ∧ m_nodeCapacity t' = 2 * m_nodeCapacity t)) t.
  Proof.
    intros HI. unfold AllocateNode. wp_step. wp_step. wp_step.
    pose proof (free_chain_head _ _ _ (pool_free _ _ _ HI)) as Hhead.
    pose proof (pool_capacity _ _ _ HI) as Hcap.
    case_bool_decide as Hfl.
    - assert (fl = []) as -> by tauto.
      eapply wp_mono; [by apply grow_spec|].
      intros [] t1 (HI1 & Hr1 & Hic1 & Hfl1 & Hold). simpl.
      eapply wp_mono; [apply (pop_spec _ _ _ HI1)|].
      { intros E%(f_equal length). rewrite length_seqZ in E. simpl in E. lia. }
      intros i t2 (fl' & Hfl' & HI2 & Hfresh & Hi & Hr2 & Hic2 & Hcap2 & Hfr).
      exists fl'. split_and!; try done; try congruence.
      + pose proof (Pool_NoDup _ _ _ HI2) as Hnd. apply NoDup_app in Hnd as (_ & _ & Hnd).
        by apply NoDup_cons in Hnd as [? _].
      + pose proof (pool_length _ _ _ HI2). pose proof (pool_length _ _ _ HI1).
        pose proof (pool_cover _ _ _ HI1) as Hc%Permutation_length.
        rewrite length_seqZ, !length_app, length_seqZ in Hc. lia.
      + intros j Hj Hjr. rewrite Hfr by done. apply Hold. lia.
      + intros _. split; [congruence|].
        pose proof (pool_cover _ _ _ HI1) as Hc1%Permutation_length.
        pose proof (pool_cover _ _ _ HI) as Hc%Permutation_length.
        rewrite length_seqZ, !length_app, length_seqZ in Hc1.
        rewrite length_seqZ in Hc. simpl in Hc. lia.
    - wp_step. eapply wp_mono; [apply (pop_spec _ _ _ HI)|].
      { tauto. }
      intros i t2 (fl' & Hfl' & HI2 & Hfresh & Hi & Hr2 & Hic2 & Hcap2 & Hfr).
      exists fl'. split_and!; try done.
      + pose proof (Pool_NoDup _ _ _ HI2) as Hnd. apply NoDup_app in Hnd as (_ & _ & Hnd).
        by apply NoDup_cons in Hnd as [? _].
      + lia.
      + intros. by apply Hfr.
  Qed.

Lemma FreeNode_spec t alloc alloc' fl i :
    Pool t alloc fl → alloc ≡ₚ (i :: alloc') →
    wp (FreeNode i)
       (λ _ t', Pool t' alloc' (i :: fl) ∧ m_freeList t' = i
                ∧ m_root t' = m_root t ∧ m_insertionCount t' = m_insertionCount t
                ∧ (∀ j, j ≠ i → rd (m_nodes t') j = rd (m_nodes t) j)) t.
  Proof.
    intros HI Hdet'. apply (Pool_perm _ _ _ _ HI) in Hdet' as HI'. clear HI Hdet'.
    pose proof (Pool_NoDup _ _ _ HI') as Hnd.
    pose proof (Pool_range _ _ _ i HI') as Hrange.
    destruct HI' as [Hlen Hcap Hfree Hdet Hcover Hcnt].
    assert (0 ≤ i < m_nodeCapacity t) as Hir by (apply Hrange; set_solver).
    destruct (rd_in_range (m_nodes t) i) as [n Hn]; [lia|].
    assert ((i ∉ fl) ∧ (i ∉ alloc')) as (Hifl & Hidet).
    { apply NoDup_app in Hnd as (_ & Hd1 & Hnd).
      apply NoDup_cons in Hnd as [? _]. split; [|done].
      intros Hin. apply (Hd1 _ Hin). by left. }
    assert (0 < m_nodeCount t) by (rewrite Hcnt; simpl; lia).
    unfold FreeNode. wp_steps.
    assert (∀ j, j ≠ i → rd (wr (m_nodes t) i (set_height (-1) (set_next (m_freeList t) n))) j
                         = rd (m_nodes t) j) as Hfr.
    { intros j Hj. by rd_norm. }
    split_and!; try done.
    split; tsimpl.
    - by rewrite length_wr.
    - done.
    - split; [done|]. eexists. rd_norm. split_and!; try done.
      eapply free_chain_frame; [exact Hfree|]. intros j Hj. apply Hfr. by intros ->.
    - intros j Hj. unfold detached. rewrite Hfr by (by intros ->).
      apply Hdet. by right.
    - rewrite <-Hcover. perm_solve.
    - rewrite Hcnt. simpl. lia.
  Qed.

End Alloc.

(** What a run of writes leaves of the proxy node [i]. *)
Ltac kept_wr i Hi Hc :=
  tsimpl; kept_cases i Hi Hc; rd_norm; rewrite Hi;
  match type of Hi with _ = Some ?n => destruct n end; eexists; reflexivity.

Section Insert.
  Context {float Rectf : Type} {FO : FloatOps float} {RO : RectOps float Rectf}.
  Local Abbreviation b2TreeNode := (b2TreeNode Rectf).
  Local Abbreviation b2DynamicTree := (b2DynamicTree Rectf).
  Local Abbreviation M := (M Rectf).
  Implicit Types (ns : list b2TreeNode) (t : b2DynamicTree) (s : shape)
    (c : list frame) (i p : Z) (T : option shape).

Lemma InsertLeaf_choose_run t leafAABB index N C1 C2 :
    rd (m_nodes t) index = Some N →
    rd (m_nodes t) (child1 N) = Some C1 →
    rd (m_nodes t) (child2 N) = Some C2 →
    InsertLeaf_choose leafAABB index t = Some (choice leafAABB N C1 C2, t).
  Proof.
    intros HN H1 H2.
    assert (wp (InsertLeaf_choose leafAABB index)
              (λ d t', t' = t ∧ d = choice leafAABB N C1 C2) t) as (d & t' & Hrun & -> & ->);
      [|done].
    unfold InsertLeaf_choose, choice. wp_steps.
    destruct (flt _ _ && flt _ _); [by wp_steps|].
    destruct (flt _ _); by wp_steps.
  Qed.

Lemma InsertLeaf_descend_spec fuel t s c leafAABB :
    rep (m_nodes t) (ctx_parent c) s →
    (length (nodes s) ≤ fuel)%nat →
    wp (InsertLeaf_descend fuel leafAABB (idx s))
       (λ r t', t' = t ∧ ∃ s' c', plug s' c' = plug s c ∧ idx s' = r) t.
  Proof.
    revert fuel c. induction s as [i|i l IHl r IHr]; intros fuel c Hs Hfuel.
    - destruct fuel; [simpl in Hfuel; lia|]. simpl in *.
      destruct Hs as (n & Hn & Hp & H1 & H2 & Hh).
      wp_steps. rewrite H1, bool_decide_eq_true_2 by done. wp_steps.
      split; [done|]. by exists (Lf i), c.
    - destruct fuel; [simpl in Hfuel; lia|]. simpl in Hs.
      destruct Hs as ((n & Hn & Hp & H1 & H2 & Hh & H1n) & _ & Hl & Hr).
      destruct (rep_root _ _ _ Hl) as (nl & Hnl & _).
      destruct (rep_root _ _ _ Hr) as (nr & Hnr & _).
      simpl. wp_steps. rewrite H1, bool_decide_eq_false_2 by done.
      apply wp_bind. exists (choice leafAABB n nl nr), t. split.
      { apply InsertLeaf_choose_run; [done|by rewrite H1|by rewrite H2]. }
      simpl in Hfuel. rewrite length_app in Hfuel.
      unfold choice. destruct (flt _ _ && flt _ _).
      { wp_steps. split; [done|]. by exists (Nd i l r), c. }
      destruct (flt _ _).
      + rewrite H1. eapply wp_mono.
        { apply (IHl fuel (mkFrame i true r :: c)); [done|lia]. }
        intros r' t' (-> & s' & c' & Hpl & Hi). split; [done|]. by exists s', c'.
      + rewrite H2. eapply wp_mono.
        { apply (IHr fuel (mkFrame i false l :: c)); [done|lia]. }
        intros r' t' (-> & s' & c' & Hpl & Hi). split; [done|]. by exists s', c'.
  Qed.

Lemma ctx_length c : (length c ≤ length (ctx_nodes c))%nat.
  Proof. induction c as [|f c IH]; simpl; [done|]. rewrite length_app. lia. Qed.

Lemma ctx_parent_in c : c ≠ [] → ctx_parent c ∈ ctx_nodes c.
  Proof. destruct c; [done|]. intros _. by left. Qed.

Lemma ctx_top_cons hole hole' f c : ctx_top hole (f :: c) = ctx_top hole' (f :: c).
  Proof. done. Qed.

Lemma Pool_alloc_length t alloc fl :
    Pool t alloc fl → (length alloc ≤ length (m_nodes t))%nat.
  Proof.
    intros HP. pose proof (pool_cover _ _ _ HP) as Hc%Permutation_length.
    rewrite length_seqZ, length_app in Hc. pose proof (pool_length _ _ _ HP). lia.
  Qed.

  (** The parent of a subtree is told to point to another node. *)
Lemma ctx_rep_relink ns ns' hole hole' c :
    ctx_rep ns hole c →
    hole' ≠ b2_nullNode →
    NoDup (hole :: ctx_nodes c) →
    (c ≠ [] → ∃ np, rd ns (ctx_parent c) = Some np ∧
        rd ns' (ctx_parent c) =
          Some (if bool_decide (child1 np = hole) then set_child1 hole' np
                else set_child2 hole' np)) →
    (∀ i, i ∈ ctx_nodes c → i ≠ ctx_parent c → rd ns' i = rd ns i) →
    ctx_rep ns' hole' c.
  Proof.
    destruct c as [|f c]; simpl; [done|].
    intros ((n & Hn & Hp & H1 & H2 & Hh & H1n) & Hs & Hc) Hh' Hnd Hrel Hfr.
    destruct Hrel as (np & Hnp & Hnp'); [done|]. simplify_eq.
    pose proof (idx_in_nodes (f_sib f)).
    distinct.
    split_and!.
    - eexists. split; [exact Hnp'|]. destruct (f_side f).
      + rewrite bool_decide_eq_true_2 by done. tsimpl. done.
      + rewrite bool_decide_eq_false_2 by (rewrite H1; neq_solve). tsimpl. done.
    - eapply rep_frame; [done|]. intros i Hi. apply Hfr; [set_solver|neq_solve].
    - eapply ctx_rep_frame; [done|]. intros i Hi. apply Hfr; [set_solver|neq_solve].
  Qed.

Lemma Pool_set_insertionCount t alloc fl v :
    Pool t alloc fl → Pool (set_insertionCount v t) alloc fl.
  Proof. intros []. by split. Qed.

Lemma Pool_set_root t alloc fl v :
    Pool t alloc fl → Pool (set_root v t) alloc fl.
  Proof. intros []. by split. Qed.

Lemma Inv_after_walk_det t1 t3 s' det alloc fl :
    Pool t1 alloc fl → same_frame t1 t3 →
    (∀ i, i ∈ fl ++ det → rd (m_nodes t3) i = rd (m_nodes t1) i) →
    rep (m_nodes t3) b2_nullNode s' → m_root t3 = idx s' →
    nodes s' ++ det ≡ₚ alloc →
    Inv t3 (Some s') det fl.
  Proof.
    intros HP Hsf Hfr Hrep Hroot Hperm. apply Inv_of_Pool; [|done].
    simpl. eapply Pool_perm; [|symmetry; exact Hperm].
    eapply Pool_frame; [done..| |].
    - intros i Hi. apply Hfr, elem_of_app. by left.
    - intros i Hi. rewrite <-Hperm in Hi. apply elem_of_app in Hi as [Hi|Hi].
      + by eapply detached_of_rep.
      + unfold detached. rewrite Hfr by (apply elem_of_app; by right).
        apply (pool_alloc _ _ _ HP). rewrite <-Hperm. apply elem_of_app. by right.
  Qed.

Lemma Inv_after_walk t1 t3 s' alloc fl :
    Pool t1 alloc fl → same_frame t1 t3 →
    (∀ i, i ∈ fl → rd (m_nodes t3) i = rd (m_nodes t1) i) →
    rep (m_nodes t3) b2_nullNode s' → m_root t3 = idx s' →
    nodes s' ≡ₚ alloc →
    Inv t3 (Some s') [] fl.
  Proof.
    intros HP Hsf Hfr Hrep Hroot Hperm.
    eapply Inv_after_walk_det; [done|done| |done|done|by rewrite app_nil_r].
    intros i Hi. apply Hfr. by rewrite app_nil_r in Hi.
  Qed.

Lemma ctx_top_in hole c : c ≠ [] → ctx_top hole c ∈ ctx_nodes c.
  Proof.
    revert hole. induction c as [|f c IH]; intros hole; [done|]. intros _. simpl.
    destruct c as [|g c]; [by left|]. right. apply elem_of_app. right.
    by apply (IH (f_idx f)).
  Qed.

Lemma kept_trans ns ns' i n :
    (∃ q, rd ns i = Some (set_parent q n)) → child1 n = b2_nullNode →
    (∀ j m, rd ns j = Some m → child1 m = b2_nullNode →
            ∃ q, rd ns' j = Some (set_parent q m)) →
    ∃ q, rd ns' i = Some (set_parent q n).
  Proof.
    intros [q Hq] Hc Hk. destruct (Hk i _ Hq) as [q' Hq']; [by destruct n|].
    exists q'. rewrite Hq'. by destruct n.
  Qed.

Lemma rep_leaf_child1 ns p s i n :
    rep ns p s → i ∈ leaves s → rd ns i = Some n → child1 n = b2_nullNode.
  Proof.
    revert p. induction s as [j|j l IHl r IHr]; intros p; simpl.
    - intros (n' & Hn' & _ & ? & _) ->%list_elem_of_singleton Hn. by simplify_eq.
    - intros (_ & _ & Hl & Hr) [Hi|Hi]%elem_of_app; eauto.
  Qed.

  (** [InsertLeaf]: the tree gains the leaf, and the proxies keep what
      they hold, up to the parent link. *)
Lemma InsertLeaf_spec uninit t T fl leaf :
    Inv t T [leaf] fl → leaf_like (m_nodes t) leaf →
    wp (InsertLeaf uninit leaf)
       (λ _ t', ∃ s' fl', Inv t' (Some s') [] fl' ∧ leaves s' ≡ₚ (leaf :: tree_leaves T)
          ∧ (∀ i n, i ∈ leaf :: tree_leaves T → rd (m_nodes t) i = Some n →
                    ∃ q, rd (m_nodes t') i = Some (set_parent q n))
          ∧ (T = None ∨ m_freeList t ≠ b2_nullNode →
             m_nodeCapacity t' = m_nodeCapacity t)
          ∧ (T ≠ None → m_freeList t = b2_nullNode →
             m_nodeCapacity t' = 2 * m_nodeCapacity t)) t.
  Proof.
    intros HI (nl & Hnl & Hl1 & Hl2 & Hlh).
    pose proof (Pool_of_Inv _ _ _ _ HI) as HP.
    pose proof (Pool_NoDup _ _ _ HP) as Hnd.
    pose proof (inv_root _ _ _ _ HI) as Hroot.
    pose proof (rd_Some_range _ _ _ Hnl) as Hrl.
    pose proof (pool_length _ _ _ HP) as Hlen.
    destruct T as [s|]; simpl in Hroot.
    - destruct Hroot as [Hroot Hrep].
      destruct (rep_root _ _ _ Hrep) as (nroot & Hnroot%rd_Some_range & _).
      unfold InsertLeaf. wp_steps.
      rewrite Hroot, bool_decide_eq_false_2 by (unfold b2_nullNode; lia).
      wp_steps. rewrite Hroot. eapply wp_mono.
      { apply (InsertLeaf_descend_spec _ _ s []); [done|].
        unfold pool_fuel. tsimpl. apply Pool_alloc_length in HP.
        simpl in HP. rewrite length_app in HP. lia. }
      intros sib t' (-> & s0 & c0 & Hplug & Hsib). simpl in Hplug. subst s sib.
      pose proof Hrep as Hrep'.
      apply rep_plug in Hrep as [Hs0 Hc0]. tsimpl.
      destruct (rep_root _ _ _ Hs0) as (n0 & Hn0 & Hp0 & Hk0).
      pose proof (rep_root_height _ _ _ _ Hs0 Hn0) as Hh0.
      pose proof (rd_Some_range _ _ _ Hn0) as Hr0.
      wp_step. wp_step. rewrite Hp0. wp_step.
      eapply wp_mono.
      { eapply AllocateNode_spec. apply Pool_set_insertionCount. exact HP. }
      intros np t1 (fl1 & HP1 & (nnp & Hnnp & Hf1 & Hf2 & Hf3 & Hf4 & Hf5 & Hf6) & Hnpa & _
                    & Hroot1 & Hic1 & Hcap1 & Hcsame & Hfr1 & Hcdbl). tsimpl.
      pose proof (nodes_plug s0 c0) as Hnp.
      assert (NoDup (np :: leaf :: nodes s0 ++ ctx_nodes c0)) as HND.
      { apply NoDup_app in Hnd as (_ & _ & Hnd). simpl in Hnd, Hnpa.
        apply NoDup_cons. split.
        - intros Hin. apply Hnpa. rewrite Hnp. rewrite elem_of_app.
          apply elem_of_cons in Hin as [->|Hin]; [right; by left|by left].
        - rewrite <-Hnp. eapply NoDup_Permutation_proper; [|exact Hnd]. perm_solve. }
      assert (∀ j, j ∈ leaf :: nodes s0 ++ ctx_nodes c0 → rd (m_nodes t1) j = rd (m_nodes t) j)
        as Hold.
      { intros j Hj. apply Hfr1.
        - apply NoDup_cons in HND as [Hn _]. by intros ->.
        - rewrite <-Hlen. apply elem_of_cons in Hj as [->|Hj]; [done|].
          rewrite <-Hnp in Hj.
          destruct (rep_nodes_rd _ _ _ _ Hrep' Hj) as [? ?%rd_Some_range]. done. }
      assert (rep (m_nodes t1) (ctx_parent c0) s0) as Hs1.
      { eapply rep_frame; [done|]. intros j Hj. apply Hold. set_solver. }
      assert (ctx_rep (m_nodes t1) (idx s0) c0) as Hc1.
      { eapply ctx_rep_frame; [done|]. intros j Hj. apply Hold. set_solver. }
      assert (rd (m_nodes t1) (idx s0) = Some n0) as Hn1.
      { rewrite Hold; [done|]. pose proof (idx_in_nodes s0). set_solver. }
      assert (rd (m_nodes t1) leaf = Some nl) as Hnl1 by (rewrite Hold; [done|by left]).
      pose proof (rd_Some_range _ _ _ Hnnp). pose proof (rd_Some_range _ _ _ Hn1).
      pose proof (rd_Some_range _ _ _ Hnl1).
      pose proof (pool_length _ _ _ HP1) as Hlen1.
      assert (∀ i, i ∈ fl1 → i ∉ np :: leaf :: nodes s0 ++ ctx_nodes c0) as Hfl1.
      { intros i Hi Hin. pose proof (Pool_NoDup _ _ _ HP1) as Hnd1.
        apply NoDup_app in Hnd1 as (_ & Hd & _). apply (Hd _ Hi). simpl.
        rewrite Hnp. set_solver. }
      pose proof (leaves_plug s0 c0) as Hlp.
      assert ((length c0 < S (length (m_nodes t1)))%nat) as Hfuel.
      { pose proof (ctx_length c0). pose proof (Pool_alloc_length _ _ _ HP1) as Hal.
        pose proof (Permutation_length Hnp) as Hnpl.
        unfold tree_nodes in Hal. rewrite length_cons, !length_app in Hal.
        rewrite length_app in Hnpl. lia. }
      assert (∀ i n, i ∈ leaf :: leaves (plug s0 c0) → rd (m_nodes t) i = Some n →
                     rd (m_nodes t1) i = Some n ∧ child1 n = b2_nullNode ∧ apart i np)
        as Hleafs.
      { intros i n Hin Hi.
        assert (i ∈ leaf :: nodes s0 ++ ctx_nodes c0) as Hin'.
        { apply elem_of_cons in Hin as [->|Hin]; [by left|]. right.
          rewrite <-Hnp. by apply leaves_in_nodes. }
        split_and!.
        - by rewrite Hold.
        - apply elem_of_cons in Hin as [->|Hin]; [by simplify_eq|].
          exact (rep_leaf_child1 _ _ _ _ _ Hrep' Hin Hi).
        - apply NoDup_cons in HND as [Hn _]. by intros ->. }
      clear Hold Hfr1 Hs0 Hc0 Hn0 Hnl Hrep' HI HP Hnd.
      destruct nnp as [bn un pn c1n c2n hn mn]. tsimpl. subst pn c1n c2n hn un mn.
      destruct nl as [bl ul pl c1l c2l hl ml]. tsimpl. subst c1l c2l hl.
      destruct n0 as [b0 u0 p0 c10 c20 h0 m0]. tsimpl. subst p0.
      pose proof (idx_in_nodes s0) as His0.
      assert (id (NoDup (np :: leaf :: nodes s0 ++ ctx_nodes c0))) as HND' by done.
      distinct.
      assert (apart np (idx s0) ∧ apart leaf (idx s0)) as (?&?)
        by (unfold apart; split_and!; neq_solve).
      assert (np ≠ b2_nullNode) as Hnpn by (unfold b2_nullNode; lia).
      assert (idx s0 ≠ b2_nullNode) as Hs0n by (unfold b2_nullNode; lia).
      destruct c0 as [|f c0].
      + (* the sibling is the root *)
        simpl ctx_parent in *. wp_steps.
        rewrite bool_decide_eq_false_2 by (by intros []). wp_steps.
        eapply wp_mono.
        { apply (InsertLeaf_refit_spec _ _ (Nd np s0 (Lf leaf)) []).
          - split_and!.
            + done.
            + simpl. split_and!.
              * linked_solve.
              * rep_solve.
              * eexists. split; [rd_solve|]. done.
            + done.
            + simpl. eapply NoDup_Permutation_proper; [|exact HND']. perm_solve.
            + tsimpl. by rewrite !length_wr.
            + done.
          - unfold pool_fuel. simpl. lia. }
        intros [] t3 ((T' & HT & Hr & Hn & Hl & Hsf & Hfr) & Hkept). exists T', fl1.
        split_and!.
        * eapply Inv_after_walk; [exact HP1| | |done|done|].
          -- eapply same_frame_trans; [|exact Hsf]. same_frame_solve.
          -- intros i Hi. specialize (Hfl1 _ Hi). notin_split.
             rewrite Hfr by (simpl; set_solver). tsimpl. rd_norm. done.
          -- rewrite Hn. simpl. perm_solve.
        * rewrite Hl. simpl in *. perm_solve.
        * intros i n Hin Hi. destruct (Hleafs i n Hin Hi) as (Hi1 & Hc1n & Hinp).
          refine (kept_trans _ _ _ _ _ Hc1n Hkept). clear Hleafs Hfr Hfl1 Hkept.
          kept_wr i Hi1 Hc1n.
        * intros [?|Hfl]; [done|]. destruct Hsf as (_ & _ & Hcp & _). tsimpl.
          rewrite Hcp. by apply Hcsame.
        * intros _ Hfl. destruct Hsf as (_ & _ & Hcp & _). tsimpl.
          rewrite Hcp. by apply Hcdbl.
      + (* the sibling hangs from the node of [f] *)
        pose proof Hc1 as Hc1'.
        simpl in Hc1. destruct Hc1 as ((nf & Hnf & Hpf & Hf1 & Hf2 & Hhf & Hf1n) & Hsib & Hc1).
        pose proof (rd_Some_range _ _ _ Hnf).
        assert (f_idx f ≠ b2_nullNode) as Hfn by (unfold b2_nullNode; lia).
        assert (id (NoDup (idx s0 :: ctx_nodes (f :: c0)))) as HNDc.
        { unfold id in *. apply NoDup_cons_1_2, NoDup_cons_1_2 in HND'.
          apply NoDup_app in HND' as (_ & Hd & ?). apply NoDup_cons. split; [|done].
          by apply Hd. }
        pose proof (idx_in_nodes (f_sib f)) as Hisib.
        simpl ctx_nodes in *. simpl ctx_parent in *. distinct.
        assert (apart (idx s0) (idx (f_sib f))) by (unfold apart; neq_solve).
        destruct nf as [bf uf pf c1f c2f hf mf]. tsimpl. subst pf.
        wp_steps. rewrite bool_decide_eq_true_2 by done. wp_steps.
        destruct (f_side f) eqn:Hside; subst c1f c2f.
        * rewrite bool_decide_eq_true_2 by done. wp_steps.
          eapply wp_mono.
          { apply (InsertLeaf_refit_spec _ _ (Nd np s0 (Lf leaf)) (f :: c0)).
            - split_and!.
              + done.
              + simpl. split_and!.
                * linked_solve.
                * rep_solve.
                * eexists. split; [rd_solve|]. done.
              + eapply (ctx_rep_relink (m_nodes t1) _ (idx s0)); [exact Hc1'|done|exact HNDc| |].
                * intros _. eexists. split; [exact Hnf|]. simpl ctx_parent. tsimpl.
                  rd_norm. by rewrite bool_decide_eq_true_2.
                * simpl. intros i Hi Hne. apply elem_of_cons in Hi as [->|Hi]; [done|].
                  apply elem_of_app in Hi as [Hi|Hi]; disj_inst; notin_split; rd_norm; done.
              + simpl. eapply NoDup_Permutation_proper; [|exact HND']. simpl. perm_solve.
              + tsimpl. by rewrite !length_wr.
              + tsimpl. simpl. rewrite Hroot1, Hroot, idx_plug. done.
            - unfold pool_fuel. tsimpl. rewrite !length_wr. exact Hfuel. }
          intros [] t3 ((T' & HT & Hr & Hn & Hl & Hsf & Hfr) & Hkept). exists T', fl1.
          split_and!.
          -- eapply Inv_after_walk; [exact HP1| | |done|done|].
             ++ eapply same_frame_trans; [|exact Hsf]. same_frame_solve.
             ++ intros i Hi. specialize (Hfl1 _ Hi). notin_split.
                rewrite Hfr by (simpl; set_solver). tsimpl. rd_norm. done.
             ++ rewrite Hn. unfold tree_nodes. rewrite Hnp. simpl. perm_solve.
          -- rewrite Hl. unfold tree_leaves. rewrite Hlp. simpl. perm_solve.
          -- intros i n Hin Hi. destruct (Hleafs i n Hin Hi) as (Hi1 & Hc1n & Hinp).
             refine (kept_trans _ _ _ _ _ Hc1n Hkept). clear Hleafs Hfr Hfl1 Hkept.
             kept_wr i Hi1 Hc1n.
          -- intros [?|Hfl]; [done|]. destruct Hsf as (_ & _ & Hcp & _). tsimpl.
             rewrite Hcp. by apply Hcsame.
          -- intros _ Hfl. destruct Hsf as (_ & _ & Hcp & _). tsimpl.
             rewrite Hcp. by apply Hcdbl.
        * rewrite bool_decide_eq_false_2 by neq_solve. wp_steps.
          eapply wp_mono.
          { apply (InsertLeaf_refit_spec _ _ (Nd np s0 (Lf leaf)) (f :: c0)).
            - split_and!.
              + done.
              + simpl. split_and!.
                * linked_solve.
                * rep_solve.
                * eexists. split; [rd_solve|]. done.
              + eapply (ctx_rep_relink (m_nodes t1) _ (idx s0)); [exact Hc1'|done|exact HNDc| |].
                * intros _. eexists. split; [exact Hnf|]. simpl ctx_parent. tsimpl.
                  rd_norm. by rewrite bool_decide_eq_false_2 by neq_solve.
                * simpl. intros i Hi Hne. apply elem_of_cons in Hi as [->|Hi]; [done|].
                  apply elem_of_app in Hi as [Hi|Hi]; disj_inst; notin_split; rd_norm; done.
              + simpl. eapply NoDup_Permutation_proper; [|exact HND']. simpl. perm_solve.
              + tsimpl. by rewrite !length_wr.
              + tsimpl. simpl. rewrite Hroot1, Hroot, idx_plug. done.
            - unfold pool_fuel. tsimpl. rewrite !length_wr. exact Hfuel. }
          intros [] t3 ((T' & HT & Hr & Hn & Hl & Hsf & Hfr) & Hkept). exists T', fl1.
          split_and!.
          -- eapply Inv_after_walk; [exact HP1| | |done|done|].
             ++ eapply same_frame_trans; [|exact Hsf]. same_frame_solve.
             ++ intros i Hi. specialize (Hfl1 _ Hi). notin_split.
                rewrite Hfr by (simpl; set_solver). tsimpl. rd_norm. done.
             ++ rewrite Hn. unfold tree_nodes. rewrite Hnp. simpl. perm_solve.
          -- rewrite Hl. unfold tree_leaves. rewrite Hlp. simpl. perm_solve.
          -- intros i n Hin Hi. destruct (Hleafs i n Hin Hi) as (Hi1 & Hc1n & Hinp).
             refine (kept_trans _ _ _ _ _ Hc1n Hkept). clear Hleafs Hfr Hfl1 Hkept.
             kept_wr i Hi1 Hc1n.
          -- intros [?|Hfl]; [done|]. destruct Hsf as (_ & _ & Hcp & _). tsimpl.
             rewrite Hcp. by apply Hcsame.
          -- intros _ Hfl. destruct Hsf as (_ & _ & Hcp & _). tsimpl.
             rewrite Hcp. by apply Hcdbl.
    - unfold InsertLeaf. wp_steps. rewrite Hroot, bool_decide_eq_true_2 by done.
      wp_steps. exists (Lf leaf), fl. split_and!; [|done| | |]; cycle 1.
      { intros i n Hin%list_elem_of_singleton Hi. subst i. simplify_eq. tsimpl.
        rd_norm. by eexists. }
      { intros _. by tsimpl. }
      { by intros HT. }
      simpl in Hnd, HP. apply NoDup_app in Hnd as (_ & Hd & _).
      eapply Inv_after_walk;
        [exact (Pool_set_insertionCount _ _ _ (m_insertionCount t + 1) HP)| | | | |]; tsimpl.
      + same_frame_solve.
      + intros i Hi. specialize (Hd _ Hi). notin_split. by rd_norm.
      + simpl. eexists. split; [rd_solve|]. done.
      + done.
      + done.
  Qed.

End Insert.

Section Remove.
  Context {float Rectf : Type} {FO : FloatOps float} {RO : RectOps float Rectf}.
  Local Abbreviation b2TreeNode := (b2TreeNode Rectf).
  Local Abbreviation b2DynamicTree := (b2DynamicTree Rectf).
  Local Abbreviation M := (M Rectf).
  Implicit Types (ns : list b2TreeNode) (t : b2DynamicTree) (s : shape)
    (c : list frame) (i p : Z) (T : option shape).

Lemma fill_rep ns g c s :
    ctx_rep ns (idx s) (g :: c) → rep ns (f_idx g) s →
    rep_stale ns (ctx_parent c) (fill g s) ∧ ctx_rep ns (idx (fill g s)) c.
  Proof.
    destruct g as [gi side gs]. unfold fill. simpl.
    intros (Hl & Hs & Hc) Hr. destruct side; simpl; done.
  Qed.

Lemma nodes_fill g s : nodes (fill g s) ≡ₚ f_idx g :: nodes s ++ nodes (f_sib g).
  Proof. destruct g as [gi [] gs]; unfold fill; simpl; perm_solve. Qed.

Lemma leaves_fill g s : leaves (fill g s) ≡ₚ leaves s ++ leaves (f_sib g).
  Proof. destruct g as [gi [] gs]; unfold fill; simpl; perm_solve. Qed.

Lemma is_Nd_fill g s : is_Nd (fill g s).
  Proof. by destruct g as [gi [] gs]. Qed.

Lemma Pool_capacity t alloc fl :
    Pool t alloc fl → m_nodeCapacity t = Z.of_nat (length fl + length alloc).
  Proof.
    intros HP. pose proof (pool_cover _ _ _ HP) as Hc%Permutation_length.
    rewrite length_seqZ, length_app in Hc. pose proof (pool_capacity _ _ _ HP). lia.
  Qed.

Lemma RemoveLeaf_spec t s fl leaf :
    Inv t (Some s) [] fl → leaf ∈ leaves s →
    wp (RemoveLeaf leaf)
       (λ _ t', ∃ T' fl', Inv t' T' [leaf] fl' ∧ leaf_like (m_nodes t') leaf
                ∧ leaf :: tree_leaves T' ≡ₚ leaves s
                ∧ rd (m_nodes t') leaf = rd (m_nodes t) leaf
                ∧ m_insertionCount t' = m_insertionCount t
                ∧ (∀ i n, i ∈ leaves s → rd (m_nodes t) i = Some n →
                          ∃ q, rd (m_nodes t') i = Some (set_parent q n))
                ∧ m_nodeCapacity t' = m_nodeCapacity t
                ∧ (T' ≠ None → m_freeList t' ≠ b2_nullNode)) t.
  Proof.
    intros HI Hleaf.
    pose proof (Pool_of_Inv _ _ _ _ HI) as HP. simpl in HP. rewrite app_nil_r in HP.
    pose proof (Pool_NoDup _ _ _ HP) as Hnd.
    destruct (inv_root _ _ _ _ HI) as [Hroot Hrep]. 
    pose proof (pool_length _ _ _ HP) as Hlen.
    destruct (find_leaf _ _ Hleaf) as (c & ->).
    pose proof (nodes_plug (Lf leaf) c) as Hnp. pose proof (leaves_plug (Lf leaf) c) as Hlp.
    simpl in Hnp, Hlp.
    pose proof Hrep as Hrep'.
    assert (∀ i n, i ∈ leaves (plug (Lf leaf) c) → rd (m_nodes t) i = Some n →
                   child1 n = b2_nullNode) as Hleafs.
    { intros i n Hin Hi. exact (rep_leaf_child1 _ _ _ _ _ Hrep' Hin Hi). }
    apply rep_plug in Hrep as [Hl Hc]. simpl in Hl, Hc.
    destruct Hl as (nl & Hnl & Hpl & Hl1 & Hl2 & Hlh).
    pose proof (rd_Some_range _ _ _ Hnl) as Hrl.
    rewrite idx_plug in Hroot. simpl in Hroot.
    assert (NoDup (leaf :: ctx_nodes c)) as HND.
    { rewrite <-Hnp. by apply NoDup_app in Hnd as (_ & _ & ?). }
    assert (∀ i, i ∈ fl → i ∉ leaf :: ctx_nodes c) as Hfl.
    { intros i Hi. rewrite <-Hnp. by apply NoDup_app in Hnd as (_ & Hd & _); apply Hd. }
    unfold RemoveLeaf. wp_steps.
    destruct c as [|f c].
    - (* the leaf is the root *)
      simpl in Hroot. rewrite bool_decide_eq_true_2 by done. wp_steps.
      exists None, fl. split_and!; try done.
      + apply Inv_of_Pool; [|done]. simpl.
        eapply Pool_perm; [apply Pool_set_root; exact HP|]. by rewrite Hnp.
      + by exists nl.
      + intros i n _ Hi. by apply kept_refl.
    - destruct f as [pf side sib]. simpl in Hc. destruct Hc as (Hlk & Hsib & Hc).
      destruct Hlk as (nf & Hnf & Hfp & Hf1 & Hf2 & Hfh & Hf1n).
      simpl in Hroot, Hpl.
      pose proof (idx_in_nodes sib) as Hsi.
      destruct (rep_root _ _ _ Hsib) as (nsib & Hnsib & Hsp & _).
      assert (leaf ≠ m_root t) as Hnr.
      { rewrite Hroot. intros E. apply NoDup_cons in HND as [Hni _]. apply Hni.
        rewrite E at 1. by apply (ctx_top_in leaf (mkFrame pf side sib :: c)). }
      rewrite bool_decide_eq_false_2 by done.
      simpl in HND.
      clear Hleaf Hrep'. set (S0 := plug (Lf leaf) (mkFrame pf side sib :: c)) in *.
      simpl in Hlp.
      assert (∀ i, i ∈ fl → i ∉ leaf :: pf :: nodes sib ++ ctx_nodes c) as Hfl' by exact Hfl.
      clear Hfl. 
      assert (nodes S0 ≡ₚ pf :: (nodes sib ++ ctx_nodes c) ++ [leaf]) as Hal.
      { rewrite Hnp. simpl. perm_solve. }
      clear Hnp.
      assert (∀ i n, i ∈ leaves S0 → rd (m_nodes t) i = Some n → i ≠ pf) as Hlpf0.
      { intros i n Hin Hi ->. pose proof (Hleafs _ _ Hin Hi) as Hc1.
        rewrite Hnf in Hi. injection Hi as <-. congruence. }
      destruct nl as [bl ul pl c1l c2l hl ml]; tsimpl; subst pl c1l c2l hl.
      destruct nf as [bf uf pp c1f c2f hf mf]; tsimpl; subst pp.
      wp_steps.
      assert (wp (if bool_decide (c1f = leaf) then fld pf child2 else fld pf child1)
                 (λ a t', a = idx sib ∧ t' = t) t) as Hsel.
      { destruct side; subst c1f c2f.
        - rewrite bool_decide_eq_true_2 by done. wp_steps. done.
        - rewrite bool_decide_eq_false_2 by (distinct; neq_solve). wp_steps. done. }
      eapply wp_mono; [exact Hsel|]. clear Hsel. intros ? ? [-> ->].
      assert ((idx sib ∉ fl) ∧ (pf ∉ fl) ∧ (leaf ∉ fl)) as (Hsfl & Hpfl & Hlfl).
      { split_and!; intros Hi; apply Hfl' in Hi; apply Hi; set_solver. }
      assert (pf ≠ idx sib ∧ leaf ≠ idx sib ∧ leaf ≠ pf) as (Hpsib & Hlsib & Hlpf).
      { clear -HND Hsi. distinct. split_and!; neq_solve. }
      destruct c as [|g c].
      + (* the parent is the root: the sibling becomes the root *)
        simpl. wp_steps.
        eapply wp_mono.
        { eapply (FreeNode_spec _ (nodes S0) ((nodes sib ++ []) ++ [leaf]) fl); [|exact Hal].
          eapply Pool_frame; [exact HP| | |].
          - by unfold same_frame; tsimpl; rewrite length_wr.
          - intros i Hi. tsimpl. rewrite rd_wr_ne; [done|]. by intros <-.
          - intros i Hi. unfold detached. tsimpl.
            destruct (decide (i = idx sib)) as [->|Hne].
            + rewrite rd_wr_eq by (apply rd_Some_range in Hnsib; lia). eexists. split; [done|].
              tsimpl. eapply rep_root_height; done.
            + rewrite rd_wr_ne by done. by apply (pool_alloc _ _ _ HP). }
        intros [] t2 (HP2 & Hfl2 & Hroot2 & Hic2 & Hfr2). tsimpl.
        assert (rd (m_nodes t2) leaf = rd (m_nodes t) leaf) as Hleq.
        { rewrite Hfr2 by done. by rewrite rd_wr_ne by done. }
        exists (Some sib), (pf :: fl). split_and!; [| | |done|done| | |]; cycle 3.
        { intros i n Hin Hi. rewrite Hfr2 by (by eapply Hlpf0).
          destruct (decide (i = idx sib)) as [->|Hne].
          - rewrite rd_wr_eq by (apply rd_Some_range in Hnsib; lia).
            rewrite Hnsib in Hi. injection Hi as <-. by eexists.
          - rewrite rd_wr_ne by done. by apply kept_refl. }
        { rewrite (Pool_capacity _ _ _ HP2), (Pool_capacity _ _ _ HP).
          apply Permutation_length in Hal. rewrite Hal. simpl. lia. }
        { intros _. rewrite Hfl2. pose proof (rd_Some_range _ _ _ Hnf).
          unfold b2_nullNode. lia. }
        * apply Inv_of_Pool.
          { simpl. by rewrite app_nil_r in HP2. }
          simpl. split; [done|].
          eapply (rep_reparent (m_nodes t)); [exact Hsib| |exact Hnsib| |].
          -- clear -HND. distinct. done.
          -- rewrite Hfr2 by done. rewrite rd_wr_eq; [done|]. apply rd_Some_range in Hnsib. lia.
          -- intros i Hi Hne. rewrite Hfr2; [by rewrite rd_wr_ne|].
             clear -HND Hi. distinct. intros ->. done.
        * unfold leaf_like. rewrite Hleq. eexists. split; [done|]. done.
        * simpl. rewrite Hlp. simpl. by rewrite app_nil_r.
      + (* the grandparent adopts the sibling *)
        destruct g as [gi gside gsib].
        pose proof Hc as ((ng & Hng & Hgp & Hg1 & Hg2 & Hgh & Hg1n) & Hgsib & Hcc).
        simpl in Hng, Hgp, Hg1, Hg2, Hg1n, Hgsib, Hcc. simpl ctx_parent.
        assert (gi ≠ b2_nullNode) as Hgn by (intros ->; by rewrite rd_null in Hng).
        assert (idx sib ≠ b2_nullNode) as Hsn by (intros E; by rewrite E, rd_null in Hnsib).
        rewrite bool_decide_eq_true_2 by done.
        assert (gi ≠ pf ∧ gi ≠ idx sib ∧ gi ≠ leaf ∧ gi ∉ fl) as (Hgpf & Hgs & Hgl & Hgfl).
        { split_and!; [clear -HND Hsi; simpl in HND; distinct; neq_solve..|].
          intros Hi. apply Hfl' in Hi. apply Hi. set_solver. }
        set (ng' := if bool_decide (child1 ng = pf) then set_child1 (idx sib) ng
                    else set_child2 (idx sib) ng).
        wp_steps.
        assert (wp (if bool_decide (child1 ng = pf) then modify gi (set_child1 (idx sib))
                    else modify gi (set_child2 (idx sib)))
                   (λ _ t', t' = set_nodes (wr (m_nodes t) gi ng') t) t) as Hmod.
        { unfold ng'. case_bool_decide; wp_steps; done. }
        eapply wp_mono; [exact Hmod|]. clear Hmod. intros [] ? ->.
        wp_steps.
        pose proof (rd_Some_range _ _ _ Hnsib) as Hrs.
        pose proof (rd_Some_range _ _ _ Hng) as Hrg.
        eapply wp_mono.
        { eapply (FreeNode_spec _ (nodes S0) _ fl); [|exact Hal].
          eapply Pool_frame; [exact HP| | |].
          - by unfold same_frame; tsimpl; rewrite !length_wr.
          - intros i Hi. tsimpl. rewrite !rd_wr_ne; [done|by intros <-..].
          - intros i Hi. unfold detached. tsimpl.
            destruct (decide (i = idx sib)) as [->|Hne].
            { rewrite rd_wr_eq by range_solve. eexists. split; [done|].
              tsimpl. exact (rep_root_height _ _ _ _ Hsib Hnsib). }
            rewrite rd_wr_ne by done.
            destruct (decide (i = gi)) as [->|Hne'].
            { exists ng'. split; [by rewrite rd_wr_eq by range_solve|].
              unfold ng'. case_bool_decide; tsimpl; done. }
            rewrite rd_wr_ne by done. by apply (pool_alloc _ _ _ HP). }
        intros [] t2 (HP2 & Hfl2 & Hroot2 & Hic2 & Hfr2). tsimpl.
        assert (rd (m_nodes t2) leaf = rd (m_nodes t) leaf) as Hleq.
        { rewrite Hfr2 by done. by rewrite !rd_wr_ne by done. }
        assert (rd (m_nodes t2) gi = Some ng') as Hng2.
        { rewrite Hfr2 by done. rewrite rd_wr_ne by done. by rewrite rd_wr_eq by range_solve. }
        assert (rd (m_nodes t2) (idx sib) = Some (set_parent gi nsib)) as Hns2.
        { rewrite Hfr2 by done. by rewrite rd_wr_eq by range_solve. }
        assert (∀ i, i ≠ pf → i ≠ gi → i ≠ idx sib → rd (m_nodes t2) i = rd (m_nodes t) i) as Hfr.
        { intros i ? ? ?. rewrite Hfr2 by done. by rewrite !rd_wr_ne by done. }
        assert (∀ i n, i ∈ leaves S0 → rd (m_nodes t) i = Some n →
                       child1 n = b2_nullNode
                       ∧ ∃ q, rd (m_nodes t2) i = Some (set_parent q n)) as Hkept2.
        { intros i n Hin Hi. pose proof (Hleafs _ _ Hin Hi) as Hc1. split; [done|].
          assert (i ≠ gi) as Higi.
          { intros ->. rewrite Hng in Hi. injection Hi as <-. congruence. }
          destruct (decide (i = idx sib)) as [->|Hne].
          - rewrite Hns2. rewrite Hnsib in Hi. injection Hi as <-. by eexists.
          - rewrite Hfr; [by apply kept_refl|by eapply Hlpf0|done..]. }
        clear Hfr2.
        set (G := mkFrame gi gside gsib) in *.
        assert (nodes (fill G sib) ++ ctx_nodes c ≡ₚ nodes sib ++ ctx_nodes (G :: c)) as HpN.
        { rewrite nodes_fill. simpl. perm_solve. }
        assert (walk_state t2 (fill G sib) c) as Hw.
        { assert (ctx_rep (m_nodes t2) (idx sib) (G :: c)) as Hc2.
          { eapply (ctx_rep_relink (m_nodes t)); [exact Hc|done| | |].
            - clear -HND. apply NoDup_cons in HND as [_ HND].
              apply NoDup_cons in HND as [Hn HND]. apply NoDup_app in HND as (_ & _ & HND).
              apply NoDup_cons. split; [|done]. intros Hi. apply Hn, elem_of_app. by right.
            - intros _. exists ng. split; [done|]. exact Hng2.
            - simpl ctx_parent. intros i Hi Hne. apply Hfr; [| done |].
              + clear -HND Hi. intros ->. apply NoDup_cons in HND as [_ HND].
                apply NoDup_cons in HND as [Hn HND]. apply Hn, elem_of_app. by right.
              + clear -HND Hi Hsi. intros ->. apply NoDup_cons in HND as [_ HND].
                apply NoDup_cons in HND as [Hn HND]. apply NoDup_app in HND as (_ & Hd & _).
                by apply (Hd (idx sib)). }
          assert (rep (m_nodes t2) gi sib) as Hs2.
          { eapply (rep_reparent (m_nodes t)); [exact Hsib| |exact Hnsib|exact Hns2|].
            - clear -HND. distinct. done.
            - intros i Hi Hne. apply Hfr; [| |done].
              + clear -HND Hi. distinct. by intros ->.
              + clear -HND Hi. simpl in HND. distinct. by intros ->. }
          destruct (fill_rep _ _ _ _ Hc2 Hs2) as [Hst Hcr].
          split_and!; [apply is_Nd_fill|done|done| | |].
          - rewrite HpN. clear -HND. apply NoDup_cons in HND as [_ HND].
            by apply NoDup_cons in HND as [_ HND].
          - apply (pool_length _ _ _ HP2).
          - rewrite Hroot2, idx_fill. exact Hroot. }
        eapply wp_mono.
        { change gi with (f_idx G). rewrite <-(idx_fill G sib).
          apply RemoveLeaf_refit_spec; [exact Hw|].
          unfold pool_fuel. pose proof (Pool_alloc_length _ _ _ HP2) as Hle.
          pose proof (ctx_length c). rewrite !length_app in Hle. simpl in Hle.
          rewrite length_app in Hle. lia. }
        intros [] t3 ((T' & Hrep3 & Hroot3 & HnT & HlT & Hsf3 & Hfr3) & Hkept3).
        assert (∀ i, i ∈ (pf :: fl) ++ [leaf] → i ∉ nodes (fill G sib) ++ ctx_nodes c) as Hout.
        { intros i Hi. rewrite HpN. clear -Hi Hfl' HND.
          apply elem_of_app in Hi as [[->|Hi]%elem_of_cons| ->%list_elem_of_singleton].
          - apply NoDup_cons in HND as [_ HND]. by apply NoDup_cons in HND as [Hn _].
          - intros Hx. apply (Hfl' _ Hi). by do 2 right.
          - by apply NoDup_cons in HND as [Hn HND]; intros Hx; apply Hn; right. }
        assert (rd (m_nodes t3) leaf = rd (m_nodes t) leaf) as Hleq3.
        { rewrite Hfr3; [done|]. apply Hout. set_solver. }
        exists (Some T'), (pf :: fl). split_and!; [| | |done| | | |]; cycle 4.
        { intros i n Hin Hi. destruct (Hkept2 i n Hin Hi) as [Hc1 Hq].
          exact (kept_trans _ _ _ _ Hq Hc1 Hkept3). }
        { destruct Hsf3 as (_ & _ & -> & _).
          rewrite (Pool_capacity _ _ _ HP2), (Pool_capacity _ _ _ HP).
          apply Permutation_length in Hal. rewrite Hal. simpl. lia. }
        { intros _. destruct Hsf3 as (_ & _ & _ & -> & _). rewrite Hfl2.
          pose proof (rd_Some_range _ _ _ Hnf). unfold b2_nullNode. lia. }
        * eapply Inv_after_walk_det; [exact HP2|done| |done|done|].
          -- intros i Hi. by apply Hfr3, Hout.
          -- rewrite HnT, HpN. done.
        * unfold leaf_like. rewrite Hleq3. eexists. split; [done|]. done.
        * simpl. rewrite Hlp, HlT, leaves_fill. simpl. perm_solve.
        * destruct Hsf3 as (_ & _ & _ & _ & _ & ->). done.
  Qed.
End Remove.

Section Remap.
  Context {float Rectf : Type} {FO : FloatOps float} {RO : RectOps float Rectf}.
  Local Abbreviation b2TreeNode := (b2TreeNode Rectf).
  Local Abbreviation b2DynamicTree := (b2DynamicTree Rectf).
  Local Abbreviation M := (M Rectf).
  Implicit Types (ns : list b2TreeNode) (t : b2DynamicTree) (s : shape)
    (c : list frame) (i p : Z) (T : option shape).

  Variable g : Rectf → Rectf.
  Hypothesis g_combine : ∀ a b, g (combine a b) = combine (g a) (g b).

Lemma rep_remapped ns ns' p s : remapped g ns ns' → rep ns p s → rep ns' p s.
  Proof.
    intros [_ Hm]. revert p. induction s as [i|i l IHl r IHr]; intros p; simpl.
    - intros (n & Hn & Hp & H1 & H2 & Hh).
      destruct (Hm _ _ Hn) as (n' & Hn' & _ & Hp' & H1' & H2' & Hh').
      exists n'. split_and!; congruence.
    - intros ((n & Hn & Hp & H1 & H2 & Hh & H1n) & (n0 & n1 & n2 & Hn0 & Hn1 & Hn2 & Hht & Hbx)
              & Hl & Hr).
      simplify_eq.
      destruct (Hm _ _ Hn) as (n' & Hn' & Hb' & Hp' & H1' & H2' & Hh').
      destruct (Hm _ _ Hn1) as (n1' & Hn1' & Hb1' & _ & _ & _ & Hh1').
      destruct (Hm _ _ Hn2) as (n2' & Hn2' & Hb2' & _ & _ & _ & Hh2').
      split_and!; [| |by apply IHl|by apply IHr].
      + exists n'. split_and!; congruence.
      + exists n', n1', n2'. rewrite H1', H2'. split_and!; [done..|congruence|].
        rewrite Hb', Hb1', Hb2'. destruct Hbx as [->| ->]; rewrite g_combine; auto.
  Qed.

Lemma free_chain_remapped ns ns' head fl :
    remapped g ns ns' → free_chain ns head fl → free_chain ns' head fl.
  Proof.
    intros [_ Hm]. revert head. induction fl as [|i fl IH]; intros head; simpl; [done|].
    intros (-> & n & Hn & Hh & Hc). split; [done|].
    destruct (Hm _ _ Hn) as (n' & Hn' & _ & Hp' & _ & _ & Hh').
    exists n'. split_and!; [done|congruence|]. unfold next in *. rewrite Hp'. by apply IH.
  Qed.

Lemma Inv_remapped t t' T det fl :
    Inv t T det fl → remapped g (m_nodes t) (m_nodes t') →
    m_root t' = m_root t → m_nodeCount t' = m_nodeCount t →
    m_nodeCapacity t' = m_nodeCapacity t → m_freeList t' = m_freeList t →
    Inv t' T det fl.
  Proof.
    intros [Hlen Hcap Hroot Hfree Hdet Hcover Hcnt] Hm Hr Hc Hca Hf.
    split.
    - destruct Hm as [-> _]. congruence.
    - congruence.
    - rewrite Hr. destruct T as [s|]; simpl in *; [|done].
      destruct Hroot. split; [done|]. by eapply rep_remapped.
    - rewrite Hf. by eapply free_chain_remapped.
    - intros i Hi. destruct (Hdet _ Hi) as (n & Hn & Hh).
      destruct Hm as [_ Hm]. destruct (Hm _ _ Hn) as (n' & Hn' & _ & _ & _ & _ & Hh').
      exists n'. split; [done|]. congruence.
    - by rewrite Hca.
    - congruence.
  Qed.
End Remap.

Section Public.
  Context {float Rectf : Type} {FO : FloatOps float} {RO : RectOps float Rectf}.
  Local Abbreviation b2TreeNode := (b2TreeNode Rectf).
  Local Abbreviation b2DynamicTree := (b2DynamicTree Rectf).
  Local Abbreviation M := (M Rectf).
  Implicit Types (ns : list b2TreeNode) (t : b2DynamicTree) (s : shape)
    (c : list frame) (i p : Z) (T : option shape).

Lemma remapped_wr ns i n n' :
    rd ns i = Some n → aabb n' = aabb n → parent n' = parent n →
    child1 n' = child1 n → child2 n' = child2 n → height n' = height n →
    remapped id ns (wr ns i n').
  Proof.
    intros Hn Hb Hp H1 H2 Hh. split; [by rewrite length_wr|].
    intros j m Hm. destruct (decide (j = i)) as [->|Hne].
    - rewrite rd_wr_eq by (apply rd_Some_range in Hn; lia). simplify_eq.
      exists n'. done.
    - rewrite rd_wr_ne by done. exists m. done.
  Qed.

  (** The constructor: an empty tree over sixteen free slots. *)
Lemma b2DynamicTree_new_spec :
    ∃ t, b2DynamicTree_new = Some t ∧ Inv t None [] (seqZ 0 16)
         ∧ m_root t = b2_nullNode.
  Proof.
    eexists. split; [vm_compute; reflexivity|]. split; [|done].
    split; try done.
    - vm_compute seqZ. simpl.
      repeat (split; [reflexivity|]; eexists; split; [reflexivity|]; split; [reflexivity|]).
      reflexivity.
    - intros i Hi. by apply elem_of_nil in Hi.
  Qed.

  (** [ClearMoved] *)
Lemma ClearMoved_spec t T fl h :
    Inv t T [] fl → 0 ≤ h < m_nodeCapacity t →
    wp (ClearMoved h) (λ _ t', Inv t' T [] fl) t.
  Proof.
    intros HI Hh. pose proof (inv_length _ _ _ _ HI) as Hlen.
    destruct (rd_in_range (m_nodes t) h) as [n Hn]; [lia|].
    unfold ClearMoved. wp_steps.
    eapply (Inv_remapped id); [done|exact HI| |done..].
    tsimpl. by eapply remapped_wr.
  Qed.

Lemma rd_fmap (f : b2TreeNode → b2TreeNode) ns i : rd (f <$> ns) i = f <$> rd ns i.
  Proof. unfold rd. case_decide; [|done]. apply list_lookup_fmap. Qed.

Lemma set_nodes_id t : set_nodes (m_nodes t) t = t.
  Proof. by destruct t. Qed.

Lemma ShiftOrigin_run v t :
    Z.of_nat (length (m_nodes t)) = m_nodeCapacity t →
    ShiftOrigin v t = Some (tt, set_nodes (shifted v <$> m_nodes t) t).
  Proof.
    intros Hlen.
    cut (wp (ShiftOrigin v) (λ _ t', t' = set_nodes (shifted v <$> m_nodes t) t) t).
    { intros ([] & t' & -> & ->). done. }
    unfold ShiftOrigin. wp_steps. unfold for_range.
    apply wp_for_loop with (I := λ j t',
      ∃ ns', t' = set_nodes ns' t ∧ length ns' = length (m_nodes t) ∧
             ∀ k, rd ns' k = (if bool_decide (k < j) then shifted v else id) <$> rd (m_nodes t) k).
    - exists (m_nodes t). split_and!; [by rewrite set_nodes_id|done|].
      intros k. case_bool_decide.
      + rewrite rd_out_of_range by lia. done.
      + by destruct (rd (m_nodes t) k).
    - intros j t' Hj (ns' & -> & Hl & Hrd).
      destruct (rd_in_range (m_nodes t) j) as [n Hn]; [lia|].
      assert (rd ns' j = Some n) as Hn'.
      { rewrite Hrd, Hn. by rewrite bool_decide_eq_false_2 by lia. }
      wp_steps. exists (wr ns' j (shifted v n)). split_and!; [done|by rewrite length_wr|].
      intros k. destruct (decide (k = j)) as [->|Hne].
      + rewrite rd_wr_eq by lia. rewrite Hn. by rewrite bool_decide_eq_true_2 by lia.
      + rewrite rd_wr_ne by done. rewrite Hrd.
        destruct (rd (m_nodes t) k); [simpl|done].
        repeat case_bool_decide; try done; lia.
    - intros t' (ns' & -> & Hl & Hrd). f_equal. apply rd_ext.
      + by rewrite length_fmap.
      + intros k. rewrite Hrd, rd_fmap.
        destruct (rd (m_nodes t) k) eqn:E; [|done]. simpl.
        apply rd_Some_range in E. by rewrite bool_decide_eq_true_2 by lia.
  Qed.

Lemma ShiftOrigin_spec v t T fl :
    (∀ a b, move (combine a b) (vneg v) = combine (move a (vneg v)) (move b (vneg v))) →
    Inv t T [] fl →
    wp (ShiftOrigin v) (λ _ t', Inv t' T [] fl) t.
  Proof.
    intros Hlaw HI. exists tt, (set_nodes (shifted v <$> m_nodes t) t).
    split; [apply ShiftOrigin_run, (inv_length _ _ _ _ HI)|].
    eapply (Inv_remapped (λ b, move b (vneg v))); [done|exact HI| |done..].
    tsimpl. split; [by rewrite length_fmap|].
    intros i n Hn. exists (shifted v n). rewrite rd_fmap, Hn. done.
  Qed.

  (** The nodes of a tree are its leaves and its internal nodes, which
      have children. *)
Lemma rep_node_cases ns p s i :
    rep ns p s → i ∈ nodes s →
    i ∈ leaves s ∨ ∃ n, rd ns i = Some n ∧ child1 n ≠ b2_nullNode ∧ 1 ≤ height n.
  Proof.
    revert p. induction s as [j|j l IHl r IHr]; intros p; simpl.
    - intros _ Hi. by left.
    - intros Hrep [->|[Hi|Hi]%elem_of_app]%elem_of_cons.
      + right. destruct (rep_root _ _ (Nd j l r) Hrep) as (n & Hn & _ & _ & _ & ? & ?).
        exists n. done.
      + destruct Hrep as (_ & _ & Hl & _).
        destruct (IHl _ Hl Hi) as [?|?]; [left; set_solver|by right].
      + destruct Hrep as (_ & _ & _ & Hr).
        destruct (IHr _ Hr Hi) as [?|?]; [left; set_solver|by right].
  Qed.

Lemma rep_leaf_at ns p s i :
    rep ns p s → i ∈ leaves s → leaf_like ns i.
  Proof.
    revert p. induction s as [j|j l IHl r IHr]; intros p; simpl.
    - intros (n & Hn & _ & ? & ? & ?) ->%list_elem_of_singleton. by exists n.
    - intros (_ & _ & Hl & Hr) [Hi|Hi]%elem_of_app; eauto.
  Qed.

Lemma proxy_in_leaves t T fl h :
    Inv t T [] fl → is_proxy t h → h ∈ tree_leaves T.
  Proof.
    intros HI (n & Hn & Hh & Hleaf).
    pose proof (Pool_of_Inv _ _ _ _ HI) as HP. rewrite app_nil_r in HP.
    pose proof (rd_Some_range _ _ _ Hn) as Hr.
    rewrite (pool_length _ _ _ HP) in Hr.
    apply (Pool_range _ _ _ h HP) in Hr. apply elem_of_app in Hr as [Hr|Hr].
    - destruct (free_chain_height _ _ _ _ (pool_free _ _ _ HP) Hr) as (n' & Hn' & Hh').
      by simplify_eq.
    - destruct T as [s|]; simpl in *; [|by apply elem_of_nil in Hr].
      destruct (inv_root _ _ _ _ HI) as [_ Hrep].
      destruct (rep_node_cases _ _ _ _ Hrep Hr) as [?|(n' & Hn' & Hc & _)]; [done|].
      simplify_eq. unfold IsLeaf in Hleaf. by apply bool_decide_eq_true_1 in Hleaf.
  Qed.

Lemma leaf_is_proxy t T fl h :
    Inv t T [] fl → h ∈ tree_leaves T → is_proxy t h.
  Proof.
    intros HI Hh. destruct T as [s|]; simpl in *; [|by apply elem_of_nil in Hh].
    destruct (inv_root _ _ _ _ HI) as [_ Hrep].
    destruct (rep_leaf_at _ _ _ _ Hrep Hh) as (n & Hn & H1 & H2 & Hh0).
    exists n. split_and!; [done|lia|]. unfold IsLeaf. by apply bool_decide_eq_true_2.
  Qed.

  (** [CreateProxy], with what the nodes of the proxies hold after it. *)
Lemma CreateProxy_full uninit aabb_ userData_ t T fl :
    Inv t T [] fl →
    wp (CreateProxy uninit aabb_ userData_)
       (λ h t', ∃ s' fl', Inv t' (Some s') [] fl'
                ∧ leaves s' ≡ₚ (h :: tree_leaves T)
                ∧ (m_freeList t ≠ b2_nullNode → h = m_freeList t)
                ∧ (∀ i n, i ∈ tree_leaves T → rd (m_nodes t) i = Some n →
                          ∃ q, rd (m_nodes t') i = Some (set_parent q n))
                ∧ (∃ nh, rd (m_nodes t') h = Some nh
                         ∧ aabb nh = grown aabb_ b2_aabbExtension
                         ∧ userData nh = userData_ ∧ moved nh = true)
                ∧ (m_nodeCount t + 2 ≤ m_nodeCapacity t ∨ T = None →
                   m_nodeCapacity t' = m_nodeCapacity t)
                ∧ (T ≠ None → m_nodeCapacity t < m_nodeCount t + 2 →
                   2 ≤ m_nodeCapacity t →
                   m_nodeCapacity t' = 2 * m_nodeCapacity t)) t.
  Proof.
    intros HI.
    pose proof (Pool_of_Inv _ _ _ _ HI) as HP. rewrite app_nil_r in HP.
    pose proof (inv_root _ _ _ _ HI) as Hroot.
    unfold CreateProxy. wp_steps.
    eapply wp_mono; [exact (AllocateNode_spec uninit _ _ _ HP)|].
    intros h t1 (fl1 & HP1 & (n & Hn & Hnp & Hn1 & Hn2 & Hnh & _) & Hfresh & Hhd & Hr1 & _ & Hcap
                 & Hcsame & Hfr & Hcdbl). tsimpl.
    pose proof (rd_Some_range _ _ _ Hn) as Hrh.
    pose proof (Pool_NoDup _ _ _ HP1) as Hnd1.
    wp_steps.
    set (n' := set_moved true (set_height 0 (set_userData userData_
                 (set_aabb (grown aabb_ b2_aabbExtension) n)))).
    set (t2 := set_nodes (wr (m_nodes t1) h n') t1).
    assert (Inv t2 T [h] fl1) as HI2.
    { apply Inv_of_Pool.
      - eapply Pool_perm; [eapply Pool_frame; [exact HP1| | |]|].
        + by unfold same_frame, t2; tsimpl; rewrite length_wr.
        + intros i Hi. unfold t2. tsimpl. rewrite rd_wr_ne; [done|].
          intros ->. apply NoDup_app in Hnd1 as (_ & Hd & _). apply (Hd _ Hi). by left.
        + intros i Hi. unfold t2, detached. tsimpl.
          destruct (decide (i = h)) as [->|Hne].
          * rewrite rd_wr_eq by lia. exists n'. done.
          * rewrite rd_wr_ne by done. by apply (pool_alloc _ _ _ HP1).
        + perm_solve.
      - unfold t2. tsimpl. rewrite Hr1. eapply tree_rep_frame; [exact Hroot|].
        intros i Hi. rewrite rd_wr_ne by (by intros ->). apply Hfr; [by intros ->|].
        apply (Pool_range _ _ _ i HP). apply elem_of_app. by right. }
    eapply wp_mono; [apply (InsertLeaf_spec uninit t2 T fl1 h HI2)|].
    { unfold t2. tsimpl. exists n'. rewrite rd_wr_eq by lia. done. }
    intros [] t3 (s' & fl' & HI3 & Hl3 & Hk3 & Hc3s & Hc3d). wp_steps.
    assert (m_freeList t = b2_nullNode ↔ fl = []) as Hhead
      by exact (free_chain_head _ _ _ (pool_free _ _ _ HP)).
    assert (m_freeList t2 = b2_nullNode ↔ fl1 = []) as Hhead1
      by exact (free_chain_head _ _ _ (pool_free _ _ _ HP1)).
    pose proof (Pool_free_count _ _ _ HP) as Hfc.
    pose proof (Pool_free_count _ _ _ HP1) as Hfc1.
    assert (m_nodeCount t1 = m_nodeCount t + 1) as Hcnt1.
    { rewrite (pool_count _ _ _ HP1), (pool_count _ _ _ HP). simpl. lia. }
    assert (m_nodeCapacity t2 = m_nodeCapacity t1) as Hcap2 by done.
    exists s', fl'. split_and!; [done..| | | |].
    - intros i n0 Hin Hi. apply Hk3; [by right|]. unfold t2. tsimpl.
      assert (i ∈ fl ++ tree_nodes T) as Hia.
      { apply elem_of_app. right. destruct T; [by apply leaves_in_nodes|done]. }
      assert (i ≠ h) as Hih.
      { intros ->. apply Hfresh. destruct T; [by apply leaves_in_nodes|done]. }
      rewrite rd_wr_ne by done. rewrite Hfr; [done..|].
      by apply (Pool_range _ _ _ i HP).
    - destruct (Hk3 h n') as [q Hq]; [by left| |].
      { unfold t2. tsimpl. by rewrite rd_wr_eq by lia. }
      eexists. split; [exact Hq|]. by destruct n.
    - intros Hroom.
      assert (fl ≠ []) as Hfl.
      { intros ->. simpl in Hfc. destruct Hroom as [?| ->]; [lia|].
        rewrite (pool_count _ _ _ HP) in Hfc. simpl in Hfc.
        pose proof (pool_capacity _ _ _ HP). lia. }
      assert (m_nodeCapacity t1 = m_nodeCapacity t) as Hc1 by (apply Hcsame; tauto).
      rewrite Hc3s, Hcap2; [done|].
      destruct Hroom as [Hroom| ->]; [right|by left].
      rewrite Hhead1. intros ->. simpl in Hfc1. lia.
    - intros HT Hfull Hcap16.
      destruct fl as [|f0 fl0].
      + destruct Hcdbl as [_ Hc1]; [tauto|]. simpl in Hfc.
        rewrite Hc3s, Hcap2; [done|]. right. rewrite Hhead1. intros ->.
        simpl in Hfc1. lia.
      + assert (m_nodeCapacity t1 = m_nodeCapacity t) as Hc1.
        { apply Hcsame. rewrite Hhead. done. }
        assert (fl1 = []) as ->.
        { destruct fl1; [done|]. simpl in Hfc, Hfc1. lia. }
        rewrite Hc3d, Hcap2, Hc1; [done|done|]. by apply Hhead1.
  Qed.

  (** [CreateProxy] *)
Lemma CreateProxy_spec uninit aabb_ userData_ t T fl :
    Inv t T [] fl →
    wp (CreateProxy uninit aabb_ userData_)
       (λ h t', ∃ s' fl', Inv t' (Some s') [] fl'
                ∧ leaves s' ≡ₚ (h :: tree_leaves T)
                ∧ (m_freeList t ≠ b2_nullNode → h = m_freeList t)) t.
  Proof.
    intros HI. eapply wp_mono; [exact (CreateProxy_full uninit aabb_ userData_ _ _ _ HI)|].
    intros h t' (s' & fl' & ? & ? & ? & _). by exists s', fl'.
  Qed.

  (** [DestroyProxy], with what the nodes of the other proxies hold
      after it. *)
Lemma DestroyProxy_full t T fl h :
    Inv t T [] fl → is_proxy t h →
    wp (DestroyProxy h)
       (λ _ t', ∃ T' fl', Inv t' T' [] (h :: fl')
                ∧ h :: tree_leaves T' ≡ₚ tree_leaves T
                ∧ m_freeList t' = h
                ∧ (∀ i n, i ∈ tree_leaves T → i ≠ h → rd (m_nodes t) i = Some n →
                          ∃ q, rd (m_nodes t') i = Some (set_parent q n))
                ∧ m_nodeCapacity t' = m_nodeCapacity t) t.
  Proof.
    intros HI Hpx. pose proof (proxy_in_leaves _ _ _ _ HI Hpx) as Hin.
    destruct Hpx as (n & Hn & Hh & Hleaf).
    pose proof (rd_Some_range _ _ _ Hn) as Hr.
    pose proof (inv_length _ _ _ _ HI) as Hlen.
    destruct T as [s|]; simpl in Hin; [|by apply elem_of_nil in Hin].
    unfold DestroyProxy. wp_steps. rewrite Hleaf. wp_steps.
    eapply wp_mono; [by apply (RemoveLeaf_spec t s fl h)|].
    intros [] t1 (T' & fl1 & HI1 & _ & Hl1 & _ & _ & Hk1 & Hc1 & _).
    pose proof (Pool_of_Inv _ _ _ _ HI1) as HP1.
    eapply wp_mono; [apply (FreeNode_spec _ _ (tree_nodes T') _ h HP1); perm_solve|].
    intros [] t2 (HP2 & Hf2 & Hr2 & _ & Hfr2).
    exists T', fl1. split_and!; [|done..| |]; cycle 1.
    { intros i n0 Hi Hih Hn0. rewrite Hfr2 by done. by apply Hk1. }
    { rewrite <-Hc1, (Pool_capacity _ _ _ HP2), (Pool_capacity _ _ _ HP1).
      rewrite length_app. simpl. lia. }
    apply Inv_of_Pool; [by rewrite app_nil_r|].
    rewrite Hr2. eapply tree_rep_frame; [apply (inv_root _ _ _ _ HI1)|].
    intros i Hi. apply Hfr2. intros ->.
    pose proof (Pool_NoDup _ _ _ HP1) as Hnd.
    apply NoDup_app in Hnd as (_ & _ & Hnd). apply NoDup_app in Hnd as (_ & Hd & _).
    apply (Hd _ Hi). by left.
  Qed.

  (** [DestroyProxy] *)
Lemma DestroyProxy_spec t T fl h :
    Inv t T [] fl → is_proxy t h →
    wp (DestroyProxy h)
       (λ _ t', ∃ T' fl', Inv t' T' [] (h :: fl')
                ∧ h :: tree_leaves T' ≡ₚ tree_leaves T
                ∧ m_freeList t' = h) t.
  Proof.
    intros HI Hpx. eapply wp_mono; [exact (DestroyProxy_full _ _ _ _ HI Hpx)|].
    intros [] t' (T' & fl' & ? & ? & ? & _). by exists T', fl'.
  Qed.

  (** A detached node takes new data. *)
Lemma Inv_detached_wr t T fl h n n' :
    Inv t T [h] fl → rd (m_nodes t) h = Some n → 0 ≤ height n' →
    Inv (set_nodes (wr (m_nodes t) h n') t) T [h] fl.
  Proof.
    intros HI Hn Hh'. pose proof (Pool_of_Inv _ _ _ _ HI) as HP.
    pose proof (Pool_NoDup _ _ _ HP) as Hnd.
    pose proof (rd_Some_range _ _ _ Hn) as Hr.
    apply Inv_of_Pool.
    - eapply Pool_frame; [exact HP| | |].
      + by unfold same_frame; tsimpl; rewrite length_wr.
      + intros i Hi. tsimpl. rewrite rd_wr_ne; [done|]. intros ->.
        apply NoDup_app in Hnd as (_ & Hd & _). apply (Hd _ Hi), elem_of_app. right. by left.
      + intros i Hi. unfold detached. tsimpl.
        destruct (decide (i = h)) as [->|Hne].
        * rewrite rd_wr_eq by lia. by exists n'.
        * rewrite rd_wr_ne by done. by apply (pool_alloc _ _ _ HP).
    - tsimpl. eapply tree_rep_frame; [apply (inv_root _ _ _ _ HI)|].
      intros i Hi. rewrite rd_wr_ne; [done|]. intros ->.
      apply NoDup_app in Hnd as (_ & _ & Hnd). apply NoDup_app in Hnd as (_ & Hd & _).
      apply (Hd _ Hi). by left.
  Qed.

  (** [MoveProxy], with what the nodes of the proxies hold after it. *)
Lemma MoveProxy_full uninit aabb_ d t T fl h :
    Inv t T [] fl → is_proxy t h →
    wp (MoveProxy uninit h aabb_ d)
       (λ b t', (b = false ∧ t' = t) ∨
                (b = true ∧ ∃ s' fl', Inv t' (Some s') [] fl'
                            ∧ leaves s' ≡ₚ tree_leaves T
                            ∧ (∀ i n, i ∈ tree_leaves T → i ≠ h →
                                 rd (m_nodes t) i = Some n →
                                 ∃ q, rd (m_nodes t') i = Some (set_parent q n))
                            ∧ (∀ n, rd (m_nodes t) h = Some n →
                                 ∃ q, rd (m_nodes t') h =
                                   Some (set_moved true
                                     (set_aabb (MoveProxy_fatAABB aabb_ d)
                                        (set_parent q n))))
                            ∧ m_nodeCapacity t' = m_nodeCapacity t)) t.
  Proof.
    intros HI Hpx. pose proof (proxy_in_leaves _ _ _ _ HI Hpx) as Hin.
    destruct Hpx as (n & Hn & Hh & Hleaf).
    pose proof (rd_Some_range _ _ _ Hn) as Hr.
    pose proof (inv_length _ _ _ _ HI) as Hlen.
    destruct T as [s|]; simpl in Hin; [|by apply elem_of_nil in Hin].
    unfold MoveProxy. wp_steps. rewrite Hleaf. wp_steps.
    match goal with |- wp (if ?b then _ else _) _ _ => destruct b end.
    { wp_steps. by left. }
    wp_steps.
    eapply wp_mono; [by apply (RemoveLeaf_spec t s fl h)|].
    intros [] t1 (T' & fl1 & HI1 & (n1 & Hn1 & Hc1 & Hc2 & Hh1) & Hl1 & Hleq & _ & Hk1
                  & Hcp1 & Hfree1).
    pose proof (rd_Some_range _ _ _ Hn1) as Hr1.
    wp_steps.
    eapply wp_mono.
    { eapply (InsertLeaf_spec uninit _ T' fl1 h).
      - eapply Inv_detached_wr; [exact HI1|exact Hn1|]. tsimpl. lia.
      - tsimpl. eexists. rewrite rd_wr_eq by lia. done. }
    intros [] t3 (s' & fl' & HI3 & Hl3 & Hk3 & Hc3s & _).
    pose proof (Pool_of_Inv _ _ _ _ HI3) as HP3. simpl in HP3. rewrite app_nil_r in HP3.
    assert (h ∈ nodes s') as Hhs.
    { apply leaves_in_nodes. rewrite Hl3. by left. }
    destruct (pool_alloc _ _ _ HP3 _ Hhs) as (n3 & Hn3 & _).
    pose proof (rd_Some_range _ _ _ Hn3) as Hr3.
    wp_steps. right. split; [done|]. exists s', fl'.
    split; [|split; [by rewrite Hl3|split; [|split]]]; cycle 3.
    { tsimpl. rewrite <-Hcp1. apply Hc3s. tsimpl.
      destruct T' as [s1|]; [right; by apply Hfree1|by left]. }
    - eapply (Inv_remapped id); [done|exact HI3| |done..].
      tsimpl. by eapply remapped_wr.
    - intros i n0 Hi Hih Hn0. tsimpl. rewrite rd_wr_ne by done.
      destruct (Hk1 i n0 Hi Hn0) as [q Hq].
      destruct (Hk3 i (set_parent q n0)) as [q' Hq'].
      + right. assert (i ∈ h :: tree_leaves T') as Hi' by (by rewrite Hl1).
        apply elem_of_cons in Hi' as [?|?]; done.
      + tsimpl. by rewrite rd_wr_ne by done.
      + exists q'. rewrite Hq'. by destruct n0.
    - intros n0 Hn0. tsimpl. rewrite Hleq, Hn0 in Hn1. injection Hn1 as <-.
      destruct (Hk3 h (set_aabb (MoveProxy_fatAABB aabb_ d) n0)) as [q Hq].
      + by left.
      + tsimpl. by rewrite rd_wr_eq by lia.
      + exists q. rewrite Hq in Hn3. injection Hn3 as <-.
        rewrite rd_wr_eq by lia. by destruct n0.
  Qed.

  (** [MoveProxy] *)
Lemma MoveProxy_spec uninit aabb_ d t T fl h :
    Inv t T [] fl → is_proxy t h →
    wp (MoveProxy uninit h aabb_ d)
       (λ b t', (b = false ∧ t' = t) ∨
                (b = true ∧ ∃ s' fl', Inv t' (Some s') [] fl'
                            ∧ leaves s' ≡ₚ tree_leaves T)) t.
  Proof.
    intros HI Hpx. eapply wp_mono; [exact (MoveProxy_full uninit aabb_ d _ _ _ _ HI Hpx)|].
    intros b t' [?|(? & s' & fl' & ? & ? & _)]; [by left|]. right. split; [done|].
    by exists s', fl'.
  Qed.
End Public.

Section Partial.
  Context {float Rectf : Type} {FO : FloatOps float} {RO : RectOps float Rectf}.
  Local Abbreviation b2TreeNode := (b2TreeNode Rectf).
  Local Abbreviation b2DynamicTree := (b2DynamicTree Rectf).
  Local Abbreviation M := (M Rectf).
  Implicit Types (ns : list b2TreeNode) (t : b2DynamicTree) (s : shape)
    (c : list frame) (i p : Z) (T : option shape).

Lemma wlp_of_wp {A} (m : M A) Q t : wp m Q t → wlp m Q t.
  Proof. intros (a & t' & Hm & HQ) a' t'' Hm'. by simplify_eq. Qed.

Lemma wlp_mono {A} (m : M A) (Q Q' : A → b2DynamicTree → Prop) t :
    wlp m Q t → (∀ a t', Q a t' → Q' a t') → wlp m Q' t.
  Proof. intros Hm HQ a t' E. eauto. Qed.

Lemma wlp_bind {A B} (m : M A) (k : A → M B) Q t :
    wlp m (λ a t', wlp (k a) Q t') t → wlp (bind m k) Q t.
  Proof.
    intros Hm b t'' E. unfold bind in E.
    destruct (m t) as [[a t']|] eqn:Em; [|done]. by eapply Hm.
  Qed.

Lemma wlp_bind_wp {A B} (m : M A) (k : A → M B) Q t :
    wp m (λ a t', wlp (k a) Q t') t → wlp (bind m k) Q t.
  Proof. intros. by apply wlp_bind, wlp_of_wp. Qed.

Lemma wlp_ret {A} (a : A) (Q : A → b2DynamicTree → Prop) t : Q a t → wlp (ret a) Q t.
  Proof. intros HQ a' t' E. unfold ret in E. by simplify_eq. Qed.

Lemma wlp_fail {A} (Q : A → b2DynamicTree → Prop) t : wlp fail Q t.
  Proof. by intros a' t' E. Qed.

Lemma wlp_lift {A} (o : option A) (Q : A → b2DynamicTree → Prop) t :
    (∀ a, o = Some a → Q a t) → wlp (lift o) Q t.
  Proof. intros HQ a' t' E. unfold lift in E. destruct o; simplify_eq. by apply HQ. Qed.

Lemma wlp_assert (b : bool) (Q : unit → b2DynamicTree → Prop) t :
    (b = true → Q tt t) → wlp (b2Assert b) Q t.
  Proof. intros HQ [] t' E. unfold b2Assert in E. destruct b; simplify_eq. by apply HQ. Qed.

Lemma wlp_node i (Q : b2TreeNode → b2DynamicTree → Prop) t :
    (∀ n, rd (m_nodes t) i = Some n → Q n t) → wlp (node i) Q t.
  Proof.
    intros HQ n t' E. unfold node in E. destruct (rd (m_nodes t) i) eqn:En; simplify_eq.
    by apply HQ.
  Qed.

Lemma wlp_fld {A} i (f : b2TreeNode → A) (Q : A → b2DynamicTree → Prop) t :
    (∀ n, rd (m_nodes t) i = Some n → Q (f n) t) → wlp (fld i f) Q t.
  Proof.
    intros HQ. unfold fld. apply wlp_bind, wlp_node. intros n Hn. by apply wlp_ret, HQ.
  Qed.

Lemma wlp_for_acc {A} (n : nat) i (body : Z → A → M A) (I : Z → A → b2DynamicTree → Prop)
      (Q : A → b2DynamicTree → Prop) (a : A) t :
    I i a t →
    (∀ j a' t', i ≤ j < i + Z.of_nat n → I j a' t' →
       wlp (body j a') (λ a'' t'', I (j + 1) a'' t'') t') →
    (∀ a' t', I (i + Z.of_nat n) a' t' → Q a' t') →
    wlp (for_acc n i body a) Q t.
  Proof.
    revert i a t. induction n as [|n IH]; intros i a t HI Hbody HQ; simpl.
    - apply wlp_ret. apply HQ. by rewrite Z.add_0_r.
    - apply wlp_bind. eapply wlp_mono; [apply Hbody; [lia|done]|].
      intros a' t' HI'. apply IH; [done| |].
      + intros j a'' t'' Hj. apply Hbody. lia.
      + intros a'' t''. replace (i + 1 + Z.of_nat n) with (i + Z.of_nat (S n)) by lia.
        apply HQ.
  Qed.
End Partial.

Ltac wlp_step :=
  lazymatch goal with
  | |- wlp (bind (lift _) _) _ _ => apply wlp_bind, wlp_lift; intros
  | |- wlp (bind (b2Assert _) _) _ _ => apply wlp_bind, wlp_assert; intros
  | |- wlp (bind _ _) _ _ => apply wlp_bind_wp; wp_step
  | |- wlp (ret _) _ _ => apply wlp_ret
  | |- wlp fail _ _ => apply wlp_fail
  | |- wlp _ _ _ => apply wlp_of_wp; wp_step
  end.

Section Rebuild.
  Context {float Rectf : Type} {FO : FloatOps float} {RO : RectOps float Rectf}.
  Local Abbreviation b2TreeNode := (b2TreeNode Rectf).
  Local Abbreviation b2DynamicTree := (b2DynamicTree Rectf).
  Local Abbreviation M := (M Rectf).
  Implicit Types (ns : list b2TreeNode) (t : b2DynamicTree) (s : shape)
    (c : list frame) (i p : Z) (T : option shape).

Lemma Rebuild_collect_round_spec t T fl size j work t' :
    Inv t T [] fl → 0 ≤ j < m_nodeCapacity t →
    collected t (tree_nodes T) (tree_leaves T) j work t' →
    (∀ i n, i ∈ tree_leaves T → rd (m_nodes t) i = Some n →
            ∃ q, rd (m_nodes t') i = Some (set_parent q n)) →
    m_nodeCapacity t' = m_nodeCapacity t →
    wlp (Rebuild_collect_round size j work)
        (λ work' t'', collected t (tree_nodes T) (tree_leaves T) (j + 1) work' t''
           ∧ (∀ i n, i ∈ tree_leaves T → rd (m_nodes t) i = Some n →
                     ∃ q, rd (m_nodes t'') i = Some (set_parent q n))
           ∧ m_nodeCapacity t'' = m_nodeCapacity t) t'.
  Proof.
    intros HI Hj (rest & fl' & HP' & Hrest & Hwork & Hleaf & Hfr) HK HC.
    pose proof (Pool_of_Inv _ _ _ _ HI) as HP. rewrite app_nil_r in HP.
    pose proof (inv_root _ _ _ _ HI) as Hrep.
    pose proof (Pool_NoDup _ _ _ HP) as Hnd.
    pose proof (Pool_NoDup _ _ _ HP') as Hnd'.
    pose proof (pool_length _ _ _ HP) as Hlen.
    destruct (rd_in_range (m_nodes t) j) as [n Hn]; [lia|].
    assert (rd (m_nodes t') j = Some n) as Hn' by (rewrite Hfr by lia; done).
    pose proof (rd_Some_range _ _ _ Hn') as Hr'.
    assert (j ∈ fl ++ tree_nodes T) as [Hin|Hin]%elem_of_app
      by (by apply (Pool_range _ _ _ j HP)).
    - (* a free slot *)
      destruct (free_chain_height _ _ _ _ (pool_free _ _ _ HP) Hin) as (n0 & Hn0 & Hh0).
      simplify_eq. unfold Rebuild_collect_round. wlp_step.
      rewrite bool_decide_eq_true_2 by lia. wlp_step.
      assert (j ∉ tree_nodes T) as Hjn.
      { intros Hjs. apply NoDup_app in Hnd as (_ & Hd & _). by apply (Hd j). }
      split; [|split; [exact HK|exact HC]].
      exists rest, fl'. split_and!; [done| | |done|].
      + intros i. rewrite Hrest. split; intros [? ?]; split; try done; try lia.
        destruct (decide (i = j)) as [->|]; [done|lia].
      + intros i. rewrite Hwork. split; intros [Hi ?]; split; try done; try lia.
        destruct (decide (i = j)) as [->|]; [|lia].
        destruct T as [s|]; simpl in *; [|by apply elem_of_nil in Hi].
        by apply leaves_in_nodes in Hi.
      + intros i Hi. apply Hfr. lia.
    - (* an allocated node *)
      destruct T as [s|]; simpl in *; [|by apply elem_of_nil in Hin].
      destruct Hrep as [_ Hrep].
      assert (j ∈ rest) as Hjr by (apply Hrest; split; [done|lia]).
      apply elem_of_Permutation in Hjr as (rest' & Hperm).
      assert (NoDup (j :: rest')) as Hndr.
      { rewrite <-Hperm. apply NoDup_app in Hnd' as (_ & _ & Hnd').
        by apply NoDup_app in Hnd' as (_ & _ & ?). }
      apply NoDup_cons in Hndr as [Hjr' Hndr].
      assert (∀ i, i ∈ rest' ↔ i ∈ nodes s ∧ j + 1 ≤ i) as Hrest'.
      { intros i. split.
        - intros Hi. assert (i ∈ rest) as [? ?]%Hrest by (rewrite Hperm; by right).
          split; [done|]. destruct (decide (i = j)) as [->|]; [done|lia].
        - intros [Hi ?]. assert (i ∈ rest) as Hir by (apply Hrest; split; [done|lia]).
          rewrite Hperm in Hir. apply elem_of_cons in Hir as [->|?]; [lia|done]. }
      assert (j ∉ work) as Hjw by (intros [_ ?]%Hwork; lia).
      assert (j ∉ fl') as Hjf.
      { intros Hjf. apply NoDup_app in Hnd' as (_ & Hd & _). apply (Hd j Hjf).
        apply elem_of_app. right. rewrite Hperm. by left. }
      destruct (detached_of_rep _ _ _ _ Hrep Hin) as (n0 & Hn0 & Hh0). simplify_eq.
      unfold Rebuild_collect_round. wlp_step.
      rewrite bool_decide_eq_false_2 by lia.
      destruct (rep_node_cases _ _ _ _ Hrep Hin) as [HjL|(n0 & Hn0 & Hc1 & _)].
      + (* a leaf *)
        destruct (rep_leaf_at _ _ _ _ Hrep HjL) as (n0 & Hn0 & H1 & H2 & Hh).
        simplify_eq. unfold IsLeaf. rewrite bool_decide_eq_true_2 by done.
        wlp_step. wlp_step. wlp_step.
        split; cycle 1.
        { split; [|by tsimpl].
          intros i n1 Hi Hn1. tsimpl. destruct (decide (i = j)) as [->|Hne].
          - rewrite rd_wr_eq by lia. simplify_eq. by eexists.
          - rewrite rd_wr_ne by done. by apply HK. }
        exists rest', fl'. split_and!; [| done| | |].
        * eapply Pool_perm; [eapply Pool_frame; [exact HP'| | |]|].
          -- by unfold same_frame; tsimpl; rewrite length_wr.
          -- intros i Hi. tsimpl. rewrite rd_wr_ne; [done|]. by intros ->.
          -- intros i Hi. unfold detached. tsimpl.
             destruct (decide (i = j)) as [->|Hne].
             ++ rewrite rd_wr_eq by lia. eexists. split; [done|]. tsimpl. lia.
             ++ rewrite rd_wr_ne by done. by apply (pool_alloc _ _ _ HP').
          -- rewrite Hperm. perm_solve.
        * intros i. rewrite elem_of_app, list_elem_of_singleton, Hwork.
          split; [intros [[? ?]| ->]; split; try done; lia|].
          intros [? ?]. destruct (decide (i = j)); [by right|left; split; [done|lia]].
        * intros i [Hi| ->%list_elem_of_singleton]%elem_of_app; tsimpl.
          -- destruct (Hleaf _ Hi) as (m & Hm & ?). exists m.
             rewrite rd_wr_ne; [done|]. by intros ->.
          -- eexists. rewrite rd_wr_eq by lia. split; [done|]. tsimpl. done.
        * intros i Hi. tsimpl. rewrite rd_wr_ne by lia. apply Hfr. lia.
      + (* an internal node *)
        simplify_eq. unfold IsLeaf. rewrite bool_decide_eq_false_2 by done.
        apply wlp_bind_wp. eapply wp_mono.
        { apply (FreeNode_spec _ _ (work ++ rest') _ j HP'). rewrite Hperm. perm_solve. }
        intros [] t'' (HP'' & _ & _ & _ & Hfr''). wlp_step.
        split; cycle 1.
        { split.
          - intros i n1 Hi Hn1. rewrite Hfr''; [by apply HK|]. intros ->.
            destruct (rep_leaf_at _ _ _ _ Hrep Hi) as (m & Hm & ? & _). by simplify_eq.
          - rewrite <-HC, (Pool_capacity _ _ _ HP''), (Pool_capacity _ _ _ HP').
            apply Permutation_length in Hperm. rewrite !length_app, Hperm. simpl. lia. }
        exists rest', (j :: fl'). split_and!; [done|done| | |].
        * intros i. rewrite Hwork. split; intros [Hi ?]; split; try done; try lia.
          destruct (decide (i = j)) as [->|]; [|lia].
          exfalso. destruct (rep_leaf_at _ _ _ _ Hrep Hi) as (m & Hm & ? & _).
          by simplify_eq.
        * intros i Hi. destruct (Hleaf _ Hi) as (m & Hm & ?). exists m.
          rewrite Hfr''; [done|]. by intros ->.
        * intros i Hi. rewrite Hfr'' by lia. apply Hfr. lia.
  Qed.
End Rebuild.

Section Slots.
  Context {A : Type}.
  Implicit Types (l : list A).

Lemma insert_perm l (i : nat) x a rest :
    l !! i = Some a → l ≡ₚ a :: rest → <[i:=x]> l ≡ₚ x :: rest.
  Proof.
    intros Hi Hp. pose proof (lookup_lt_Some _ _ _ Hi) as Hlt.
    rewrite insert_take_drop by done.
    rewrite (delete_Permutation _ _ _ Hi), delete_take_drop in Hp.
    apply Permutation_cons_inv in Hp. rewrite <-Hp. by rewrite Permutation_middle.
  Qed.

  (** The array update at the end of a round of [RebuildBottomUp]: the
      last entry goes to the slot [j], [x] to the slot [i], and the array
      is cut by one. *)
Lemma merge_slots l (i j : nat) x a b z :
    (i < j < length l)%nat →
    l !! i = Some a → l !! j = Some b → l !! (length l - 1)%nat = Some z →
    ∃ rest, l ≡ₚ a :: b :: rest
            ∧ take (length l - 1) (<[i:=x]> (<[j:=z]> l)) ≡ₚ x :: rest.
  Proof.
    intros Hij Hi Hj Hz. set (n := (length l - 1)%nat) in *.
    set (l' := take n l).
    assert (l = l' ++ [z]) as Hl.
    { unfold l'. rewrite <-(take_S_r _ _ _ Hz). symmetry. apply take_ge. lia. }
    assert (length l' = n) as Hn by (unfold l'; rewrite length_take; lia).
    rewrite take_insert_lt by lia.
    assert (l' !! i = Some a) as Hi'.
    { unfold l'. rewrite lookup_take_lt by lia. done. }
    destruct (decide (j = n)) as [->|Hne].
    - rewrite take_insert_ge by lia. fold l'.
      assert (b = z) as -> by congruence.
      exists (delete i l'). split.
      + rewrite Hl at 1. rewrite <-Permutation_cons_append.
        rewrite (delete_Permutation _ _ _ Hi') at 1. apply perm_swap.
      + apply insert_perm with a; [done|]. apply delete_Permutation. done.
    - rewrite take_insert_lt by lia. fold l'.
      assert (l' !! j = Some b) as Hj'.
      { unfold l'. rewrite lookup_take_lt by lia. done. }
      assert (<[j:=z]> l' ≡ₚ z :: delete j l') as Hp1.
      { apply insert_perm with b; [done|]. by apply delete_Permutation. }
      assert (<[j:=z]> l' !! i = Some a) as Hi''.
      { rewrite list_lookup_insert_ne by lia. done. }
      exists (delete i (<[j:=z]> l')). split.
      + rewrite Hl at 1. rewrite <-Permutation_cons_append.
        rewrite (delete_Permutation _ _ _ Hj') at 1.
        rewrite perm_swap. rewrite <-Hp1.
        rewrite (delete_Permutation _ _ _ Hi'') at 1. apply perm_swap.
      + apply insert_perm with a; [done|]. by apply delete_Permutation.
  Qed.
End Slots.

Section Merge.
  Context {float Rectf : Type} {FO : FloatOps float} {RO : RectOps float Rectf}.
  Local Abbreviation b2TreeNode := (b2TreeNode Rectf).
  Local Abbreviation b2DynamicTree := (b2DynamicTree Rectf).
  Local Abbreviation M := (M Rectf).
  Implicit Types (ns : list b2TreeNode) (t : b2DynamicTree) (s : shape)
    (c : list frame) (i p : Z) (T : option shape) (F : list shape).

Lemma Rebuild_best_spec t (work : list Z) :
    let count := Z.of_nat (length work) in
    wlp (for_acc (Z.to_nat count) 0 (Rebuild_outer_round work count) (b2_maxFloat, -1, -1))
        (λ best t', t' = t ∧ best_ok count best) t.
  Proof.
    intros count.
    apply wlp_for_acc with (I := λ _ best t', t' = t ∧ best_ok count best).
    - split; [done|]. by left.
    - intros i best t' Hi [-> Hok]. unfold Rebuild_outer_round.
      apply wlp_bind, wlp_lift. intros ni _. apply wlp_bind, wlp_fld. intros n _.
      apply wlp_for_acc with (I := λ _ best t', t' = t ∧ best_ok count best).
      + done.
      + intros j best' t' Hj [-> Hok']. unfold Rebuild_inner_round.
        apply wlp_bind, wlp_lift. intros nj _. apply wlp_bind, wlp_fld. intros m _.
        destruct (flt _ _); apply wlp_ret; (split; [done|]); [|done].
        right. simpl. lia.
      + done.
    - done.
  Qed.

Lemma ix_fmap_idx F (k : Z) (v : Z) :
    ix (idx <$> F) k = Some v → ∃ s, F !! Z.to_nat k = Some s ∧ idx s = v ∧ 0 ≤ k.
  Proof.
    unfold ix. case_decide; [|done]. rewrite list_lookup_fmap.
    destruct (F !! Z.to_nat k) as [s|]; [|done]. intros [= <-]. eauto.
  Qed.

Lemma forest_NoDup t F fl : forest t F fl → NoDup (fl ++ F ≫= nodes).
  Proof. intros [HP _]. by eapply Pool_NoDup. Qed.

Lemma forest_rep_in t F fl s : forest t F fl → s ∈ F → rep (m_nodes t) b2_nullNode s.
  Proof. intros [_ HF] Hs. rewrite Forall_forall in HF. by apply HF. Qed.

Lemma bind_leaves_nodes F i : i ∈ F ≫= leaves → i ∈ F ≫= nodes.
  Proof.
    rewrite !list_elem_of_bind. intros (s & Hi & Hs). exists s.
    split; [by apply leaves_in_nodes|done].
  Qed.

Lemma Rebuild_merge_round_spec uninit t F fl :
    forest t F fl →
    wlp (Rebuild_merge_round uninit (idx <$> F))
        (λ work' t', ∃ F' fl', forest t' F' fl' ∧ work' = idx <$> F'
                     ∧ F' ≫= leaves ≡ₚ F ≫= leaves
                     ∧ (length F' < length F)%nat
                     ∧ (∀ i n, i ∈ F ≫= leaves → rd (m_nodes t) i = Some n →
                               ∃ q, rd (m_nodes t') i = Some (set_parent q n))
                     ∧ m_nodeCapacity t' = m_nodeCapacity t) t.
  Proof.
    intros HF. unfold Rebuild_merge_round.
    apply wlp_bind. eapply wlp_mono; [apply Rebuild_best_spec|].
    intros [[cost iMin] jMin] ? [-> Hok]. simpl fst. simpl snd.
    rewrite length_fmap in *.
    apply wlp_bind, wlp_lift. intros index1 (s1 & Hs1 & <- & Hi0)%ix_fmap_idx.
    apply wlp_bind, wlp_lift. intros index2 (s2 & Hs2 & <- & Hj0)%ix_fmap_idx.
    destruct Hok as [[? ?]|Hok]; simpl in *; [lia|].
    destruct HF as [HP HF].
    pose proof (pool_length _ _ _ HP) as Hlen.
    wlp_step.
    apply wlp_bind_wp. eapply wp_mono; [exact (AllocateNode_spec uninit _ _ _ HP)|].
    intros p t1 (fl1 & HP1 & (np & Hnp & _) & Hfresh & _ & _ & _ & _ & _ & Hfr & _).
    wlp_step. apply wlp_bind, wlp_assert. intros Hcap%bool_decide_eq_true_1.
    destruct (lookup_lt_is_Some_2 F (length F - 1)) as [z Hz]; [lia|].
    destruct (merge_slots F (Z.to_nat iMin) (Z.to_nat jMin) (Nd p s1 s2) s1 s2 z)
      as (rest & HpF & HpF'); [lia|done..|].
    set (F' := take (length F - 1) (<[Z.to_nat iMin:=Nd p s1 s2]> (<[Z.to_nat jMin:=z]> F)))
      in *.
    assert (rep (m_nodes t) b2_nullNode s1 ∧ rep (m_nodes t) b2_nullNode s2
            ∧ Forall (rep (m_nodes t) b2_nullNode) rest) as (Hr1 & Hr2 & Hrest).
    { rewrite HpF in HF. apply Forall_cons in HF as [? HF]. by apply Forall_cons in HF as [? ?]. }
    assert (F ≫= nodes ≡ₚ nodes s1 ++ nodes s2 ++ rest ≫= nodes) as HpN.
    { rewrite HpF. by rewrite !bind_cons. }
    pose proof (Pool_NoDup _ _ _ HP1) as Hnd. rewrite HpN in Hnd, Hfresh.
    pose proof (idx_in_nodes s1) as Hi1. pose proof (idx_in_nodes s2) as Hi2.
    destruct (rep_root _ _ _ Hr1) as (n1 & Hn1 & Hp1 & _).
    destruct (rep_root _ _ _ Hr2) as (n2 & Hn2 & Hp2 & _).
    pose proof (rep_root_height _ _ _ _ Hr1 Hn1) as Hh1.
    pose proof (rep_root_height _ _ _ _ Hr2 Hn2) as Hh2.
    pose proof (rd_Some_range _ _ _ Hn1) as Hrg1.
    pose proof (rd_Some_range _ _ _ Hn2) as Hrg2.
    pose proof (rd_Some_range _ _ _ Hnp) as Hrgp.
    pose proof (pool_length _ _ _ HP1) as Hlen1.
    assert (p ≠ idx s1 ∧ p ≠ idx s2 ∧ idx s1 ≠ idx s2) as (Hp1' & Hp2' & H12).
    { clear -Hnd Hi1 Hi2. apply NoDup_app in Hnd as (_ & _ & Hnd). distinct.
      split_and!; neq_solve. }
    assert (rd (m_nodes t1) (idx s1) = Some n1) as Hn1' by (rewrite Hfr by lia; done).
    assert (rd (m_nodes t1) (idx s2) = Some n2) as Hn2' by (rewrite Hfr by lia; done).
    do 11 wlp_step.
    apply wlp_bind, wlp_lift. intros last0 (z' & Hz' & <- & _)%ix_fmap_idx.
    replace (Z.to_nat (Z.of_nat (length F) - 1)) with (length F - 1)%nat in * by lia.
    assert (z' = z) as -> by congruence.
    apply wlp_ret. tsimpl.
    set (P := set_parent b2_nullNode (set_aabb (combine (aabb n1) (aabb n2))
                (set_height (1 + height n1 `max` height n2)
                  (set_child2 (idx s2) (set_child1 (idx s1) np))))).
    set (ns2 := wr (wr (wr (m_nodes t1) p P) (idx s1) (set_parent p n1)) (idx s2)
                   (set_parent p n2)).
    assert (rd ns2 p = Some P) as HP2p by (unfold ns2; rd_solve).
    assert (rd ns2 (idx s1) = Some (set_parent p n1)) as HP2a by (unfold ns2; rd_solve).
    assert (rd ns2 (idx s2) = Some (set_parent p n2)) as HP2b by (unfold ns2; rd_solve).
    assert (∀ i, i ≠ p → i ≠ idx s1 → i ≠ idx s2 → 0 ≤ i < m_nodeCapacity t →
                 rd ns2 i = rd (m_nodes t) i) as Hfr2.
    { intros i ? ? ? ?. unfold ns2. rewrite !rd_wr_ne by done. by apply Hfr. }
    assert (∀ i, i ≠ p → i ≠ idx s1 → i ≠ idx s2 → rd ns2 i = rd (m_nodes t1) i) as Hfr1.
    { intros i ? ? ?. unfold ns2. by rewrite !rd_wr_ne by done. }
    assert (length ns2 = length (m_nodes t1)) as Hlen2 by (unfold ns2; by rewrite !length_wr).
    clearbody ns2.
    exists F', fl1. split_and!.
    - split.
      + eapply Pool_perm; [eapply Pool_frame; [exact HP1| | |]|].
        * by unfold same_frame; tsimpl.
        * intros i Hi. tsimpl. apply Hfr1; intros ->;
            apply NoDup_app in Hnd as (_ & Hd & _); apply (Hd _ Hi); set_solver.
        * intros i Hi. unfold detached. tsimpl.
          destruct (decide (i = p)) as [->|?]; [exists P; split; [done|unfold P; tsimpl; lia]|].
          destruct (decide (i = idx s1)) as [->|?]; [eexists; split; [done|by tsimpl]|].
          destruct (decide (i = idx s2)) as [->|?]; [eexists; split; [done|by tsimpl]|].
          rewrite Hfr1 by done. by apply (pool_alloc _ _ _ HP1).
        * rewrite HpF', HpN. rewrite !bind_cons. simpl. perm_solve.
      + tsimpl. rewrite HpF'.
        assert (∀ i, i ∈ nodes s1 ++ nodes s2 ++ rest ≫= nodes → 0 ≤ i < m_nodeCapacity t)
          as Hrange.
        { intros i Hi. apply (Pool_range _ _ _ i HP). rewrite HpN. apply elem_of_app. by right. }
        apply NoDup_app in Hnd as (_ & _ & Hnd).
        apply NoDup_cons in Hnd as [Hpn Hnd].
        apply NoDup_app in Hnd as (Hnd1 & Hd1 & Hnd).
        apply NoDup_app in Hnd as (Hnd2 & Hd2 & Hnd3).
        apply Forall_cons. split.
        * simpl. split_and!.
          -- exists P. unfold P. tsimpl. split_and!; try done; [lia|].
             intros E. rewrite E in Hrg1. unfold b2_nullNode in Hrg1. lia.
          -- exists P, (set_parent p n1), (set_parent p n2). unfold P. tsimpl.
             split_and!; try done. by left.
          -- eapply (rep_reparent (m_nodes t)); [exact Hr1|done|exact Hn1|exact HP2a|].
             intros i Hi Hne. apply Hfr2; [| done | |].
             ++ intros ->. apply Hpn. set_solver.
             ++ intros ->. apply (Hd1 _ Hi). set_solver.
             ++ apply Hrange. set_solver.
          -- eapply (rep_reparent (m_nodes t)); [exact Hr2|done|exact Hn2|exact HP2b|].
             intros i Hi Hne. apply Hfr2; [| | done |].
             ++ intros ->. apply Hpn. set_solver.
             ++ intros ->. apply (Hd1 _ Hi1). set_solver.
             ++ apply Hrange. set_solver.
        * rewrite Forall_forall in Hrest. apply Forall_forall. intros s Hs.
          eapply rep_frame; [by apply Hrest|].
          assert (∀ i, i ∈ nodes s → i ∈ rest ≫= nodes) as Hsub.
          { intros i Hi. apply list_elem_of_bind. eauto. }
          intros i Hi%Hsub. apply Hfr2.
          -- intros ->. apply Hpn. set_solver.
          -- intros ->. apply (Hd1 _ Hi1). set_solver.
          -- intros ->. apply (Hd2 _ Hi2). done.
          -- apply Hrange. set_solver.
    - unfold F', set_ix. rewrite !decide_True by lia.
      by rewrite fmap_take, !list_fmap_insert.
    - rewrite HpF', HpF. rewrite !bind_cons. simpl. perm_solve.
    - unfold F'. rewrite length_take, !length_insert. lia.
    - intros i n Hi Hn. tsimpl. apply bind_leaves_nodes in Hi.
      assert (0 ≤ i < m_nodeCapacity t) as Hir.
      { apply (Pool_range _ _ _ i HP). apply elem_of_app. by right. }
      rewrite HpN in Hi.
      destruct (decide (i = idx s1)) as [->|Hne1].
      { rewrite HP2a. simplify_eq. by eexists. }
      destruct (decide (i = idx s2)) as [->|Hne2].
      { rewrite HP2b. simplify_eq. by eexists. }
      rewrite Hfr2; [by apply kept_refl| |done|done|done].
      intros ->. done.
    - by tsimpl.
  Qed.

Lemma Rebuild_merge_spec uninit (fuel : nat) t F fl :
    forest t F fl →
    wlp (Rebuild_merge uninit fuel (idx <$> F))
        (λ work' t', ∃ F' fl', forest t' F' fl' ∧ work' = idx <$> F'
                     ∧ F' ≫= leaves ≡ₚ F ≫= leaves
                     ∧ (length F' ≤ 1)%nat
                     ∧ (∀ i n, i ∈ F ≫= leaves → rd (m_nodes t) i = Some n →
                               ∃ q, rd (m_nodes t') i = Some (set_parent q n))
                     ∧ m_nodeCapacity t' = m_nodeCapacity t) t.
  Proof.
    revert t F fl. induction fuel as [|fuel IH]; intros t F fl HF; simpl;
      rewrite length_fmap; case_bool_decide as Hlen.
    - apply wlp_fail.
    - apply wlp_ret. exists F, fl. split_and!; [done..|lia| |done].
      intros i n _ Hn. by apply kept_refl.
    - apply wlp_bind. eapply wlp_mono; [exact (Rebuild_merge_round_spec uninit _ _ _ HF)|].
      intros work' t' (F' & fl' & HF' & -> & Hl' & _ & Hk' & Hc').
      eapply wlp_mono; [exact (IH _ _ _ HF')|].
      intros work'' t'' (F'' & fl'' & HF'' & -> & Hl'' & Hle & Hk'' & Hc'').
      exists F'', fl''. split_and!; [done..| |done| |congruence]; [by rewrite Hl''|].
      intros i n Hi Hn. destruct (Hk' i n Hi Hn) as [q Hq].
      destruct (Hk'' i _ (proj2 (elem_of_Permutation_proper _ _ _ Hl') Hi) Hq) as [q' Hq'].
      exists q'. rewrite Hq'. by destruct n.
    - apply wlp_ret. exists F, fl. split_and!; [done..|lia| |done].
      intros i n _ Hn. by apply kept_refl.
  Qed.

Lemma bind_Lf (l : list Z) : (Lf <$> l) ≫= nodes = l ∧ (Lf <$> l) ≫= leaves = l.
  Proof.
    induction l as [|x l [IH1 IH2]]; [done|].
    rewrite fmap_cons, !bind_cons, IH1, IH2. done.
  Qed.

Lemma leaves_NoDup s : NoDup (nodes s) → NoDup (leaves s).
  Proof.
    induction s as [i|i l IHl r IHr]; simpl; [done|].
    intros [_ Hnd]%NoDup_cons. apply NoDup_app in Hnd as (Hl & Hd & Hr).
    apply NoDup_app. split_and!; [by apply IHl| |by apply IHr].
    intros x Hx Hx'. apply (Hd x); by apply leaves_in_nodes.
  Qed.

  (** [RebuildBottomUp], with what the nodes of the proxies hold after
      it. *)
Lemma RebuildBottomUp_full uninit t T fl :
    Inv t T [] fl →
    wlp (RebuildBottomUp uninit)
        (λ _ t', ∃ s' fl', Inv t' (Some s') [] fl' ∧ leaves s' ≡ₚ tree_leaves T
           ∧ (∀ i n, i ∈ tree_leaves T → rd (m_nodes t) i = Some n →
                     ∃ q, rd (m_nodes t') i = Some (set_parent q n))
           ∧ m_nodeCapacity t' = m_nodeCapacity t) t.
  Proof.
    intros HI. pose proof (Pool_of_Inv _ _ _ _ HI) as HP. rewrite app_nil_r in HP.
    unfold RebuildBottomUp. wlp_step. wlp_step.
    apply wlp_bind.
    apply wlp_for_acc with
      (I := λ j work t', collected t (tree_nodes T) (tree_leaves T) j work t'
              ∧ (∀ i n, i ∈ tree_leaves T → rd (m_nodes t) i = Some n →
                        ∃ q, rd (m_nodes t') i = Some (set_parent q n))
              ∧ m_nodeCapacity t' = m_nodeCapacity t).
    - split; [|split; [by intros i n _ Hn; apply kept_refl|done]].
      exists (tree_nodes T), fl. split_and!; [done| | | |done].
      + intros i. split; [intros Hi; split; [done|]|by intros [? _]].
        assert (i ∈ fl ++ tree_nodes T) as Hi' by (apply elem_of_app; by right).
        apply (Pool_range _ _ _ i HP) in Hi'. lia.
      + intros i. split; [by intros ?%elem_of_nil|].
        intros [Hi Hlt]. exfalso.
        assert (i ∈ fl ++ tree_nodes T) as Hi'.
        { apply elem_of_app. right. destruct T; simpl in *; [by apply leaves_in_nodes|done]. }
        apply (Pool_range _ _ _ i HP) in Hi'. lia.
      + by intros i ?%elem_of_nil.
    - intros j work t' Hj (Hc & HK & HC).
      eapply Rebuild_collect_round_spec; [done| |done|done|done].
      pose proof (pool_capacity _ _ _ HP). lia.
    - intros work t1 [(rest & fl1 & HP1 & Hrest & Hwork & Hleaf & _) [HK1 HC1]].
      pose proof (pool_capacity _ _ _ HP) as Hcap.
      rewrite Z.add_0_l, Z2Nat.id in Hrest, Hwork by lia.
      assert (rest = []) as ->.
      { destruct rest as [|i rest]; [done|]. exfalso.
        assert (i ∈ i :: rest) as [Hi ?]%Hrest by (by left).
        assert (i ∈ fl ++ tree_nodes T) as Hi' by (apply elem_of_app; by right).
        apply (Pool_range _ _ _ i HP) in Hi'. lia. }
      rewrite app_nil_r in HP1.
      assert (work ≡ₚ tree_leaves T) as Hperm.
      { apply NoDup_Permutation.
        - pose proof (Pool_NoDup _ _ _ HP1) as Hnd. by apply NoDup_app in Hnd as (_ & _ & ?).
        - destruct T as [s|]; simpl; [|constructor]. apply leaves_NoDup.
          pose proof (Pool_NoDup _ _ _ HP) as Hnd. by apply NoDup_app in Hnd as (_ & _ & ?).
        - intros i. rewrite Hwork. split; [by intros [? _]|]. intros Hi. split; [done|].
          assert (i ∈ fl ++ tree_nodes T) as Hi'.
          { apply elem_of_app. right. destruct T; simpl in *; [by apply leaves_in_nodes|done]. }
          apply (Pool_range _ _ _ i HP) in Hi'. lia. }
      destruct (bind_Lf work) as [HbN HbL].
      assert (forest t1 (Lf <$> work) fl1) as HF.
      { split; [by rewrite HbN|]. apply Forall_fmap, Forall_forall. intros i Hi.
        simpl. by apply Hleaf. }
      assert (work = idx <$> (Lf <$> work)) as Hw.
      { rewrite <-list_fmap_compose. symmetry. apply list_fmap_id. }
      apply wlp_bind. rewrite Hw at 2.
      eapply wlp_mono; [exact (Rebuild_merge_spec uninit _ _ _ _ HF)|].
      intros work' t2 (F' & fl' & [HP2 HF2] & -> & Hl' & Hle & HK2 & HC2).
      apply wlp_bind, wlp_lift. intros root (s' & Hs' & <- & _)%ix_fmap_idx.
      destruct F' as [|s0 [|? ?]]; simpl in Hle, Hs'; [done| |lia]. simplify_eq.
      wlp_step. exists s', fl'. split; [|split; [|split]]; cycle 3.
      { tsimpl. congruence. }
      + apply Inv_of_Pool.
        * simpl in *. by apply Pool_set_root.
        * rewrite Forall_singleton in HF2. split; [reflexivity|exact HF2].
      + simpl in Hl'. rewrite app_nil_r in Hl'. by rewrite Hl', HbL.
      + intros i n Hi Hn. tsimpl. destruct (HK1 i n Hi Hn) as [q Hq].
        assert (i ∈ (Lf <$> work) ≫= leaves) as Hi' by (by rewrite HbL, Hperm).
        destruct (HK2 i _ Hi' Hq) as [q' Hq'].
        exists q'. rewrite Hq'. by destruct n.
  Qed.

  (** [RebuildBottomUp]: when it returns, the tree is a tree again, over
      the same proxies. *)
Lemma RebuildBottomUp_spec uninit t T fl :
    Inv t T [] fl →
    wlp (RebuildBottomUp uninit)
        (λ _ t', ∃ s' fl', Inv t' (Some s') [] fl' ∧ leaves s' ≡ₚ tree_leaves T) t.
  Proof.
    intros HI. eapply wlp_mono; [exact (RebuildBottomUp_full uninit t T fl HI)|].
    intros [] t' (s' & fl' & ? & ? & _). by exists s', fl'.
  Qed.
End Merge.

Section Reachable.
  Context {float Rectf : Type} {FO : FloatOps float} {RO : RectOps float Rectf}.
  Local Abbreviation b2TreeNode := (b2TreeNode Rectf).
  Local Abbreviation b2DynamicTree := (b2DynamicTree Rectf).
  Local Abbreviation M := (M Rectf).
  Implicit Types (ns : list b2TreeNode) (t : b2DynamicTree) (s : shape)
    (c : list frame) (i p : Z) (T : option shape) (F : list shape).

  (** Moving a union moves its parts. *)
  Hypothesis move_combine :
    ∀ (a b : Rectf) v, move (combine a b) v = combine (move a v) (move b v).

Lemma ClearMoved_inv t T fl h t' :
    Inv t T [] fl → ClearMoved h t = Some (tt, t') → Inv t' T [] fl.
  Proof.
    intros HI Hrun.
    destruct (decide (0 ≤ h < m_nodeCapacity t)) as [Hh|Hh].
    - exact (wp_run _ _ _ _ _ (ClearMoved_spec t T fl h HI Hh) Hrun).
    - unfold ClearMoved, bind, get, b2Assert in Hrun.
      by rewrite bool_decide_eq_false_2 in Hrun.
  Qed.

  (** The invariant holds between any two public calls. *)
Lemma reachable_inv t : reachable t → tree_inv t.
  Proof.
    induction 1 as [t Hnew|uninit aabb_ userData_ t h t' _ (T & fl & HI) Hrun
                   |h t t' _ (T & fl & HI) Hpx Hrun
                   |uninit h aabb_ d t b t' _ (T & fl & HI) Hpx Hrun
                   |h t t' _ (T & fl & HI) Hrun
                   |v t t' _ (T & fl & HI) Hrun
                   |uninit t t' _ (T & fl & HI) Hrun].
    - destruct (b2DynamicTree_new_spec (Rectf := Rectf)) as (t0 & Ht0 & HI & _).
      rewrite Hnew in Ht0. injection Ht0 as <-. exists None, (seqZ 0 16). exact HI.
    - destruct (wp_run _ _ _ _ _ (CreateProxy_spec uninit aabb_ userData_ t T fl HI) Hrun)
        as (s' & fl' & HI' & _). by exists (Some s'), fl'.
    - destruct (wp_run _ _ _ _ _ (DestroyProxy_spec t T fl h HI Hpx) Hrun)
        as (T' & fl' & HI' & _). by exists T', (h :: fl').
    - destruct (wp_run _ _ _ _ _ (MoveProxy_spec uninit aabb_ d t T fl h HI Hpx) Hrun)
        as [[_ ->]|[_ (s' & fl' & HI' & _)]]; [by exists T, fl|by exists (Some s'), fl'].
    - exists T, fl. by eapply ClearMoved_inv.
    - exists T, fl. eapply (wp_run _ _ _ _ _ (ShiftOrigin_spec v t T fl _ HI) Hrun).
    - destruct (RebuildBottomUp_spec uninit t T fl HI _ _ Hrun) as (s' & fl' & HI' & _).
      by exists (Some s'), fl'.
    Unshelve. intros. apply move_combine.
  Qed.

  (** The proxies are the leaves of the tree. *)
Lemma proxies_leaves t T fl : Inv t T [] fl → proxies t ≡ₚ tree_leaves T.
  Proof.
    intros HI. pose proof (Pool_of_Inv _ _ _ _ HI) as HP. rewrite app_nil_r in HP.
    apply NoDup_Permutation.
    - apply NoDup_filter, NoDup_seqZ.
    - destruct T as [s|]; simpl; [|constructor]. apply leaves_NoDup.
      pose proof (Pool_NoDup _ _ _ HP) as Hnd. by apply NoDup_app in Hnd as (_ & _ & ?).
    - intros h. unfold proxies. rewrite list_elem_of_filter, elem_of_seqZ. split.
      + intros [Hpx _]. apply (proxy_in_leaves t T fl h HI).
        unfold is_proxyb in Hpx. destruct (rd (m_nodes t) h) as [n|] eqn:Hn; [|done].
        apply andb_true_iff in Hpx as [Hh Hl]. exists n. split_and!; [done| |done].
        apply negb_true_iff, bool_decide_eq_false_1 in Hh. done.
      + intros Hh. destruct (leaf_is_proxy t T fl h HI Hh) as (n & Hn & Hht & Hl).
        split; [|apply rd_Some_range in Hn; lia].
        unfold is_proxyb. rewrite Hn, Hl. rewrite bool_decide_eq_false_2 by done. done.
  Qed.
End Reachable.

Section QueryWalk.
  Context {float Rectf : Type} {FO : FloatOps float} {RO : RectOps float Rectf}.
  Context {CB : Type}.
  Local Abbreviation b2TreeNode := (b2TreeNode Rectf).
  Local Abbreviation b2DynamicTree := (b2DynamicTree Rectf).
  Local Abbreviation M := (M Rectf).
  Implicit Types (ns : list b2TreeNode) (t : b2DynamicTree) (s : shape)
    (c : list frame) (i p : Z) (T : option shape) (F : list shape).

Lemma filter_none (P : Z → Prop) `{∀ x, Decision (P x)} (l : list Z) :
    (∀ x, x ∈ l → ¬ P x) → filter P l = [].
  Proof.
    induction l as [|x l IH]; intros Hl; [done|].
    rewrite filter_cons. rewrite decide_False by (apply Hl; by left).
    apply IH. intros y Hy. apply Hl. by right.
  Qed.

  Variable QueryCallback : CB → Z → bool * CB.

  (** A box that misses [q] is the union of boxes that miss [q]. *)
  Hypothesis overlaps_combine :
    ∀ a b q : Rectf, overlaps (combine a b) q = false →
                     overlaps a q = false ∧ overlaps b q = false.
  Hypothesis always_continue : ∀ cb h, fst (QueryCallback cb h) = true.

Lemma fat_overlaps_rd t q i n :
    Z.of_nat (length (m_nodes t)) = m_nodeCapacity t →
    rd (m_nodes t) i = Some n → fat_overlaps t q i = overlaps (aabb n) q.
  Proof.
    intros Hlen Hn. pose proof (rd_Some_range _ _ _ Hn).
    unfold fat_overlaps, GetFatAABB, bind, get, b2Assert, fld, bind, node, ret.
    rewrite bool_decide_eq_true_2 by lia. by rewrite Hn.
  Qed.

Lemma rep_no_hit t q p s :
    Z.of_nat (length (m_nodes t)) = m_nodeCapacity t →
    rep (m_nodes t) p s → fat_overlaps t q (idx s) = false →
    ∀ h, h ∈ leaves s → fat_overlaps t q h = false.
  Proof.
    intros Hlen. revert p. induction s as [i|i l IHl r IHr]; intros p; simpl.
    - by intros _ Hm h ->%list_elem_of_singleton.
    - intros ((n & Hn & _ & H1 & H2 & _) & (n0 & n1 & n2 & Hn0 & Hn1 & Hn2 & _ & Hbx) & Hl & Hr)
             Hm h Hh.
      simplify_eq. rewrite (fat_overlaps_rd _ _ _ _ Hlen Hn) in Hm.
      rewrite H1 in Hn1. rewrite H2 in Hn2.
      assert (overlaps (aabb n1) q = false ∧ overlaps (aabb n2) q = false) as [Hm1 Hm2].
      { destruct Hbx as [E|E]; rewrite E in Hm; apply overlaps_combine in Hm; tauto. }
      apply elem_of_app in Hh as [Hh|Hh].
      + eapply IHl; [done| |done]. by rewrite (fat_overlaps_rd _ _ _ _ Hlen Hn1).
      + eapply IHr; [done| |done]. by rewrite (fat_overlaps_rd _ _ _ _ Hlen Hn2).
  Qed.

Lemma hits_filter t q p s :
    Z.of_nat (length (m_nodes t)) = m_nodeCapacity t →
    rep (m_nodes t) p s →
    hits t q s ≡ₚ filter (λ h, fat_overlaps t q h = true) (leaves s).
  Proof.
    intros Hlen. revert p. induction s as [i|i l IHl r IHr]; intros p Hrep; simpl.
    - rewrite filter_cons, filter_nil. by destruct (fat_overlaps t q i); case_decide.
    - destruct (fat_overlaps t q i) eqn:Hm.
      + destruct Hrep as (_ & _ & Hl & Hr).
        rewrite filter_app, (IHl _ Hl), (IHr _ Hr). apply Permutation_app_comm.
      + pose proof (rep_no_hit t q p (Nd i l r) Hlen Hrep Hm) as Hno. simpl in Hno.
        rewrite filter_none; [done|]. intros h Hh. by rewrite (Hno h Hh).
  Qed.

Lemma nodes_length s : (1 ≤ length (nodes s))%nat.
  Proof. destruct s; simpl; lia. Qed.

  (** The loop of [Query] on a stack of subtrees. *)
Lemma Query_loop_spec (fuel : nat) t q (ss : list shape) cb :
    Z.of_nat (length (m_nodes t)) = m_nodeCapacity t →
    Forall (λ s, ∃ p, rep (m_nodes t) p s) ss →
    (length (ss ≫= nodes) ≤ fuel)%nat →
    ∃ cb' calls, Query_loop QueryCallback fuel t q (idx <$> ss) cb = Some (cb', calls)
                 ∧ calls.*1 = ss ≫= hits t q
                 ∧ Forall (λ call, snd call = true) calls.
  Proof.
    intros Hlen. revert ss cb. induction fuel as [|fuel IH]; intros ss cb Hss Hfuel.
    - destruct ss as [|s ss]; [by exists cb, []|].
      rewrite bind_cons, length_app in Hfuel. pose proof (nodes_length s). lia.
    - destruct ss as [|s ss]; [by exists cb, []|].
      apply Forall_cons in Hss as [[p Hs] Hss].
      rewrite bind_cons, length_app in Hfuel. rewrite !bind_cons.
      destruct (rep_root _ _ _ Hs) as (n & Hn & _ & Hk).
      pose proof (rd_Some_range _ _ _ Hn) as Hr.
      rewrite fmap_cons. cbn [Query_loop]. unfold Query_round.
      rewrite bool_decide_eq_false_2 by (unfold b2_nullNode; lia).
      rewrite Hn.
      assert (fat_overlaps t q (idx s) = overlaps (aabb n) q) as Hfo
        by (by apply fat_overlaps_rd).
      destruct (overlaps (aabb n) q) eqn:Hov.
      + destruct s as [i|i l r]; simpl in Hk, Hfo, Hfuel |- *; rewrite Hfo.
        * destruct Hk as (H1 & _). unfold IsLeaf. rewrite bool_decide_eq_true_2 by done.
          pose proof (always_continue cb i) as Hc.
          destruct (QueryCallback cb i) as [proceed cb1]. simpl in Hc. subst proceed.
          destruct (IH ss cb1 Hss) as (cb' & calls & -> & Hcalls & Hall); [lia|].
          exists cb', ((i, true) :: calls). split_and!; [done| |].
          -- rewrite fmap_cons, Hcalls. done.
          -- by apply Forall_cons.
        * destruct Hk as (H1 & H2 & _ & H1n). unfold IsLeaf.
          rewrite bool_decide_eq_false_2 by done.
          destruct Hs as (_ & _ & Hl & Hr').
          destruct (IH (r :: l :: ss) cb) as (cb' & calls & Hrun & Hcalls & Hall).
          { repeat apply Forall_cons; eauto. }
          { rewrite !bind_cons, !length_app. rewrite length_app in Hfuel. lia. }
          rewrite !fmap_cons, <-H1, <-H2 in Hrun. rewrite Hrun.
          exists cb', calls. split_and!; [done| |done].
          rewrite Hcalls, !bind_cons. by rewrite (assoc (++)).
      + assert (hits t q s = []) as -> by (destruct s; simpl in *; by rewrite Hfo).
        pose proof (nodes_length s).
        destruct (IH ss cb Hss) as (cb' & calls & Hrun & Hcalls & Hall); [lia|].
        exists cb', calls. rewrite Hrun. done.
  Qed.

  (** [Query] reports the proxies whose box overlaps [q], each once. *)
Lemma Query_spec t T fl q cb :
    Inv t T [] fl →
    ∃ cb' calls, Query QueryCallback t cb q = Some (cb', calls)
                 ∧ calls.*1 ≡ₚ filter (λ h, fat_overlaps t q h = true) (proxies t)
                 ∧ Forall (λ call, snd call = true) calls.
  Proof.
    intros HI. pose proof (inv_length _ _ _ _ HI) as Hlen.
    pose proof (proxies_leaves t T fl HI) as Hpx.
    pose proof (Pool_of_Inv _ _ _ _ HI) as HP. rewrite app_nil_r in HP.
    unfold Query. destruct T as [s|]; simpl in Hpx.
    - destruct (inv_root _ _ _ _ HI) as [Hroot Hrep].
      destruct (Query_loop_spec (pool_fuel t) t q [s] cb Hlen) as (cb' & calls & Hrun & Hc & Hall).
      { apply Forall_singleton. eauto. }
      { simpl. rewrite app_nil_r. pose proof (Pool_alloc_length _ _ _ HP).
        unfold pool_fuel. simpl in *. lia. }
      simpl in Hrun. rewrite <-Hroot in Hrun. exists cb', calls. split_and!; [done| |done].
      rewrite Hc, Hpx. simpl. rewrite app_nil_r. by eapply hits_filter.
    - pose proof (inv_root _ _ _ _ HI) as Hroot. simpl in Hroot. rewrite Hroot.
      exists cb, []. split_and!; [|by rewrite Hpx|done].
      unfold pool_fuel. by destruct (length (m_nodes t)).
  Qed.
End QueryWalk.

Section ScenarioFacts.
  Context {float Rectf : Type} {FO : FloatOps float} {RO : RectOps float Rectf}.
  Local Abbreviation b2TreeNode := (b2TreeNode Rectf).
  Local Abbreviation b2DynamicTree := (b2DynamicTree Rectf).

Lemma creates_snoc uninit (l : list Rectf) r :
    creates uninit (l ++ [r]) = t ← creates uninit l; snd <$> CreateProxy uninit r 7 t.
  Proof. unfold creates. rewrite foldl_snoc. reflexivity. Qed.

Lemma creates_nil uninit : creates uninit [] = b2DynamicTree_new (Rectf := Rectf).
  Proof. unfold creates. cbn [foldl]. reflexivity. Qed.

Lemma creates_reachable uninit (l : list Rectf) t :
    creates uninit l = Some t → reachable t.
  Proof.
    revert t. induction l as [|r l IH] using rev_ind; intros t.
    - rewrite creates_nil. intros Hnew. apply reach_new. exact Hnew.
    - rewrite creates_snoc. destruct (creates uninit l) as [t0|]; [|done]. simpl.
      destruct (CreateProxy uninit r 7 t0) as [[h t1]|] eqn:E; [|done].
      intros [= <-]. eapply reach_CreateProxy; [by apply IH|exact E].
  Qed.

Lemma creates_inv uninit (l : list Rectf) t :
    creates uninit l = Some t → tree_inv t.
  Proof.
    revert t. induction l as [|r l IH] using rev_ind; intros t.
    - rewrite creates_nil. intros Hnew. destruct (b2DynamicTree_new_spec (Rectf := Rectf)) as (t0 & Ht0 & HI & _).
      rewrite Hnew in Ht0. injection Ht0 as <-.
      exists None, (seqZ 0 16). exact HI.
    - rewrite creates_snoc. destruct (creates uninit l) as [t0|]; [|done]. simpl.
      destruct (CreateProxy uninit r 7 t0) as [[h t1]|] eqn:E; [|done].
      intros [= <-]. destruct (IH t0 eq_refl) as (T & fl & HI).
      destruct (wp_run _ _ _ _ _ (CreateProxy_spec uninit r 7 t0 T fl HI) E)
        as (s' & fl' & HI' & _). by exists (Some s'), fl'.
  Qed.
End ScenarioFacts.

Module GridLaws.
  Import Grid.

Lemma move_combine (a b : Rect) v :
    move (combine a b) v = combine (move a v) (move b v).
  Proof. destruct a, b, v. unfold move, combine. simpl. f_equal; lia. Qed.

Lemma combine_comm (a b : Rect) : combine a b = combine b a.
  Proof. destruct a, b. unfold combine. simpl. f_equal; lia. Qed.

Lemma overlaps_combine (a b q : Rect) :
    overlaps (combine a b) q = false → overlaps a q = false ∧ overlaps b q = false.
  Proof.
    destruct a, b, q. unfold overlaps, combine. simpl.
    rewrite !negb_false_iff, !orb_true_iff, !Z.ltb_lt. lia.
  Qed.

End GridLaws.

Lemma grid_three_eq :
  creates Grid.blank grid_boxes = Some grid_three.
Proof. vm_compute. reflexivity. Qed.

Lemma grid_three_reachable : reachable grid_three.
Proof. exact (creates_reachable _ _ _ grid_three_eq). Qed.

Section Claims.
  Context {float Rectf : Type} {FO : FloatOps float} {RO : RectOps float Rectf}.
  Local Abbreviation b2TreeNode := (b2TreeNode Rectf).
  Local Abbreviation b2DynamicTree := (b2DynamicTree Rectf).
  Implicit Types (ns : list b2TreeNode) (t : b2DynamicTree) (s : shape)
    (i p : Z) (T : option shape).

(** C1. In a state reached by public operations, [Query] with a callback
    that always answers "continue" returns, and the handles it passed to
    the callback are the proxies whose stored fat box overlaps the query
    box, each once (a permutation of that list), every call answered
    "continue".  The rectangle primitives are taken with two laws: moving
    a union moves its parts, and a union that misses the query box has
    parts that miss it. *)
Theorem C1_Query_reports_each_overlapping_proxy_once
    {CB : Type} (QueryCallback : CB → Z → bool * CB) t (q : Rectf) (cb : CB) :
  (∀ (a b : Rectf) v, move (combine a b) v = combine (move a v) (move b v)) →
  (∀ a b q : Rectf, overlaps (combine a b) q = false →
                    overlaps a q = false ∧ overlaps b q = false) →
  (∀ cb h, fst (QueryCallback cb h) = true) →
  reachable t →
  ∃ cb' calls,
    Query QueryCallback t cb q = Some (cb', calls)
    ∧ calls.*1 ≡ₚ filter (λ h, fat_overlaps t q h = true) (proxies t)
    ∧ Forall (λ call, snd call = true) calls.
Proof.
  intros Hmove Hov Hcont Hreach.
  destruct (reachable_inv Hmove t Hreach) as (T & fl & HI).
  exact (Query_spec QueryCallback Hov Hcont t T fl q cb HI).
Qed.
End Claims.

Lemma C1_witness :
  ∃ cb' calls,
    Query (λ (cb : list Z) h, (true, h :: cb)) grid_three []
      (Grid.mkRect 40 0 120 5) = Some (cb', calls)
    ∧ calls.*1 ≡ₚ filter (λ h, fat_overlaps grid_three
                                 (Grid.mkRect 40 0 120 5) h = true)
                         (proxies grid_three)
    ∧ Forall (λ call, snd call = true) calls.
Proof.
  apply (C1_Query_reports_each_overlapping_proxy_once).
  - exact GridLaws.move_combine.
  - exact GridLaws.overlaps_combine.
  - reflexivity.
  - exact grid_three_reachable.
Defined.

Section Claims2.
  Context {float Rectf : Type} {FO : FloatOps float} {RO : RectOps float Rectf}.
  Local Abbreviation b2TreeNode := (b2TreeNode Rectf).
  Local Abbreviation b2DynamicTree := (b2DynamicTree Rectf).
  Implicit Types (ns : list b2TreeNode) (t : b2DynamicTree) (s : shape)
    (i p : Z) (T : option shape).

  (** A node of a tree is a leaf, or it has two children that fit it. *)
Lemma rep_node_fitted ns p s i n :
    rep ns p s → i ∈ nodes s → rd ns i = Some n →
    (child1 n = b2_nullNode ∧ child2 n = b2_nullNode ∧ height n = 0)
    ∨ (child1 n ≠ b2_nullNode ∧ child2 n ≠ b2_nullNode ∧ 1 ≤ height n
       ∧ ∃ n1 n2, rd ns (child1 n) = Some n1 ∧ rd ns (child2 n) = Some n2
                  ∧ 0 ≤ height n1 ∧ 0 ≤ height n2
                  ∧ height n = 1 + Z.max (height n1) (height n2)
                  ∧ (aabb n = combine (aabb n1) (aabb n2)
                     ∨ aabb n = combine (aabb n2) (aabb n1))).
  Proof.
    revert p. induction s as [j|j l IHl r IHr]; intros p; simpl.
    - intros (n' & Hn' & _ & ? & ? & ?) ->%list_elem_of_singleton Hn. simplify_eq. by left.
    - intros Hrep [->|[Hi|Hi]%elem_of_app]%elem_of_cons Hn.
      + right. destruct Hrep as ((n' & Hn' & _ & H1 & H2 & _ & H1n)
                                 & (n0 & n1 & n2 & Hn0 & Hn1 & Hn2 & Hh & Hb) & Hl & Hr).
        simplify_eq.
        assert (0 ≤ height n1) as Hh1.
        { apply (rep_root_height ns j l n1 Hl). by rewrite <-H1. }
        assert (0 ≤ height n2) as Hh2.
        { apply (rep_root_height ns j r n2 Hr). by rewrite <-H2. }
        split_and!; [by rewrite H1| |lia|by exists n1, n2].
        intros E. rewrite E in Hn2. by rewrite rd_null in Hn2.
      + destruct Hrep as (_ & _ & Hl & _). eauto.
      + destruct Hrep as (_ & _ & _ & Hr). eauto.
  Qed.

(** C5. For a leaf handle [h] in range, when the stored fat box contains
    the new tight box and the new fat box grown by four times the margin
    contains the stored fat box, [MoveProxy] returns false and the tree
    object is the one it was, every field of every node included. *)
Theorem C5_MoveProxy_small_motion_keeps_tree
    (uninit : Z → b2TreeNode) t h n (aabb_ : Rectf) (d : Vector float) :
  0 ≤ h < m_nodeCapacity t →
  rd (m_nodes t) h = Some n →
  IsLeaf n = true →
  contains (aabb n) aabb_ = true →
  contains (grown (MoveProxy_fatAABB aabb_ d) (fmul f_four b2_aabbExtension)) (aabb n) = true →
  MoveProxy uninit h aabb_ d t = Some (false, t).
Proof.
  intros Hh Hn Hleaf Hc1 Hc2.
  unfold MoveProxy, bind, get, b2Assert, node, fld, bind, node, ret.
  rewrite bool_decide_eq_true_2 by done. rewrite Hn, Hleaf, Hn. by rewrite Hc1, Hc2.
Qed.

(** C6. In a state reached by public operations, an allocated node (one
    whose height is not negative) has height 0 exactly when both its
    children are the null node; otherwise its two children are allocated
    nodes, its height is one more than the larger of theirs and its box
    is the union of theirs.  The rectangle primitives are taken with two
    laws: moving a union moves its parts, and the union is commutative. *)
Theorem C6_allocated_nodes_fit_their_children t i n :
  (∀ (a b : Rectf) v, move (combine a b) v = combine (move a v) (move b v)) →
  (∀ a b : Rectf, combine a b = combine b a) →
  reachable t →
  rd (m_nodes t) i = Some n → 0 ≤ height n →
  (height n = 0 ↔ child1 n = b2_nullNode ∧ child2 n = b2_nullNode)
  ∧ (height n ≠ 0 →
     ∃ n1 n2, rd (m_nodes t) (child1 n) = Some n1 ∧ rd (m_nodes t) (child2 n) = Some n2
              ∧ 0 ≤ height n1 ∧ 0 ≤ height n2
              ∧ height n = 1 + Z.max (height n1) (height n2)
              ∧ aabb n = combine (aabb n1) (aabb n2)).
Proof.
  intros Hmove Hcomm Hreach Hn Hh.
  destruct (reachable_inv Hmove t Hreach) as (T & fl & HI).
  pose proof (Pool_of_Inv _ _ _ _ HI) as HP. rewrite app_nil_r in HP.
  pose proof (rd_Some_range _ _ _ Hn) as Hr. rewrite (pool_length _ _ _ HP) in Hr.
  apply (Pool_range _ _ _ i HP) in Hr. apply elem_of_app in Hr as [Hi|Hi].
  { destruct (free_chain_height _ _ _ _ (pool_free _ _ _ HP) Hi) as (n' & Hn' & Hh').
    simplify_eq. lia. }
  destruct T as [s|]; simpl in Hi; [|by apply elem_of_nil in Hi].
  destruct (inv_root _ _ _ _ HI) as [_ Hrep].
  destruct (rep_node_fitted _ _ _ _ _ Hrep Hi Hn)
    as [(H1 & H2 & H0)|(H1 & H2 & H0 & n1 & n2 & Hn1 & Hn2 & Hh1 & Hh2 & Hht & Hbx)].
  - split; [done|]. lia.
  - split; [split; [lia|by intros [? _]]|]. intros _. exists n1, n2.
    split_and!; try done. destruct Hbx as [->| ->]; [done|apply Hcomm].
Qed.


(** C9. Between public calls, [GetHeight] returns 0 on a tree with no
    proxy and on a tree with one proxy alike. *)
Theorem C9_GetHeight_zero_up_to_one_proxy t :
  tree_inv t → (length (proxies t) ≤ 1)%nat → GetHeight t = Some (0, t).
Proof.
  intros (T & fl & HI) Hle. rewrite (proxies_leaves t T fl HI) in Hle.
  unfold GetHeight, bind, get.
  destruct T as [s|]; simpl in Hle.
  - destruct (inv_root _ _ _ _ HI) as [Hroot Hrep]. rewrite Hroot.
    destruct s as [i|i l r].
    + destruct Hrep as (n & Hn & _ & _ & _ & Hh). simpl.
      pose proof (rd_Some_range _ _ _ Hn).
      rewrite bool_decide_eq_false_2 by (unfold b2_nullNode; lia).
      unfold fld, bind, node, ret. rewrite Hn. by rewrite Hh.
    + simpl in Hle. rewrite length_app in Hle.
      assert (∀ s', (1 ≤ length (leaves s'))%nat) as Hpos.
      { induction s'; simpl; [lia|]. rewrite length_app. lia. }
      pose proof (Hpos l). pose proof (Hpos r). lia.
  - pose proof (inv_root _ _ _ _ HI) as Hroot. simpl in Hroot. rewrite Hroot.
    by rewrite bool_decide_eq_true_2.
Qed.

(** C10. Between public calls, [DestroyProxy h] on a proxy [h] returns,
    and the next [CreateProxy], whatever box and user data it is given,
    returns the handle [h] again. *)
Theorem C10_CreateProxy_reuses_last_destroyed
    (uninit : Z → b2TreeNode) t h (aabb_ : Rectf) (userData_ : Z) :
  tree_inv t → is_proxy t h →
  ∃ t1 t2, DestroyProxy h t = Some (tt, t1)
           ∧ CreateProxy uninit aabb_ userData_ t1 = Some (h, t2).
Proof.
  intros (T & fl & HI) Hpx.
  destruct (DestroyProxy_spec t T fl h HI Hpx) as ([] & t1 & Hrun1 & T' & fl' & HI1 & _ & Hfl).
  destruct (CreateProxy_spec uninit aabb_ userData_ t1 T' (h :: fl') HI1)
    as (h' & t2 & Hrun2 & s' & fl2 & _ & _ & Hh').
  assert (h' = h) as ->.
  { rewrite <-Hfl. apply Hh'. rewrite Hfl. destruct Hpx as (n & Hn%rd_Some_range & _).
    unfold b2_nullNode. lia. }
  by exists t1, t2.
Qed.
End Claims2.

Section Ends.
  Context {A : Type} (P : A → Prop).

Lemma ends_at_nil : ends_at P [].
  Proof. intros pre c post E. by destruct pre. Qed.

Lemma ends_at_one c : ends_at P [c].
  Proof.
    intros [|x pre] c' post E _; simplify_eq/=; [done|]. by destruct pre.
  Qed.

Lemma ends_at_cons c l : ¬ P c → ends_at P l → ends_at P (c :: l).
  Proof.
    intros Hc Hl [|x pre] c' post E HP; simplify_eq/=; [done|]. by eapply Hl.
  Qed.
End Ends.

Section Sentinels.
  Context {float Rectf : Type} {FO : FloatOps float} {RO : RectOps float Rectf}
    {YO : RayOps float Rectf} {CB : Type}.
  Local Abbreviation b2TreeNode := (b2TreeNode Rectf).
  Local Abbreviation b2DynamicTree := (b2DynamicTree Rectf).
  Implicit Types (t : b2DynamicTree).

  Variable QueryCallback : CB → Z → bool * CB.
  Variable RayCastCallback : CB → b2RayCastInput float → Z → float * CB.

Lemma Query_loop_ends fuel t q stack cb cb' calls :
    Query_loop QueryCallback fuel t q stack cb = Some (cb', calls) →
    ends_at (λ call, snd call = false) calls.
  Proof.
    revert stack cb cb' calls. induction fuel as [|fuel IH]; intros stack cb cb' calls;
      destruct stack as [|nodeId stack]; simpl; try done;
      try (intros [= <- <-]; apply ends_at_nil).
    unfold Query_round. case_bool_decide.
    { destruct (Query_loop _ _ _ _ _ _) as [[cb'' calls']|] eqn:E; [|done].
      intros [= <- <-]. by eapply IH. }
    destruct (rd (m_nodes t) nodeId) as [N|]; [|done].
    destruct (overlaps (aabb N) q).
    - destruct (IsLeaf N).
      + destruct (QueryCallback cb nodeId) as [[] cb1].
        * destruct (Query_loop _ _ _ _ _ _) as [[cb'' calls']|] eqn:E; [|done].
          intros [= <- <-]. apply ends_at_cons; [done|]. by eapply IH.
        * intros [= <- <-]. apply ends_at_one.
      + destruct (Query_loop _ _ _ _ _ _) as [[cb'' calls']|] eqn:E; [|done].
        intros [= <- <-]. by eapply IH.
    - destruct (Query_loop _ _ _ _ _ _) as [[cb'' calls']|] eqn:E; [|done].
      intros [= <- <-]. by eapply IH.
  Qed.

  (** What a round of [RayCast] that invokes the callback does. *)
Lemma RayCast_round_call t input v abs_v nodeId st r calls :
    RayCast_round RayCastCallback t input v abs_v nodeId st = Some (r, calls) →
    calls = []
    ∧ (∃ st', r = Continue st' ∧ rs_maxFraction st' = rs_maxFraction st
              ∧ rs_segmentAABB st' = rs_segmentAABB st)
    ∨ let sub := mkRayCastInput (p1 input) (p2 input) (rs_maxFraction st) in
      let value := fst (RayCastCallback (rs_callback st) sub nodeId) in
      let cb1 := snd (RayCastCallback (rs_callback st) sub nodeId) in
      calls = [(sub, nodeId, value)]
      ∧ r = if feq value f_zero then Return cb1
            else if flt f_zero value then
              Continue (mkRayState (rs_stack st) value
                          (RayCast_segmentAABB (p1 input) (p2 input) value) cb1)
            else Continue (mkRayState (rs_stack st) (rs_maxFraction st)
                             (rs_segmentAABB st) cb1).
  Proof.
    unfold RayCast_round. case_bool_decide; [intros [= <- <-]; left; eauto|].
    destruct (rd (m_nodes t) nodeId) as [N|]; [|done].
    destruct (negb _); [intros [= <- <-]; left; eauto|].
    destruct (flt f_zero _); [intros [= <- <-]; left; eauto|].
    destruct (IsLeaf N); [|intros [= <- <-]; left; eauto].
    destruct (RayCastCallback _ _ _) as [value cb1]. simpl.
    destruct (feq value f_zero); [intros [= <- <-]; by right|].
    destruct (flt f_zero value); intros [= <- <-]; by right.
  Qed.

Lemma RayCast_loop_ends fuel t input v abs_v st cb' calls :
    RayCast_loop RayCastCallback fuel t input v abs_v st = Some (cb', calls) →
    ends_at (λ call, feq (snd call) f_zero = true) calls.
  Proof.
    revert st cb' calls. induction fuel as [|fuel IH]; intros st cb' calls; simpl;
      destruct (rs_stack st) as [|nodeId stack]; try done;
      try (intros [= <- <-]; apply ends_at_nil).
    destruct (RayCast_round _ _ _ _ _ _ _) as [[r rc]|] eqn:Er; [|done].
    apply RayCast_round_call in Er as [[-> (st' & -> & _)]|Er].
    - destruct (RayCast_loop _ _ _ _ _ _ _) as [[cb'' calls']|] eqn:E; [|done].
      intros [= <- <-]. by eapply IH.
    - simpl in Er. destruct Er as [-> ->].
      destruct (feq _ f_zero) eqn:Ez.
      + intros [= <- <-]. apply ends_at_one.
      + destruct (flt f_zero _);
          (destruct (RayCast_loop _ _ _ _ _ _ _) as [[cb'' calls']|] eqn:E; [|done]);
          intros [= <- <-]; (apply ends_at_cons; [simpl; by rewrite Ez|by eapply IH]).
  Qed.

Lemma RayCast_loop_chain fuel t input v abs_v st cb' calls :
    (∀ x : float, flt x x = false) →
    (∀ cb sub h, flt (maxFraction sub) (fst (RayCastCallback cb sub h)) = false) →
    RayCast_loop RayCastCallback fuel t input v abs_v st = Some (cb', calls) →
    calls = [] ∨ chain (rs_maxFraction st) ((λ call, maxFraction (fst (fst call))) <$> calls).
  Proof.
    intros Hirr Hcb.
    revert st cb' calls. induction fuel as [|fuel IH]; intros st cb' calls; simpl;
      destruct (rs_stack st) as [|nodeId stack]; try done;
      try (intros [= <- <-]; by left).
    destruct (RayCast_round _ _ _ _ _ _ _) as [[r rc]|] eqn:Er; [|done].
    apply RayCast_round_call in Er as [[-> (st' & -> & Hm & _)]|Er].
    - destruct (RayCast_loop _ _ _ _ _ _ _) as [[cb'' calls']|] eqn:E; [|done].
      intros [= <- <-]. simpl in Hm. rewrite <-Hm. by eapply IH.
    - simpl in Er. destruct Er as [-> ->].
      set (value := fst (RayCastCallback _ _ _)) in *.
      assert (flt (rs_maxFraction st) value = false) as Hle.
      { exact (Hcb (rs_callback st)
                 (mkRayCastInput (p1 input) (p2 input) (rs_maxFraction st)) nodeId). }
      destruct (feq value f_zero) eqn:Ez.
      + intros [= <- <-]. right. simpl. split; [done|]. exists (rs_maxFraction st). by split.
      + destruct (flt f_zero value);
          (destruct (RayCast_loop _ _ _ _ _ _ _) as [[cb'' calls']|] eqn:E; [|done]);
          intros [= <- <-]; right; rewrite fmap_cons; simpl; (split; [done|]);
          apply IH in E as [->|E]; simpl in *; eauto.
  Qed.

Lemma chain_adjacent (m : float) l pre a b post :
    chain m l → l = pre ++ a :: b :: post → flt a b = false.
  Proof.
    revert m l. induction pre as [|x pre IH]; intros m l Hl ->; simpl in Hl.
    - destruct Hl as (-> & m' & Hm & -> & _). done.
    - destruct Hl as (_ & m' & _ & Hl). by eapply IH.
  Qed.
End Sentinels.

Module Binary32Laws.
  Import Binary32.

Lemma flt_irrefl (x : float) : flt x x = false.
  Proof.
    destruct x as [[]|[]| |[] m e]; try done; simpl; unfold SFltb, SFcompare;
      rewrite Z.compare_refl, ?Pos.compare_cont_refl, ?Pos.compare_refl; done.
  Qed.

Lemma flt_negative (x : float) :
    flt x f_zero = true → feq x f_zero = false ∧ flt f_zero x = false.
  Proof. by destruct x as [[]|[]| |[] m e]. Qed.
End Binary32Laws.

Section Claims3.
  Context {float Rectf : Type} {FO : FloatOps float} {RO : RectOps float Rectf}
    {YO : RayOps float Rectf} {CB : Type}.
  Local Abbreviation b2TreeNode := (b2TreeNode Rectf).
  Local Abbreviation b2DynamicTree := (b2DynamicTree Rectf).
  Implicit Types (t : b2DynamicTree).

(** C7. In one call of [Query], an invocation answered "stop" is the last
    one.  In one call of [RayCast], an invocation answered 0 is the last
    one; and a round whose invocation is answered with a negative value
    goes on with the walk, the stack, [maxFraction] and the segment box
    being what they were.  The order of the floats is taken with one law:
    a value less than zero neither equals zero nor exceeds it. *)
Theorem C7_callback_answers_stop_or_skip
    (QueryCallback : CB → Z → bool * CB)
    (RayCastCallback : CB → b2RayCastInput float → Z → float * CB)
    t (q : Rectf) (input : b2RayCastInput float) (cb : CB) :
  (∀ x : float, flt x f_zero = true → feq x f_zero = false ∧ flt f_zero x = false) →
  (∀ cb' calls, Query QueryCallback t cb q = Some (cb', calls) →
     ends_at (λ call, snd call = false) calls)
  ∧ (∀ cb' calls, RayCast RayCastCallback t cb input = Some (cb', calls) →
       ends_at (λ call, feq (snd call) f_zero = true) calls)
  ∧ (∀ v abs_v nodeId st r sub h value,
       RayCast_round RayCastCallback t input v abs_v nodeId st
         = Some (r, [(sub, h, value)]) →
       flt value f_zero = true →
       ∃ cb1, r = Continue (mkRayState (rs_stack st) (rs_maxFraction st)
                              (rs_segmentAABB st) cb1)).
Proof.
  intros Hneg. split_and!.
  - intros cb' calls Hrun. by eapply Query_loop_ends.
  - intros cb' calls. unfold RayCast. destruct (flt f_zero _); [|done].
    apply RayCast_loop_ends.
  - intros v abs_v nodeId st r sub h value Hrun Hv.
    apply RayCast_round_call in Hrun as [[? _]|Hrun]; [done|].
    simpl in Hrun. destruct Hrun as [[= -> -> ->] ->].
    destruct (Hneg _ Hv) as [-> ->]. eauto.
Qed.

(** C4 (amended). In one call of [RayCast] with a callback that never
    returns a value above the [maxFraction] of the input it is passed, no
    invocation sees a [maxFraction] less than the next one does.  The
    order of the floats is taken with one law: no value is less than
    itself. *)
Theorem C4_maxFraction_never_rises_under_clipping_callbacks
    (RayCastCallback : CB → b2RayCastInput float → Z → float * CB)
    t (input : b2RayCastInput float) (cb cb' : CB) calls pre c1 c2 post :
  (∀ x : float, flt x x = false) →
  (∀ cb sub h, flt (maxFraction sub) (fst (RayCastCallback cb sub h)) = false) →
  RayCast RayCastCallback t cb input = Some (cb', calls) →
  calls = pre ++ c1 :: c2 :: post →
  flt (maxFraction (fst (fst c1))) (maxFraction (fst (fst c2))) = false.
Proof.
  intros Hirr Hcb Hrun ->. unfold RayCast in Hrun. destruct (flt f_zero _); [|done].
  apply (RayCast_loop_chain _ _ _ _ _ _ _ _ _ Hirr Hcb) in Hrun as [E|Hc].
  { by destruct pre. }
  eapply chain_adjacent; [exact Hc|]. by rewrite fmap_app, !fmap_cons.
Qed.

End Claims3.

Section Claims4.
  Context {float Rectf : Type} {FO : FloatOps float} {RO : RectOps float Rectf}.
  Local Abbreviation b2TreeNode := (b2TreeNode Rectf).
  Local Abbreviation b2DynamicTree := (b2DynamicTree Rectf).
  Implicit Types (ns : list b2TreeNode) (t : b2DynamicTree) (s : shape) (i p : Z).

Lemma rotation_balanced hA s s' :
    rotation hA s s' → 2 ≤ hA → promoted_balanced s → inner_balanced s'.
  Proof.
    intros Hrot HhA. destruct Hrot; simpl; intros [HC HB]; simpl in *; lia.
  Qed.

(** C2 (amended). [Balance] levels the node it returns, not the tree: on
    an internal node A that stores a height of 2 or more and hangs from
    its parent (or is the root), with subtrees that are in order, if the
    child of A that [Balance] would move up has children of heights that
    differ by 1 at most, then [Balance] returns a node whose two children
    have heights that differ by 1 at most.  Nothing is promised below
    that node. *)
Theorem C2_Balance_levels_the_node_it_returns t s p na :
  is_Nd s → rep_stale (m_nodes t) p s → NoDup (nodes s) → p ∉ nodes s →
  Z.of_nat (length (m_nodes t)) = m_nodeCapacity t →
  hangs_from t p (idx s) →
  rd (m_nodes t) (idx s) = Some na → 2 ≤ height na →
  promoted_balanced s →
  ∃ r t', Balance (idx s) t = Some (r, t')
          ∧ ∃ n n1 n2, rd (m_nodes t') r = Some n
                       ∧ rd (m_nodes t') (child1 n) = Some n1
                       ∧ rd (m_nodes t') (child2 n) = Some n2
                       ∧ -1 ≤ height n2 - height n1 ≤ 1.
Proof.
  intros HNd Hrep Hnd Hp Hlen Hhang Hna Hh Hpb.
  destruct (Balance_spec t s p HNd Hrep Hnd Hp Hlen Hhang)
    as (r & t' & Hrun & s' & <- & HNd' & Hrep' & _ & _ & _ & _ & _ & Hrot).
  exists (idx s'), t'. split; [done|].
  pose proof (rotation_balanced _ _ _ (Hrot _ Hna) Hh Hpb) as Hbal.
  destruct s' as [|r L R]; [done|]. simpl in *.
  destruct Hrep' as ((n & Hn & _ & H1 & H2 & _) & HL & HR).
  destruct (rep_root _ _ _ HL) as (n1 & Hn1 & _).
  destruct (rep_root _ _ _ HR) as (n2 & Hn2 & _).
  exists n, n1, n2. rewrite H1, H2. split_and!; try done;
    rewrite (rep_height _ _ _ _ HL Hn1), (rep_height _ _ _ _ HR Hn2); lia.
Qed.
End Claims4.

Ltac rd_compute := first [reflexivity | vm_compute; reflexivity].
Ltac fact_compute :=
  first [reflexivity | vm_compute; first [reflexivity | discriminate | exact I]
        | by intros ? | done ].
Ltac leaf_compute :=
  eexists; split; [rd_compute | repeat split; fact_compute].
Ltac fitted_compute :=
  eexists _, _, _; split; [rd_compute|]; split; [rd_compute|]; split; [rd_compute|];
  split; [fact_compute| first [left; rd_compute | right; rd_compute]].
Ltac rep_compute :=
  lazymatch goal with
  | |- _ ∧ _ => split; rep_compute
  | |- leaf_at _ _ _ => leaf_compute
  | |- linked _ _ _ _ _ => leaf_compute
  | |- fitted _ _ => fitted_compute
  end.

Module SceneFacts.
  Import Binary32 Scenes.

Lemma nine_eq : creates blank nine_boxes = Some nine.
  Proof. vm_compute. reflexivity. Qed.
Lemma twins_eq : creates blank twin_boxes = Some twins.
  Proof. vm_compute. reflexivity. Qed.
Lemma row_eq : creates blank row_boxes = Some row.
  Proof. vm_compute. reflexivity. Qed.
Lemma one_eq : creates blank [rect10 0 0 10 10] = Some one.
  Proof. vm_compute. reflexivity. Qed.
End SceneFacts.

Section Witnesses.
Import Binary32 Scenes.

Lemma C2_counterexample :
  creates blank nine_boxes = Some nine
  ∧ reachable nine
  ∧ GetMaxBalance nine = Some (2, nine).
Proof.
  split; [exact SceneFacts.nine_eq|].
  split; [exact (creates_reachable _ _ _ SceneFacts.nine_eq)|].
  vm_compute. reflexivity.
Qed.

Lemma C2_witness :
  ∃ r t', Balance 16 nine = Some (r, t')
          ∧ ∃ n n1 n2, rd (m_nodes t') r = Some n
                       ∧ rd (m_nodes t') (child1 n) = Some n1
                       ∧ rd (m_nodes t') (child2 n) = Some n2
                       ∧ -1 ≤ height n2 - height n1 ≤ 1.
Proof.
  eapply (C2_Balance_levels_the_node_it_returns nine nine_16 8).
  - exact I.
  - simpl. rep_compute.
  - refine (bool_decide_unpack (NoDup (nodes nine_16)) _). vm_compute. exact I.
  - refine (bool_decide_unpack (8 ∉ nodes nine_16) _). vm_compute. exact I.
  - vm_compute. reflexivity.
  - unfold hangs_from. rewrite bool_decide_eq_false_2 by done.
    eexists. split; [rd_compute|]. left. rd_compute.
  - rd_compute.
  - fact_compute.
  - simpl. lia.
Defined.

Lemma grid_one_eq :
  creates Grid.blank [Grid.mkRect 0 0 10 10]
  = Some grid_one.
Proof. vm_compute. reflexivity. Qed.



Lemma C4_counterexample :
  ∃ cb' c1 c2 rest,
    RayCast answer_five row tt ray = Some (cb', c1 :: c2 :: rest)
    ∧ flt (maxFraction (fst (fst c1))) (maxFraction (fst (fst c2))) = true.
Proof. eexists _, _, _, _. split; vm_compute; reflexivity. Qed.

Lemma clip_half_clips cb sub h :
  flt (maxFraction sub) (fst (clip_half cb sub h)) = false.
Proof.
  unfold clip_half, fmin. simpl. destruct (SFltb (maxFraction sub) (tenths 5)) eqn:E.
  - apply Binary32Laws.flt_irrefl.
  - exact E.
Qed.

Lemma C4_witness :
  ∃ c1 c2 rest,
    RayCast clip_half row tt ray = Some (tt, c1 :: c2 :: rest)
    ∧ flt (maxFraction (fst (fst c1))) (maxFraction (fst (fst c2))) = false.
Proof.
  assert (RayCast clip_half row tt ray = Some (tt, clip_calls)) as Hrun
    by (vm_compute; reflexivity).
  eexists _, _, _. split; [exact Hrun|].
  exact (C4_maxFraction_never_rises_under_clipping_callbacks clip_half row ray tt tt
           clip_calls [] _ _ _ Binary32Laws.flt_irrefl clip_half_clips Hrun eq_refl).
Defined.

Lemma C5_witness :
  MoveProxy blank 0 (rect10 0 0 10 10) (mkVector (tenths 0) (tenths 0)) one
  = Some (false, one).
Proof.
  apply (C5_MoveProxy_small_motion_keeps_tree blank one 0 one_node).
  - vm_compute. split; [intros E; discriminate E|reflexivity].
  - reflexivity.
  - reflexivity.
  - vm_compute. reflexivity.
  - vm_compute. reflexivity.
Defined.

Lemma C6_witness :
  (height grid_three_root = 0
   ↔ child1 grid_three_root = b2_nullNode ∧ child2 grid_three_root = b2_nullNode)
  ∧ (height grid_three_root ≠ 0 →
     ∃ n1 n2, rd (m_nodes grid_three) (child1 grid_three_root) = Some n1
              ∧ rd (m_nodes grid_three) (child2 grid_three_root) = Some n2
              ∧ 0 ≤ height n1 ∧ 0 ≤ height n2
              ∧ height grid_three_root = 1 + Z.max (height n1) (height n2)
              ∧ aabb grid_three_root = combine (aabb n1) (aabb n2)).
Proof.
  apply (C6_allocated_nodes_fit_their_children grid_three
           (m_root grid_three)).
  - exact GridLaws.move_combine.
  - exact GridLaws.combine_comm.
  - exact grid_three_reachable.
  - reflexivity.
  - vm_compute. discriminate.
Defined.

Lemma C7_witness :
  (∀ cb' calls, Query stop_at_once row tt (rect10 0 0 200 10) = Some (cb', calls) →
     ends_at (λ call, snd call = false) calls)
  ∧ (∀ cb' calls, RayCast answer_five row tt ray = Some (cb', calls) →
       ends_at (λ call, feq (snd call) f_zero = true) calls)
  ∧ (∀ v abs_v nodeId st r sub h value,
       RayCast_round answer_five row ray v abs_v nodeId st
         = Some (r, [(sub, h, value)]) →
       flt value f_zero = true →
       ∃ cb1, r = Continue (mkRayState (rs_stack st) (rs_maxFraction st)
                              (rs_segmentAABB st) cb1)).
Proof.
  exact (C7_callback_answers_stop_or_skip stop_at_once answer_five row (rect10 0 0 200 10)
           ray tt Binary32Laws.flt_negative).
Defined.


Lemma C9_witness :
  GetHeight grid_one = Some (0, grid_one).
Proof.
  apply (C9_GetHeight_zero_up_to_one_proxy).
  - exact (creates_inv _ _ _ grid_one_eq).
  - vm_compute. repeat constructor.
Defined.

Lemma C10_witness :
  ∃ t1 t2, DestroyProxy 1 grid_three = Some (tt, t1)
           ∧ CreateProxy Grid.blank (Grid.mkRect 7 7 9 9) 5 t1
             = Some (1, t2).
Proof.
  apply (C10_CreateProxy_reuses_last_destroyed).
  - exact (creates_inv _ _ _ grid_three_eq).
  - eexists. split; [reflexivity|]. split; [vm_compute; intros E; discriminate E|reflexivity].
Defined.
End Witnesses.

Section Public2.
  Context {float Rectf : Type} {FO : FloatOps float} {RO : RectOps float Rectf}.
  Local Abbreviation b2TreeNode := (b2TreeNode Rectf).
  Local Abbreviation b2DynamicTree := (b2DynamicTree Rectf).
  Implicit Types (ns : list b2TreeNode) (t : b2DynamicTree) (s : shape)
    (i p : Z) (T : option shape).

Lemma proxies_NoDup t : NoDup (proxies t).
  Proof. apply NoDup_filter, NoDup_seqZ. Qed.

Lemma is_proxy_proxies t h : is_proxy t h ↔ h ∈ proxies t.
  Proof.
    unfold proxies. rewrite list_elem_of_filter, elem_of_seqZ. unfold is_proxyb. split.
    - intros (n & Hn & Hh & Hl). rewrite Hn, Hl.
      rewrite bool_decide_eq_false_2 by done. split; [done|].
      apply rd_Some_range in Hn. lia.
    - intros [Hpx _]. destruct (rd (m_nodes t) h) as [n|] eqn:Hn; [|done].
      apply andb_true_iff in Hpx as [Hh Hl]. exists n. split_and!; [done| |done].
      by apply negb_true_iff, bool_decide_eq_false_1 in Hh.
  Qed.

Lemma leaves_not_nil s : leaves s ≠ [].
  Proof.
    induction s as [i|i l IHl r IHr]; simpl; [done|].
    intros [E _]%app_eq_nil. done.
  Qed.

Lemma nodes_leaves_length s : Z.of_nat (length (nodes s)) = 2 * Z.of_nat (length (leaves s)) - 1.
  Proof.
    induction s as [i|i l IHl r IHr]; simpl; [done|]. rewrite !length_app. lia.
  Qed.

(** X1. The constructor yields a tree in order: no proxy, no root, a pool
    of sixteen nodes, none allocated, all on the free list from slot 0
    on; its height is 0. *)
Theorem X1_constructor_yields_empty_tree :
  ∃ t : b2DynamicTree,
    b2DynamicTree_new = Some t ∧ tree_inv t ∧ proxies t = []
    ∧ m_root t = b2_nullNode ∧ m_nodeCapacity t = 16 ∧ m_nodeCount t = 0
    ∧ m_freeList t = 0 ∧ GetHeight t = Some (0, t).
Proof.
  destruct (b2DynamicTree_new_spec (Rectf := Rectf)) as (t & Ht & HI & Hroot).
  exists t. split; [exact Ht|]. split; [exists None, (seqZ 0 16); exact HI|].
  pose proof (proxies_leaves t None _ HI) as Hpx. apply Permutation_nil_r in Hpx.
  pose proof (inv_cover _ _ _ _ HI) as Hcov.
  pose proof (inv_capacity _ _ _ _ HI) as Hcap.
  assert (m_nodeCapacity t = 16) as Hcap16.
  { apply Permutation_length in Hcov.
    rewrite !length_app, !length_seqZ in Hcov. simpl in Hcov. lia. }
  pose proof (inv_free _ _ _ _ HI) as Hfree.
  assert (∃ fl', seqZ 0 16 = 0 :: fl') as [fl' Hfl] by (eexists; vm_compute; reflexivity).
  rewrite Hfl in Hfree. destruct Hfree as [Hhd _].
  pose proof (inv_count _ _ _ _ HI) as Hcnt.
  split; [exact Hpx|]. split; [exact Hroot|]. split; [exact Hcap16|].
  split; [exact Hcnt|]. split; [exact Hhd|].
  unfold GetHeight, bind, get. rewrite Hroot. reflexivity.
Qed.

(** X2. Between public calls, [CreateProxy] returns whatever box and user
    data it is given, with a handle that was no proxy; the proxies are
    then the former ones and the new handle, and the tree is in order
    again. *)
Theorem X2_CreateProxy_adds_one_proxy
    (uninit : Z → b2TreeNode) (aabb_ : Rectf) (userData_ : Z) t :
  tree_inv t →
  ∃ h t', CreateProxy uninit aabb_ userData_ t = Some (h, t')
          ∧ tree_inv t' ∧ ¬ is_proxy t h ∧ proxies t' ≡ₚ h :: proxies t.
Proof.
  intros (T & fl & HI).
  destruct (CreateProxy_spec uninit aabb_ userData_ t T fl HI)
    as (h & t' & Hrun & s' & fl' & HI' & Hl & _).
  exists h, t'. split; [done|]. split; [by exists (Some s'), fl'|].
  assert (proxies t' ≡ₚ h :: proxies t) as Hp.
  { rewrite (proxies_leaves t' _ _ HI'), (proxies_leaves t _ _ HI). exact Hl. }
  split; [|done]. rewrite is_proxy_proxies.
  pose proof (proxies_NoDup t') as Hnd. rewrite Hp in Hnd.
  by apply NoDup_cons in Hnd as [? _].
Qed.

(** X3. Between public calls, [DestroyProxy] of a proxy returns; the
    handle is no proxy any more, the other proxies are the proxies still,
    and the tree is in order again. *)
Theorem X3_DestroyProxy_removes_one_proxy t h :
  tree_inv t → is_proxy t h →
  ∃ t', DestroyProxy h t = Some (tt, t')
        ∧ tree_inv t' ∧ ¬ is_proxy t' h ∧ proxies t ≡ₚ h :: proxies t'.
Proof.
  intros (T & fl & HI) Hpx.
  destruct (DestroyProxy_spec t T fl h HI Hpx)
    as ([] & t' & Hrun & T' & fl' & HI' & Hl & _).
  exists t'. split; [done|]. split; [by exists T', (h :: fl')|].
  assert (proxies t ≡ₚ h :: proxies t') as Hp.
  { rewrite (proxies_leaves t' _ _ HI'), (proxies_leaves t _ _ HI). by symmetry. }
  split; [|done]. rewrite is_proxy_proxies.
  pose proof (proxies_NoDup t) as Hnd. rewrite Hp in Hnd.
  by apply NoDup_cons in Hnd as [? _].
Qed.

(** X4. Between public calls, [MoveProxy] of a proxy returns, whatever
    the box and the displacement; the proxies are the same handles, and
    the tree is in order again. *)
Theorem X4_MoveProxy_keeps_the_proxies
    (uninit : Z → b2TreeNode) t h (aabb_ : Rectf) (d : Vector float) :
  tree_inv t → is_proxy t h →
  ∃ b t', MoveProxy uninit h aabb_ d t = Some (b, t')
          ∧ tree_inv t' ∧ proxies t' ≡ₚ proxies t.
Proof.
  intros (T & fl & HI) Hpx.
  destruct (MoveProxy_spec uninit aabb_ d t T fl h HI Hpx)
    as (b & t' & Hrun & [[_ ->]|[_ (s' & fl' & HI' & Hl)]]).
  - exists b, t. split; [done|]. split; [by exists T, fl|done].
  - exists b, t'. split; [done|]. split; [by exists (Some s'), fl'|].
    by rewrite (proxies_leaves t' _ _ HI'), (proxies_leaves t _ _ HI).
Qed.

(** X5. Between public calls, when [RebuildBottomUp] returns, the tree is
    in order and its proxies are the same handles. *)
Theorem X5_RebuildBottomUp_keeps_the_proxies (uninit : Z → b2TreeNode) t t' :
  tree_inv t → RebuildBottomUp uninit t = Some (tt, t') →
  tree_inv t' ∧ proxies t' ≡ₚ proxies t.
Proof.
  intros (T & fl & HI) Hrun.
  destruct (RebuildBottomUp_spec uninit t T fl HI _ _ Hrun) as (s' & fl' & HI' & Hl).
  split; [by exists (Some s'), fl'|].
  by rewrite (proxies_leaves t' _ _ HI'), (proxies_leaves t _ _ HI).
Qed.


(** X7. Between public calls, the tree has two nodes for each proxy but
    one: [m_nodeCount] is 0 without proxies, else twice their number
    minus 1. *)
Theorem X7_node_count_from_proxy_count t :
  tree_inv t →
  m_nodeCount t = Z.max 0 (2 * Z.of_nat (length (proxies t)) - 1).
Proof.
  intros (T & fl & HI).
  pose proof (Permutation_length (proxies_leaves t _ _ HI)) as ->.
  rewrite (inv_count _ _ _ _ HI), app_nil_r. destruct T as [s|]; simpl; [|done].
  rewrite nodes_leaves_length. destruct (leaves s) eqn:E; [|simpl length; lia].
  by apply leaves_not_nil in E.
Qed.
End Public2.

Section Data.
  Context {float Rectf : Type} {FO : FloatOps float} {RO : RectOps float Rectf}.
  Local Abbreviation b2TreeNode := (b2TreeNode Rectf).
  Local Abbreviation b2DynamicTree := (b2DynamicTree Rectf).
  Implicit Types (ns : list b2TreeNode) (t : b2DynamicTree) (s : shape)
    (i p : Z) (T : option shape).

Lemma holds_rd t h n :
    Z.of_nat (length (m_nodes t)) = m_nodeCapacity t →
    rd (m_nodes t) h = Some n →
    proxy_holds t h (aabb n) (userData n) (moved n).
  Proof.
    intros Hlen Hn. pose proof (rd_Some_range _ _ _ Hn).
    unfold proxy_holds, GetFatAABB, GetUserData, WasMoved, bind, get, b2Assert, fld,
      bind, node, ret.
    rewrite bool_decide_eq_true_2 by lia. by rewrite Hn.
  Qed.

Lemma holds_inv t h n box data flag :
    Z.of_nat (length (m_nodes t)) = m_nodeCapacity t →
    rd (m_nodes t) h = Some n → proxy_holds t h box data flag →
    box = aabb n ∧ data = userData n ∧ flag = moved n.
  Proof.
    intros Hlen Hn (H1 & H2 & H3).
    destruct (holds_rd t h n Hlen Hn) as (E1 & E2 & E3).
    rewrite E1 in H1. rewrite E2 in H2. rewrite E3 in H3. by simplify_eq.
  Qed.

  (** A proxy whose node is the same up to the parent link holds what it
      held. *)
Lemma holds_kept t t' h :
    Z.of_nat (length (m_nodes t)) = m_nodeCapacity t →
    Z.of_nat (length (m_nodes t')) = m_nodeCapacity t' →
    (∀ n, rd (m_nodes t) h = Some n → ∃ q, rd (m_nodes t') h = Some (set_parent q n)) →
    is_proxy t h →
    ∀ box data flag, proxy_holds t h box data flag → proxy_holds t' h box data flag.
  Proof.
    intros Hlen Hlen' Hk (n & Hn & _) box data flag Hh.
    destruct (holds_inv _ _ _ _ _ _ Hlen Hn Hh) as (-> & -> & ->).
    destruct (Hk n Hn) as [q Hq].
    exact (holds_rd t' h _ Hlen' Hq).
  Qed.

(** X8. Between public calls, [CreateProxy] returns a handle for which
    the accessors give the box it was passed, grown by
    [b2_aabbExtension], the user data it was passed, and the moved flag
    set; every proxy there was holds the box, the user data and the flag
    it held. *)
Theorem X8_CreateProxy_stores_its_arguments
    (uninit : Z → b2TreeNode) (aabb_ : Rectf) (userData_ : Z) t :
  tree_inv t →
  ∃ h t', CreateProxy uninit aabb_ userData_ t = Some (h, t')
          ∧ proxy_holds t' h (grown aabb_ b2_aabbExtension) userData_ true
          ∧ (∀ p box data flag, is_proxy t p →
               proxy_holds t p box data flag → proxy_holds t' p box data flag).
Proof.
  intros (T & fl & HI).
  destruct (CreateProxy_full uninit aabb_ userData_ t T fl HI)
    as (h & t' & Hrun & s' & fl' & HI' & _ & _ & Hk & (nh & Hnh & Hb & Hu & Hm) & _).
  pose proof (inv_length _ _ _ _ HI) as Hlen.
  pose proof (inv_length _ _ _ _ HI') as Hlen'.
  exists h, t'. split; [done|]. split.
  - pose proof (holds_rd t' h nh Hlen' Hnh) as Hh. by rewrite Hb, Hu, Hm in Hh.
  - intros p box data flag Hpx. apply holds_kept; [done|done| |done].
    intros n Hn. apply Hk; [|done]. by eapply proxy_in_leaves.
Qed.

(** X9. Between public calls, [DestroyProxy] of a proxy leaves to every
    other proxy the box, the user data and the moved flag it held. *)
Theorem X9_DestroyProxy_leaves_the_other_proxies_alone t h :
  tree_inv t → is_proxy t h →
  ∃ t', DestroyProxy h t = Some (tt, t')
        ∧ (∀ p box data flag, is_proxy t p → p ≠ h →
             proxy_holds t p box data flag → proxy_holds t' p box data flag).
Proof.
  intros (T & fl & HI) Hpx.
  destruct (DestroyProxy_full t T fl h HI Hpx)
    as ([] & t' & Hrun & T' & fl' & HI' & _ & _ & Hk & _).
  pose proof (inv_length _ _ _ _ HI) as Hlen.
  pose proof (inv_length _ _ _ _ HI') as Hlen'.
  exists t'. split; [done|].
  intros p box data flag Hp Hne. apply holds_kept; [done|done| |done].
  intros n Hn. apply Hk; [|done|done]. by eapply proxy_in_leaves.
Qed.

(** X10. Between public calls, [MoveProxy] of a proxy that answers true
    has stored the box [MoveProxy_fatAABB] computes from its arguments
    and set the moved flag, the user data of the proxy being kept; when
    it answers false the tree is as it was; either way every other proxy
    holds the box, the user data and the flag it held. *)
Theorem X10_MoveProxy_stores_the_new_fat_box
    (uninit : Z → b2TreeNode) t h (aabb_ : Rectf) (d : Vector float) :
  tree_inv t → is_proxy t h →
  ∃ b t', MoveProxy uninit h aabb_ d t = Some (b, t')
          ∧ (b = false → t' = t)
          ∧ (b = true → ∀ box data flag, proxy_holds t h box data flag →
               proxy_holds t' h (MoveProxy_fatAABB aabb_ d) data true)
          ∧ (∀ p box data flag, is_proxy t p → p ≠ h →
               proxy_holds t p box data flag → proxy_holds t' p box data flag).
Proof.
  intros (T & fl & HI) Hpx.
  pose proof (inv_length _ _ _ _ HI) as Hlen.
  destruct (MoveProxy_full uninit aabb_ d t T fl h HI Hpx)
    as (b & t' & Hrun & [[-> ->]|[-> (s' & fl' & HI' & _ & Hk & Hkh & _)]]).
  - exists false, t. split_and!; [done|done|done|]. by intros.
  - pose proof (inv_length _ _ _ _ HI') as Hlen'.
    exists true, t'. split_and!; [done|done| |].
    + intros _ box data flag Hh. destruct Hpx as (n & Hn & _).
      destruct (holds_inv _ _ _ _ _ _ Hlen Hn Hh) as (-> & -> & ->).
      destruct (Hkh n Hn) as [q Hq].
      pose proof (holds_rd t' h _ Hlen' Hq) as Hh'. by destruct n.
    + intros p box data flag Hp Hne. apply holds_kept; [done|done| |done].
      intros n Hn. apply Hk; [|done|done]. by eapply proxy_in_leaves.
Qed.

(** X11. Between public calls, [ClearMoved] of a proxy returns and clears
    its moved flag only: the proxy keeps its box and its user data, the
    other proxies keep what they held, the proxies are the same handles
    and the tree is in order still. *)
Theorem X11_ClearMoved_clears_one_flag t h :
  tree_inv t → is_proxy t h →
  ∃ t', ClearMoved h t = Some (tt, t')
        ∧ tree_inv t' ∧ proxies t' ≡ₚ proxies t
        ∧ (∀ box data flag, proxy_holds t h box data flag →
             proxy_holds t' h box data false)
        ∧ (∀ p box data flag, p ≠ h →
             proxy_holds t p box data flag → proxy_holds t' p box data flag).
Proof.
  intros (T & fl & HI) (n & Hn & _).
  pose proof (inv_length _ _ _ _ HI) as Hlen.
  pose proof (rd_Some_range _ _ _ Hn) as Hr.
  destruct (ClearMoved_spec t T fl h HI) as ([] & t' & Hrun & HI'); [lia|].
  assert (t' = set_nodes (wr (m_nodes t) h (set_moved false n)) t) as Ht'.
  { revert Hrun. unfold ClearMoved, bind, get, b2Assert, modify, bind, node, put, ret.
    rewrite bool_decide_eq_true_2 by lia. rewrite Hn. by intros [= <-]. }
  pose proof (inv_length _ _ _ _ HI') as Hlen'.
  exists t'. split; [done|]. split; [by exists T, fl|]. split.
  { by rewrite (proxies_leaves t' _ _ HI'), (proxies_leaves t _ _ HI). }
  split.
  - intros box data flag Hh.
    destruct (holds_inv _ _ _ _ _ _ Hlen Hn Hh) as (-> & -> & ->).
    assert (rd (m_nodes t') h = Some (set_moved false n)) as Hn'.
    { rewrite Ht'. tsimpl. by rewrite rd_wr_eq by lia. }
    pose proof (holds_rd t' h _ Hlen' Hn') as Hh'. by destruct n.
  - intros p box data flag Hne (H1 & H2 & H3).
    assert (rd (m_nodes t') p = rd (m_nodes t) p) as Hp.
    { rewrite Ht'. tsimpl. by rewrite rd_wr_ne by done. }
    destruct (rd (m_nodes t) p) as [np|] eqn:Hnp.
    + destruct (holds_inv _ _ _ _ _ _ Hlen Hnp (conj H1 (conj H2 H3))) as (-> & -> & ->).
      exact (holds_rd t' p _ Hlen' Hp).
    + exfalso. revert H1. unfold GetFatAABB, bind, get, b2Assert, fld, bind, node, ret.
      case_bool_decide; [|done]. by rewrite Hnp.
Qed.

(** X12. Between public calls, [ShiftOrigin] returns and moves the box of
    every proxy by the opposite of the new origin; user data and moved
    flags stay, the proxies are the same handles, and the tree is in
    order still, the rectangles being such that moving a union moves its
    parts. *)
Theorem X12_ShiftOrigin_moves_every_box (v : Vector float) t :
  (∀ a b : Rectf, move (combine a b) (vneg v) = combine (move a (vneg v)) (move b (vneg v))) →
  tree_inv t →
  ∃ t', ShiftOrigin v t = Some (tt, t')
        ∧ tree_inv t' ∧ proxies t' ≡ₚ proxies t
        ∧ (∀ p box data flag, proxy_holds t p box data flag →
             proxy_holds t' p (move box (vneg v)) data flag).
Proof.
  intros Hlaw (T & fl & HI).
  pose proof (inv_length _ _ _ _ HI) as Hlen.
  destruct (ShiftOrigin_spec v t T fl Hlaw HI) as ([] & t' & Hrun & HI').
  pose proof (inv_length _ _ _ _ HI') as Hlen'.
  assert (t' = set_nodes (shifted v <$> m_nodes t) t) as Ht'.
  { rewrite ShiftOrigin_run in Hrun by done. by injection Hrun as <-. }
  exists t'. split; [done|]. split; [by exists T, fl|]. split.
  { by rewrite (proxies_leaves t' _ _ HI'), (proxies_leaves t _ _ HI). }
  intros p box data flag (H1 & H2 & H3).
  destruct (rd (m_nodes t) p) as [np|] eqn:Hnp.
  - destruct (holds_inv _ _ _ _ _ _ Hlen Hnp (conj H1 (conj H2 H3))) as (-> & -> & ->).
    assert (rd (m_nodes t') p = Some (shifted v np)) as Hp.
    { rewrite Ht'. tsimpl. by rewrite rd_fmap, Hnp. }
    pose proof (holds_rd t' p _ Hlen' Hp) as Hh'. by destruct np.
  - exfalso. revert H1. unfold GetFatAABB, bind, get, b2Assert, fld, bind, node, ret.
    case_bool_decide; [|done]. by rewrite Hnp.
Qed.
End Data.

Section ChecksFacts.
  Context {float Rectf : Type} {FO : FloatOps float} {RO : RectOps float Rectf}.
  Local Abbreviation b2TreeNode := (b2TreeNode Rectf).
  Local Abbreviation b2DynamicTree := (b2DynamicTree Rectf).
  Local Abbreviation M := (M Rectf).
  Implicit Types (ns : list b2TreeNode) (t : b2DynamicTree) (s : shape)
    (i p : Z) (T : option shape).

  Variable Rectf_eq : Rectf → Rectf → bool.

Lemma sheight_nonneg s : 0 ≤ sheight s.
  Proof. induction s; simpl; lia. Qed.

Lemma sheight_nodes s : sheight s < Z.of_nat (length (nodes s)).
  Proof.
    induction s as [i|i l IHl r IHr]; simpl; [lia|]. rewrite length_app. lia.
  Qed.

  (** A computation that returns without a change of the tree. *)
Lemma wp_same {A} (m : M A) (a : A) t :
    wp m (λ r t', r = a ∧ t' = t) t → m t = Some (a, t).
  Proof. by intros (r & t' & -> & -> & ->). Qed.

Lemma ComputeHeight_at_run (fuel : nat) t p s :
    Z.of_nat (length (m_nodes t)) = m_nodeCapacity t →
    rep (m_nodes t) p s → sheight s < Z.of_nat fuel →
    ComputeHeight_at fuel (idx s) t = Some (sheight s, t).
  Proof.
    intros Hlen. revert fuel p. induction s as [i|i l IHl r IHr]; intros fuel p Hrep Hfuel.
    - destruct fuel as [|fuel]; [simpl in Hfuel; lia|].
      destruct Hrep as (n & Hn & _ & H1 & _). pose proof (rd_Some_range _ _ _ Hn).
      apply wp_same. simpl. wp_steps. rewrite bool_decide_eq_true_2 by done.
      by wp_steps.
    - destruct fuel as [|fuel]; [pose proof (sheight_nonneg (Nd i l r)); lia|].
      destruct Hrep as ((n & Hn & _ & H1 & H2 & _ & H1n) & _ & Hl & Hr).
      pose proof (rd_Some_range _ _ _ Hn). simpl in Hfuel.
      apply wp_same. simpl ComputeHeight_at. simpl idx. wp_steps.
      rewrite bool_decide_eq_false_2 by congruence. rewrite H1, H2.
      apply wp_bind. exists (sheight l), t. split; [apply (IHl fuel i Hl); lia|].
      apply wp_bind. exists (sheight r), t. split; [apply (IHr fuel i Hr); lia|].
      by wp_steps.
  Qed.

Lemma ValidateStructure_run (fuel : nat) t p s :
    Z.of_nat (length (m_nodes t)) = m_nodeCapacity t →
    rep (m_nodes t) p s → NoDup (nodes s) →
    (m_root t ∉ nodes s) ∨ (idx s = m_root t ∧ p = b2_nullNode) →
    sheight s < Z.of_nat fuel →
    ValidateStructure fuel (idx s) t = Some (tt, t).
  Proof.
    intros Hlen. revert fuel p.
    induction s as [i|i l IHl r IHr]; intros fuel p Hrep Hnd Hroot Hfuel.
    - destruct fuel as [|fuel]; [simpl in Hfuel; lia|].
      destruct Hrep as (n & Hn & Hp & H1 & H2 & Hh). pose proof (rd_Some_range _ _ _ Hn).
      apply wp_same. simpl. rewrite bool_decide_eq_false_2 by (unfold b2_nullNode; lia).
      wp_steps.
      assert (wp (if bool_decide (i = m_root t)
                  then p0 <- fld i parent;; b2Assert (bool_decide (p0 = b2_nullNode))
                  else ret tt) (λ _ t', t' = t) t) as Hchk.
      { case_bool_decide as Hr; [|by wp_steps]. wp_steps. apply wp_assert; [|done].
        apply bool_decide_eq_true_2. destruct Hroot as [Hout|[_ Hp0]]; [|congruence].
        exfalso. apply Hout. rewrite <-Hr. simpl. by left. }
      eapply wp_mono; [exact Hchk|]. intros [] ? ->. wp_steps.
      rewrite bool_decide_eq_true_2 by done. by wp_steps.
    - destruct fuel as [|fuel]; [pose proof (sheight_nonneg (Nd i l r)); lia|].
      destruct Hrep as ((n & Hn & Hp & H1 & H2 & _ & H1n) & _ & Hl & Hr).
      pose proof (rd_Some_range _ _ _ Hn). simpl in Hfuel, Hnd, Hroot.
      destruct (rep_root _ _ _ Hl) as (n1 & Hn1 & Hp1 & _).
      destruct (rep_root _ _ _ Hr) as (n2 & Hn2 & Hp2 & _).
      pose proof (rd_Some_range _ _ _ Hn1). pose proof (rd_Some_range _ _ _ Hn2).
      apply NoDup_cons in Hnd as [Hi Hnd]. apply not_elem_of_app in Hi as [Hil Hir].
      apply NoDup_app in Hnd as (Hndl & _ & Hndr).
      assert ((m_root t ∉ nodes l) ∧ (m_root t ∉ nodes r)) as [Hrl Hrr].
      { destruct Hroot as [Hout|[<- _]]; [|done].
        apply not_elem_of_cons in Hout as [_ Hout]. by apply not_elem_of_app in Hout. }
      apply wp_same. simpl ValidateStructure. simpl idx.
      rewrite bool_decide_eq_false_2 by (unfold b2_nullNode; lia).
      wp_steps.
      assert (wp (if bool_decide (i = m_root t)
                  then p0 <- fld i parent;; b2Assert (bool_decide (p0 = b2_nullNode))
                  else ret tt) (λ _ t', t' = t) t) as Hchk.
      { case_bool_decide as Hr0; [|by wp_steps]. wp_steps. apply wp_assert; [|done].
        apply bool_decide_eq_true_2. destruct Hroot as [Hout|[_ Hp0]]; [|congruence].
        exfalso. apply Hout. rewrite <-Hr0. simpl. by left. }
      eapply wp_mono; [exact Hchk|]. intros [] ? ->. wp_steps.
      rewrite bool_decide_eq_false_2 by congruence. rewrite H1, H2. wp_steps.
      exists tt, t. split; [apply (IHl fuel i Hl Hndl); [by left|lia]|].
      exists tt, t. split; [apply (IHr fuel i Hr Hndr); [by left|lia]|done].
  Qed.

Lemma ValidateMetrics_run (fuel : nat) t p s :
    (∀ b : Rectf, Rectf_eq b b = true) →
    (∀ a b : Rectf, combine a b = combine b a) →
    Z.of_nat (length (m_nodes t)) = m_nodeCapacity t →
    rep (m_nodes t) p s → sheight s < Z.of_nat fuel →
    ValidateMetrics Rectf_eq fuel (idx s) t = Some (tt, t).
  Proof.
    intros Hrefl Hcomm Hlen. revert fuel p.
    induction s as [i|i l IHl r IHr]; intros fuel p Hrep Hfuel.
    - destruct fuel as [|fuel]; [simpl in Hfuel; lia|].
      destruct Hrep as (n & Hn & Hp & H1 & H2 & Hh). pose proof (rd_Some_range _ _ _ Hn).
      apply wp_same. simpl. rewrite bool_decide_eq_false_2 by (unfold b2_nullNode; lia).
      wp_steps. rewrite bool_decide_eq_true_2 by done. by wp_steps.
    - destruct fuel as [|fuel]; [pose proof (sheight_nonneg (Nd i l r)); lia|].
      destruct Hrep as ((n & Hn & Hp & H1 & H2 & _ & H1n)
                        & (n0 & n1 & n2 & Hn0 & Hn1 & Hn2 & Hh & Hb) & Hl & Hr).
      simplify_eq. pose proof (rd_Some_range _ _ _ Hn). simpl in Hfuel.
      pose proof (rd_Some_range _ _ _ Hn1). pose proof (rd_Some_range _ _ _ Hn2).
      apply wp_same. simpl ValidateMetrics. simpl idx.
      rewrite bool_decide_eq_false_2 by (unfold b2_nullNode; lia).
      wp_steps. rewrite bool_decide_eq_false_2 by congruence. wp_steps.
      apply wp_assert.
      { destruct Hb as [->| ->]; [done|]. by rewrite Hcomm. }
      rewrite H1, H2.
      apply wp_bind. exists tt, t. split; [apply (IHl fuel _ Hl); lia|].
      exists tt, t. split; [apply (IHr fuel _ Hr); lia|done].
  Qed.

Lemma Validate_free_run (fuel : nat) t head fl (count : Z) :
    Z.of_nat (length (m_nodes t)) = m_nodeCapacity t →
    free_chain (m_nodes t) head fl → (length fl ≤ fuel)%nat →
    Validate_free fuel head count t = Some (count + Z.of_nat (length fl), t).
  Proof.
    intros Hlen. revert fuel head count.
    induction fl as [|i fl IH]; intros fuel head count Hc Hfuel.
    - simpl in Hc. subst head. replace (count + _) with count by (simpl; lia).
      by destruct fuel.
    - destruct Hc as (-> & n & Hn & _ & Hc). pose proof (rd_Some_range _ _ _ Hn).
      destruct fuel as [|fuel]; [simpl in Hfuel; lia|].
      apply wp_same. simpl Validate_free.
      rewrite bool_decide_eq_false_2 by (unfold b2_nullNode; lia).
      wp_steps. exists (count + 1 + Z.of_nat (length fl)), t.
      split; [apply IH; [done|simpl in Hfuel; lia]|]. split; [|done].
      rewrite length_cons. lia.
  Qed.

Lemma GetHeight_run t s p :
    rep (m_nodes t) p s → m_root t = idx s → GetHeight t = Some (sheight s, t).
  Proof.
    intros Hrep Hroot. destruct (rep_root _ _ _ Hrep) as (n & Hn & _).
    pose proof (rd_Some_range _ _ _ Hn).
    pose proof (rep_height _ _ _ _ Hrep Hn) as Hh.
    apply wp_same. unfold GetHeight. wp_steps. rewrite Hroot.
    rewrite bool_decide_eq_false_2 by (unfold b2_nullNode; lia). by wp_steps.
  Qed.

Lemma fuel_enough t T fl s :
    Inv t T [] fl → T = Some s → sheight s < Z.of_nat (pool_fuel t).
  Proof.
    intros HI ->. pose proof (Pool_of_Inv _ _ _ _ HI) as HP.
    pose proof (Pool_alloc_length _ _ _ HP) as Hle. simpl in Hle.
    rewrite app_nil_r in Hle. pose proof (sheight_nodes s). unfold pool_fuel. lia.
  Qed.

Lemma tree_of_proxies t T fl :
    Inv t T [] fl → proxies t ≠ [] → ∃ s, T = Some s.
  Proof.
    intros HI Hne. destruct T as [s|]; [by exists s|].
    pose proof (proxies_leaves t None fl HI) as Hp. apply Permutation_nil_r in Hp. done.
  Qed.

Lemma no_tree_of_no_proxies t T fl :
    Inv t T [] fl → proxies t = [] → T = None ∧ m_root t = b2_nullNode.
  Proof.
    intros HI Hno. destruct T as [s|].
    - pose proof (proxies_leaves t _ fl HI) as Hp. rewrite Hno in Hp.
      symmetry in Hp. apply Permutation_nil_r in Hp. by apply leaves_not_nil in Hp.
    - split; [done|]. exact (inv_root _ _ _ _ HI).
  Qed.

Lemma ValidateStructure_null t :
    ValidateStructure (pool_fuel t) b2_nullNode t = Some (tt, t).
  Proof. reflexivity. Qed.

Lemma ValidateMetrics_null t :
    ValidateMetrics Rectf_eq (pool_fuel t) b2_nullNode t = Some (tt, t).
  Proof. reflexivity. Qed.

Lemma ComputeHeight_null t : m_root t = b2_nullNode → ComputeHeight t = None.
  Proof.
    intros Hroot. unfold ComputeHeight, bind, get. rewrite Hroot. unfold pool_fuel.
    simpl. reflexivity.
  Qed.

(** X13. Between public calls, [ComputeHeight()] on a tree with a proxy
    returns the height that [GetHeight] returns, the tree left as it is;
    on a tree without proxies its first assertion fails, the root being
    [b2_nullNode]. *)
Theorem X13_ComputeHeight_agrees_with_GetHeight t :
  tree_inv t →
  (proxies t ≠ [] →
   ∃ h, ComputeHeight t = Some (h, t) ∧ GetHeight t = Some (h, t))
  ∧ (proxies t = [] → ComputeHeight t = None).
Proof.
  intros (T & fl & HI). pose proof (inv_length _ _ _ _ HI) as Hlen. split.
  - intros Hne. destruct (tree_of_proxies t T fl HI Hne) as [s ->].
    destruct (inv_root _ _ _ _ HI) as [Hroot Hrep].
    exists (sheight s). split; [|by eapply GetHeight_run].
    unfold ComputeHeight, bind, get. rewrite Hroot.
    apply (ComputeHeight_at_run _ t b2_nullNode s Hlen Hrep).
    by eapply fuel_enough.
  - intros Hno. destruct (no_tree_of_no_proxies t T fl HI Hno) as [_ Hroot].
    by apply ComputeHeight_null.
Qed.

(** X14. Between public calls, [Validate] (the body of a debug build) on
    a tree with a proxy passes all its assertions and leaves the tree as
    it is, the rectangles being such that a rectangle equals itself and a
    union does not depend on the order of its parts. *)
Theorem X14_Validate_passes_on_a_tree_in_order t :
  (∀ b : Rectf, Rectf_eq b b = true) →
  (∀ a b : Rectf, combine a b = combine b a) →
  tree_inv t → proxies t ≠ [] →
  Validate Rectf_eq t = Some (tt, t).
Proof.
  intros Hrefl Hcomm (T & fl & HI) Hne.
  pose proof (inv_length _ _ _ _ HI) as Hlen.
  destruct (tree_of_proxies t T fl HI Hne) as [s ->].
  destruct (inv_root _ _ _ _ HI) as [Hroot Hrep].
  pose proof (fuel_enough t _ fl s HI eq_refl) as Hfuel.
  pose proof (Pool_of_Inv _ _ _ _ HI) as HP. rewrite app_nil_r in HP.
  pose proof (Pool_NoDup _ _ _ HP) as Hnd. apply NoDup_app in Hnd as (_ & _ & Hnd).
  pose proof (Pool_free_count _ _ _ HP) as Hcount.
  assert ((length fl ≤ pool_fuel t)%nat) as Hflen.
  { pose proof (pool_cover _ _ _ HP) as Hc%Permutation_length.
    rewrite length_seqZ, length_app in Hc. unfold pool_fuel. lia. }
  unfold Validate, bind, get. rewrite Hroot.
  rewrite (ValidateStructure_run _ t b2_nullNode s Hlen Hrep Hnd) by (by auto).
  rewrite (ValidateMetrics_run _ t b2_nullNode s Hrefl Hcomm Hlen Hrep Hfuel).
  rewrite (Validate_free_run _ t _ fl 0 Hlen (inv_free _ _ _ _ HI) Hflen).
  rewrite (GetHeight_run t s _ Hrep Hroot).
  fold (bind (A := Z) (B := unit) (Rectf := Rectf)).
  assert (ComputeHeight t = Some (sheight s, t)) as ->.
  { unfold ComputeHeight, bind, get. rewrite Hroot.
    exact (ComputeHeight_at_run _ t b2_nullNode s Hlen Hrep Hfuel). }
  unfold b2Assert. rewrite bool_decide_eq_true_2 by done.
  rewrite bool_decide_eq_true_2 by lia. done.
Qed.

(** X15. Between public calls, [Validate] (the body of a debug build) on
    a tree without proxies does not return: [ComputeHeight()] is called
    with the root [b2_nullNode], which its first assertion refuses. *)
Theorem X15_Validate_fails_on_the_empty_tree t :
  tree_inv t → proxies t = [] → Validate Rectf_eq t = None.
Proof.
  intros (T & fl & HI) Hno.
  pose proof (inv_length _ _ _ _ HI) as Hlen.
  destruct (no_tree_of_no_proxies t T fl HI Hno) as [-> Hroot].
  pose proof (Pool_of_Inv _ _ _ _ HI) as HP. rewrite app_nil_r in HP.
  assert ((length fl ≤ pool_fuel t)%nat) as Hflen.
  { pose proof (pool_cover _ _ _ HP) as Hc%Permutation_length.
    rewrite length_seqZ, length_app in Hc. unfold pool_fuel. lia. }
  pose proof (ComputeHeight_null t Hroot) as Hch.
  unfold Validate, bind, get. rewrite Hroot.
  rewrite ValidateStructure_null, ValidateMetrics_null.
  rewrite (Validate_free_run _ t _ fl 0 Hlen (inv_free _ _ _ _ HI) Hflen).
  unfold GetHeight, bind, get. rewrite Hroot. simpl. unfold ret.
  by rewrite Hch.
Qed.
End ChecksFacts.

Section MeasuresFacts.
  Context {float Rectf : Type} {FO : FloatOps float} {RO : RectOps float Rectf}.
  Local Abbreviation b2TreeNode := (b2TreeNode Rectf).
  Local Abbreviation b2DynamicTree := (b2DynamicTree Rectf).
  Local Abbreviation M := (M Rectf).
  Implicit Types (ns : list b2TreeNode) (t : b2DynamicTree) (s : shape)
    (i p : Z) (T : option shape).

  Variable fdiv : float → float → float.

Lemma foldl_max_ge (l : list Z) m : m ≤ foldl Z.max m l.
  Proof.
    revert m. induction l as [|x l IH]; intros m; simpl; [lia|].
    specialize (IH (Z.max m x)). lia.
  Qed.

Lemma foldl_max_bound (l : list Z) m x : x ∈ l → x ≤ foldl Z.max m l.
  Proof.
    revert m. induction l as [|y l IH]; intros m; [by intros ?%elem_of_nil|].
    intros [->|Hx]%elem_of_cons; simpl.
    - pose proof (foldl_max_ge l (Z.max m y)). lia.
    - by apply IH.
  Qed.

Lemma foldl_max_attained (l : list Z) m : foldl Z.max m l = m ∨ foldl Z.max m l ∈ l.
  Proof.
    revert m. induction l as [|y l IH]; intros m; simpl; [by left|].
    destruct (IH (Z.max m y)) as [E|Hin].
    - rewrite E. destruct (Z.max_spec m y) as [[_ ->]|[_ ->]]; [right; by left|by left].
    - right. by right.
  Qed.

  (** An allocated slot is a node of the tree; a node of the tree is a
      proxy or has two children that fit it. *)
Lemma allocated_in_tree t T fl i n :
    Inv t T [] fl → rd (m_nodes t) i = Some n → 0 ≤ height n →
    ∃ s, T = Some s ∧ i ∈ nodes s.
  Proof.
    intros HI Hn Hh. pose proof (Pool_of_Inv _ _ _ _ HI) as HP. rewrite app_nil_r in HP.
    pose proof (rd_Some_range _ _ _ Hn) as Hr. rewrite (pool_length _ _ _ HP) in Hr.
    apply (Pool_range _ _ _ i HP) in Hr. apply elem_of_app in Hr as [Hr|Hr].
    - destruct (free_chain_height _ _ _ _ (pool_free _ _ _ HP) Hr) as (n' & Hn' & Hh').
      simplify_eq. lia.
    - destruct T as [s|]; [by exists s|]. by apply elem_of_nil in Hr.
  Qed.

Lemma GetMaxBalance_round_run t T fl (m : Z) j :
    Inv t T [] fl → 0 ≤ j < m_nodeCapacity t → 0 ≤ m →
    GetMaxBalance_round m j t = Some (Z.max m (balance_at (m_nodes t) j), t).
  Proof.
    intros HI Hj Hm. pose proof (inv_length _ _ _ _ HI) as Hlen.
    destruct (rd_in_range (m_nodes t) j) as [n Hn]; [lia|].
    unfold balance_at. rewrite Hn. apply wp_same.
    unfold GetMaxBalance_round. wp_steps.
    case_bool_decide as Hh; [wp_steps; split; [lia|done]|].
    destruct (allocated_in_tree t T fl j n HI Hn) as (s & -> & Hin); [lia|].
    destruct (inv_root _ _ _ _ HI) as [_ Hrep].
    destruct (rep_node_fitted _ _ _ _ _ Hrep Hin Hn)
      as [(_ & _ & Hh0)|(Hc1 & Hc2 & _ & n1 & n2 & Hn1 & Hn2 & _)]; [lia|].
    apply wp_bind, wp_assert.
    { unfold IsLeaf. by rewrite bool_decide_eq_false_2. }
    wp_steps. rewrite Hn2, Hn1. done.
  Qed.

Lemma GetMaxBalance_loop_run t T fl (n : nat) i (m : Z) :
    Inv t T [] fl → 0 ≤ i → i + Z.of_nat n ≤ m_nodeCapacity t → 0 ≤ m →
    GetMaxBalance_loop n i m t
    = Some (foldl Z.max m (balance_at (m_nodes t) <$> seqZ i (Z.of_nat n)), t).
  Proof.
    intros HI. revert i m. induction n as [|n IH]; intros i m Hi Hle Hm; [done|].
    cbn [GetMaxBalance_loop]. unfold bind at 1.
    rewrite (GetMaxBalance_round_run t T fl m i HI) by lia.
    rewrite IH by lia.
    replace (Z.of_nat (S n)) with (Z.succ (Z.of_nat n)) by lia.
    rewrite (seqZ_cons i) by lia. rewrite Z.pred_succ. done.
  Qed.

(** X16. Between public calls, [GetMaxBalance] returns and leaves the
    tree as it is; what it returns is not negative, bounds the
    difference of the heights of the two children of every allocated
    node that has children, and is 0 or that difference at some such
    node. *)
Theorem X16_GetMaxBalance_is_the_greatest_height_difference t :
  tree_inv t →
  ∃ b, GetMaxBalance t = Some (b, t) ∧ 0 ≤ b
       ∧ (∀ i n n1 n2,
            rd (m_nodes t) i = Some n → 0 ≤ height n → IsLeaf n = false →
            rd (m_nodes t) (child1 n) = Some n1 → rd (m_nodes t) (child2 n) = Some n2 →
            Z.abs (height n2 - height n1) ≤ b)
       ∧ (b = 0 ∨ ∃ i n n1 n2,
            rd (m_nodes t) i = Some n ∧ 0 ≤ height n ∧ IsLeaf n = false
            ∧ rd (m_nodes t) (child1 n) = Some n1 ∧ rd (m_nodes t) (child2 n) = Some n2
            ∧ Z.abs (height n2 - height n1) = b).
Proof.
  intros (T & fl & HI).
  pose proof (inv_length _ _ _ _ HI) as Hlen. pose proof (inv_capacity _ _ _ _ HI) as Hcap.
  set (l := balance_at (m_nodes t) <$> seqZ 0 (m_nodeCapacity t)).
  exists (foldl Z.max 0 l). split_and!.
  - unfold GetMaxBalance, bind, get.
    rewrite (GetMaxBalance_loop_run t T fl _ 0 0 HI) by lia.
    by rewrite Z2Nat.id by lia.
  - apply foldl_max_ge.
  - intros i n n1 n2 Hn Hh Hleaf Hn1 Hn2.
    destruct (allocated_in_tree t T fl i n HI Hn Hh) as (s & -> & Hin).
    destruct (inv_root _ _ _ _ HI) as [_ Hrep].
    destruct (rep_node_fitted _ _ _ _ _ Hrep Hin Hn)
      as [(Hc1 & _)|(_ & _ & _ & m1 & m2 & Hm1 & Hm2 & H1 & H2 & Hhn & _)].
    { unfold IsLeaf in Hleaf. by rewrite bool_decide_eq_true_2 in Hleaf. }
    simplify_eq. destruct (decide (height n ≤ 1)) as [Hle|Hgt].
    + pose proof (foldl_max_ge l 0). lia.
    + apply foldl_max_bound. unfold l. apply list_elem_of_fmap.
      exists i. split.
      * unfold balance_at. rewrite Hn. rewrite bool_decide_eq_false_2 by done.
        by rewrite Hn2, Hn1.
      * apply elem_of_seqZ. pose proof (rd_Some_range _ _ _ Hn). lia.
  - destruct (foldl_max_attained l 0) as [E|Hin]; [by left|].
    destruct (decide (foldl Z.max 0 l = 0)) as [E|Hne]; [by left|]. right.
    unfold l in Hin at 2. apply list_elem_of_fmap in Hin as (i & Hb & Hi).
    unfold balance_at in Hb. destruct (rd (m_nodes t) i) as [n|] eqn:Hn; [|done].
    case_bool_decide as Hh; [done|].
    destruct (allocated_in_tree t T fl i n HI Hn) as (s & -> & Hin); [lia|].
    destruct (inv_root _ _ _ _ HI) as [_ Hrep].
    destruct (rep_node_fitted _ _ _ _ _ Hrep Hin Hn)
      as [(_ & _ & Hh0)|(Hc1 & _ & _ & m1 & m2 & Hm1 & Hm2 & _)]; [lia|].
    rewrite Hm1, Hm2 in Hb. exists i, n, m1, m2. split_and!; try done; [lia|].
    unfold IsLeaf. by rewrite bool_decide_eq_false_2.
Qed.

Lemma GetAreaRatio_loop_run t (n : nat) (total : float) :
    Z.of_nat (length (m_nodes t)) = m_nodeCapacity t →
    (n ≤ length (m_nodes t))%nat →
    for_acc n (Z.of_nat (length (m_nodes t)) - Z.of_nat n) GetAreaRatio_round total t
    = Some (foldl area_step total (drop (length (m_nodes t) - n) (m_nodes t)), t).
  Proof.
    intros Hlen. revert total. induction n as [|n IH]; intros total Hn.
    - simpl. rewrite Nat.sub_0_r, drop_all. done.
    - cbn [for_acc]. unfold bind at 1.
      set (j := Z.of_nat (length (m_nodes t)) - Z.of_nat (S n)).
      destruct (rd_in_range (m_nodes t) j) as [N HN]; [unfold j; lia|].
      assert (m_nodes t !! (length (m_nodes t) - S n)%nat = Some N) as Hlk.
      { unfold rd in HN. case_decide; [|done]. rewrite <-HN. f_equal. unfold j. lia. }
      assert (GetAreaRatio_round j total t = Some (area_step total N, t)) as ->.
      { apply wp_same. unfold GetAreaRatio_round, area_step. wp_steps.
        case_bool_decide; by wp_steps. }
      replace (j + 1) with (Z.of_nat (length (m_nodes t)) - Z.of_nat n) by (unfold j; lia).
      rewrite IH by lia.
      rewrite (drop_S _ _ _ Hlk). simpl.
      replace (S (length (m_nodes t) - S n)) with (length (m_nodes t) - n)%nat by lia.
      done.
  Qed.

(** X17. Between public calls, [GetAreaRatio] returns and leaves the tree
    as it is: 0 for a tree without proxies; else the perimeters of the
    allocated nodes, added up from 0 in the order of the pool, over the
    perimeter of the root. *)
Theorem X17_GetAreaRatio_sums_the_allocated_perimeters t :
  tree_inv t →
  ∃ ratio, GetAreaRatio fdiv t = Some (ratio, t)
    ∧ (proxies t = [] → ratio = f_zero)
    ∧ (∀ root, rd (m_nodes t) (m_root t) = Some root →
         ratio = fdiv (foldl area_step f_zero (m_nodes t)) (get_perimeter (aabb root))).
Proof.
  intros (T & fl & HI).
  pose proof (inv_length _ _ _ _ HI) as Hlen. pose proof (inv_capacity _ _ _ _ HI) as Hcap.
  destruct T as [s|].
  - destruct (inv_root _ _ _ _ HI) as [Hroot Hrep].
    destruct (rep_root _ _ _ Hrep) as (n & Hn & _). rewrite <-Hroot in Hn.
    pose proof (rd_Some_range _ _ _ Hn) as Hr.
    exists (fdiv (foldl area_step f_zero (m_nodes t)) (get_perimeter (aabb n))).
    split_and!.
    + unfold GetAreaRatio, bind at 1, get at 1.
      rewrite bool_decide_eq_false_2 by (unfold b2_nullNode; lia).
      unfold bind at 1, fld, bind at 1, node. rewrite Hn. unfold ret at 1.
      unfold bind at 1, get at 1. unfold bind at 1.
      pose proof (GetAreaRatio_loop_run t (length (m_nodes t)) f_zero Hlen) as Hloop.
      rewrite Z.sub_diag, Nat.sub_diag, drop_0 in Hloop.
      rewrite <-Hlen, Nat2Z.id, Hloop by lia. done.
    + intros Hno. destruct (no_tree_of_no_proxies t _ fl HI Hno) as [? _]. done.
    + intros root Hroot'. by simplify_eq.
  - pose proof (inv_root _ _ _ _ HI) as Hroot. simpl in Hroot.
    exists f_zero. split_and!; [|done|].
    + unfold GetAreaRatio, bind, get. by rewrite bool_decide_eq_true_2.
    + intros root. by rewrite Hroot, rd_null.
Qed.

Lemma leaves_pow s : Z.of_nat (length (leaves s)) ≤ 2 ^ sheight s.
  Proof.
    induction s as [i|i l IHl r IHr]; simpl; [lia|]. rewrite length_app.
    pose proof (sheight_nonneg l). pose proof (sheight_nonneg r).
    rewrite Z.pow_add_r by lia.
    assert (2 ^ sheight l ≤ 2 ^ Z.max (sheight l) (sheight r)) as Hl.
    { apply Z.pow_le_mono_r; [done|]. apply Z.le_max_l. }
    assert (2 ^ sheight r ≤ 2 ^ Z.max (sheight l) (sheight r)) as Hr.
    { apply Z.pow_le_mono_r; [done|]. apply Z.le_max_r. }
    change (2 ^ 1) with 2. revert IHl IHr Hl Hr.
    generalize (2 ^ Z.max (sheight l) (sheight r)) (2 ^ sheight l) (2 ^ sheight r).
    intros. lia.
  Qed.

Lemma sheight_leaves s : sheight s < Z.of_nat (length (leaves s)).
  Proof.
    induction s as [i|i l IHl r IHr]; simpl; [lia|]. rewrite length_app.
    pose proof (sheight_nonneg l). pose proof (sheight_nonneg r). lia.
  Qed.

(** X18. Between public calls, the height [GetHeight] returns and the
    number of proxies bound each other: a tree of height [h] has at most
    [2^h] proxies, and, unless there is none, more than [h] of them. *)
Theorem X18_height_and_number_of_proxies t :
  tree_inv t →
  ∃ h, GetHeight t = Some (h, t)
       ∧ Z.of_nat (length (proxies t)) ≤ 2 ^ h
       ∧ (proxies t ≠ [] → h < Z.of_nat (length (proxies t))).
Proof.
  intros (T & fl & HI).
  pose proof (Permutation_length (proxies_leaves t T fl HI)) as Hlen.
  destruct T as [s|]; simpl in Hlen.
  - destruct (inv_root _ _ _ _ HI) as [Hroot Hrep].
    exists (sheight s). rewrite Hlen. split_and!.
    + by eapply GetHeight_run.
    + apply leaves_pow.
    + intros _. apply sheight_leaves.
  - pose proof (inv_root _ _ _ _ HI) as Hroot. simpl in Hroot.
    exists 0. rewrite Hlen. split_and!; [|simpl; lia|].
    + unfold GetHeight, bind, get. by rewrite Hroot, bool_decide_eq_true_2.
    + intros Hne. destruct (proxies t); [done|discriminate Hlen].
Qed.
End MeasuresFacts.

Lemma visit_leaves s : visit s ≡ₚ leaves s.
Proof.
  induction s as [i|i l IHl r IHr]; simpl; [done|].
  rewrite IHl, IHr. apply Permutation_app_comm.
Qed.

Section Traversals.
  Context {float Rectf : Type} {FO : FloatOps float} {RO : RectOps float Rectf}
    {YO : RayOps float Rectf} {CB : Type}.
  Local Abbreviation b2TreeNode := (b2TreeNode Rectf).
  Local Abbreviation b2DynamicTree := (b2DynamicTree Rectf).
  Implicit Types (ns : list b2TreeNode) (t : b2DynamicTree) (s : shape)
    (i p : Z) (T : option shape).

  Variable QueryCallback : CB → Z → bool * CB.
  Variable RayCastCallback : CB → b2RayCastInput float → Z → float * CB.

  (** The loop of [Query] on a stack of subtrees, whatever the callback
      answers. *)
Lemma Query_loop_sound (fuel : nat) t q (ss : list shape) cb :
    Z.of_nat (length (m_nodes t)) = m_nodeCapacity t →
    Forall (λ s, ∃ p, rep (m_nodes t) p s) ss →
    (length (ss ≫= nodes) ≤ fuel)%nat →
    ∃ cb' calls, Query_loop QueryCallback fuel t q (idx <$> ss) cb = Some (cb', calls)
                 ∧ calls.*1 `sublist_of` (ss ≫= visit)
                 ∧ Forall (λ call, fat_overlaps t q (fst call) = true) calls.
  Proof.
    intros Hlen. revert ss cb. induction fuel as [|fuel IH]; intros ss cb Hss Hfuel.
    - destruct ss as [|s ss]; [exists cb, []; by split_and!|].
      rewrite bind_cons, length_app in Hfuel. pose proof (nodes_length s). lia.
    - destruct ss as [|s ss]; [exists cb, []; by split_and!|].
      apply Forall_cons in Hss as [[p Hs] Hss].
      rewrite bind_cons, length_app in Hfuel. rewrite !bind_cons.
      destruct (rep_root _ _ _ Hs) as (n & Hn & _ & Hk).
      pose proof (rd_Some_range _ _ _ Hn) as Hr.
      rewrite fmap_cons. cbn [Query_loop]. unfold Query_round.
      rewrite bool_decide_eq_false_2 by (unfold b2_nullNode; lia).
      rewrite Hn.
      assert (fat_overlaps t q (idx s) = overlaps (aabb n) q) as Hfo
        by (by apply fat_overlaps_rd).
      pose proof (nodes_length s).
      destruct (overlaps (aabb n) q) eqn:Hov.
      + destruct s as [i|i l r]; simpl in Hk, Hfo, Hfuel |- *.
        * destruct Hk as (H1 & _). unfold IsLeaf. rewrite bool_decide_eq_true_2 by done.
          destruct (QueryCallback cb i) as [[] cb1].
          -- destruct (IH ss cb1 Hss) as (cb' & calls & -> & Hcalls & Hall); [lia|].
             exists cb', ((i, true) :: calls). split_and!; [done| |].
             ++ rewrite fmap_cons. by apply sublist_skip.
             ++ by apply Forall_cons.
          -- exists cb1, [(i, false)]. split_and!; [done| |].
             ++ simpl. apply sublist_skip, sublist_nil_l.
             ++ by apply Forall_singleton.
        * destruct Hk as (H1 & H2 & _ & H1n). unfold IsLeaf.
          rewrite bool_decide_eq_false_2 by done.
          destruct Hs as (_ & _ & Hl & Hr').
          destruct (IH (r :: l :: ss) cb) as (cb' & calls & Hrun & Hcalls & Hall).
          { repeat apply Forall_cons; eauto. }
          { rewrite !bind_cons, !length_app. rewrite length_app in Hfuel. lia. }
          rewrite !fmap_cons, <-H1, <-H2 in Hrun. rewrite Hrun.
          exists cb', calls. split_and!; [done| |done].
          rewrite !bind_cons in Hcalls. by rewrite <-(assoc (++)).
      + destruct (IH ss cb Hss) as (cb' & calls & Hrun & Hcalls & Hall); [lia|].
        exists cb', calls. rewrite Hrun. split_and!; [done| |done].
        by apply sublist_inserts_l.
  Qed.

(** X19. Between public calls, [Query] returns whatever the callback
    answers, and every handle it passes to the callback is a proxy whose
    stored fat box overlaps the query box, none being passed twice. *)
Theorem X19_Query_reports_only_overlapping_proxies t (q : Rectf) (cb : CB) :
  tree_inv t →
  ∃ cb' calls,
    Query QueryCallback t cb q = Some (cb', calls)
    ∧ NoDup calls.*1
    ∧ (∀ h, h ∈ calls.*1 → is_proxy t h ∧ fat_overlaps t q h = true).
Proof.
  intros (T & fl & HI). pose proof (inv_length _ _ _ _ HI) as Hlen.
  pose proof (Pool_of_Inv _ _ _ _ HI) as HP. rewrite app_nil_r in HP.
  unfold Query. destruct T as [s|].
  - destruct (inv_root _ _ _ _ HI) as [Hroot Hrep].
    destruct (Query_loop_sound (pool_fuel t) t q [s] cb Hlen)
      as (cb' & calls & Hrun & Hsub & Hall).
    { apply Forall_singleton. eauto. }
    { simpl. rewrite app_nil_r. pose proof (Pool_alloc_length _ _ _ HP).
      unfold pool_fuel. simpl in *. lia. }
    simpl in Hrun, Hsub. rewrite app_nil_r in Hsub. rewrite <-Hroot in Hrun.
    assert (NoDup (leaves s)) as Hnd.
    { apply leaves_NoDup. pose proof (Pool_NoDup _ _ _ HP) as Hnd.
      by apply NoDup_app in Hnd as (_ & _ & ?). }
    exists cb', calls. split_and!; [done| |].
    + eapply sublist_NoDup; [|exact Hsub]. by rewrite visit_leaves.
    + intros h Hh. split.
      * apply (leaf_is_proxy t (Some s) fl h HI). simpl. rewrite <-visit_leaves.
        eapply elem_of_submseteq; [exact Hh|]. by apply sublist_submseteq.
      * apply list_elem_of_fmap in Hh as ([h' b] & -> & Hin).
        rewrite Forall_forall in Hall. exact (Hall _ Hin).
  - pose proof (inv_root _ _ _ _ HI) as Hroot. simpl in Hroot. rewrite Hroot.
    exists cb, []. split_and!; [|constructor|by intros h ?%elem_of_nil].
    unfold pool_fuel. by destruct (length (m_nodes t)).
Qed.

  (** The loop of [RayCast] on a stack of subtrees, whatever the callback
      answers. *)
Lemma RayCast_loop_sound (fuel : nat) t input v abs_v (ss : list shape) m box cb :
    Forall (λ s, ∃ p, rep (m_nodes t) p s) ss →
    (length (ss ≫= nodes) ≤ fuel)%nat →
    ∃ cb' calls,
      RayCast_loop RayCastCallback fuel t input v abs_v (mkRayState (idx <$> ss) m box cb)
      = Some (cb', calls)
      ∧ (λ call, snd (fst call)) <$> calls `sublist_of` (ss ≫= visit)
      ∧ Forall (λ call, p1 (fst (fst call)) = p1 input ∧ p2 (fst (fst call)) = p2 input) calls.
  Proof.
    revert ss m box cb. induction fuel as [|fuel IH]; intros ss m box cb Hss Hfuel.
    - destruct ss as [|s ss]; [exists cb, []; by split_and!|].
      rewrite bind_cons, length_app in Hfuel. pose proof (nodes_length s). lia.
    - destruct ss as [|s ss]; [exists cb, []; by split_and!|].
      apply Forall_cons in Hss as [[p Hs] Hss].
      rewrite bind_cons, length_app in Hfuel. rewrite !bind_cons.
      destruct (rep_root _ _ _ Hs) as (n & Hn & _ & Hk).
      pose proof (rd_Some_range _ _ _ Hn) as Hr.
      pose proof (nodes_length s).
      rewrite fmap_cons. cbn [RayCast_loop rs_stack rs_maxFraction rs_segmentAABB rs_callback].
      unfold RayCast_round.
      rewrite bool_decide_eq_false_2 by (unfold b2_nullNode; lia).
      rewrite Hn. cbn [rs_stack rs_maxFraction rs_segmentAABB rs_callback].
      assert (∃ cb' calls,
                RayCast_loop RayCastCallback fuel t input v abs_v
                  (mkRayState (idx <$> ss) m box cb) = Some (cb', calls)
                ∧ (λ call, snd (fst call)) <$> calls `sublist_of` (visit s ++ ss ≫= visit)
                ∧ Forall (λ call, p1 (fst (fst call)) = p1 input
                                  ∧ p2 (fst (fst call)) = p2 input) calls) as Hskip.
      { destruct (IH ss m box cb Hss) as (cb' & calls & Hrun & Hsub & Hall); [lia|].
        exists cb', calls. split_and!; [done| |done]. by apply sublist_inserts_l. }
      destruct (negb (overlaps (aabb n) box)).
      { destruct Hskip as (cb' & calls & -> & ? & ?). by exists cb', calls. }
      destruct (flt f_zero _).
      { destruct Hskip as (cb' & calls & -> & ? & ?). by exists cb', calls. }
      clear Hskip.
      destruct s as [i|i l r]; simpl in Hk, Hfuel |- *.
      + destruct Hk as (H1 & _). unfold IsLeaf. rewrite bool_decide_eq_true_2 by done.
        destruct (RayCastCallback cb _ i) as [value cb1].
        destruct (feq value f_zero).
        { eexists cb1, [_]. split_and!; [done| |].
          - simpl. apply sublist_skip, sublist_nil_l.
          - by apply Forall_singleton. }
        destruct (flt f_zero value).
        * destruct (IH ss value (RayCast_segmentAABB (p1 input) (p2 input) value) cb1 Hss)
            as (cb' & calls & -> & Hsub & Hall); [lia|].
          eexists cb', (_ :: calls). split_and!; [done| |].
          -- rewrite fmap_cons. simpl. by apply sublist_skip.
          -- by apply Forall_cons.
        * destruct (IH ss m box cb1 Hss) as (cb' & calls & -> & Hsub & Hall); [lia|].
          eexists cb', (_ :: calls). split_and!; [done| |].
          -- rewrite fmap_cons. simpl. by apply sublist_skip.
          -- by apply Forall_cons.
      + destruct Hk as (H1 & H2 & _ & H1n). unfold IsLeaf.
        rewrite bool_decide_eq_false_2 by done.
        destruct Hs as (_ & _ & Hl & Hr').
        destruct (IH (r :: l :: ss) m box cb) as (cb' & calls & Hrun & Hsub & Hall).
        { repeat apply Forall_cons; eauto. }
        { rewrite !bind_cons, !length_app. rewrite length_app in Hfuel. lia. }
        rewrite !fmap_cons, <-H1, <-H2 in Hrun. rewrite Hrun.
        exists cb', calls. split_and!; [done| |done].
        rewrite !bind_cons in Hsub. by rewrite <-(assoc (++)).
  Qed.

(** X20. Between public calls, [RayCast] with a ray of positive length
    returns whatever the callback answers: every handle it passes to the
    callback is a proxy, none is passed twice, and every [subInput] has
    the two end points of the input.  A ray of no length is refused. *)
Theorem X20_RayCast_visits_each_proxy_once_at_most
    t (input : b2RayCastInput float) (cb : CB) :
  tree_inv t →
  (flt f_zero (LengthSquared (vsub (p2 input) (p1 input))) = true →
   ∃ cb' calls,
     RayCast RayCastCallback t cb input = Some (cb', calls)
     ∧ NoDup ((λ call, snd (fst call)) <$> calls)
     ∧ (∀ sub h value, (sub, h, value) ∈ calls →
          is_proxy t h ∧ p1 sub = p1 input ∧ p2 sub = p2 input))
  ∧ (flt f_zero (LengthSquared (vsub (p2 input) (p1 input))) = false →
     RayCast RayCastCallback t cb input = None).
Proof.
  intros (T & fl & HI). split; [|by intros Hz; unfold RayCast; rewrite Hz].
  intros Hpos.
  pose proof (Pool_of_Inv _ _ _ _ HI) as HP. rewrite app_nil_r in HP.
  unfold RayCast. rewrite Hpos. destruct T as [s|].
  - destruct (inv_root _ _ _ _ HI) as [Hroot Hrep].
    cbv zeta. rewrite Hroot.
    match goal with
    | |- context [RayCast_loop _ _ _ _ ?v ?a (mkRayState _ ?m ?b _)] =>
        destruct (RayCast_loop_sound (pool_fuel t) t input v a [s] m b cb)
          as (cb' & calls & Hrun & Hsub & Hall)
    end.
    { apply Forall_singleton. eauto. }
    { simpl. rewrite app_nil_r. pose proof (Pool_alloc_length _ _ _ HP).
      unfold pool_fuel. simpl in *. lia. }
    cbn [fmap list_fmap] in Hrun. simpl in Hsub. rewrite app_nil_r in Hsub.
    assert (NoDup (leaves s)) as Hnd.
    { apply leaves_NoDup. pose proof (Pool_NoDup _ _ _ HP) as Hnd.
      by apply NoDup_app in Hnd as (_ & _ & ?). }
    exists cb', calls. split_and!; [exact Hrun| |].
    + eapply sublist_NoDup; [|exact Hsub]. by rewrite visit_leaves.
    + intros sub h value Hin. split.
      * apply (leaf_is_proxy t (Some s) fl h HI). simpl. rewrite <-visit_leaves.
        eapply elem_of_submseteq; [|by apply sublist_submseteq].
        apply list_elem_of_fmap. by exists (sub, h, value).
      * rewrite Forall_forall in Hall. exact (Hall _ Hin).
  - pose proof (inv_root _ _ _ _ HI) as Hroot. simpl in Hroot. rewrite Hroot.
    exists cb, []. split_and!; [|constructor|by intros ? ? ? ?%elem_of_nil].
    unfold pool_fuel. by destruct (length (m_nodes t)).
Qed.
End Traversals.

Section Stale.
  Context {float Rectf : Type} {FO : FloatOps float} {RO : RectOps float Rectf}.
  Local Abbreviation b2TreeNode := (b2TreeNode Rectf).
  Local Abbreviation b2DynamicTree := (b2DynamicTree Rectf).
  Local Abbreviation M := (M Rectf).
  Implicit Types (ns : list b2TreeNode) (t : b2DynamicTree) (s : shape)
    (i p : Z) (T : option shape).

(** X21. Between public calls, when [RebuildBottomUp] returns, every
    proxy holds the box, the user data and the moved flag it held. *)
Theorem X21_RebuildBottomUp_leaves_the_proxies_their_data
    (uninit : Z → b2TreeNode) t t' :
  tree_inv t → RebuildBottomUp uninit t = Some (tt, t') →
  ∀ p box data flag, is_proxy t p →
    proxy_holds t p box data flag → proxy_holds t' p box data flag.
Proof.
  intros (T & fl & HI) Hrun.
  destruct (RebuildBottomUp_full uninit t T fl HI _ _ Hrun) as (s' & fl' & HI' & _ & Hk & _).
  pose proof (inv_length _ _ _ _ HI) as Hlen.
  pose proof (inv_length _ _ _ _ HI') as Hlen'.
  intros p box data flag Hp. apply holds_kept; [done|done| |done].
  intros n Hn. apply Hk; [|done]. by eapply proxy_in_leaves.
Qed.

  (** What [FreeNode] leaves in the slot it frees. *)
Lemma FreeNode_slot i t t' n :
    FreeNode i t = Some (tt, t') → rd (m_nodes t) i = Some n →
    Z.of_nat (length (m_nodes t')) = Z.of_nat (length (m_nodes t))
    ∧ m_nodeCapacity t' = m_nodeCapacity t
    ∧ rd (m_nodes t') i = Some (set_height (-1) (set_next (m_freeList t) n)).
  Proof.
    intros Hrun Hn. pose proof (rd_Some_range _ _ _ Hn) as Hr.
    revert Hrun. unfold FreeNode, bind, get, b2Assert, modify, put.
    case_bool_decide; [|done]. case_bool_decide; [|done]. rewrite Hn. tsimpl.
    rewrite rd_wr_eq by lia. intros [= <-]. tsimpl.
    rewrite !length_wr, wr_wr. split_and!; [done|done|]. by rewrite rd_wr_eq by lia.
  Qed.

(** X22. Between public calls, [DestroyProxy] leaves in the slot it frees
    the box, the user data and the moved flag of the proxy: the handle is
    no proxy any more, and the accessors, which assert the range of the
    handle only, still answer for it what they answered. *)
Theorem X22_accessors_answer_for_a_destroyed_handle t h box data flag :
  tree_inv t → is_proxy t h → proxy_holds t h box data flag →
  ∃ t', DestroyProxy h t = Some (tt, t')
        ∧ ¬ is_proxy t' h ∧ proxy_holds t' h box data flag.
Proof.
  intros (T & fl & HI) Hpx Hh.
  pose proof (inv_length _ _ _ _ HI) as Hlen.
  pose proof (proxy_in_leaves _ _ _ _ HI Hpx) as Hin.
  destruct (DestroyProxy_full t T fl h HI Hpx)
    as ([] & t' & Hrun & T' & fl' & HI' & Hl & _).
  pose proof (inv_length _ _ _ _ HI') as Hlen'.
  exists t'. split; [done|]. split.
  { intros Hpx'. apply (proxy_in_leaves _ _ _ _ HI') in Hpx'.
    pose proof (Pool_of_Inv _ _ _ _ HI) as HP. rewrite app_nil_r in HP.
    assert (NoDup (tree_leaves T)) as Hnd.
    { destruct T as [s|]; simpl; [|constructor]. apply leaves_NoDup.
      pose proof (Pool_NoDup _ _ _ HP) as Hnd. by apply NoDup_app in Hnd as (_ & _ & ?). }
    rewrite <-Hl in Hnd. by apply NoDup_cons in Hnd as [? _]. }
  destruct Hpx as (n & Hn & _ & Hleaf).
  destruct (holds_inv _ _ _ _ _ _ Hlen Hn Hh) as (-> & -> & ->).
  destruct T as [s|]; simpl in Hin; [|by apply elem_of_nil in Hin].
  revert Hrun. unfold DestroyProxy, bind at 1, get at 1, bind at 1, b2Assert at 1.
  case_bool_decide; [|done]. unfold bind at 1, node at 1. rewrite Hn.
  unfold bind at 1, b2Assert at 1. rewrite Hleaf. unfold bind at 1.
  destruct (RemoveLeaf_spec t s fl h HI Hin)
    as ([] & t1 & -> & _ & _ & _ & _ & _ & Hleq & _).
  intros Hfree. rewrite Hn in Hleq.
  destruct (FreeNode_slot h t1 t' n Hfree Hleq) as (_ & _ & Hn').
  pose proof (holds_rd t' h _ Hlen' Hn') as Hh'. by destruct n.
Qed.
End Stale.

Lemma grid_none_eq : creates Grid.blank [] = Some grid_none.
Proof. vm_compute. reflexivity. Qed.

Lemma X2_witness :
  ∃ h t', CreateProxy Grid.blank (Grid.mkRect 7 7 9 9) 5 grid_three = Some (h, t')
          ∧ tree_inv t' ∧ ¬ is_proxy grid_three h ∧ proxies t' ≡ₚ h :: proxies grid_three.
Proof.
  apply (X2_CreateProxy_adds_one_proxy Grid.blank (Grid.mkRect 7 7 9 9) 5 grid_three).
  exact (creates_inv _ _ _ grid_three_eq).
Defined.

Lemma X3_witness :
  ∃ t', DestroyProxy 1 grid_three = Some (tt, t')
        ∧ tree_inv t' ∧ ¬ is_proxy t' 1 ∧ proxies grid_three ≡ₚ 1 :: proxies t'.
Proof.
  apply (X3_DestroyProxy_removes_one_proxy grid_three 1).
  - exact (creates_inv _ _ _ grid_three_eq).
  - eexists. split; [reflexivity|]. split; [vm_compute; intros E; discriminate E|reflexivity].
Defined.

Lemma X4_witness :
  ∃ b t', MoveProxy Grid.blank 1 (Grid.mkRect 200 0 210 10) (mkVector 3 0) grid_three
          = Some (b, t')
          ∧ tree_inv t' ∧ proxies t' ≡ₚ proxies grid_three.
Proof.
  apply (X4_MoveProxy_keeps_the_proxies Grid.blank grid_three 1).
  - exact (creates_inv _ _ _ grid_three_eq).
  - eexists. split; [reflexivity|]. split; [vm_compute; intros E; discriminate E|reflexivity].
Defined.

Lemma X5_witness :
  tree_inv grid_three_rebuilt ∧ proxies grid_three_rebuilt ≡ₚ proxies grid_three.
Proof.
  apply (X5_RebuildBottomUp_keeps_the_proxies Grid.blank grid_three grid_three_rebuilt).
  - exact (creates_inv _ _ _ grid_three_eq).
  - vm_compute. reflexivity.
Defined.


Lemma X7_witness :
  m_nodeCount grid_three = Z.max 0 (2 * Z.of_nat (length (proxies grid_three)) - 1).
Proof.
  apply (X7_node_count_from_proxy_count grid_three).
  exact (creates_inv _ _ _ grid_three_eq).
Defined.

Lemma X8_witness :
  ∃ h t', CreateProxy Grid.blank (Grid.mkRect 7 7 9 9) 5 grid_three = Some (h, t')
          ∧ proxy_holds t' h (grown (Grid.mkRect 7 7 9 9) b2_aabbExtension) 5 true
          ∧ (∀ p box data flag, is_proxy grid_three p →
               proxy_holds grid_three p box data flag → proxy_holds t' p box data flag).
Proof.
  apply (X8_CreateProxy_stores_its_arguments Grid.blank (Grid.mkRect 7 7 9 9) 5 grid_three).
  exact (creates_inv _ _ _ grid_three_eq).
Defined.

Lemma X9_witness :
  ∃ t', DestroyProxy 1 grid_three = Some (tt, t')
        ∧ (∀ p box data flag, is_proxy grid_three p → p ≠ 1 →
             proxy_holds grid_three p box data flag → proxy_holds t' p box data flag).
Proof.
  apply (X9_DestroyProxy_leaves_the_other_proxies_alone grid_three 1).
  - exact (creates_inv _ _ _ grid_three_eq).
  - eexists. split; [reflexivity|]. split; [vm_compute; intros E; discriminate E|reflexivity].
Defined.

Lemma X10_witness :
  ∃ b t', MoveProxy Grid.blank 1 (Grid.mkRect 200 0 210 10) (mkVector 3 0) grid_three
          = Some (b, t')
          ∧ (b = false → t' = grid_three)
          ∧ (b = true → ∀ box data flag, proxy_holds grid_three 1 box data flag →
               proxy_holds t' 1
                 (MoveProxy_fatAABB (Grid.mkRect 200 0 210 10) (mkVector 3 0)) data true)
          ∧ (∀ p box data flag, is_proxy grid_three p → p ≠ 1 →
               proxy_holds grid_three p box data flag → proxy_holds t' p box data flag).
Proof.
  apply (X10_MoveProxy_stores_the_new_fat_box Grid.blank grid_three 1).
  - exact (creates_inv _ _ _ grid_three_eq).
  - eexists. split; [reflexivity|]. split; [vm_compute; intros E; discriminate E|reflexivity].
Defined.

Lemma X11_witness :
  ∃ t', ClearMoved 1 grid_three = Some (tt, t')
        ∧ tree_inv t' ∧ proxies t' ≡ₚ proxies grid_three
        ∧ (∀ box data flag, proxy_holds grid_three 1 box data flag →
             proxy_holds t' 1 box data false)
        ∧ (∀ p box data flag, p ≠ 1 →
             proxy_holds grid_three p box data flag → proxy_holds t' p box data flag).
Proof.
  apply (X11_ClearMoved_clears_one_flag grid_three 1).
  - exact (creates_inv _ _ _ grid_three_eq).
  - eexists. split; [reflexivity|]. split; [vm_compute; intros E; discriminate E|reflexivity].
Defined.

Lemma X12_witness :
  ∃ t', ShiftOrigin (mkVector 3 (-4)) grid_three = Some (tt, t')
        ∧ tree_inv t' ∧ proxies t' ≡ₚ proxies grid_three
        ∧ (∀ p box data flag, proxy_holds grid_three p box data flag →
             proxy_holds t' p (move box (vneg (mkVector 3 (-4)))) data flag).
Proof.
  apply (X12_ShiftOrigin_moves_every_box (mkVector 3 (-4)) grid_three).
  - intros a b. apply GridLaws.move_combine.
  - exact (creates_inv _ _ _ grid_three_eq).
Defined.

Lemma X13_witness :
  (proxies grid_three ≠ [] →
   ∃ h, ComputeHeight grid_three = Some (h, grid_three)
        ∧ GetHeight grid_three = Some (h, grid_three))
  ∧ (proxies grid_three = [] → ComputeHeight grid_three = None).
Proof.
  apply (X13_ComputeHeight_agrees_with_GetHeight grid_three).
  exact (creates_inv _ _ _ grid_three_eq).
Defined.

Lemma X14_witness : Validate grid_eq grid_three = Some (tt, grid_three).
Proof.
  apply (X14_Validate_passes_on_a_tree_in_order grid_eq grid_three).
  - intros b. unfold grid_eq. apply bool_decide_eq_true_2. reflexivity.
  - exact GridLaws.combine_comm.
  - exact (creates_inv _ _ _ grid_three_eq).
  - vm_compute. intros E. discriminate E.
Defined.

Lemma X15_witness : Validate grid_eq grid_none = None.
Proof.
  apply (X15_Validate_fails_on_the_empty_tree grid_eq grid_none).
  - exact (creates_inv _ _ _ grid_none_eq).
  - vm_compute. reflexivity.
Defined.

Lemma X16_witness :
  ∃ b, GetMaxBalance grid_three = Some (b, grid_three) ∧ 0 ≤ b
       ∧ (∀ i n n1 n2,
            rd (m_nodes grid_three) i = Some n → 0 ≤ height n → IsLeaf n = false →
            rd (m_nodes grid_three) (child1 n) = Some n1 →
            rd (m_nodes grid_three) (child2 n) = Some n2 →
            Z.abs (height n2 - height n1) ≤ b)
       ∧ (b = 0 ∨ ∃ i n n1 n2,
            rd (m_nodes grid_three) i = Some n ∧ 0 ≤ height n ∧ IsLeaf n = false
            ∧ rd (m_nodes grid_three) (child1 n) = Some n1
            ∧ rd (m_nodes grid_three) (child2 n) = Some n2
            ∧ Z.abs (height n2 - height n1) = b).
Proof.
  apply (X16_GetMaxBalance_is_the_greatest_height_difference grid_three).
  exact (creates_inv _ _ _ grid_three_eq).
Defined.

Lemma X17_witness :
  ∃ ratio, GetAreaRatio Z.div grid_three = Some (ratio, grid_three)
    ∧ (proxies grid_three = [] → ratio = f_zero)
    ∧ (∀ root, rd (m_nodes grid_three) (m_root grid_three) = Some root →
         ratio = Z.div (foldl area_step f_zero (m_nodes grid_three))
                   (get_perimeter (aabb root))).
Proof.
  apply (X17_GetAreaRatio_sums_the_allocated_perimeters Z.div grid_three).
  exact (creates_inv _ _ _ grid_three_eq).
Defined.

Lemma X18_witness :
  ∃ h, GetHeight grid_three = Some (h, grid_three)
       ∧ Z.of_nat (length (proxies grid_three)) ≤ 2 ^ h
       ∧ (proxies grid_three ≠ [] → h < Z.of_nat (length (proxies grid_three))).
Proof.
  apply (X18_height_and_number_of_proxies grid_three).
  exact (creates_inv _ _ _ grid_three_eq).
Defined.

Lemma X19_witness :
  ∃ cb' calls,
    Query keep_all grid_three [] (Grid.mkRect 0 0 55 5) = Some (cb', calls)
    ∧ NoDup calls.*1
    ∧ (∀ h, h ∈ calls.*1 →
         is_proxy grid_three h ∧ fat_overlaps grid_three (Grid.mkRect 0 0 55 5) h = true).
Proof.
  apply (X19_Query_reports_only_overlapping_proxies keep_all grid_three).
  exact (creates_inv _ _ _ grid_three_eq).
Defined.

Section RayWitness.
Import Binary32 Scenes.

Lemma X20_witness :
  (flt f_zero (LengthSquared (vsub (p2 ray) (p1 ray))) = true →
   ∃ cb' calls,
     RayCast answer_five row tt ray = Some (cb', calls)
     ∧ NoDup ((λ call, snd (fst call)) <$> calls)
     ∧ (∀ sub h value, (sub, h, value) ∈ calls →
          is_proxy row h ∧ p1 sub = p1 ray ∧ p2 sub = p2 ray))
  ∧ (flt f_zero (LengthSquared (vsub (p2 ray) (p1 ray))) = false →
     RayCast answer_five row tt ray = None).
Proof.
  apply (X20_RayCast_visits_each_proxy_once_at_most answer_five row ray tt).
  exact (creates_inv _ _ _ SceneFacts.row_eq).
Defined.
End RayWitness.

Lemma X21_witness :
  proxy_holds grid_three_rebuilt 1 (Grid.mkRect 49 (-1) 61 11) 7 true.
Proof.
  apply (X21_RebuildBottomUp_leaves_the_proxies_their_data Grid.blank grid_three
           grid_three_rebuilt).
  - exact (creates_inv _ _ _ grid_three_eq).
  - vm_compute. reflexivity.
  - eexists. split; [reflexivity|]. split; [vm_compute; intros E; discriminate E|reflexivity].
  - repeat split; vm_compute; reflexivity.
Defined.

Lemma X22_witness :
  ∃ t', DestroyProxy 1 grid_three = Some (tt, t')
        ∧ ¬ is_proxy t' 1 ∧ proxy_holds t' 1 (Grid.mkRect 49 (-1) 61 11) 7 true.
Proof.
  apply (X22_accessors_answer_for_a_destroyed_handle grid_three 1).
  - exact (creates_inv _ _ _ grid_three_eq).
  - eexists. split; [reflexivity|]. split; [vm_compute; intros E; discriminate E|reflexivity].
  - repeat split; vm_compute; reflexivity.
Defined.

Section Capacity.
  Context {float Rectf : Type} {FO : FloatOps float} {RO : RectOps float Rectf}.
  Local Abbreviation b2TreeNode := (b2TreeNode Rectf).
  Local Abbreviation b2DynamicTree := (b2DynamicTree Rectf).
  Local Abbreviation M := (M Rectf).
  Implicit Types (ns : list b2TreeNode) (t : b2DynamicTree) (s : shape)
    (i p : Z) (T : option shape).

(** X23. Between public calls, [CreateProxy] leaves the pool at its
    capacity when two slots are free or the tree has no proxy; with
    proxies and less than two free slots it doubles the capacity, once (a
    pool of a single slot apart). *)
Theorem X23_CreateProxy_doubles_a_full_pool
    (uninit : Z → b2TreeNode) (aabb_ : Rectf) (userData_ : Z) t :
  tree_inv t →
  ∃ h t', CreateProxy uninit aabb_ userData_ t = Some (h, t')
          ∧ (m_nodeCount t + 2 ≤ m_nodeCapacity t ∨ proxies t = [] →
             m_nodeCapacity t' = m_nodeCapacity t)
          ∧ (proxies t ≠ [] → m_nodeCapacity t < m_nodeCount t + 2 →
             2 ≤ m_nodeCapacity t →
             m_nodeCapacity t' = 2 * m_nodeCapacity t).
Proof.
  intros (T & fl & HI).
  destruct (CreateProxy_full uninit aabb_ userData_ t T fl HI)
    as (h & t' & Hrun & s' & fl' & _ & _ & _ & _ & _ & Hsame & Hdbl).
  exists h, t'. split; [done|]. split.
  - intros [Hroom|Hno]; apply Hsame; [by left|right].
    by destruct (no_tree_of_no_proxies t T fl HI Hno).
  - intros Hne. apply Hdbl. by destruct (tree_of_proxies t T fl HI Hne) as [s ->].
Qed.

(** X24. Between public calls, no operation but [CreateProxy] changes the
    capacity of the pool: [DestroyProxy] and [MoveProxy] of a proxy,
    [ClearMoved], [ShiftOrigin] and [RebuildBottomUp] return, when they
    do, with [m_nodeCapacity] as it was. *)
Theorem X24_only_CreateProxy_reallocates_the_pool (uninit : Z → b2TreeNode) t :
  tree_inv t →
  (∀ h t', is_proxy t h → DestroyProxy h t = Some (tt, t') →
           m_nodeCapacity t' = m_nodeCapacity t)
  ∧ (∀ h aabb_ d b t', is_proxy t h → MoveProxy uninit h aabb_ d t = Some (b, t') →
           m_nodeCapacity t' = m_nodeCapacity t)
  ∧ (∀ h t', ClearMoved h t = Some (tt, t') → m_nodeCapacity t' = m_nodeCapacity t)
  ∧ (∀ v t', ShiftOrigin v t = Some (tt, t') → m_nodeCapacity t' = m_nodeCapacity t)
  ∧ (∀ t', RebuildBottomUp uninit t = Some (tt, t') →
           m_nodeCapacity t' = m_nodeCapacity t).
Proof.
  intros (T & fl & HI). pose proof (inv_length _ _ _ _ HI) as Hlen. split_and!.
  - intros h t' Hpx Hrun.
    by destruct (wp_run _ _ _ _ _ (DestroyProxy_full t T fl h HI Hpx) Hrun)
      as (T' & fl' & _ & _ & _ & _ & ?).
  - intros h aabb_ d b t' Hpx Hrun.
    by destruct (wp_run _ _ _ _ _ (MoveProxy_full uninit aabb_ d t T fl h HI Hpx) Hrun)
      as [[_ ->]|[_ (s' & fl' & _ & _ & _ & _ & ?)]].
  - intros h t'. unfold ClearMoved, bind, get, b2Assert, modify.
    case_bool_decide; [|done]. destruct (rd (m_nodes t) h); [|done]. by intros [= <-].
  - intros v t'. rewrite ShiftOrigin_run by done. by intros [= <-].
  - intros t' Hrun.
    by destruct (RebuildBottomUp_full uninit t T fl HI _ _ Hrun) as (s' & fl' & _ & _ & _ & ?).
Qed.

(** X25. [Balance] rearranges the subtree it is called on and nothing
    else: called on an internal node of a subtree [s] whose root hangs
    from [p], it returns the root of a subtree with the same nodes and
    the same proxies; no node outside of [s] and [p] is written; the
    nodes without children are as they were, up to their parent; and the
    counters of the tree are untouched. *)
Theorem X25_Balance_rearranges_one_subtree t s p :
  is_Nd s → rep_stale (m_nodes t) p s → NoDup (nodes s) → p ∉ nodes s →
  Z.of_nat (length (m_nodes t)) = m_nodeCapacity t →
  hangs_from t p (idx s) →
  ∃ r t' s',
    Balance (idx s) t = Some (r, t')
    ∧ idx s' = r ∧ rep_stale (m_nodes t') p s'
    ∧ nodes s' ≡ₚ nodes s ∧ leaves s' ≡ₚ leaves s
    ∧ (∀ i, i ∉ nodes s → i ≠ p → rd (m_nodes t') i = rd (m_nodes t) i)
    ∧ (∀ i n, i ≠ p → rd (m_nodes t) i = Some n → child1 n = b2_nullNode →
              ∃ q, rd (m_nodes t') i = Some (set_parent q n))
    ∧ m_nodeCount t' = m_nodeCount t ∧ m_nodeCapacity t' = m_nodeCapacity t
    ∧ m_freeList t' = m_freeList t.
Proof.
  intros HNd Hrep Hnd Hp Hlen Hhang.
  destruct (Balance_full t s p HNd Hrep Hnd Hp Hlen Hhang)
    as (r & t' & Hrun & s' & Hr & _ & Hrep' & Hn & Hl & Hsf & Hfr & _ & _ & Hk).
  destruct Hsf as (_ & Hc & Hcap & Hfl & _).
  exists r, t', s'. by split_and!.
Qed.

(** X26. Between public calls, [AllocateNode] returns a slot that was not
    in use (its height was -1, or it lies beyond the old pool), with no
    parent, no children, height 0, no user data and the moved flag
    cleared; the node count goes up by one and no other slot of the old
    pool is written.  The slot is the head of the free list, the capacity
    being kept; with an empty free list it is the first slot of the
    second half of a pool of twice the capacity. *)
Theorem X26_AllocateNode_hands_out_a_reset_slot (uninit : Z → b2TreeNode) t :
  tree_inv t →
  ∃ i t', AllocateNode uninit t = Some (i, t')
    ∧ fresh_node (m_nodes t') i
    ∧ (∀ n, rd (m_nodes t) i = Some n → height n = -1)
    ∧ m_nodeCount t' = m_nodeCount t + 1
    ∧ (∀ j, j ≠ i → 0 ≤ j < m_nodeCapacity t → rd (m_nodes t') j = rd (m_nodes t) j)
    ∧ (m_freeList t ≠ b2_nullNode →
       i = m_freeList t ∧ m_nodeCapacity t' = m_nodeCapacity t)
    ∧ (m_freeList t = b2_nullNode →
       i = m_nodeCapacity t ∧ m_nodeCapacity t' = 2 * m_nodeCapacity t).
Proof.
  intros (T & fl & HI). pose proof (Pool_of_Inv _ _ _ _ HI) as HP.
  rewrite app_nil_r in HP. pose proof (pool_length _ _ _ HP) as Hlen.
  destruct (AllocateNode_spec uninit t _ fl HP)
    as (i & t' & Hrun & fl' & HP' & Hfresh & Hnew & Hhead & _ & _ & _ & Hsame & Hfr & Hdbl).
  exists i, t'. split_and!; try done.
  - intros n Hn. pose proof (rd_Some_range _ _ _ Hn) as Hr. rewrite Hlen in Hr.
    apply (Pool_range _ _ _ i HP) in Hr. apply elem_of_app in Hr as [Hr|Hr]; [|done].
    destruct (free_chain_height _ _ _ _ (pool_free _ _ _ HP) Hr) as (n' & Hn' & Hh).
    by simplify_eq.
  - rewrite (pool_count _ _ _ HP'), (pool_count _ _ _ HP). simpl. lia.
  - intros Hne. split; [by apply Hhead|by apply Hsame].
Qed.

(** X27. Between public calls, replacing a proxy restores the pool:
    after [DestroyProxy] of a proxy and a [CreateProxy] (which returns
    the freed handle), the tree is in order again with the proxies, the
    node count and the capacity it had, no reallocation taking place;
    the handle holds the new box, grown, the new user data and a set
    moved flag, and every other proxy its own. *)
Theorem X27_destroy_then_create_restores_the_pool
    (uninit : Z → b2TreeNode) (aabb_ : Rectf) (userData_ : Z) t h :
  tree_inv t → is_proxy t h →
  ∃ t1 t2, DestroyProxy h t = Some (tt, t1)
    ∧ CreateProxy uninit aabb_ userData_ t1 = Some (h, t2)
    ∧ tree_inv t2 ∧ proxies t2 ≡ₚ proxies t
    ∧ m_nodeCount t2 = m_nodeCount t ∧ m_nodeCapacity t2 = m_nodeCapacity t
    ∧ proxy_holds t2 h (grown aabb_ b2_aabbExtension) userData_ true
    ∧ (∀ p box data flag, is_proxy t p → p ≠ h →
         proxy_holds t p box data flag → proxy_holds t2 p box data flag).
Proof.
  intros (T & fl & HI) Hpx.
  destruct (DestroyProxy_full t T fl h HI Hpx)
    as ([] & t1 & Hrun1 & T1 & fl1 & HI1 & Hl1 & Hhd & Hk1 & Hc1).
  destruct (CreateProxy_full uninit aabb_ userData_ t1 T1 _ HI1)
    as (h' & t2 & Hrun2 & s2 & fl2 & HI2 & Hl2 & Hsame & Hk2
        & (nh & Hnh & Hb & Hu & Hm) & Hc2 & _).
  pose proof (inv_length _ _ _ _ HI) as Hlen.
  pose proof (inv_length _ _ _ _ HI1) as Hlen1.
  pose proof (inv_length _ _ _ _ HI2) as Hlen2.
  assert (h' = h) as ->.
  { rewrite <-Hhd. apply Hsame. rewrite Hhd. destruct Hpx as (n & Hn & _).
    apply rd_Some_range in Hn. unfold b2_nullNode. lia. }
  assert (leaves s2 ≡ₚ tree_leaves T) as Hl by (by rewrite Hl2).
  assert (m_nodeCount t2 = m_nodeCount t) as Hcount.
  { rewrite (inv_count _ _ _ _ HI2), (inv_count _ _ _ _ HI), !app_nil_r.
    destruct T as [s|]; simpl in *.
    - rewrite !nodes_leaves_length. by rewrite Hl.
    - by apply Permutation_nil_r, leaves_not_nil in Hl. }
  exists t1, t2. split_and!; [done|done|by exists (Some s2), fl2| |done| | |].
  - by rewrite (proxies_leaves t2 _ _ HI2), (proxies_leaves t _ _ HI).
  - rewrite <-Hc1. apply Hc2. destruct T1 as [s1|]; [left|by right].
    pose proof (Pool_of_Inv _ _ _ _ HI) as HP. rewrite app_nil_r in HP.
    pose proof (Pool_free_count _ _ _ HP) as Hfc.
    rewrite (inv_count _ _ _ _ HI1), app_nil_r, Hc1. simpl.
    rewrite (inv_count _ _ _ _ HI), app_nil_r in Hfc.
    destruct T as [s|]; simpl in *; [|by apply Permutation_nil_r in Hl1].
    rewrite nodes_leaves_length in Hfc |- *.
    apply Permutation_length in Hl1. simpl in Hl1. lia.
  - pose proof (holds_rd t2 h nh Hlen2 Hnh) as Hh. by rewrite Hb, Hu, Hm in Hh.
  - intros p box data flag Hp Hne Hholds.
    pose proof (proxy_in_leaves _ _ _ _ HI Hp) as Hin.
    assert (p ∈ tree_leaves T1) as Hin1.
    { rewrite <-Hl1 in Hin. by apply elem_of_cons in Hin as [?|?]. }
    assert (is_proxy t1 p) as Hp1.
    { apply is_proxy_proxies. by rewrite (proxies_leaves t1 _ _ HI1). }
    apply (holds_kept t1 t2 p); [done|done| |done|].
    + intros n Hn. by apply Hk2.
    + apply (holds_kept t t1 p); [done|done| |done|done].
      intros n Hn. by apply Hk1.
Qed.
End Capacity.

Lemma grid_eight_eq : creates Grid.blank grid_column = Some grid_eight.
Proof. vm_compute. reflexivity. Qed.

Lemma X23_witness :
  ∃ h t', CreateProxy Grid.blank (Grid.mkRect 7 7 9 9) 5 grid_eight = Some (h, t')
          ∧ (m_nodeCount grid_eight + 2 ≤ m_nodeCapacity grid_eight ∨ proxies grid_eight = [] →
             m_nodeCapacity t' = m_nodeCapacity grid_eight)
          ∧ (proxies grid_eight ≠ [] →
             m_nodeCapacity grid_eight < m_nodeCount grid_eight + 2 →
             2 ≤ m_nodeCapacity grid_eight →
             m_nodeCapacity t' = 2 * m_nodeCapacity grid_eight).
Proof.
  apply (X23_CreateProxy_doubles_a_full_pool Grid.blank (Grid.mkRect 7 7 9 9) 5 grid_eight).
  exact (creates_inv _ _ _ grid_eight_eq).
Defined.

Lemma X24_witness :
  (∀ h t', is_proxy grid_three h → DestroyProxy h grid_three = Some (tt, t') →
           m_nodeCapacity t' = m_nodeCapacity grid_three)
  ∧ (∀ h aabb_ d b t', is_proxy grid_three h →
           MoveProxy Grid.blank h aabb_ d grid_three = Some (b, t') →
           m_nodeCapacity t' = m_nodeCapacity grid_three)
  ∧ (∀ h t', ClearMoved h grid_three = Some (tt, t') →
           m_nodeCapacity t' = m_nodeCapacity grid_three)
  ∧ (∀ v t', ShiftOrigin v grid_three = Some (tt, t') →
           m_nodeCapacity t' = m_nodeCapacity grid_three)
  ∧ (∀ t', RebuildBottomUp Grid.blank grid_three = Some (tt, t') →
           m_nodeCapacity t' = m_nodeCapacity grid_three).
Proof.
  apply (X24_only_CreateProxy_reallocates_the_pool Grid.blank grid_three).
  exact (creates_inv _ _ _ grid_three_eq).
Defined.

Section BalanceWitness.
Import Binary32 Scenes.

Lemma X25_witness :
  ∃ r t' s',
    Balance 16 nine = Some (r, t')
    ∧ idx s' = r ∧ rep_stale (m_nodes t') 8 s'
    ∧ nodes s' ≡ₚ nodes nine_16 ∧ leaves s' ≡ₚ leaves nine_16
    ∧ (∀ i, i ∉ nodes nine_16 → i ≠ 8 → rd (m_nodes t') i = rd (m_nodes nine) i)
    ∧ (∀ i n, i ≠ 8 → rd (m_nodes nine) i = Some n → child1 n = b2_nullNode →
              ∃ q, rd (m_nodes t') i = Some (set_parent q n))
    ∧ m_nodeCount t' = m_nodeCount nine ∧ m_nodeCapacity t' = m_nodeCapacity nine
    ∧ m_freeList t' = m_freeList nine.
Proof.
  apply (X25_Balance_rearranges_one_subtree nine nine_16 8).
  - exact I.
  - simpl. rep_compute.
  - refine (bool_decide_unpack (NoDup (nodes nine_16)) _). vm_compute. exact I.
  - refine (bool_decide_unpack (8 ∉ nodes nine_16) _). vm_compute. exact I.
  - vm_compute. reflexivity.
  - unfold hangs_from. rewrite bool_decide_eq_false_2 by done.
    eexists. split; [rd_compute|]. left. rd_compute.
Defined.
End BalanceWitness.

Lemma X26_witness :
  ∃ i t', AllocateNode Grid.blank grid_three = Some (i, t')
    ∧ fresh_node (m_nodes t') i
    ∧ (∀ n, rd (m_nodes grid_three) i = Some n → height n = -1)
    ∧ m_nodeCount t' = m_nodeCount grid_three + 1
    ∧ (∀ j, j ≠ i → 0 ≤ j < m_nodeCapacity grid_three →
            rd (m_nodes t') j = rd (m_nodes grid_three) j)
    ∧ (m_freeList grid_three ≠ b2_nullNode →
       i = m_freeList grid_three ∧ m_nodeCapacity t' = m_nodeCapacity grid_three)
    ∧ (m_freeList grid_three = b2_nullNode →
       i = m_nodeCapacity grid_three
       ∧ m_nodeCapacity t' = 2 * m_nodeCapacity grid_three).
Proof.
  apply (X26_AllocateNode_hands_out_a_reset_slot Grid.blank grid_three).
  exact (creates_inv _ _ _ grid_three_eq).
Defined.

Lemma X27_witness :
  ∃ t1 t2, DestroyProxy 1 grid_three = Some (tt, t1)
    ∧ CreateProxy Grid.blank (Grid.mkRect 7 7 9 9) 5 t1 = Some (1, t2)
    ∧ tree_inv t2 ∧ proxies t2 ≡ₚ proxies grid_three
    ∧ m_nodeCount t2 = m_nodeCount grid_three
    ∧ m_nodeCapacity t2 = m_nodeCapacity grid_three
    ∧ proxy_holds t2 1 (grown (Grid.mkRect 7 7 9 9) b2_aabbExtension) 5 true
    ∧ (∀ p box data flag, is_proxy grid_three p → p ≠ 1 →
         proxy_holds grid_three p box data flag → proxy_holds t2 p box data flag).
Proof.
  apply (X27_destroy_then_create_restores_the_pool Grid.blank (Grid.mkRect 7 7 9 9) 5
           grid_three 1).
  - exact (creates_inv _ _ _ grid_three_eq).
  - eexists. split; [reflexivity|]. split; [vm_compute; intros E; discriminate E|reflexivity].
Defined.
